(** * Tank game server core: a shallow embedding and its verified properties

    This development embeds the authoritative simulation core of the
    tank game server (shared kinematics, terrain generator, spawn selector,
    world simulator, room scheduler) and proves properties of it.

    JavaScript numbers are IEEE-754 binary64 values.  The embedding is
    written once over an interface [JSNumber] of the arithmetic the code
    uses, with two readings:

    - [RNumber]: the real numbers, the reading under which ranges,
      monotonicity and algebraic laws of the formulas are stated;
    - [F64Number]: the kernel's binary64 floats, the reading that decides
      questions which depend on rounding (for instance how many tick
      intervals of 1000/60 ms a 4000 ms countdown takes).

    Functions that call [Math.sin], [Math.cos], [Math.exp], [Math.pow] or
    [Math.tan] (whose results ECMAScript leaves to the implementation) or
    that loop on a numeric condition are embedded over the reals.  Two
    parts of them are embedded with the rounding as well: the steering
    part of the physics step, for every reading of numbers and with fuel
    for its loops, so that NaN targets can be followed through it; and the
    seeded generator and the hash of the terrain generator, which round
    each product and sum to binary64 before its bits are taken. *)

From Stdlib Require Import ZArith List ListDec Bool Lia String Ascii.
From Stdlib Require Import Reals Lra.
From Stdlib Require Floats.
Import ListNotations.

Set Implicit Arguments.

(* ================================================================== *)
(** * Numbers *)
(* ================================================================== *)

(** The arithmetic of JavaScript's [number] type that the embedded code
    uses.  [nltb] is [<] and [nleb] is [<=]; [a > b] is written
    [nltb b a] and [a >= b] is written [nleb b a]. *)
Class JSNumber (num : Type) : Type := {
  of_Z : Z -> num;
  nadd : num -> num -> num;
  nsub : num -> num -> num;
  nmul : num -> num -> num;
  ndiv : num -> num -> num;
  nopp : num -> num;
  nltb : num -> num -> bool;
  nleb : num -> num -> bool;
  Math_sqrt : num -> num;
  Math_floor : num -> num;
  (** the integer that an integer-valued number denotes, for indexing *)
  to_Z : num -> Z;
  Math_max : num -> num -> num;
  Math_min : num -> num -> num;
  Math_PI : num
}.

Declare Scope num_scope.
Delimit Scope num_scope with num.
Infix "+" := nadd : num_scope.
Infix "-" := nsub : num_scope.
Infix "*" := nmul : num_scope.
Infix "/" := ndiv : num_scope.
Notation "- x" := (nopp x) : num_scope.
Infix "<?" := nltb : num_scope.
Infix "<=?" := nleb : num_scope.
Notation "x >? y" := (nltb y x) (only parsing) : num_scope.
Notation "x >=? y" := (nleb y x) (only parsing) : num_scope.
(** [# z] is the integer literal [z]; [dec m k] is the decimal literal
    [m / 10^k], e.g. [dec 985 3] for [0.985]: the quotient of two exactly
    represented integers, correctly rounded, is the double the literal
    denotes. *)
Notation "# z" := (of_Z z%Z) (at level 1, format "# z") : num_scope.

Definition dec {num} `{JSNumber num} (m : Z) (k : nat) : num :=
  (of_Z m / of_Z (10 ^ Z.of_nat k))%num.

(** ** The real reading *)

Definition Rltb (x y : R) : bool := if Rlt_dec x y then true else false.
Definition Rleb (x y : R) : bool := if Rle_dec x y then true else false.
Definition Rfloor (x : R) : R := IZR (Int_part x).

#[export] Instance RNumber : JSNumber R := {|
  of_Z := IZR;
  nadd := Rplus;
  nsub := Rminus;
  nmul := Rmult;
  ndiv := Rdiv;
  nopp := Ropp;
  nltb := Rltb;
  nleb := Rleb;
  Math_sqrt := sqrt;
  Math_floor := Rfloor;
  to_Z := Int_part;
  Math_max := Rmax;
  Math_min := Rmin;
  Math_PI := PI
|}.

(** ** The binary64 reading *)

Module F64.

Definition float := PrimFloat.float.

(** An integer as a double: round to nearest, ties to even. *)
Definition of_Z (z : Z) : float :=
  FloatOps.SF2Prim
    (SpecFloat.binary_normalize FloatOps.prec FloatOps.emax z 0 false).

(** [Math.floor]: NaN, infinities and zeros are returned as they are; a
    finite [m * 2^e] with [e >= 0] is an integer already. *)
Definition floor (x : float) : float :=
  match FloatOps.Prim2SF x with
  | SpecFloat.S754_finite s m e =>
      if (0 <=? e)%Z then x
      else
        let q := Z.shiftr (Zpos m) (- e) in
        let exact := (Z.shiftl q (- e) =? Zpos m)%Z in
        if s then (if exact then of_Z (- q) else of_Z (- q - 1))
        else if (q =? 0)%Z then PrimFloat.zero else of_Z q
  | _ => x
  end.

(** The integer part (rounded down) of a finite double, 0 otherwise. *)
Definition to_Z (x : float) : Z :=
  match FloatOps.Prim2SF x with
  | SpecFloat.S754_finite s m e =>
      let v := if s then Zneg m else Zpos m in
      if (0 <=? e)%Z then Z.shiftl v e else Z.shiftr v (- e)
  | _ => 0%Z
  end.

(** [Math.max]: NaN if either argument is NaN; [+0] is larger than [-0]. *)
Definition max (a b : float) : float :=
  if (PrimFloat.is_nan a || PrimFloat.is_nan b)%bool then PrimFloat.nan
  else if PrimFloat.ltb a b then b
  else if PrimFloat.ltb b a then a
  else if PrimFloat.get_sign a then b else a.

(** [Math.min]: NaN if either argument is NaN; [-0] is smaller than [+0]. *)
Definition min (a b : float) : float :=
  if (PrimFloat.is_nan a || PrimFloat.is_nan b)%bool then PrimFloat.nan
  else if PrimFloat.ltb a b then a
  else if PrimFloat.ltb b a then b
  else if PrimFloat.get_sign a then a else b.

(** [Math.PI], the double nearest to pi. *)
Definition PI : float :=
  FloatOps.SF2Prim (SpecFloat.S754_finite false 7074237752028440 (-51)).

End F64.

#[export] Instance F64Number : JSNumber F64.float := {|
  of_Z := F64.of_Z;
  nadd := PrimFloat.add;
  nsub := PrimFloat.sub;
  nmul := PrimFloat.mul;
  ndiv := PrimFloat.div;
  nopp := PrimFloat.opp;
  nltb := PrimFloat.ltb;
  nleb := PrimFloat.leb;
  Math_sqrt := PrimFloat.sqrt;
  Math_floor := F64.floor;
  to_Z := F64.to_Z;
  Math_max := F64.max;
  Math_min := F64.min;
  Math_PI := F64.PI
|}.

(* ================================================================== *)
(** * shared/constants.ts *)
(* ================================================================== *)

Section Constants.
Context {num : Type} `{JSNumber num}.
Local Open Scope num_scope.

Definition GRAVITY : num := dec 981 2.
Definition TANK_MAX_SPEED : num := dec 1459 2.
Definition TANK_ACCELERATION : num := dec 972 2.
Definition TANK_REVERSE_FACTOR : num := dec 6 1.
Definition TANK_TURN_RATE : num := dec 15 1.
Definition TANK_DAMPING : num := dec 985 3.
Definition TURRET_TURN_RATE : num := #2.
Definition TURRET_YAW_MAX : num := Math_PI * dec 75 2.
Definition GUN_PITCH_MIN : num := - dec 15 2.
Definition GUN_PITCH_MAX : num := dec 5 1.

Definition MUZZLE_VELOCITY : num := #80.
Definition RELOAD_TIME : num := #2500.
Definition PROJECTILE_TTL : num := #5000.
Definition SPLASH_RADIUS : num := #3.
Definition SPLASH_DAMAGE_FACTOR : num := dec 5 1.
Definition DIRECT_HIT_DAMAGE : num := #20.
Definition TANK_MAX_HP : num := #100.
Definition PROJECTILE_COLLISION_RADIUS : num := dec 5 1.
Definition TANK_COLLISION_RADIUS : num := dec 25 1.

Definition RESPAWN_DELAY : num := #4000.
Definition TICK_RATE : num := #60.
Definition TICK_INTERVAL : num := #1000 / TICK_RATE.

Definition MAP_WIDTH : num := #400.
Definition MAP_DEPTH : num := #400.
Definition MAX_SLOPE : num := dec 6 1.
Definition PERTURBATION_AMPLITUDE : num := #5.

Definition IDEAL_SPAWN_DISTANCE : num := #60.
Definition SPAWN_DISTANCE_SIGMA : num := #20.
Definition COVER_SEARCH_RADIUS : num := #15.
Definition SPAWN_COOLDOWN_RADIUS : num := #20.
Definition SPAWN_WEIGHTS_distance : num := #1.
Definition SPAWN_WEIGHTS_los : num := #2.
Definition SPAWN_WEIGHTS_cover : num := dec 8 1.
Definition SPAWN_WEIGHTS_flow : num := dec 5 1.
Definition SPAWN_WEIGHTS_recent : num := dec 15 1.

End Constants.

(** Constants that the code uses as counts and indices. *)
Definition MAX_PLAYERS : nat := 10.
Definition MIN_PLAYERS : nat := 2.
Definition HEIGHTMAP_RESOLUTION : nat := 128.
Definition SPAWN_CANDIDATE_COUNT : nat := 20.
Definition SPAWN_TOP_K : nat := 5.
Definition HITS_TO_DESTROY : nat := 5.

(* ================================================================== *)
(** * shared/types.ts: Vec3 *)
(* ================================================================== *)

Module Vec3.
Section Def.
Context {num : Type} `{JSNumber num}.
Local Open Scope num_scope.

Record t : Type := mk { x : num; y : num; z : num }.

Definition zero : t := mk #0 #0 #0.

Definition add (a v : t) : t := mk (x a + x v) (y a + y v) (z a + z v).

Definition multiplyScalar (a : t) (s : num) : t :=
  mk (x a * s) (y a * s) (z a * s).

Definition length (a : t) : num :=
  Math_sqrt (x a * x a + y a * y a + z a * z a).

Definition normalize (a : t) : t :=
  let len := length a in
  if len >? #0 then multiplyScalar a (#1 / len) else a.

Definition distanceTo (a v : t) : num :=
  let dx := x a - x v in
  let dy := y a - y v in
  let dz := z a - z v in
  Math_sqrt (dx * dx + dy * dy + dz * dz).

Definition distanceToSq (a v : t) : num :=
  let dx := x a - x v in
  let dy := y a - y v in
  let dz := z a - z v in
  dx * dx + dy * dy + dz * dz.

Definition set_x (a : t) (v : num) : t := mk v (y a) (z a).
Definition set_y (a : t) (v : num) : t := mk (x a) v (z a).
Definition set_z (a : t) (v : num) : t := mk (x a) (y a) v.

End Def.
Arguments t : clear implicits.
End Vec3.

(* ================================================================== *)
(** * shared/protocol.ts and shared/physics.ts: messages and the
      arithmetic-only kinematics *)
(* ================================================================== *)

(** [InputCmd]: the command a client sends at its input rate. *)
Module InputCmd.
Record t (num : Type) : Type := mk {
  type : Z;
  seq : Z;
  forward : bool;
  backward : bool;
  turnLeft : bool;
  turnRight : bool;
  turretYaw : num;
  gunPitch : num;
  fire : bool;
  stabilize : bool;
  timestamp : num
}.

(** The object spread [{ ...cmd, fire: f }]. *)
Definition with_fire {num} (cmd : t num) (f : bool) : t num :=
  mk (type cmd) (seq cmd) (forward cmd) (backward cmd)
     (turnLeft cmd) (turnRight cmd) (turretYaw cmd) (gunPitch cmd)
     f (stabilize cmd) (timestamp cmd).
End InputCmd.

(** [GameEvent]: the tagged union of tick events. *)
Inductive GameEvent (num : Type) : Type :=
| FireEvent (shooterId : Z) (muzzlePos muzzleDir : Vec3.t num)
            (projectileId : Z) (serverTick : Z)
| HitEvent (projectileId : Z) (targetId : Z) (hitPos : Vec3.t num)
           (damage : num)
| ExplodeEvent (projectileId : Z) (pos : Vec3.t num) (radius : num)
| DeathEvent (victimId : Z) (killerId : Z) (reason : string)
             (pos : Vec3.t num)
| RespawnEvent (playerId : Z) (spawnPos : Vec3.t num).

Inductive RoomState : Set := Warmup | InRound | RoundEnd.

Section SharedArith.
Context {num : Type} `{JSNumber num}.
Local Open Scope num_scope.

Definition clamp (value min max : num) : num :=
  Math_max min (Math_min max value).

Definition calculateSplashDamage (hitPos targetPos : Vec3.t num) : num :=
  let dist := Vec3.distanceTo hitPos targetPos in
  if dist >? SPLASH_RADIUS then #0
  else
    let falloff := #1 - dist / SPLASH_RADIUS in
    DIRECT_HIT_DAMAGE * falloff * SPLASH_DAMAGE_FACTOR.

Definition checkProjectileHit (projPos targetPos : Vec3.t num)
    (projRadius targetRadius : num) : bool :=
  let distSq := Vec3.distanceToSq projPos targetPos in
  let combinedRadius := projRadius + targetRadius in
  distSq <=? combinedRadius * combinedRadius.

Definition updateProjectile (position velocity : Vec3.t num) (dt : num)
  : Vec3.t num * Vec3.t num :=
  let velocity := Vec3.set_y velocity (Vec3.y velocity - GRAVITY * dt) in
  let position := Vec3.add position (Vec3.multiplyScalar velocity dt) in
  (position, velocity).

End SharedArith.

(** [TankPhysicsState] and [PhysicsInput], the two interfaces of the
    shared physics step. *)
Module TankPhysicsState.
Record t (num : Type) : Type := mk {
  position : Vec3.t num;
  velocity : Vec3.t num;
  bodyYaw : num;
  turretYaw : num;
  gunPitch : num
}.
End TankPhysicsState.

Record PhysicsInput (num : Type) : Type := mkPhysicsInput {
  in_forward : bool;
  in_backward : bool;
  in_turnLeft : bool;
  in_turnRight : bool;
  in_turretYaw : num;
  in_gunPitch : num
}.

(** An [InputCmd] passed where a [PhysicsInput] is expected (TypeScript's
    structural typing): the six fields the physics step reads. *)
Definition physicsInputOf {num} (cmd : InputCmd.t num) : PhysicsInput num :=
  mkPhysicsInput (InputCmd.forward cmd) (InputCmd.backward cmd)
    (InputCmd.turnLeft cmd) (InputCmd.turnRight cmd)
    (InputCmd.turretYaw cmd) (InputCmd.gunPitch cmd).

(* ================================================================== *)
(** * shared/physics.ts over the reals: the functions that use the
      transcendental library or loop on a numeric condition *)
(* ================================================================== *)

Module Physics.
Import TankPhysicsState.
Local Open Scope R_scope.

Definition Rsign (x : R) : R :=
  if Rltb 0 x then 1 else if Rltb x 0 then -1 else 0.

Definition getForwardVector (yaw : R) : Vec3.t R :=
  Vec3.mk (- sin yaw) 0 (- cos yaw).

(** [bodyPitch] and [_bodyRoll] default to 0 at every call site in the
    repository. *)
Definition getBarrelDirection (bodyYaw turretYaw gunPitch : R) : Vec3.t R :=
  let bodyPitch := 0 in
  let totalYaw := bodyYaw + turretYaw in
  let cosPitch := cos (gunPitch + bodyPitch) in
  let sinPitch := sin (gunPitch + bodyPitch) in
  Vec3.mk (- sin totalYaw * cosPitch) sinPitch (- cos totalYaw * cosPitch).

Definition getMuzzlePosition (tank : TankPhysicsState.t R) : Vec3.t R :=
  let barrelLength := 4 in
  let dir := getBarrelDirection (bodyYaw tank) (turretYaw tank) (gunPitch tank) in
  Vec3.add (Vec3.add (position tank) (Vec3.mk 0 (22 / 10) 0))
           (Vec3.multiplyScalar dir barrelLength).

Definition calculateMuzzleVelocity (tank : TankPhysicsState.t R) : Vec3.t R :=
  let barrelDir :=
    getBarrelDirection (bodyYaw tank) (turretYaw tank) (gunPitch tank) in
  Vec3.add (velocity tank) (Vec3.multiplyScalar barrelDir MUZZLE_VELOCITY).

Definition gaussianScore (value mean sigma : R) : R :=
  let diff := value - mean in
  exp (- (diff * diff) / (2 * sigma * sigma)).

(** [while (angle > Math.PI) angle -= 2 * Math.PI], run for at most
    [fuel] iterations. *)
Fixpoint wrap_down (fuel : nat) (angle : R) : R :=
  match fuel with
  | O => angle
  | S fuel' =>
      if Rltb PI angle then wrap_down fuel' (angle - 2 * PI) else angle
  end.

(** [while (angle < -Math.PI) angle += 2 * Math.PI], run for at most
    [fuel] iterations. *)
Fixpoint wrap_up (fuel : nat) (angle : R) : R :=
  match fuel with
  | O => angle
  | S fuel' =>
      if Rltb angle (- PI) then wrap_up fuel' (angle + 2 * PI) else angle
  end.

(** A number of iterations after which either loop has left its
    condition (lemmas [wrap_down_exits] and [wrap_up_exits] below). *)
Definition wrap_fuel (angle : R) : nat := Z.to_nat (up (Rabs angle / (2 * PI))).

Definition normalizeAngle (angle : R) : R :=
  let angle := wrap_down (wrap_fuel angle) angle in
  wrap_up (wrap_fuel angle) angle.

Definition moveTowardsAngle (current target maxStep : R) : R :=
  let diff := normalizeAngle (target - current) in
  if Rleb (Rabs diff) maxStep then target
  else current + Rsign diff * maxStep.

Definition lerp (a b t : R) : R := a + (b - a) * t.

Definition lerpAngle (a b t : R) : R :=
  let diff := normalizeAngle (b - a) in
  a + diff * t.

(** One step of the tank physics; the mutated [tank] is returned. *)
Definition updateTankPhysics (tank : TankPhysicsState.t R)
    (input : PhysicsInput R) (dt : R)
    (getTerrainHeight : option (R -> R -> R)) : TankPhysicsState.t R :=
  (* 1. turning *)
  let bodyYaw1 :=
    if in_turnLeft input then bodyYaw tank + TANK_TURN_RATE * dt
    else bodyYaw tank in
  let bodyYaw2 :=
    if in_turnRight input then bodyYaw1 - TANK_TURN_RATE * dt
    else bodyYaw1 in
  let bodyYaw3 := normalizeAngle bodyYaw2 in
  (* 2. turret rotation: rate limit, then the range limit *)
  let targetTurretYaw :=
    clamp (in_turretYaw input) (- TURRET_YAW_MAX) TURRET_YAW_MAX in
  let diff := normalizeAngle (targetTurretYaw - turretYaw tank) in
  let maxStep := TURRET_TURN_RATE * dt in
  let turretYaw1 :=
    if Rleb (Rabs diff) maxStep then targetTurretYaw
    else turretYaw tank + Rsign diff * maxStep in
  let turretYaw2 := clamp turretYaw1 (- TURRET_YAW_MAX) TURRET_YAW_MAX in
  (* 3. gun pitch *)
  let gunPitch1 := clamp (in_gunPitch input) GUN_PITCH_MIN GUN_PITCH_MAX in
  (* 4. thrust along the body's forward direction *)
  let fwd := getForwardVector bodyYaw3 in
  let velocity1 :=
    if in_forward input
    then Vec3.add (velocity tank)
           (Vec3.multiplyScalar fwd (TANK_ACCELERATION * dt))
    else velocity tank in
  let velocity2 :=
    if in_backward input
    then Vec3.add velocity1
           (Vec3.multiplyScalar fwd
              (- TANK_ACCELERATION * TANK_REVERSE_FACTOR * dt))
    else velocity1 in
  (* 5. damping *)
  let velocity3 :=
    Vec3.multiplyScalar velocity2 (Rpower TANK_DAMPING (dt * 60)) in
  (* 6. speed limit *)
  let speed := Vec3.length velocity3 in
  let velocity4 :=
    if Rltb TANK_MAX_SPEED speed
    then Vec3.multiplyScalar (Vec3.normalize velocity3) TANK_MAX_SPEED
    else velocity3 in
  (* 7. position *)
  let position1 :=
    Vec3.add (position tank) (Vec3.multiplyScalar velocity4 dt) in
  (* 8. terrain *)
  let position2 :=
    match getTerrainHeight with
    | Some h => Vec3.set_y position1 (h (Vec3.x position1) (Vec3.z position1))
    | None => position1
    end in
  TankPhysicsState.mk position2 velocity4 bodyYaw3 turretYaw2 gunPitch1.

End Physics.

(* ================================================================== *)
(** * shared/physics.ts in any reading of numbers: the steering part of
      the physics step *)
(* ================================================================== *)

Section Steering.
Context {num : Type} `{JSNumber num}.
Local Open Scope num_scope.
Import TankPhysicsState.

(** [Math.abs] and [Math.sign], by comparisons: a NaN and a zero pass
    through [Math.sign], and [0 - x] is the absolute value of an [x] that
    is not positive (NaN for NaN, [+0] for either zero). *)
Definition Math_abs (x : num) : num := if #0 <? x then x else #0 - x.

Definition Math_sign (x : num) : num :=
  if #0 <? x then #1 else if x <? #0 then #(-1) else x.

(** [while (angle > Math.PI) angle -= 2 * Math.PI]; [None] when the
    loop has not exited within [fuel] tests of its condition. *)
Fixpoint wrapDown (fuel : nat) (angle : num) : option num :=
  match fuel with
  | O => None
  | S fuel' =>
      if angle >? Math_PI then wrapDown fuel' (angle - #2 * Math_PI)
      else Some angle
  end.

(** [while (angle < -Math.PI) angle += 2 * Math.PI], likewise. *)
Fixpoint wrapUp (fuel : nat) (angle : num) : option num :=
  match fuel with
  | O => None
  | S fuel' =>
      if angle <? - Math_PI then wrapUp fuel' (angle + #2 * Math_PI)
      else Some angle
  end.

Definition normalizeAngleWithin (fuel : nat) (angle : num) : option num :=
  match wrapDown fuel angle with
  | Some angle => wrapUp fuel angle
  | None => None
  end.

(** Steps 1 to 3 of [updateTankPhysics]: the new body yaw, turret yaw
    and gun pitch.  Steps 4 to 8 read the new body yaw and write the
    velocity and the position only. *)
Definition steer (fuel : nat) (tank : TankPhysicsState.t num)
    (input : PhysicsInput num) (dt : num) : option (num * num * num) :=
  (* 1. turning *)
  let bodyYaw1 :=
    if in_turnLeft input then bodyYaw tank + TANK_TURN_RATE * dt
    else bodyYaw tank in
  let bodyYaw2 :=
    if in_turnRight input then bodyYaw1 - TANK_TURN_RATE * dt
    else bodyYaw1 in
  match normalizeAngleWithin fuel bodyYaw2 with
  | None => None
  | Some bodyYaw3 =>
      (* 2. turret rotation: rate limit, then the range limit *)
      let targetTurretYaw :=
        clamp (in_turretYaw input) (- TURRET_YAW_MAX) TURRET_YAW_MAX in
      match normalizeAngleWithin fuel (targetTurretYaw - turretYaw tank) with
      | None => None
      | Some diff =>
          let maxStep := TURRET_TURN_RATE * dt in
          let turretYaw1 :=
            if Math_abs diff <=? maxStep then targetTurretYaw
            else turretYaw tank + Math_sign diff * maxStep in
          let turretYaw2 :=
            clamp turretYaw1 (- TURRET_YAW_MAX) TURRET_YAW_MAX in
          (* 3. gun pitch *)
          let gunPitch1 :=
            clamp (in_gunPitch input) GUN_PITCH_MIN GUN_PITCH_MAX in
          Some (bodyYaw3, turretYaw2, gunPitch1)
      end
  end.

End Steering.

(* ================================================================== *)
(** * server/MapGenerator.ts *)
(* ================================================================== *)

(** [arr[i] = v] on an array of fixed length (a typed array ignores a
    write outside its bounds). *)
Fixpoint list_set {A} (l : list A) (i : nat) (v : A) : list A :=
  match l, i with
  | [], _ => []
  | _ :: t, O => v :: t
  | h :: t, S i' => h :: list_set t i' v
  end.

Module MapGenerator.

Record CoverNode (num : Type) : Type := mkCover {
  position : Vec3.t num;
  radius : num;
  height : num
}.

Record SpawnZone (num : Type) : Type := mkZone {
  id : Z;
  center : Vec3.t num;
  zone_radius : num
}.

Record GameMapData (num : Type) : Type := mkMap {
  width : num;
  depth : num;
  heightmap : list num;
  resolution : Z;
  covers : list (CoverNode num);
  spawnZones : list (SpawnZone num);
  seed : num
}.

Section Query.
Context {num : Type} `{JSNumber num}.
Local Open Scope num_scope.

(** [heightmap[i]] for an index the caller has checked to be in range. *)
Definition cell (map : GameMapData num) (i : Z) : num :=
  nth (Z.to_nat i) (heightmap map) #0.

Definition getHeightAt (map : GameMapData num) (x z : num) : num :=
  let res := of_Z (resolution map) in
  let gx := ((x + width map / #2) / width map) * (res - #1) in
  let gz := ((z + depth map / #2) / depth map) * (res - #1) in
  let ix := Math_floor gx in
  let iz := Math_floor gz in
  let fx := gx - ix in
  let fz := gz - iz in
  if (ix <? #0) || (ix >=? res - #1) || (iz <? #0) || (iz >=? res - #1)
  then #0
  else
    let r := resolution map in
    let i := to_Z ix in
    let j := to_Z iz in
    let h00 := cell map (j * r + i) in
    let h10 := cell map (j * r + i + 1) in
    let h01 := cell map ((j + 1) * r + i) in
    let h11 := cell map ((j + 1) * r + i + 1) in
    let h0 := h00 + (h10 - h00) * fx in
    let h1 := h01 + (h11 - h01) * fx in
    h0 + (h1 - h0) * fz.

End Query.

(** ** Generation, over the reals *)

Local Open Scope R_scope.

(** ECMAScript's [ToInt32] and [ToUint32] of a finite number: truncate
    toward zero, then reduce modulo 2^32. *)
Definition trunc (x : R) : Z :=
  if Rleb 0 x then Int_part x else (- Int_part (- x))%Z.

Definition ToUint32 (x : R) : Z := (trunc x mod 2 ^ 32)%Z.

Definition ToInt32 (x : R) : Z :=
  let u := ToUint32 x in
  if (u <? 2 ^ 31)%Z then u else (u - 2 ^ 32)%Z.

(** ** Binary64 rounding where a product is turned into bits

    [ToInt32] reads the low 32 bits of the integer part of the double it
    is given, so the rounding of a double product beyond 2^53 decides
    every bit of the result.  The arithmetic of the seeded generator and
    of the hash is therefore embedded with the rounding to binary64 of
    each operation; [None] stands for a result that is not finite (an
    infinity or NaN), which [ToInt32] maps to 0.  Lemmas
    [binary64_dyadic] and [binary64_rounds_beyond_2_53] below show the
    rounding at work. *)

(** The exponent [e] of a nonzero real: [2^e <= |x| < 2^(e + 1)]. *)
Definition exponent2 (x : R) : Z := Int_part (ln (Rabs x) / ln 2).

(** The nearest integer, the even one of two equally near. *)
Definition nearestEven (y : R) : Z :=
  let n := Int_part y in
  let f := y - IZR n in
  if Rltb f (1 / 2) then n
  else if Rltb (1 / 2) f then (n + 1)%Z
  else if Z.even n then n else (n + 1)%Z.

(** The binary64 number nearest to [x], ties to even: 53 significant
    bits, the smallest unit 2^-1074; from 2^1024 - 2^970 on the result is
    an infinity. *)
Definition binary64 (x : R) : option R :=
  if Rleb (powerRZ 2 1024 - powerRZ 2 970) (Rabs x) then None
  else if Rleb (Rabs x) 0 then Some 0
  else
    let e := Z.max (exponent2 x) (- 1022) in
    let ulp := powerRZ 2 (e - 52) in
    Some (IZR (nearestEven (x / ulp)) * ulp).

(** [a * b] and [a + b] on doubles. *)
Definition dmul (x y : option R) : option R :=
  match x, y with
  | Some a, Some b => binary64 (a * b)
  | _, _ => None
  end.

Definition dadd (x y : option R) : option R :=
  match x, y with
  | Some a, Some b => binary64 (a + b)
  | _, _ => None
  end.

(** [ToInt32] of a double. *)
Definition ToInt32d (x : option R) : Z :=
  match x with
  | Some v => ToInt32 v
  | None => 0%Z
  end.

(** [createSeededRandom]: the closure's captured variable [s] is the
    state; one call of the closure returns the drawn number and the new
    state, [(s * 1664525 + 1013904223) & 0xffffffff]. *)
Definition seededRandom (s : R) : R * R :=
  let s' :=
    IZR (ToInt32d (dadd (dmul (Some s) (Some 1664525)) (Some 1013904223))) in
  (IZR (ToUint32 s') / 4294967295, s').

Definition hash (seed a b : R) : R :=
  let h :=
    IZR (ToInt32d
           (dadd (dadd (dmul (Some a) (Some 374761393))
                       (dmul (Some b) (Some 668265263)))
                 (dmul (Some seed) (Some 1013904223)))) in
  let h :=
    dmul (Some (IZR (Z.lxor (ToInt32 h) (Z.shiftr (ToInt32 h) 13))))
         (Some 1274126177) in
  IZR (ToUint32 (IZR (Z.lxor (ToInt32d h) (Z.shiftr (ToInt32d h) 16))))
    / 4294967295 - 5 / 10.

Definition simplex2D (x y seed : R) : R :=
  let ix := Rfloor x in
  let iy := Rfloor y in
  let fx := x - ix in
  let fy := y - iy in
  let n00 := hash seed ix iy in
  let n10 := hash seed (ix + 1) iy in
  let n01 := hash seed ix (iy + 1) in
  let n11 := hash seed (ix + 1) (iy + 1) in
  let sx := fx * fx * (3 - 2 * fx) in
  let sy := fy * fy * (3 - 2 * fy) in
  (n00 * (1 - sx) + n10 * sx) * (1 - sy) + (n01 * (1 - sx) + n11 * sx) * sy.

(** The height written to cell [(x, z)], given the number [r] drawn from
    the seeded generator for that cell. *)
Definition baseHeight (seed : R) (resolution : nat) (x z : nat) (r : R) : R :=
  let nx := INR x / INR resolution - 5 / 10 in
  let nz := INR z / INR resolution - 5 / 10 in
  let h := 0 in
  let h := h + simplex2D (nx * 2) (nz * 2) seed * 8 in
  let h := h + simplex2D (nx * 4) (nz * 4) seed * 4 in
  let h := h + simplex2D (nx * 8) (nz * 8) seed * 2 in
  let centerDist := sqrt (nx * nx + nz * nz) * 2 in
  let h := h * Rmin 1 (centerDist * (15 / 10)) in
  h + (r - 5 / 10) * PERTURBATION_AMPLITUDE * (3 / 10).

(** Step 1 of [generate]: the two nested loops, row by row; the cells
    are produced in index order [z * resolution + x]. *)
Definition fillRow (seed : R) (resolution z : nat) (acc : list R * R)
  : list R * R :=
  fold_left
    (fun (acc : list R * R) (x : nat) =>
       let '(cells, s) := acc in
       let '(r, s') := seededRandom s in
       (cells ++ [baseHeight seed resolution x z r], s'))
    (seq 0 resolution) acc.

Definition fillHeightmap (seed : R) (resolution : nat) (s : R) : list R * R :=
  fold_left (fun acc z => fillRow seed resolution z acc)
    (seq 0 resolution) ([], s).

(** One visit of [clampSlopes] to the cell at [idx]: the four neighbours
    are read first, then the cell is pulled toward each in turn. *)
Definition clampCell (maxHeightDiff : R) (resolution : nat)
    (heightmap : list R) (idx : nat) : list R :=
  let neighbors :=
    [ nth (idx - 1) heightmap 0; nth (idx + 1) heightmap 0;
      nth (idx - resolution) heightmap 0; nth (idx + resolution) heightmap 0 ] in
  fold_left
    (fun hm nh =>
       let diff := nth idx hm 0 - nh in
       if Rltb maxHeightDiff (Rabs diff)
       then list_set hm idx
              (nth idx hm 0
               - Physics.Rsign diff * (Rabs diff - maxHeightDiff) * (5 / 10))
       else hm)
    neighbors heightmap.

Definition clampSlopes (heightmap : list R) (resolution : nat)
    (maxSlope gridSpacing : R) : list R :=
  let maxHeightDiff := tan maxSlope * gridSpacing in
  let interior := seq 1 (resolution - 2) in
  fold_left
    (fun hm (_ : nat) =>
       fold_left
         (fun hm z =>
            fold_left
              (fun hm x => clampCell maxHeightDiff resolution hm (z * resolution + x))
              interior hm)
         interior hm)
    (seq 0 3) heightmap.

(** [generateCovers]: the loop body draws x, z, radius, height in this
    order. *)
Fixpoint coverLoop (count : nat) (s : R) : list (CoverNode R) * R :=
  match count with
  | O => ([], s)
  | S count' =>
      let halfW := MAP_WIDTH / 2 in
      let halfD := MAP_DEPTH / 2 in
      let '(rx, s) := seededRandom s in
      let '(rz, s) := seededRandom s in
      let '(rr, s) := seededRandom s in
      let '(rh, s) := seededRandom s in
      let c := mkCover
                 (Vec3.mk ((rx - 5 / 10) * halfW * (16 / 10)) 0
                          ((rz - 5 / 10) * halfD * (16 / 10)))
                 (2 + rr * 3) (2 + rh * 2) in
      let '(rest, s) := coverLoop count' s in
      (c :: rest, s)
  end.

Definition generateCovers (s : R) : list (CoverNode R) * R :=
  let '(r, s) := seededRandom s in
  let count := (15 + Int_part (r * 10))%Z in
  coverLoop (Z.to_nat count) s.

Definition generateSpawnZones : list (SpawnZone R) :=
  let halfW := MAP_WIDTH / 2 in
  let halfD := MAP_DEPTH / 2 in
  let margin := 30 in
  [ mkZone 0 (Vec3.mk (- halfW + margin) 0 (- halfD + margin)) 25;
    mkZone 1 (Vec3.mk (halfW - margin) 0 (- halfD + margin)) 25;
    mkZone 2 (Vec3.mk (- halfW + margin) 0 (halfD - margin)) 25;
    mkZone 3 (Vec3.mk (halfW - margin) 0 (halfD - margin)) 25;
    mkZone 4 (Vec3.mk 0 0 (- halfD + margin)) 25;
    mkZone 5 (Vec3.mk 0 0 (halfD - margin)) 25;
    mkZone 6 (Vec3.mk (- halfW + margin) 0 0) 25;
    mkZone 7 (Vec3.mk (halfW - margin) 0 0) 25 ].

(** [MapGenerator.generate].  The typed array's rounding of each stored
    height to binary32 has no counterpart over the reals. *)
Definition generate (seed : R) : GameMapData R :=
  let resolution := HEIGHTMAP_RESOLUTION in
  let '(heightmap, s) := fillHeightmap seed resolution seed in
  let heightmap :=
    clampSlopes heightmap resolution MAX_SLOPE (MAP_WIDTH / INR resolution) in
  let '(covers, _) := generateCovers s in
  let spawnZones := generateSpawnZones in
  mkMap MAP_WIDTH MAP_DEPTH heightmap (Z.of_nat resolution) covers
    spawnZones seed.

End MapGenerator.

(* ================================================================== *)
(** * Process-wide state *)
(* ================================================================== *)

(** What is shared by every room of one server process: the sequence of
    numbers that [Math.random()] returns, and the static field
    [AIPlayer.nameIndex].  Code that draws a random number, creates an AI
    combatant or may raise an exception is written in the monad [Proc.M]:
    a computation takes the process state and either returns a value and
    the new state, or raises ([None]). *)
Module Proc.
Record t (num : Type) : Type := mk {
  random : nat -> num;
  nameIndex : nat
}.

Definition M (num A : Type) : Type := t num -> option (A * t num).

Definition ret {num A} (a : A) : M num A := fun p => Some (a, p).

Definition throw {num A} : M num A := fun _ => None.

Definition bind {num A B} (m : M num A) (k : A -> M num B) : M num B :=
  fun p => match m p with
           | Some (a, p') => k a p'
           | None => None
           end.

(** [Math.random()]: the next number of the sequence. *)
Definition Math_random {num} : M num num :=
  fun p => Some (random p 0, mk (fun n => random p (S n)) (nameIndex p)).

(** [AIPlayer.nameIndex++], returning the value before the increment. *)
Definition nextNameIndex {num} : M num nat :=
  fun p => Some (nameIndex p, mk (random p) (S (nameIndex p))).
End Proc.

Declare Scope proc_scope.
Delimit Scope proc_scope with proc.
Notation "x <- m ;; k" := (Proc.bind m (fun x => k))
  (at level 61, m at next level, right associativity) : proc_scope.
Notation "' pat <- m ;; k" := (Proc.bind m (fun v => let pat := v in k))
  (at level 61, pat pattern, m at next level, right associativity) : proc_scope.

(* ================================================================== *)
(** * server/Player.ts *)
(* ================================================================== *)

Module Player.
Section Def.
Context {num : Type} `{JSNumber num}.
Local Open Scope num_scope.

Record t : Type := mk {
  id : Z;
  nickname : string;
  position : Vec3.t num;
  velocity : Vec3.t num;
  bodyYaw : num;
  turretYaw : num;
  gunPitch : num;
  hp : num;
  alive : bool;
  respawnTimer : num;
  reloadRemain : num;
  inputQueue : list (InputCmd.t num);
  lastProcessedSeq : Z;
  lastInput : option (InputCmd.t num);
  kills : nat;
  deaths : nat;
  hits : nat;
  shots : nat;
  lastSpawnPositions : list (Vec3.t num);
  isBot : bool
}.

(** Assignments to single fields. *)
Definition set_position (v : Vec3.t num) (p : t) : t :=
  mk (id p) (nickname p) v (velocity p) (bodyYaw p) (turretYaw p) (gunPitch p) (hp p) (alive p) (respawnTimer p) (reloadRemain p) (inputQueue p) (lastProcessedSeq p) (lastInput p) (kills p) (deaths p) (hits p) (shots p) (lastSpawnPositions p) (isBot p).
Definition set_velocity (v : Vec3.t num) (p : t) : t :=
  mk (id p) (nickname p) (position p) v (bodyYaw p) (turretYaw p) (gunPitch p) (hp p) (alive p) (respawnTimer p) (reloadRemain p) (inputQueue p) (lastProcessedSeq p) (lastInput p) (kills p) (deaths p) (hits p) (shots p) (lastSpawnPositions p) (isBot p).
Definition set_bodyYaw (v : num) (p : t) : t :=
  mk (id p) (nickname p) (position p) (velocity p) v (turretYaw p) (gunPitch p) (hp p) (alive p) (respawnTimer p) (reloadRemain p) (inputQueue p) (lastProcessedSeq p) (lastInput p) (kills p) (deaths p) (hits p) (shots p) (lastSpawnPositions p) (isBot p).
Definition set_turretYaw (v : num) (p : t) : t :=
  mk (id p) (nickname p) (position p) (velocity p) (bodyYaw p) v (gunPitch p) (hp p) (alive p) (respawnTimer p) (reloadRemain p) (inputQueue p) (lastProcessedSeq p) (lastInput p) (kills p) (deaths p) (hits p) (shots p) (lastSpawnPositions p) (isBot p).
Definition set_gunPitch (v : num) (p : t) : t :=
  mk (id p) (nickname p) (position p) (velocity p) (bodyYaw p) (turretYaw p) v (hp p) (alive p) (respawnTimer p) (reloadRemain p) (inputQueue p) (lastProcessedSeq p) (lastInput p) (kills p) (deaths p) (hits p) (shots p) (lastSpawnPositions p) (isBot p).
Definition set_hp (v : num) (p : t) : t :=
  mk (id p) (nickname p) (position p) (velocity p) (bodyYaw p) (turretYaw p) (gunPitch p) v (alive p) (respawnTimer p) (reloadRemain p) (inputQueue p) (lastProcessedSeq p) (lastInput p) (kills p) (deaths p) (hits p) (shots p) (lastSpawnPositions p) (isBot p).
Definition set_alive (v : bool) (p : t) : t :=
  mk (id p) (nickname p) (position p) (velocity p) (bodyYaw p) (turretYaw p) (gunPitch p) (hp p) v (respawnTimer p) (reloadRemain p) (inputQueue p) (lastProcessedSeq p) (lastInput p) (kills p) (deaths p) (hits p) (shots p) (lastSpawnPositions p) (isBot p).
Definition set_respawnTimer (v : num) (p : t) : t :=
  mk (id p) (nickname p) (position p) (velocity p) (bodyYaw p) (turretYaw p) (gunPitch p) (hp p) (alive p) v (reloadRemain p) (inputQueue p) (lastProcessedSeq p) (lastInput p) (kills p) (deaths p) (hits p) (shots p) (lastSpawnPositions p) (isBot p).
Definition set_reloadRemain (v : num) (p : t) : t :=
  mk (id p) (nickname p) (position p) (velocity p) (bodyYaw p) (turretYaw p) (gunPitch p) (hp p) (alive p) (respawnTimer p) v (inputQueue p) (lastProcessedSeq p) (lastInput p) (kills p) (deaths p) (hits p) (shots p) (lastSpawnPositions p) (isBot p).
Definition set_inputQueue (v : list (InputCmd.t num)) (p : t) : t :=
  mk (id p) (nickname p) (position p) (velocity p) (bodyYaw p) (turretYaw p) (gunPitch p) (hp p) (alive p) (respawnTimer p) (reloadRemain p) v (lastProcessedSeq p) (lastInput p) (kills p) (deaths p) (hits p) (shots p) (lastSpawnPositions p) (isBot p).
Definition set_lastProcessedSeq (v : Z) (p : t) : t :=
  mk (id p) (nickname p) (position p) (velocity p) (bodyYaw p) (turretYaw p) (gunPitch p) (hp p) (alive p) (respawnTimer p) (reloadRemain p) (inputQueue p) v (lastInput p) (kills p) (deaths p) (hits p) (shots p) (lastSpawnPositions p) (isBot p).
Definition set_lastInput (v : option (InputCmd.t num)) (p : t) : t :=
  mk (id p) (nickname p) (position p) (velocity p) (bodyYaw p) (turretYaw p) (gunPitch p) (hp p) (alive p) (respawnTimer p) (reloadRemain p) (inputQueue p) (lastProcessedSeq p) v (kills p) (deaths p) (hits p) (shots p) (lastSpawnPositions p) (isBot p).
Definition set_kills (v : nat) (p : t) : t :=
  mk (id p) (nickname p) (position p) (velocity p) (bodyYaw p) (turretYaw p) (gunPitch p) (hp p) (alive p) (respawnTimer p) (reloadRemain p) (inputQueue p) (lastProcessedSeq p) (lastInput p) v (deaths p) (hits p) (shots p) (lastSpawnPositions p) (isBot p).
Definition set_deaths (v : nat) (p : t) : t :=
  mk (id p) (nickname p) (position p) (velocity p) (bodyYaw p) (turretYaw p) (gunPitch p) (hp p) (alive p) (respawnTimer p) (reloadRemain p) (inputQueue p) (lastProcessedSeq p) (lastInput p) (kills p) v (hits p) (shots p) (lastSpawnPositions p) (isBot p).
Definition set_hits (v : nat) (p : t) : t :=
  mk (id p) (nickname p) (position p) (velocity p) (bodyYaw p) (turretYaw p) (gunPitch p) (hp p) (alive p) (respawnTimer p) (reloadRemain p) (inputQueue p) (lastProcessedSeq p) (lastInput p) (kills p) (deaths p) v (shots p) (lastSpawnPositions p) (isBot p).
Definition set_shots (v : nat) (p : t) : t :=
  mk (id p) (nickname p) (position p) (velocity p) (bodyYaw p) (turretYaw p) (gunPitch p) (hp p) (alive p) (respawnTimer p) (reloadRemain p) (inputQueue p) (lastProcessedSeq p) (lastInput p) (kills p) (deaths p) (hits p) v (lastSpawnPositions p) (isBot p).
Definition set_lastSpawnPositions (v : list (Vec3.t num)) (p : t) : t :=
  mk (id p) (nickname p) (position p) (velocity p) (bodyYaw p) (turretYaw p) (gunPitch p) (hp p) (alive p) (respawnTimer p) (reloadRemain p) (inputQueue p) (lastProcessedSeq p) (lastInput p) (kills p) (deaths p) (hits p) (shots p) v (isBot p).
Definition set_isBot (v : bool) (p : t) : t :=
  mk (id p) (nickname p) (position p) (velocity p) (bodyYaw p) (turretYaw p) (gunPitch p) (hp p) (alive p) (respawnTimer p) (reloadRemain p) (inputQueue p) (lastProcessedSeq p) (lastInput p) (kills p) (deaths p) (hits p) (shots p) (lastSpawnPositions p) v.

(** [new Player(id, nickname)] with the field initialisers. *)
Definition new (id : Z) (nickname : string) : t :=
  mk id nickname Vec3.zero Vec3.zero #0 #0 #0 TANK_MAX_HP true #0 #0
     [] 0%Z None 0 0 0 0 [] false.

Definition getPhysicsState (p : t) : TankPhysicsState.t num :=
  TankPhysicsState.mk (position p) (velocity p) (bodyYaw p) (turretYaw p)
    (gunPitch p).

(** [pushInput]: the queue holds at most 10 commands; a command that
    arrives when it is full is dropped. *)
Definition pushInput (cmd : InputCmd.t num) (p : t) : t :=
  if (List.length (inputQueue p) <? 10)%nat
  then set_inputQueue (inputQueue p ++ [cmd]) p
  else p.

(** [popInput]: the command for this tick, and the player after the
    call.  A command object is always truthy, so [if (cmd)] tests whether
    [shift()] found one. *)
Definition popInput (p : t) : option (InputCmd.t num) * t :=
  match inputQueue p with
  | cmd :: rest => (Some cmd, set_lastInput (Some cmd) (set_inputQueue rest p))
  | [] =>
      match lastInput p with
      | Some last => (Some (InputCmd.with_fire last false), p)
      | None => (None, p)
      end
  end.

(** [takeDamage]: whether the player died, and the player after the call. *)
Definition takeDamage (amount : num) (p : t) : bool * t :=
  if negb (alive p) then (false, p)
  else
    let p := set_hp (Math_max #0 (hp p - amount)) p in
    if hp p <=? #0 then
      let p := set_alive false p in
      let p := set_inputQueue [] p in
      let p := set_lastInput None p in
      let p := set_velocity Vec3.zero p in
      (true, p)
    else (false, p).

(** [respawn]; it draws the new body yaw from [Math.random()]. *)
Definition respawn (pos : Vec3.t num) (p : t) : Proc.M num t :=
  (r <- Proc.Math_random ;;
   let p := set_position pos p in
   let p := set_velocity Vec3.zero p in
   let p := set_bodyYaw (r * Math_PI * #2 - Math_PI) p in
   let p := set_turretYaw #0 p in
   let p := set_gunPitch #0 p in
   let p := set_hp TANK_MAX_HP p in
   let p := set_alive true p in
   let p := set_reloadRemain #0 p in
   let p := set_respawnTimer #0 p in
   let spawns := lastSpawnPositions p ++ [pos] in
   let spawns := if (5 <? List.length spawns)%nat then tl spawns else spawns in
   Proc.ret (set_lastSpawnPositions spawns p))%proc.

Definition tryFire (p : t) : bool * t :=
  if negb (alive p) || (reloadRemain p >? #0) then (false, p)
  else (true, set_shots (S (shots p)) (set_reloadRemain RELOAD_TIME p)).

Definition updateReload (dtMs : num) (p : t) : t :=
  if reloadRemain p >? #0
  then set_reloadRemain (Math_max #0 (reloadRemain p - dtMs)) p
  else p.

Definition resetStats (p : t) : t :=
  set_shots 0 (set_hits 0 (set_deaths 0 (set_kills 0 p))).

End Def.
Arguments t : clear implicits.
End Player.

(* ================================================================== *)
(** * server/SpawnManager.ts *)
(* ================================================================== *)

Module SpawnManager.

(** The manager's state: [recentSpawns], oldest first. *)
Record t (num : Type) : Type := mk {
  recentSpawns : list (Vec3.t num)
}.

Definition maxRecentSpawns : nat := 20.

Definition new {num} : t num := mk [].

Definition reset {num} (_ : t num) : t num := mk [].

(** ** Selection, over the reals *)

Import MapGenerator.
Local Open Scope R_scope.

Definition isPointBetween (from to point : Vec3.t R) (radius : R) : bool :=
  let dx := Vec3.x to - Vec3.x from in
  let dz := Vec3.z to - Vec3.z from in
  let len := sqrt (dx * dx + dz * dz) in
  if Rltb len (1 / 1000) then false
  else
    let t := ((Vec3.x point - Vec3.x from) * dx
              + (Vec3.z point - Vec3.z from) * dz) / (len * len) in
    if Rltb t 0 || Rltb 1 t then false
    else
      let closestX := Vec3.x from + t * dx in
      let closestZ := Vec3.z from + t * dz in
      let dist := sqrt ((Vec3.x point - closestX) ^ 2
                        + (Vec3.z point - closestZ) ^ 2) in
      Rltb dist radius.

(** The candidate points of one zone: [n] draws of an angle and a
    distance, each clamped into the map and lifted to the terrain. *)
Fixpoint zoneCandidates (map : GameMapData R) (zone : SpawnZone R) (n : nat)
  : Proc.M R (list (Vec3.t R)) :=
  match n with
  | O => Proc.ret []
  | S n' =>
      (ra <- Proc.Math_random ;;
       rr <- Proc.Math_random ;;
       let angle := ra * PI * 2 in
       let r := rr * zone_radius zone in
       let x := Vec3.x (center zone) + cos angle * r in
       let z := Vec3.z (center zone) + sin angle * r in
       let clampedX :=
         Rmax (- width map / 2 + 5) (Rmin (width map / 2 - 5) x) in
       let clampedZ :=
         Rmax (- depth map / 2 + 5) (Rmin (depth map / 2 - 5) z) in
       let y := getHeightAt map clampedX clampedZ in
       rest <- zoneCandidates map zone n' ;;
       Proc.ret (Vec3.mk clampedX y clampedZ :: rest))%proc
  end.

Fixpoint allCandidates (map : GameMapData R) (zones : list (SpawnZone R))
    (pointsPerZone : nat) : Proc.M R (list (Vec3.t R)) :=
  match zones with
  | [] => Proc.ret []
  | zone :: zones' =>
      (here <- zoneCandidates map zone pointsPerZone ;;
       rest <- allCandidates map zones' pointsPerZone ;;
       Proc.ret (here ++ rest))%proc
  end.

(** [Math.ceil(a / b)] for counts, [b] positive. *)
Definition ceilDiv (a b : nat) : nat := (a + b - 1) / b.

Definition generateCandidates (map : GameMapData R)
  : Proc.M R (list (Vec3.t R)) :=
  let pointsPerZone :=
    ceilDiv SPAWN_CANDIDATE_COUNT (List.length (spawnZones map)) in
  allCandidates map (spawnZones map) pointsPerZone.

(** The smallest distance from [candidate] to an enemy ([minDist] after
    the loop, for a non-empty list). *)
Definition nearestEnemyDistance (candidate : Vec3.t R)
    (first : Player.t R) (others : list (Player.t R)) : R :=
  fold_left
    (fun minDist enemy =>
       let d := Vec3.distanceTo candidate (Player.position enemy) in
       if Rltb d minDist then d else minDist)
    others (Vec3.distanceTo candidate (Player.position first)).

Definition scoreCandidate (sm : t R) (candidate : Vec3.t R)
    (enemies : list (Player.t R)) (map : GameMapData R) : R :=
  let score := 0 in
  (* S_dist *)
  let score :=
    match enemies with
    | first :: others =>
        score
        + Physics.gaussianScore (nearestEnemyDistance candidate first others)
            IDEAL_SPAWN_DISTANCE SPAWN_DISTANCE_SIGMA
          * SPAWN_WEIGHTS_distance
    | [] => score + SPAWN_WEIGHTS_distance
    end in
  (* S_los *)
  let losCount :=
    List.length
      (filter
         (fun enemy =>
            let dist := Vec3.distanceTo candidate (Player.position enemy) in
            Rltb dist 30
            && negb (existsb
                       (fun cover =>
                          isPointBetween candidate (Player.position enemy)
                            (position cover) (radius cover))
                       (covers map)))
         enemies) in
  let score := score - INR losCount * SPAWN_WEIGHTS_los in
  (* S_cover *)
  let nearbyCovers :=
    filter
      (fun c => Rltb (Vec3.distanceTo candidate (position c))
                     COVER_SEARCH_RADIUS)
      (covers map) in
  let score :=
    score + Rmin (INR (List.length nearbyCovers)) 3 * SPAWN_WEIGHTS_cover in
  (* S_flow *)
  let flowDist :=
    sqrt (Vec3.x candidate * Vec3.x candidate
          + Vec3.z candidate * Vec3.z candidate) in
  let score :=
    score + Physics.gaussianScore flowDist 80 30 * SPAWN_WEIGHTS_flow in
  (* S_recent *)
  let tooRecent :=
    existsb
      (fun p => Rltb (Vec3.distanceTo candidate p) SPAWN_COOLDOWN_RADIUS)
      (recentSpawns sm) in
  if tooRecent then score - SPAWN_WEIGHTS_recent else score.

(** [scored.sort((a, b) => b.score - a.score)]: the sort is stable, so
    the result is the insertion of each element, in order, behind every
    element whose score is not smaller. *)
Fixpoint insertByScore (e : Vec3.t R * R) (l : list (Vec3.t R * R))
  : list (Vec3.t R * R) :=
  match l with
  | [] => [e]
  | e' :: l' =>
      if Rltb (snd e') (snd e) then e :: e' :: l'
      else e' :: insertByScore e l'
  end.

Definition sortByScore (l : list (Vec3.t R * R)) : list (Vec3.t R * R) :=
  fold_left (fun sorted e => insertByScore e sorted) l [].

(** [selectSpawnPoint].  Reading [.point] of [undefined] raises a
    [TypeError]: that is what the code does when [topK] has no element at
    the drawn index. *)
Definition selectSpawnPoint (sm : t R) (player : Player.t R)
    (enemies : list (Player.t R)) (map : GameMapData R)
  : Proc.M R (Vec3.t R * t R) :=
  (let aliveEnemies :=
     filter (fun e => Player.alive e
                      && negb (Player.id e =? Player.id player)%Z) enemies in
   candidates <- generateCandidates map ;;
   let scored :=
     List.map (fun point => (point, scoreCandidate sm point aliveEnemies map))
       candidates in
   let scored := sortByScore scored in
   let topK := firstn SPAWN_TOP_K scored in
   r <- Proc.Math_random ;;
   match nth_error topK (Z.to_nat (Int_part (r * INR (List.length topK)))) with
   | None => Proc.throw
   | Some sel =>
       let selected := fst sel in
       let recent := recentSpawns sm ++ [selected] in
       let recent :=
         if (maxRecentSpawns <? List.length recent)%nat then tl recent
         else recent in
       Proc.ret (selected, mk recent)
   end)%proc.

End SpawnManager.

(* ================================================================== *)
(** * JavaScript's [Map] with number keys *)
(* ================================================================== *)

(** A [Map<number, V>] is the list of its entries in insertion order.
    [set] on a present key replaces the value where it stands; on an
    absent key it appends the entry. *)
Module JSMap.
Section Def.
Variable V : Type.

Definition t : Type := list (Z * V).

Fixpoint get (k : Z) (m : t) : option V :=
  match m with
  | [] => None
  | (k', v) :: m' => if (k' =? k)%Z then Some v else get k m'
  end.

Definition has (k : Z) (m : t) : bool :=
  match get k m with Some _ => true | None => false end.

Fixpoint set (k : Z) (v : V) (m : t) : t :=
  match m with
  | [] => [(k, v)]
  | (k', v') :: m' =>
      if (k' =? k)%Z then (k, v) :: m' else (k', v') :: set k v m'
  end.

Definition delete (k : Z) (m : t) : t :=
  filter (fun e => negb (fst e =? k)%Z) m.

Definition keys (m : t) : list Z := List.map fst m.
Definition values (m : t) : list V := List.map snd m.
Definition size (m : t) : nat := List.length m.

End Def.
End JSMap.

(* ================================================================== *)
(** * server/Projectile.ts *)
(* ================================================================== *)

Module Projectile.
Section Def.
Context {num : Type} `{JSNumber num}.
Local Open Scope num_scope.

Record t : Type := mk {
  id : Z;
  shooterId : Z;
  position : Vec3.t num;
  velocity : Vec3.t num;
  ttl : num;
  active : bool
}.

Definition new (id shooterId : Z) (position velocity : Vec3.t num)
    (ttl : num) : t :=
  mk id shooterId position velocity ttl true.

Definition set_position (v : Vec3.t num) (p : t) : t :=
  mk (id p) (shooterId p) v (velocity p) (ttl p) (active p).

Definition set_active (v : bool) (p : t) : t :=
  mk (id p) (shooterId p) (position p) (velocity p) (ttl p) v.

Definition update (dt : num) (p : t) : t :=
  if negb (active p) then p
  else
    let '(pos, vel) := updateProjectile (position p) (velocity p) dt in
    let ttl' := ttl p - dt * #1000 in
    mk (id p) (shooterId p) pos vel ttl'
       (if ttl' <=? #0 then false else active p).

Definition checkGroundHit (getTerrainHeight : num -> num -> num) (p : t)
  : bool * t :=
  if negb (active p) then (false, p)
  else
    let groundY :=
      getTerrainHeight (Vec3.x (position p)) (Vec3.z (position p)) in
    if Vec3.y (position p) <=? groundY
    then (true, set_active false
                  (set_position (Vec3.set_y (position p) groundY) p))
    else (false, p).

End Def.
Arguments t : clear implicits.
End Projectile.

(* ================================================================== *)
(** * server/GameWorld.ts *)
(* ================================================================== *)

(** What [GameWorld.ts] imports and the arithmetic interface does not
    cover: the physics step and the barrel geometry of [physics.ts], the
    terrain generator and the spawn selector.  The world is embedded once
    for every such collaborator; [RealImports] below is the one of the
    repository, over the reals. *)
Record Imports (num : Type) : Type := mkImports {
  updateTankPhysics :
    TankPhysicsState.t num -> PhysicsInput num -> num ->
    option (num -> num -> num) -> TankPhysicsState.t num;
  calculateMuzzleVelocity : TankPhysicsState.t num -> Vec3.t num;
  getMuzzlePosition : TankPhysicsState.t num -> Vec3.t num;
  getBarrelDirection : num -> num -> num -> Vec3.t num;
  generate : num -> MapGenerator.GameMapData num;
  selectSpawnPoint :
    SpawnManager.t num -> Player.t num -> list (Player.t num) ->
    MapGenerator.GameMapData num ->
    Proc.M num (Vec3.t num * SpawnManager.t num)
}.

Definition RealImports : Imports R :=
  mkImports Physics.updateTankPhysics Physics.calculateMuzzleVelocity
    Physics.getMuzzlePosition Physics.getBarrelDirection
    MapGenerator.generate SpawnManager.selectSpawnPoint.

Module GameWorld.
Section Def.
Context {num : Type} `{JSNumber num}.
Variable imports : Imports num.
Local Open Scope num_scope.

(** The world's fields.  [Player] objects are mutable and shared (the
    [players] map, the respawn queue and the AI controllers hold
    references to them), so the world carries the store [objs] of its
    Player objects, addressed by reference; [players] maps an id to a
    reference and a respawn-queue entry is a reference with its timer.
    [nextRef] is the next unused reference. *)
Record t : Type := mk {
  currentTick : Z;
  snapshotId : Z;
  objs : nat -> Player.t num;
  nextRef : nat;
  players : JSMap.t nat;
  projectiles : JSMap.t (Projectile.t num);
  map : MapGenerator.GameMapData num;
  spawnManager : SpawnManager.t num;
  nextProjectileId : Z;
  pendingEvents : list (GameEvent num);
  respawnQueue : list (nat * num)
}.

Definition set_currentTick (v : Z) (w : t) : t :=
  mk v (snapshotId w) (objs w) (nextRef w) (players w) (projectiles w) (map w) (spawnManager w) (nextProjectileId w) (pendingEvents w) (respawnQueue w).
Definition set_snapshotId (v : Z) (w : t) : t :=
  mk (currentTick w) v (objs w) (nextRef w) (players w) (projectiles w) (map w) (spawnManager w) (nextProjectileId w) (pendingEvents w) (respawnQueue w).
Definition set_objs (v : nat -> Player.t num) (w : t) : t :=
  mk (currentTick w) (snapshotId w) v (nextRef w) (players w) (projectiles w) (map w) (spawnManager w) (nextProjectileId w) (pendingEvents w) (respawnQueue w).
Definition set_nextRef (v : nat) (w : t) : t :=
  mk (currentTick w) (snapshotId w) (objs w) v (players w) (projectiles w) (map w) (spawnManager w) (nextProjectileId w) (pendingEvents w) (respawnQueue w).
Definition set_players (v : JSMap.t nat) (w : t) : t :=
  mk (currentTick w) (snapshotId w) (objs w) (nextRef w) v (projectiles w) (map w) (spawnManager w) (nextProjectileId w) (pendingEvents w) (respawnQueue w).
Definition set_projectiles (v : JSMap.t (Projectile.t num)) (w : t) : t :=
  mk (currentTick w) (snapshotId w) (objs w) (nextRef w) (players w) v (map w) (spawnManager w) (nextProjectileId w) (pendingEvents w) (respawnQueue w).
Definition set_map (v : MapGenerator.GameMapData num) (w : t) : t :=
  mk (currentTick w) (snapshotId w) (objs w) (nextRef w) (players w) (projectiles w) v (spawnManager w) (nextProjectileId w) (pendingEvents w) (respawnQueue w).
Definition set_spawnManager (v : SpawnManager.t num) (w : t) : t :=
  mk (currentTick w) (snapshotId w) (objs w) (nextRef w) (players w) (projectiles w) (map w) v (nextProjectileId w) (pendingEvents w) (respawnQueue w).
Definition set_nextProjectileId (v : Z) (w : t) : t :=
  mk (currentTick w) (snapshotId w) (objs w) (nextRef w) (players w) (projectiles w) (map w) (spawnManager w) v (pendingEvents w) (respawnQueue w).
Definition set_pendingEvents (v : list (GameEvent num)) (w : t) : t :=
  mk (currentTick w) (snapshotId w) (objs w) (nextRef w) (players w) (projectiles w) (map w) (spawnManager w) (nextProjectileId w) v (respawnQueue w).
Definition set_respawnQueue (v : list (nat * num)) (w : t) : t :=
  mk (currentTick w) (snapshotId w) (objs w) (nextRef w) (players w) (projectiles w) (map w) (spawnManager w) (nextProjectileId w) (pendingEvents w) v.

(** [new GameWorld(mapSeed)]. *)
Definition new (mapSeed : num) : t :=
  mk 0%Z 0%Z (fun _ => Player.new 0 "") 0 [] []
     (generate imports mapSeed) SpawnManager.new 1%Z [] [].

(** Mutation of the Player object at reference [r]. *)
Definition modify (r : nat) (f : Player.t num -> Player.t num) (w : t) : t :=
  set_objs (fun r' => if (r' =? r)%nat then f (objs w r') else objs w r') w.

Definition store (r : nat) (p : Player.t num) (w : t) : t :=
  modify r (fun _ => p) w.

Definition pushEvent (e : GameEvent num) (w : t) : t :=
  set_pendingEvents (pendingEvents w ++ [e]) w.

Definition storeProjectile (proj : Projectile.t num) (w : t) : t :=
  set_projectiles (JSMap.set (Projectile.id proj) proj (projectiles w)) w.

Definition terrain (w : t) : num -> num -> num :=
  MapGenerator.getHeightAt (map w).

(** The Player objects of the world, in the order of [players.values()]. *)
Definition playerRefs (w : t) : list nat := JSMap.values (players w).

(** ** Death and damage *)

Definition handleDeath (victim : nat) (killerId : Z) (w : t) : t :=
  let w := modify victim
             (fun p => Player.set_deaths (S (Player.deaths p)) p) w in
  let w :=
    match JSMap.get killerId (players w) with
    | Some killer =>
        modify killer (fun p => Player.set_kills (S (Player.kills p)) p) w
    | None => w
    end in
  let w :=
    pushEvent
      (DeathEvent (Player.id (objs w victim)) killerId "killed"
                  (Player.position (objs w victim))) w in
  set_respawnQueue (respawnQueue w ++ [(victim, RESPAWN_DELAY)]) w.

(** One iteration of the splash loop of [handleProjectileExplode]. *)
Definition splashOne (proj : Projectile.t num) (directHitTargetId : option Z)
    (w : t) (r : nat) : t :=
  let player := objs w r in
  if negb (Player.alive player) then w
  else if (Player.id player =? Projectile.shooterId proj)%Z then w
  else if match directHitTargetId with
          | Some d => (Player.id player =? d)%Z
          | None => false
          end then w
  else
    let splashDamage :=
      calculateSplashDamage (Projectile.position proj)
        (Player.position player) in
    if splashDamage >? #0 then
      let '(died, player') := Player.takeDamage splashDamage player in
      let w := store r player' w in
      if died then handleDeath r (Projectile.shooterId proj) w else w
    else w.

Definition handleProjectileExplode (proj : Projectile.t num)
    (directHitTargetId : option Z) (w : t) : t :=
  let w :=
    pushEvent
      (ExplodeEvent (Projectile.id proj) (Projectile.position proj)
                    SPLASH_RADIUS) w in
  fold_left (splashOne proj directHitTargetId) (playerRefs w) w.

Definition handleDirectHit (proj : Projectile.t num) (target : nat) (w : t)
  : t :=
  let proj := Projectile.set_active false proj in
  let w := storeProjectile proj w in
  let w :=
    pushEvent
      (HitEvent (Projectile.id proj) (Player.id (objs w target))
                (Projectile.position proj) DIRECT_HIT_DAMAGE) w in
  let w :=
    match JSMap.get (Projectile.shooterId proj) (players w) with
    | Some shooter =>
        modify shooter (fun p => Player.set_hits (S (Player.hits p)) p) w
    | None => w
    end in
  let '(died, target') := Player.takeDamage DIRECT_HIT_DAMAGE (objs w target) in
  let w := store target target' w in
  let w := if died then handleDeath target (Projectile.shooterId proj) w
           else w in
  handleProjectileExplode proj (Some (Player.id (objs w target))) w.

(** The inner loop of [checkAllCollisions]: the first live combatant,
    other than the shooter, that the projectile touches. *)
Definition firstHit (proj : Projectile.t num) (w : t) : option nat :=
  find
    (fun r =>
       let player := objs w r in
       Player.alive player
       && negb (Player.id player =? Projectile.shooterId proj)%Z
       && checkProjectileHit (Projectile.position proj)
            (Player.position player) PROJECTILE_COLLISION_RADIUS
            TANK_COLLISION_RADIUS)
    (playerRefs w).

Definition checkAllCollisions (w : t) : t :=
  fold_left
    (fun w pid =>
       match JSMap.get pid (projectiles w) with
       | None => w
       | Some proj =>
           if negb (Projectile.active proj) then w
           else match firstHit proj w with
                | Some target => handleDirectHit proj target w
                | None => w
                end
       end)
    (JSMap.keys (projectiles w)) w.

(** ** Input and movement *)

Definition spawnProjectile (r : nat) (w : t) : t :=
  let player := objs w r in
  let state := Player.getPhysicsState player in
  let velocity := calculateMuzzleVelocity imports state in
  let muzzlePos := getMuzzlePosition imports state in
  let barrelDir :=
    getBarrelDirection imports (Player.bodyYaw player)
      (Player.turretYaw player) (Player.gunPitch player) in
  let proj :=
    Projectile.new (nextProjectileId w) (Player.id player) muzzlePos velocity
      PROJECTILE_TTL in
  let w := set_nextProjectileId (nextProjectileId w + 1)%Z w in
  let w := storeProjectile proj w in
  pushEvent
    (FireEvent (Player.id player) muzzlePos barrelDir (Projectile.id proj)
               (currentTick w)) w.

(** One iteration of the cover loop of [applyInput]. *)
Definition pushOutOfCover (terrainOf : num -> num -> num)
    (player : Player.t num) (cover : MapGenerator.CoverNode num)
  : Player.t num :=
  let pos := Player.position player in
  let vel := Player.velocity player in
  let cpos := MapGenerator.position cover in
  let dx := Vec3.x pos - Vec3.x cpos in
  let dz := Vec3.z pos - Vec3.z cpos in
  let dist := Math_sqrt (dx * dx + dz * dz) in
  let minDist := TANK_COLLISION_RADIUS + MapGenerator.radius cover in
  if (dist <? minDist) && (dist >? dec 1 3) then
    let pushX := (dx / dist) * (minDist - dist) in
    let pushZ := (dz / dist) * (minDist - dist) in
    let pos := Vec3.mk (Vec3.x pos + pushX) (Vec3.y pos) (Vec3.z pos + pushZ) in
    let nx := dx / dist in
    let nz := dz / dist in
    let vDotN := Vec3.x vel * nx + Vec3.z vel * nz in
    let vel :=
      if vDotN <? #0
      then Vec3.mk (Vec3.x vel - vDotN * nx) (Vec3.y vel)
                   (Vec3.z vel - vDotN * nz)
      else vel in
    let pos := Vec3.set_y pos (terrainOf (Vec3.x pos) (Vec3.z pos)) in
    Player.set_velocity vel (Player.set_position pos player)
  else player.

(** The map-boundary clamp of [applyInput]. *)
Definition clampToMap (halfW halfD : num) (player : Player.t num)
  : Player.t num :=
  let pos := Player.position player in
  let vel := Player.velocity player in
  let '(pos, vel) :=
    if Vec3.x pos <? - halfW then
      (Vec3.set_x pos (- halfW),
       if Vec3.x vel <? #0 then Vec3.set_x vel #0 else vel)
    else if Vec3.x pos >? halfW then
      (Vec3.set_x pos halfW,
       if Vec3.x vel >? #0 then Vec3.set_x vel #0 else vel)
    else (pos, vel) in
  let '(pos, vel) :=
    if Vec3.z pos <? - halfD then
      (Vec3.set_z pos (- halfD),
       if Vec3.z vel <? #0 then Vec3.set_z vel #0 else vel)
    else if Vec3.z pos >? halfD then
      (Vec3.set_z pos halfD,
       if Vec3.z vel >? #0 then Vec3.set_z vel #0 else vel)
    else (pos, vel) in
  Player.set_velocity vel (Player.set_position pos player).

Definition applyInput (r : nat) (input : InputCmd.t num) (dt : num) (w : t)
  : t :=
  let player := objs w r in
  let state :=
    updateTankPhysics imports (Player.getPhysicsState player)
      (physicsInputOf input) dt (Some (terrain w)) in
  let player := Player.set_position (TankPhysicsState.position state) player in
  let player := Player.set_velocity (TankPhysicsState.velocity state) player in
  let player := Player.set_bodyYaw (TankPhysicsState.bodyYaw state) player in
  let player := Player.set_turretYaw (TankPhysicsState.turretYaw state) player in
  let player := Player.set_gunPitch (TankPhysicsState.gunPitch state) player in
  let player := Player.set_lastProcessedSeq (InputCmd.seq input) player in
  let player :=
    fold_left (pushOutOfCover (terrain w)) (MapGenerator.covers (map w))
      player in
  let halfW := MapGenerator.width (map w) / #2 in
  let halfD := MapGenerator.depth (map w) / #2 in
  let player := clampToMap halfW halfD player in
  let pos := Player.position player in
  let player :=
    Player.set_position
      (Vec3.set_y pos (terrain w (Vec3.x pos) (Vec3.z pos))) player in
  if InputCmd.fire input then
    let '(fired, player) := Player.tryFire player in
    let w := store r player w in
    if fired then spawnProjectile r w else w
  else store r player w.

(** One iteration of step 1 of [update]. *)
Definition inputStep (dt : num) (w : t) (r : nat) : t :=
  let player := objs w r in
  if negb (Player.alive player) then w
  else
    let '(input, player) := Player.popInput player in
    let w := store r player w in
    match input with
    | Some input => applyInput r input dt w
    | None => w
    end.

(** The pairs [(l[i], l[j])], [i < j], in the order of the two nested
    loops. *)
Fixpoint pairs {A} (l : list A) : list (A * A) :=
  match l with
  | [] => []
  | a :: l' => List.map (pair a) l' ++ pairs l'
  end.

(** The body of the loops of [resolveTankTankCollisions]. *)
Definition separate (w : t) (ab : nat * nat) : t :=
  let '(ra, rb) := ab in
  let a := objs w ra in
  let b := objs w rb in
  let minDist := TANK_COLLISION_RADIUS * #2 in
  let dx := Vec3.x (Player.position b) - Vec3.x (Player.position a) in
  let dz := Vec3.z (Player.position b) - Vec3.z (Player.position a) in
  let dist := Math_sqrt (dx * dx + dz * dz) in
  if (dist <? minDist) && (dist >? dec 1 3) then
    let nx := dx / dist in
    let nz := dz / dist in
    let overlap := (minDist - dist) / #2 in
    let apos := Player.position a in
    let bpos := Player.position b in
    let apos := Vec3.mk (Vec3.x apos - nx * overlap) (Vec3.y apos)
                        (Vec3.z apos - nz * overlap) in
    let bpos := Vec3.mk (Vec3.x bpos + nx * overlap) (Vec3.y bpos)
                        (Vec3.z bpos + nz * overlap) in
    let avel := Player.velocity a in
    let bvel := Player.velocity b in
    let vDotA := Vec3.x avel * nx + Vec3.z avel * nz in
    let avel :=
      if vDotA >? #0
      then Vec3.mk (Vec3.x avel - vDotA * nx) (Vec3.y avel)
                   (Vec3.z avel - vDotA * nz)
      else avel in
    let vDotB := Vec3.x bvel * nx + Vec3.z bvel * nz in
    let bvel :=
      if vDotB <? #0
      then Vec3.mk (Vec3.x bvel - vDotB * nx) (Vec3.y bvel)
                   (Vec3.z bvel - vDotB * nz)
      else bvel in
    let apos := Vec3.set_y apos (terrain w (Vec3.x apos) (Vec3.z apos)) in
    let bpos := Vec3.set_y bpos (terrain w (Vec3.x bpos) (Vec3.z bpos)) in
    let w := modify ra (fun p => Player.set_velocity avel
                                   (Player.set_position apos p)) w in
    modify rb (fun p => Player.set_velocity bvel
                          (Player.set_position bpos p)) w
  else w.

Definition resolveTankTankCollisions (w : t) : t :=
  let alivePlayers :=
    filter (fun r => Player.alive (objs w r)) (playerRefs w) in
  fold_left separate (pairs alivePlayers) w.

(** ** Projectiles *)

(** The loop [for (const t of [t1, t2])] of the swept test: the first
    parameter in [0, 1] whose height lies in the cover's vertical band. *)
Definition sweptHit (prevY curY coverBottom coverTop : num) (ts : list num)
  : option (num * num) :=
  match
    find
      (fun t =>
         negb ((t <? #0) || (t >? #1))
         && (let hitY := prevY + t * (curY - prevY) in
             (hitY >=? coverBottom) && (hitY <=? coverTop)))
      ts
  with
  | Some t => Some (t, prevY + t * (curY - prevY))
  | None => None
  end.

(** [checkProjectileCoverCollision]: whether the projectile hit a cover,
    and the world after the call.  [x ** 2] is written as the product. *)
Fixpoint coverLoop (proj : Projectile.t num) (prev : Vec3.t num)
    (covers : list (MapGenerator.CoverNode num)) (w : t) : bool * t :=
  match covers with
  | [] => (false, w)
  | cover :: covers' =>
      let cur := Projectile.position proj in
      let cpos := MapGenerator.position cover in
      let groundY := terrain w (Vec3.x cpos) (Vec3.z cpos) in
      let coverTop := groundY + MapGenerator.height cover in
      let coverBottom := groundY - dec 5 1 in
      let totalRadius :=
        MapGenerator.radius cover + PROJECTILE_COLLISION_RADIUS in
      let dx := Vec3.x cur - Vec3.x prev in
      let dz := Vec3.z cur - Vec3.z prev in
      let ox := Vec3.x prev - Vec3.x cpos in
      let oz := Vec3.z prev - Vec3.z cpos in
      let a := dx * dx + dz * dz in
      let b := #2 * (ox * dx + oz * dz) in
      let c := ox * ox + oz * oz - totalRadius * totalRadius in
      let distSq :=
        (Vec3.x cur - Vec3.x cpos) * (Vec3.x cur - Vec3.x cpos)
        + (Vec3.z cur - Vec3.z cpos) * (Vec3.z cur - Vec3.z cpos) in
      if (distSq <? totalRadius * totalRadius)
         && (Vec3.y cur <? coverTop) && (Vec3.y cur >? coverBottom)
      then
        let proj := Projectile.set_active false proj in
        let w := storeProjectile proj w in
        (true, handleProjectileExplode proj None w)
      else if a <? dec 1 4 then coverLoop proj prev covers' w
      else
        let discriminant := b * b - #4 * a * c in
        if discriminant <? #0 then coverLoop proj prev covers' w
        else
          let sqrtD := Math_sqrt discriminant in
          let t1 := (- b - sqrtD) / (#2 * a) in
          let t2 := (- b + sqrtD) / (#2 * a) in
          match sweptHit (Vec3.y prev) (Vec3.y cur) coverBottom coverTop
                  [t1; t2] with
          | Some (t, hitY) =>
              let proj :=
                Projectile.set_position
                  (Vec3.mk (Vec3.x prev + t * dx) hitY (Vec3.z prev + t * dz))
                  proj in
              let proj := Projectile.set_active false proj in
              let w := storeProjectile proj w in
              (true, handleProjectileExplode proj None w)
          | None => coverLoop proj prev covers' w
          end
  end.

Definition checkProjectileCoverCollision (proj : Projectile.t num)
    (prev : Vec3.t num) (w : t) : bool * t :=
  coverLoop proj prev (MapGenerator.covers (map w)) w.

(** One iteration of step 2 of [update]. *)
Definition projectileStep (dt : num) (w : t) (pid : Z) : t :=
  match JSMap.get pid (projectiles w) with
  | None => w
  | Some proj =>
      if negb (Projectile.active proj) then w
      else
        let prev := Projectile.position proj in
        let proj := Projectile.update dt proj in
        let '(grounded, proj) := Projectile.checkGroundHit (terrain w) proj in
        let w := storeProjectile proj w in
        if grounded then handleProjectileExplode proj None w
        else snd (checkProjectileCoverCollision proj prev w)
  end.

Definition purgeProjectiles (w : t) : t :=
  set_projectiles
    (filter (fun e => Projectile.active (snd e)) (projectiles w)) w.

(** ** Respawn *)

(** The other combatants, as [selectSpawnPoint] receives them. *)
Definition enemiesOf (r : nat) (w : t) : list (Player.t num) :=
  filter (fun p => negb (Player.id p =? Player.id (objs w r))%Z)
    (List.map (objs w) (playerRefs w)).

(** The body of the respawn loop, also the tail of [addPlayer] and the
    body of the loop of [reset]. *)
Definition respawnAtSpawnPoint (r : nat) (w : t)
  : Proc.M num (Vec3.t num * t) :=
  ('(spawnPos, sm) <-
     selectSpawnPoint imports (spawnManager w) (objs w r) (enemiesOf r w)
       (map w) ;;
   let w := set_spawnManager sm w in
   p <- Player.respawn spawnPos (objs w r) ;;
   Proc.ret (spawnPos, store r p w))%proc.

Fixpoint respawnAll (toRespawn : list nat) (w : t) : Proc.M num t :=
  match toRespawn with
  | [] => Proc.ret w
  | r :: rest =>
      ('(spawnPos, w) <- respawnAtSpawnPoint r w ;;
       let w := pushEvent (RespawnEvent (Player.id (objs w r)) spawnPos) w in
       respawnAll rest w)%proc
  end.

Definition updateRespawnQueue (dtMs : num) (w : t) : Proc.M num t :=
  let entries :=
    List.map (fun e : nat * num => (fst e, snd e - dtMs)) (respawnQueue w) in
  let toRespawn :=
    List.map fst (filter (fun e : nat * num => snd e <=? #0) entries) in
  let w :=
    set_respawnQueue
      (filter (fun e : nat * num => negb (snd e <=? #0)) entries) w in
  respawnAll toRespawn w.

(** ** The tick *)

Definition update (w : t) : Proc.M num (list (GameEvent num) * t) :=
  let dt := TICK_INTERVAL / #1000 in
  let w := set_pendingEvents [] w in
  let w := set_currentTick (currentTick w + 1)%Z w in
  let w := fold_left (inputStep dt) (playerRefs w) w in
  let w := resolveTankTankCollisions w in
  let w := fold_left (projectileStep dt) (JSMap.keys (projectiles w)) w in
  let w := checkAllCollisions w in
  let w := purgeProjectiles w in
  (w <- updateRespawnQueue TICK_INTERVAL w ;;
   let w :=
     fold_left (fun w r => modify r (Player.updateReload TICK_INTERVAL) w)
       (playerRefs w) w in
   Proc.ret (pendingEvents w, w))%proc.

(** ** Membership *)

(** [addPlayer]: the Player object enters the store at a fresh
    reference, which is returned for the caller to keep. *)
Definition addPlayer (player : Player.t num) (w : t) : Proc.M num (nat * t) :=
  let r := nextRef w in
  let w := set_nextRef (S r) (store r player w) in
  let w := set_players (JSMap.set (Player.id player) r (players w)) w in
  ('(_, w) <- respawnAtSpawnPoint r w ;;
   Proc.ret (r, w))%proc.

Definition removePlayer (playerId : Z) (w : t) : t :=
  let w := set_players (JSMap.delete playerId (players w)) w in
  set_respawnQueue
    (filter (fun e : nat * num =>
               negb (Player.id (objs w (fst e)) =? playerId)%Z)
       (respawnQueue w)) w.

Fixpoint resetAll (refs : list nat) (w : t) : Proc.M num t :=
  match refs with
  | [] => Proc.ret w
  | r :: rest =>
      (let w := modify r Player.resetStats w in
       '(_, w) <- respawnAtSpawnPoint r w ;;
       resetAll rest w)%proc
  end.

Definition reset (newSeed : num) (w : t) : Proc.M num t :=
  let w := set_currentTick 0%Z w in
  let w := set_snapshotId 0%Z w in
  let w := set_projectiles [] w in
  let w := set_respawnQueue [] w in
  let w := set_map (generate imports newSeed) w in
  let w := set_spawnManager (SpawnManager.reset (spawnManager w)) w in
  resetAll (playerRefs w) w.

End Def.
Arguments t : clear implicits.
End GameWorld.

(* ================================================================== *)
(** * server/AIPlayer.ts: difficulty table, names and the factory *)
(* ================================================================== *)

Module AIPlayer.

Inductive AIState : Set := Patrol | Chase | Engage | Retreat.

Definition AI_NAMES : list string :=
  [ "Panzer_Bot"; "T34_AI"; "Sherman_Bot"; "Tiger_AI";
    "Abrams_Bot"; "Leopard_AI"; "Merkava_Bot"; "Challenger_AI";
    "Type99_Bot"; "Leclerc_AI"; "Centurion_Bot"; "IS2_AI" ]%string.

Section Def.
Context {num : Type} `{JSNumber num}.
Local Open Scope num_scope.

Record AIDifficulty : Type := mkDifficulty {
  name : string;
  aimAccuracy : num;
  reactionTime : num;
  aimSpeed : num;
  fireDelay : num;
  movementRandomness : num;
  engageRange : num
}.

Definition easy : AIDifficulty :=
  mkDifficulty "Easy" (dec 4 1) #800 #1 #600 (dec 3 1) #60.
Definition normal : AIDifficulty :=
  mkDifficulty "Normal" (dec 65 2) #400 (dec 18 1) #300 (dec 15 2) #100.
Definition hard : AIDifficulty :=
  mkDifficulty "Hard" (dec 85 2) #150 (dec 25 1) #100 (dec 5 2) #150.

(** [AI_DIFFICULTIES[difficulty] ?? AI_DIFFICULTIES.normal]. *)
Definition difficultyOf (difficulty : string) : AIDifficulty :=
  if String.eqb difficulty "easy" then easy
  else if String.eqb difficulty "hard" then hard
  else normal.

(** The controller's fields; [player] is the reference to its Player
    object. *)
Record t : Type := mk {
  player : nat;
  difficulty : AIDifficulty;
  state : AIState;
  seq : Z;
  currentAimYaw : num;
  currentAimPitch : num;
  targetAimYaw : num;
  targetAimPitch : num;
  patrolTarget : option (Vec3.t num);
  patrolTimer : num;
  targetPlayerId : option Z;
  reactionTimer : num;
  fireDelayTimer : num;
  aimReady : bool;
  stuckTimer : num;
  lastPosition : Vec3.t num;
  turnDirection : num
}.

(** [new AIPlayer(player, difficulty)], for a Player object [p] that
    will live at reference [r]. *)
Definition new (p : Player.t num) (difficulty : AIDifficulty)
  : Proc.M num (nat -> t) :=
  (rnd <- Proc.Math_random ;;
   Proc.ret
     (fun r =>
        mk r difficulty Patrol 0%Z (Player.bodyYaw p) #0 #0 #0 None
           (rnd * #3000) None #0 #0 false #0 Vec3.zero #1))%proc.

(** [AIPlayer.create]: the name is taken at the static [nameIndex],
    which is then incremented. *)
Definition create (playerId : Z) (difficulty : string)
  : Proc.M num (Player.t num * (nat -> t)) :=
  (i <- Proc.nextNameIndex ;;
   let name := nth (i mod List.length AI_NAMES) AI_NAMES ""%string in
   let diffConfig := difficultyOf difficulty in
   let player := Player.new playerId ("[BOT] " ++ name)%string in
   let player := Player.set_isBot true player in
   ai <- new player diffConfig ;;
   Proc.ret (player, ai))%proc.

End Def.
Arguments t : clear implicits.
Arguments AIDifficulty : clear implicits.
End AIPlayer.

(* ================================================================== *)
(** * server/GameRoom.ts: admission, AI backfill and removal *)
(* ================================================================== *)

(** The entries of the scoreboard. *)
Module PlayerScore.
Record t : Type := mk {
  playerId : Z;
  nickname : string;
  kills : nat;
  deaths : nat;
  hits : nat;
  shots : nat
}.
End PlayerScore.

(** [scores.sort((a, b) => b.kills - a.kills)]: the sort is stable, so
    the result is the insertion of each element, in order, behind every
    element whose kills are not fewer. *)
Fixpoint insertByKills (e : PlayerScore.t) (l : list PlayerScore.t)
  : list PlayerScore.t :=
  match l with
  | [] => [e]
  | e' :: l' =>
      if (PlayerScore.kills e' <? PlayerScore.kills e)%nat then e :: e' :: l'
      else e' :: insertByKills e l'
  end.

Definition sortByKills (l : list PlayerScore.t) : list PlayerScore.t :=
  fold_left (fun sorted e => insertByKills e sorted) l [].

(** The messages that the embedded part of the room sends. *)
Inductive ServerMessage : Type :=
| PlayerJoinedMessage (playerId : Z) (nickname : string) (isBot : bool)
| PlayerLeftMessage (playerId : Z) (nickname : string)
| RoundEndMessage (scoreboard : list PlayerScore.t).

(** A [RoomClient]: its [playerId] field and what [send] was called
    with, oldest first. *)
Record RoomClient : Type := mkClient {
  playerId : Z;
  sent : list ServerMessage
}.

Module GameRoom.
Section Def.
Context {num : Type} `{JSNumber num}.
Variable imports : Imports num.
Local Open Scope num_scope.

(** The room's fields; [tickTimer] records whether the interval timer
    is set. *)
Record t : Type := mk {
  id : string;
  state : RoomState;
  world : GameWorld.t num;
  clients : JSMap.t RoomClient;
  roundTimer : num;
  tickTimer : bool;
  nextPlayerId : Z;
  roundDuration : num;
  aiBots : JSMap.t (AIPlayer.t num);
  aiIdCounter : Z;
  lastInputTime : JSMap.t num;
  lastAFKCheck : num
}.

Definition set_state (v : RoomState) (r : t) : t :=
  mk (id r) v (world r) (clients r) (roundTimer r) (tickTimer r) (nextPlayerId r) (roundDuration r) (aiBots r) (aiIdCounter r) (lastInputTime r) (lastAFKCheck r).
Definition set_world (v : GameWorld.t num) (r : t) : t :=
  mk (id r) (state r) v (clients r) (roundTimer r) (tickTimer r) (nextPlayerId r) (roundDuration r) (aiBots r) (aiIdCounter r) (lastInputTime r) (lastAFKCheck r).
Definition set_clients (v : JSMap.t RoomClient) (r : t) : t :=
  mk (id r) (state r) (world r) v (roundTimer r) (tickTimer r) (nextPlayerId r) (roundDuration r) (aiBots r) (aiIdCounter r) (lastInputTime r) (lastAFKCheck r).
Definition set_roundTimer (v : num) (r : t) : t :=
  mk (id r) (state r) (world r) (clients r) v (tickTimer r) (nextPlayerId r) (roundDuration r) (aiBots r) (aiIdCounter r) (lastInputTime r) (lastAFKCheck r).
Definition set_tickTimer (v : bool) (r : t) : t :=
  mk (id r) (state r) (world r) (clients r) (roundTimer r) v (nextPlayerId r) (roundDuration r) (aiBots r) (aiIdCounter r) (lastInputTime r) (lastAFKCheck r).
Definition set_nextPlayerId (v : Z) (r : t) : t :=
  mk (id r) (state r) (world r) (clients r) (roundTimer r) (tickTimer r) v (roundDuration r) (aiBots r) (aiIdCounter r) (lastInputTime r) (lastAFKCheck r).
Definition set_roundDuration (v : num) (r : t) : t :=
  mk (id r) (state r) (world r) (clients r) (roundTimer r) (tickTimer r) (nextPlayerId r) v (aiBots r) (aiIdCounter r) (lastInputTime r) (lastAFKCheck r).
Definition set_aiBots (v : JSMap.t (AIPlayer.t num)) (r : t) : t :=
  mk (id r) (state r) (world r) (clients r) (roundTimer r) (tickTimer r) (nextPlayerId r) (roundDuration r) v (aiIdCounter r) (lastInputTime r) (lastAFKCheck r).
Definition set_aiIdCounter (v : Z) (r : t) : t :=
  mk (id r) (state r) (world r) (clients r) (roundTimer r) (tickTimer r) (nextPlayerId r) (roundDuration r) (aiBots r) v (lastInputTime r) (lastAFKCheck r).
Definition set_lastInputTime (v : JSMap.t num) (r : t) : t :=
  mk (id r) (state r) (world r) (clients r) (roundTimer r) (tickTimer r) (nextPlayerId r) (roundDuration r) (aiBots r) (aiIdCounter r) v (lastAFKCheck r).
Definition set_lastAFKCheck (v : num) (r : t) : t :=
  mk (id r) (state r) (world r) (clients r) (roundTimer r) (tickTimer r) (nextPlayerId r) (roundDuration r) (aiBots r) (aiIdCounter r) (lastInputTime r) v.

Definition broadcastJSON (msg : ServerMessage) (r : t) : t :=
  set_clients
    (List.map (fun e : Z * RoomClient =>
                 (fst e, mkClient (playerId (snd e)) (sent (snd e) ++ [msg])))
       (clients r)) r.

Definition startTickLoop (r : t) : t := set_tickTimer true r.
Definition stopTickLoop (r : t) : t := set_tickTimer false r.

Definition startRound (r : t) : t :=
  let r := set_state InRound r in
  let r := set_roundTimer #0 r in
  let w := world r in
  let w :=
    fold_left (fun w ref => GameWorld.modify ref Player.resetStats w)
      (GameWorld.playerRefs w) w in
  startTickLoop (set_world w r).

(** ** AI management *)

Definition removeAIBot (botId : Z) (r : t) : t :=
  let r := set_aiBots (JSMap.delete botId (aiBots r)) r in
  set_world (GameWorld.removePlayer botId (world r)) r.

Fixpoint addAIBots (count : nat) (difficulty : string) (r : t)
  : Proc.M num t :=
  match count with
  | O => Proc.ret r
  | S count' =>
      if (MAX_PLAYERS <=? JSMap.size (GameWorld.players (world r)))%nat
      then Proc.ret r
      else
        (let id := aiIdCounter r in
         let r := set_aiIdCounter (id + 1)%Z r in
         '(player, ai) <- AIPlayer.create id difficulty ;;
         '(ref, w) <- GameWorld.addPlayer imports player (world r) ;;
         let r := set_world w r in
         let r := set_aiBots (JSMap.set id (ai ref) (aiBots r)) r in
         addAIBots count' difficulty r)%proc
  end.

Definition fillWithAIBots (r : t) : Proc.M num t :=
  let totalPlayers := JSMap.size (GameWorld.players (world r)) in
  if (totalPlayers <? MAX_PLAYERS)%nat
  then addAIBots (MAX_PLAYERS - totalPlayers) "normal" r
  else Proc.ret r.

Definition getAICount (r : t) : nat := JSMap.size (aiBots r).

(** [new GameRoom(id, mapSeed)]; [mapSeed] stands for
    [mapSeed ?? Date.now()]. *)
Definition new (id : string) (mapSeed : num) : Proc.M num t :=
  fillWithAIBots
    (mk id Warmup (GameWorld.new imports mapSeed) [] #0 false 1%Z
        (#300 * #1000) [] 100%Z [] #0).

(** ** Admission and removal *)

(** The part of [addPlayer] after the capacity test; [now] is
    [Date.now()].  The joining client's [playerId] field is set to the
    new id. *)
Definition join (nickname : string) (now : num) (r : t)
  : Proc.M num (option nat * t) :=
  (let player := Player.new (nextPlayerId r) nickname in
   let r := set_nextPlayerId (nextPlayerId r + 1)%Z r in
   '(ref, w) <- GameWorld.addPlayer imports player (world r) ;;
   let r := set_world w r in
   let r :=
     set_clients
       (JSMap.set (Player.id player) (mkClient (Player.id player) [])
          (clients r)) r in
   let r :=
     set_lastInputTime
       (JSMap.set (Player.id player) now (lastInputTime r)) r in
   let r :=
     broadcastJSON (PlayerJoinedMessage (Player.id player) nickname false)
       r in
   let r := startTickLoop r in
   let totalPlayers := (JSMap.size (clients r) + JSMap.size (aiBots r))%nat in
   let r :=
     match state r with
     | Warmup => if (MIN_PLAYERS <=? totalPlayers)%nat then startRound r
                 else r
     | _ => r
     end in
   Proc.ret (Some ref, r))%proc.

(** [addPlayer]: [None] in the result is the [null] result. *)
Definition addPlayer (nickname : string) (now : num) (r : t)
  : Proc.M num (option nat * t) :=
  if (MAX_PLAYERS <=? JSMap.size (GameWorld.players (world r)))%nat then
    match JSMap.keys (aiBots r) with
    | firstBotId :: _ => join nickname now (removeAIBot firstBotId r)
    | [] => Proc.ret (None, r)
    end
  else join nickname now r.

Definition removePlayer (playerId : Z) (r : t) : Proc.M num t :=
  let nickname :=
    match JSMap.get playerId (GameWorld.players (world r)) with
    | Some ref => Player.nickname (GameWorld.objs (world r) ref)
    | None => "Unknown"%string
    end in
  let r := set_world (GameWorld.removePlayer playerId (world r)) r in
  let r := set_clients (JSMap.delete playerId (clients r)) r in
  let r := set_lastInputTime (JSMap.delete playerId (lastInputTime r)) r in
  let r := broadcastJSON (PlayerLeftMessage playerId nickname) r in
  let r :=
    match state r with
    | InRound => if (JSMap.size (clients r) <? MIN_PLAYERS)%nat
                 then set_state Warmup r else r
    | _ => r
    end in
  let r := if (JSMap.size (clients r) =? 0)%nat then stopTickLoop r else r in
  fillWithAIBots r.

(** [handleInput]: a command is queued only for a live combatant. *)
Definition handleInput (playerId : Z) (cmd : InputCmd.t num) (now : num)
    (r : t) : t :=
  let r :=
    match JSMap.get playerId (GameWorld.players (world r)) with
    | Some ref =>
        if Player.alive (GameWorld.objs (world r) ref)
        then set_world (GameWorld.modify ref (Player.pushInput cmd) (world r)) r
        else r
    | None => r
    end in
  set_lastInputTime (JSMap.set playerId now (lastInputTime r)) r.

Definition isEmpty (r : t) : bool := (JSMap.size (clients r) =? 0)%nat.

Definition isFull (r : t) : bool :=
  (MAX_PLAYERS <=? JSMap.size (clients r))%nat.

End Def.
Arguments t : clear implicits.
End GameRoom.

Unset Implicit Arguments.

(** ** The scoreboard and the end of a round *)

Section Scoreboard.
Context {num : Type} `{JSNumber num}.

(** [Player.toScore]. *)
Definition toScore (p : Player.t num) : PlayerScore.t :=
  PlayerScore.mk (Player.id p) (Player.nickname p) (Player.kills p)
    (Player.deaths p) (Player.hits p) (Player.shots p).

(** [GameRoom.getScoreboard]. *)
Definition getScoreboard (r : GameRoom.t num) : list PlayerScore.t :=
  sortByKills
    (List.map (fun ref => toScore (GameWorld.objs (GameRoom.world r) ref))
       (GameWorld.playerRefs (GameRoom.world r))).

End Scoreboard.

Section RoundEnd.
Context {num : Type} `{JSNumber num}.
Variable imports : Imports num.
Local Open Scope num_scope.

(** [endRound], which [tick] calls when the round timer has reached the
    round's duration: the room after it, and the delay in ms of the
    timeout that it sets for [restartRound]. *)
Definition endRound (r : GameRoom.t num) : GameRoom.t num * num :=
  let r := GameRoom.set_state RoundEnd r in
  let r := GameRoom.stopTickLoop r in
  let scoreboard := getScoreboard r in
  let r := GameRoom.broadcastJSON (RoundEndMessage scoreboard) r in
  (r, #3000).

(** [world.addPlayer(bot.player)] in [restartRound]: the Player object
    is the one that the controller holds, at its reference [ref]. *)
Definition readd (ref : nat) (w : GameWorld.t num)
  : Proc.M num (GameWorld.t num) :=
  (let w :=
     GameWorld.set_players
       (JSMap.set (Player.id (GameWorld.objs w ref)) ref
          (GameWorld.players w)) w in
   '(_, w) <- GameWorld.respawnAtSpawnPoint imports ref w ;;
   Proc.ret w)%proc.

(** The loop of [restartRound] over the AI controllers. *)
Fixpoint readdBots (bots : list (AIPlayer.t num)) (w : GameWorld.t num)
  : Proc.M num (GameWorld.t num) :=
  match bots with
  | [] => Proc.ret w
  | bot :: rest =>
      match
        JSMap.get (Player.id (GameWorld.objs w (AIPlayer.player bot)))
          (GameWorld.players w)
      with
      | Some _ => readdBots rest w
      | None =>
          (w <- readd (AIPlayer.player bot) w ;; readdBots rest w)%proc
      end
  end.

(** [restartRound], the callback of the timeout of [endRound]; [now] is
    [Date.now()]. *)
Definition restartRound (now : num) (r : GameRoom.t num)
  : Proc.M num (GameRoom.t num) :=
  (w <- GameWorld.reset imports now (GameRoom.world r) ;;
   w <- readdBots (JSMap.values (GameRoom.aiBots r)) w ;;
   let r := GameRoom.set_world w r in
   Proc.ret
     (if (MIN_PLAYERS <=? JSMap.size (GameRoom.clients r))%nat
         || (0 <? JSMap.size (GameRoom.aiBots r))%nat
      then GameRoom.startRound r
      else GameRoom.set_state Warmup r))%proc.

End RoundEnd.

(* ================================================================== *)
(** * Vocabulary of the statements *)
(* ================================================================== *)

Section Vocabulary.
Context {num : Type} `{JSNumber num}.

(** Damage amounts applied to one combatant in succession: how many of
    the calls of [takeDamage] reported a death, and the combatant after
    the last call. *)
Fixpoint damageAll (amounts : list num) (p : Player.t num)
  : nat * Player.t num :=
  match amounts with
  | [] => (0, p)
  | amount :: rest =>
      let '(died, p') := Player.takeDamage amount p in
      let '(n, p'') := damageAll rest p' in
      ((if died then 1 else 0) + n, p'')
  end.

Definition isDeathOf (victim : Z) (e : GameEvent num) : bool :=
  match e with
  | DeathEvent v _ _ _ => (v =? victim)%Z
  | _ => false
  end.

Definition isKillBy (killer : Z) (e : GameEvent num) : bool :=
  match e with
  | DeathEvent _ k _ _ => (k =? killer)%Z
  | _ => false
  end.

Definition isRespawnOf (playerId : Z) (e : GameEvent num) : bool :=
  match e with
  | RespawnEvent i _ => (i =? playerId)%Z
  | _ => false
  end.

(** The number of death events of [victim], and of death events that
    name [killer], in a list of events. *)
Definition deathsOf (victim : Z) (evs : list (GameEvent num)) : nat :=
  List.length (filter (isDeathOf victim) evs).

Definition killsBy (killer : Z) (evs : list (GameEvent num)) : nat :=
  List.length (filter (isKillBy killer) evs).

End Vocabulary.

(* ================================================================== *)
(** * Player: damage and input *)
(* ================================================================== *)

Section PlayerFacts.
Context {num : Type} `{JSNumber num}.

Lemma takeDamage_dead (amount : num) (p : Player.t num) :
  Player.alive p = false -> Player.takeDamage amount p = (false, p).
Proof.
  intros Hdead. unfold Player.takeDamage. now rewrite Hdead.
Qed.

(** A call that reports a death found the combatant alive and leaves it
    not alive. *)
Lemma takeDamage_died (amount : num) (p p' : Player.t num) :
  Player.takeDamage amount p = (true, p') ->
  Player.alive p = true /\ Player.alive p' = false.
Proof.
  unfold Player.takeDamage.
  destruct (Player.alive p) eqn:Halive; cbn [negb]; [|discriminate].
  destruct (nleb _ _); inversion 1; subst; auto.
Qed.

(** A call that reports no death leaves the alive flag as it was. *)
Lemma takeDamage_survived (amount : num) (p p' : Player.t num) :
  Player.takeDamage amount p = (false, p') ->
  Player.alive p' = Player.alive p.
Proof.
  unfold Player.takeDamage.
  destruct (Player.alive p) eqn:Halive; cbn [negb].
  - destruct (nleb _ _); inversion 1; subst; cbn; auto.
  - inversion 1; subst; auto.
Qed.

(** [takeDamage] touches only [hp], [alive], the input queue, the last
    input and the velocity. *)
Lemma takeDamage_frame (amount : num) (p : Player.t num) :
  let p' := snd (Player.takeDamage amount p) in
  Player.id p' = Player.id p /\ Player.nickname p' = Player.nickname p
  /\ Player.kills p' = Player.kills p /\ Player.deaths p' = Player.deaths p
  /\ Player.hits p' = Player.hits p /\ Player.shots p' = Player.shots p
  /\ Player.position p' = Player.position p.
Proof.
  unfold Player.takeDamage.
  destruct (Player.alive p); cbn [negb]; [|cbn; tauto].
  destruct (nleb _ _); cbn; tauto.
Qed.

Lemma damageAll_dead (amounts : list num) (p : Player.t num) :
  Player.alive p = false -> damageAll amounts p = (0, p).
Proof.
  intros Hdead. induction amounts as [|a rest IH]; cbn; [reflexivity|].
  rewrite (takeDamage_dead a p Hdead), IH. reflexivity.
Qed.

Lemma damageAll_at_most_once (amounts : list num) (p : Player.t num) :
  fst (damageAll amounts p) <= 1.
Proof.
  revert p. induction amounts as [|a rest IH]; intros p; cbn; [lia|].
  destruct (Player.takeDamage a p) as [died p'] eqn:Htd.
  destruct died.
  - apply takeDamage_died in Htd as [_ Hdead].
    rewrite (damageAll_dead rest p' Hdead). cbn. lia.
  - specialize (IH p'). destruct (damageAll rest p'). cbn in *. lia.
Qed.

End PlayerFacts.

(** C10.  Damage applied to a combatant that is not alive does nothing:
    [takeDamage] returns [false] and returns the combatant as it was
    (health, alive flag, velocity, input queue and statistics included);
    no further damage in whatever succession reports a death for it, and
    the splash loop of an explosion leaves the world as it is when it
    visits it.  For any combatant, dead or alive, a succession of damage
    reports a death at most once. *)
Theorem takeDamage_not_alive_is_noop :
  forall (num : Type) (N : JSNumber num) (p : Player.t num) (amount : num),
    Player.alive p = false ->
    Player.takeDamage amount p = (false, p)
    /\ (forall amounts, damageAll amounts p = (0, p))
    /\ (forall proj direct (w : GameWorld.t num) r,
           GameWorld.objs w r = p -> GameWorld.splashOne proj direct w r = w)
    /\ (forall amounts (q : Player.t num), fst (damageAll amounts q) <= 1).
Proof.
  intros num N p amount Hdead. repeat split.
  - now apply takeDamage_dead.
  - intros amounts. now apply damageAll_dead.
  - intros proj direct w r Hobj. unfold GameWorld.splashOne.
    rewrite Hobj, Hdead. reflexivity.
  - intros amounts q. apply damageAll_at_most_once.
Qed.

(** A combatant destroyed by one hit of its full health, in binary64. *)
Definition wreck : Player.t F64.float :=
  snd (Player.takeDamage TANK_MAX_HP (Player.new 7 "Wreck")).

Lemma takeDamage_not_alive_is_noop_witness :
  Player.alive wreck = false
  /\ Player.takeDamage DIRECT_HIT_DAMAGE wreck = (false, wreck).
Proof.
  split.
  - vm_compute. reflexivity.
  - apply (takeDamage_not_alive_is_noop F64.float F64Number wreck
             DIRECT_HIT_DAMAGE).
    vm_compute. reflexivity.
Defined.

(** C4.  With an empty input queue and a previously applied command,
    [popInput] returns that command with [fire] forced to [false] and
    every other field as it was, and leaves the combatant unchanged; with
    a non-empty queue it returns the oldest queued command as it is,
    removes it from the queue and records it as the last input. *)
Theorem popInput_replays_last_without_fire :
  forall (num : Type) (N : JSNumber num) (p : Player.t num),
    (forall last,
        Player.inputQueue p = [] -> Player.lastInput p = Some last ->
        exists cmd,
          Player.popInput p = (Some cmd, p)
          /\ InputCmd.fire cmd = false
          /\ InputCmd.type cmd = InputCmd.type last
          /\ InputCmd.seq cmd = InputCmd.seq last
          /\ InputCmd.forward cmd = InputCmd.forward last
          /\ InputCmd.backward cmd = InputCmd.backward last
          /\ InputCmd.turnLeft cmd = InputCmd.turnLeft last
          /\ InputCmd.turnRight cmd = InputCmd.turnRight last
          /\ InputCmd.turretYaw cmd = InputCmd.turretYaw last
          /\ InputCmd.gunPitch cmd = InputCmd.gunPitch last
          /\ InputCmd.stabilize cmd = InputCmd.stabilize last
          /\ InputCmd.timestamp cmd = InputCmd.timestamp last)
    /\ (forall oldest rest,
           Player.inputQueue p = oldest :: rest ->
           fst (Player.popInput p) = Some oldest
           /\ Player.inputQueue (snd (Player.popInput p)) = rest
           /\ Player.lastInput (snd (Player.popInput p)) = Some oldest).
Proof.
  intros num N p. split.
  - intros last Hq Hlast. exists (InputCmd.with_fire last false).
    unfold Player.popInput. rewrite Hq, Hlast. cbn. repeat split.
  - intros oldest rest Hq. unfold Player.popInput. rewrite Hq. cbn. auto.
Qed.

(** A combatant whose last applied command asked to fire and whose
    queue is empty, and one with two queued commands, in binary64. *)
Definition firingCmd (s : Z) : InputCmd.t F64.float :=
  InputCmd.mk 2 s true false false true (dec 12 1) (dec 3 1) true false
    (of_Z 1700000000000).

Definition idlePlayer : Player.t F64.float :=
  Player.set_lastInput (Some (firingCmd 41)) (Player.new 3 "Idle").

Definition busyPlayer : Player.t F64.float :=
  Player.pushInput (firingCmd 43) (Player.pushInput (firingCmd 42) idlePlayer).

Lemma popInput_replays_last_without_fire_witness :
  (exists cmd,
      Player.popInput idlePlayer = (Some cmd, idlePlayer)
      /\ InputCmd.fire cmd = false /\ InputCmd.seq cmd = 41%Z
      /\ InputCmd.forward cmd = true)
  /\ fst (Player.popInput busyPlayer) = Some (firingCmd 42).
Proof.
  destruct (popInput_replays_last_without_fire F64.float F64Number idlePlayer)
    as [Hidle _].
  destruct (popInput_replays_last_without_fire F64.float F64Number busyPlayer)
    as [_ Hbusy].
  split.
  - destruct (Hidle (firingCmd 41) eq_refl eq_refl)
      as (cmd & Hpop & Hfire & _ & Hseq & Hfwd & _).
    exists cmd. repeat split; assumption.
  - apply (Hbusy (firingCmd 42) [firingCmd 43] eq_refl).
Defined.

(* ================================================================== *)
(** * The real reading: comparisons and constants *)
(* ================================================================== *)

Section RealReading.
Local Open Scope R_scope.

Lemma Rltb_true (x y : R) : Rltb x y = true <-> x < y.
Proof. unfold Rltb. destruct (Rlt_dec x y); split; intros; auto; discriminate. Qed.

Lemma Rltb_false (x y : R) : Rltb x y = false <-> y <= x.
Proof.
  unfold Rltb. destruct (Rlt_dec x y); split; intros; auto; try discriminate; lra.
Qed.

Lemma Rleb_true (x y : R) : Rleb x y = true <-> x <= y.
Proof. unfold Rleb. destruct (Rle_dec x y); split; intros; auto; discriminate. Qed.

Lemma Rleb_false (x y : R) : Rleb x y = false <-> y < x.
Proof.
  unfold Rleb. destruct (Rle_dec x y); split; intros; auto; try discriminate; lra.
Qed.

Lemma dec_real (m : Z) (k : nat) :
  dec (num := R) m k = IZR m / IZR (10 ^ Z.of_nat k).
Proof. reflexivity. Qed.

Lemma SPLASH_RADIUS_real : SPLASH_RADIUS (num := R) = 3.
Proof. reflexivity. Qed.

Lemma DIRECT_HIT_DAMAGE_real : DIRECT_HIT_DAMAGE (num := R) = 20.
Proof. reflexivity. Qed.

Lemma SPLASH_DAMAGE_FACTOR_real : SPLASH_DAMAGE_FACTOR (num := R) = 1 / 2.
Proof. unfold SPLASH_DAMAGE_FACTOR. rewrite dec_real. cbn. lra. Qed.

Lemma TURRET_YAW_MAX_real : TURRET_YAW_MAX (num := R) = PI * (3 / 4).
Proof. unfold TURRET_YAW_MAX. rewrite dec_real. cbn. lra. Qed.

Lemma GUN_PITCH_MIN_real : GUN_PITCH_MIN (num := R) = - (15 / 100).
Proof. unfold GUN_PITCH_MIN. rewrite dec_real. cbn. lra. Qed.

Lemma GUN_PITCH_MAX_real : GUN_PITCH_MAX (num := R) = 1 / 2.
Proof. unfold GUN_PITCH_MAX. rewrite dec_real. cbn. lra. Qed.

Lemma TANK_DAMPING_real : TANK_DAMPING (num := R) = 985 / 1000.
Proof. unfold TANK_DAMPING. rewrite dec_real. cbn. lra. Qed.

Lemma TANK_MAX_SPEED_real : TANK_MAX_SPEED (num := R) = 1459 / 100.
Proof. unfold TANK_MAX_SPEED. rewrite dec_real. cbn. lra. Qed.

Lemma TURRET_TURN_RATE_real : TURRET_TURN_RATE (num := R) = 2.
Proof. reflexivity. Qed.

Lemma clamp_real (value lo hi : R) :
  clamp value lo hi = Rmax lo (Rmin hi value).
Proof. reflexivity. Qed.

(** [clamp] returns a value of the range whenever the range is not
    empty. *)
Lemma clamp_range (value lo hi : R) :
  lo <= hi -> lo <= clamp value lo hi <= hi.
Proof.
  intros Hle. rewrite clamp_real. unfold Rmax, Rmin.
  destruct (Rle_dec hi value); destruct (Rle_dec lo _); lra.
Qed.

Lemma clamp_inside (value lo hi : R) :
  lo <= value <= hi -> clamp value lo hi = value.
Proof.
  intros Hin. rewrite clamp_real. unfold Rmax, Rmin.
  destruct (Rle_dec hi value); destruct (Rle_dec lo _); lra.
Qed.

Lemma distanceTo_nonneg (a b : Vec3.t R) : 0 <= Vec3.distanceTo a b.
Proof. unfold Vec3.distanceTo. cbn. apply sqrt_pos. Qed.

Lemma distanceTo_self (a : Vec3.t R) : Vec3.distanceTo a a = 0.
Proof.
  unfold Vec3.distanceTo. cbn.
  replace ((Vec3.x a - Vec3.x a) * (Vec3.x a - Vec3.x a)
           + (Vec3.y a - Vec3.y a) * (Vec3.y a - Vec3.y a)
           + (Vec3.z a - Vec3.z a) * (Vec3.z a - Vec3.z a)) with 0 by ring.
  apply sqrt_0.
Qed.

(** The splash damage as a function of the distance alone. *)
Definition splashAt (dist : R) : R :=
  if Rltb 3 dist then 0 else 20 * (1 - dist / 3) * (1 / 2).

Lemma calculateSplashDamage_splashAt (hitPos targetPos : Vec3.t R) :
  calculateSplashDamage hitPos targetPos
  = splashAt (Vec3.distanceTo hitPos targetPos).
Proof.
  unfold calculateSplashDamage, splashAt.
  rewrite SPLASH_DAMAGE_FACTOR_real. reflexivity.
Qed.

End RealReading.

(** C5.  Over the reals, for all positions: the splash damage is 0 when
    the distance is at least SPLASH_RADIUS, it is
    DIRECT_HIT_DAMAGE * SPLASH_DAMAGE_FACTOR when the distance is 0, and
    a larger distance never gives a larger damage. *)
Theorem calculateSplashDamage_falloff :
  (forall hitPos targetPos : Vec3.t R,
      (SPLASH_RADIUS <= Vec3.distanceTo hitPos targetPos)%R ->
      calculateSplashDamage hitPos targetPos = 0%R)
  /\ (forall hitPos targetPos : Vec3.t R,
         Vec3.distanceTo hitPos targetPos = 0%R ->
         calculateSplashDamage hitPos targetPos
         = (DIRECT_HIT_DAMAGE * SPLASH_DAMAGE_FACTOR)%R)
  /\ (forall hit1 target1 hit2 target2 : Vec3.t R,
         (Vec3.distanceTo hit1 target1 <= Vec3.distanceTo hit2 target2)%R ->
         (calculateSplashDamage hit2 target2
          <= calculateSplashDamage hit1 target1)%R).
Proof.
  repeat split.
  - intros hitPos targetPos Hfar.
    rewrite calculateSplashDamage_splashAt. rewrite SPLASH_RADIUS_real in Hfar.
    unfold splashAt. destruct (Rltb 3 _) eqn:Hcmp; [reflexivity|].
    apply Rltb_false in Hcmp. lra.
  - intros hitPos targetPos Hzero.
    rewrite calculateSplashDamage_splashAt, Hzero, SPLASH_DAMAGE_FACTOR_real,
      DIRECT_HIT_DAMAGE_real.
    unfold splashAt. destruct (Rltb 3 0) eqn:Hcmp.
    + apply Rltb_true in Hcmp. lra.
    + lra.
  - intros hit1 target1 hit2 target2 Hle.
    rewrite !calculateSplashDamage_splashAt.
    pose proof (distanceTo_nonneg hit1 target1) as Hpos.
    unfold splashAt.
    destruct (Rltb 3 (Vec3.distanceTo hit2 target2)) eqn:H2;
      destruct (Rltb 3 (Vec3.distanceTo hit1 target1)) eqn:H1;
      rewrite ?Rltb_true, ?Rltb_false in *; lra.
Qed.

(** Two targets, at distance 0 and at distance 3 from a hit at the
    origin. *)
Definition hitAtOrigin : Vec3.t R := Vec3.mk 0%R 0%R 0%R.
Definition targetAtThree : Vec3.t R := Vec3.mk 3%R 0%R 0%R.

Lemma calculateSplashDamage_falloff_witness :
  calculateSplashDamage hitAtOrigin targetAtThree = 0%R
  /\ calculateSplashDamage hitAtOrigin hitAtOrigin
     = (DIRECT_HIT_DAMAGE * SPLASH_DAMAGE_FACTOR)%R
  /\ (calculateSplashDamage hitAtOrigin targetAtThree
      <= calculateSplashDamage hitAtOrigin hitAtOrigin)%R.
Proof.
  destruct calculateSplashDamage_falloff as (Hfar & Hzero & Hmono).
  assert (Hd0 : Vec3.distanceTo hitAtOrigin hitAtOrigin = 0%R)
    by apply distanceTo_self.
  assert (Hd3 : Vec3.distanceTo hitAtOrigin targetAtThree = 3%R).
  { unfold Vec3.distanceTo. cbn.
    replace ((0 - 3) * (0 - 3) + (0 - 0) * (0 - 0) + (0 - 0) * (0 - 0))%R
      with (3 * 3)%R by ring.
    apply sqrt_square. lra. }
  split; [|split].
  - apply Hfar. rewrite Hd3, SPLASH_RADIUS_real. lra.
  - apply Hzero. exact Hd0.
  - apply Hmono. rewrite Hd0, Hd3. lra.
Defined.

(* ================================================================== *)
(** * Physics: angles and the turret and gun ranges *)
(* ================================================================== *)

Section AngleFacts.
Local Open Scope R_scope.
Import Physics.

Lemma two_PI_pos : 0 < 2 * PI.
Proof. pose proof PI_RGT_0. lra. Qed.

(** The loops of [normalizeAngle] leave their condition within the
    fuel they are given: the fuel never cuts a loop short. *)
Lemma wrap_down_le (fuel : nat) (angle : R) :
  angle - INR fuel * (2 * PI) <= PI -> wrap_down fuel angle <= PI.
Proof.
  revert angle. induction fuel as [|fuel IH]; intros angle Hfuel.
  - cbn in *. lra.
  - cbn [wrap_down]. destruct (Rltb PI angle) eqn:Hcmp.
    + apply IH. rewrite S_INR in Hfuel. lra.
    + apply Rltb_false in Hcmp. exact Hcmp.
Qed.

Lemma wrap_up_ge (fuel : nat) (angle : R) :
  - PI <= angle + INR fuel * (2 * PI) -> - PI <= wrap_up fuel angle.
Proof.
  revert angle. induction fuel as [|fuel IH]; intros angle Hfuel.
  - cbn in *. lra.
  - cbn [wrap_up]. destruct (Rltb angle (- PI)) eqn:Hcmp.
    + apply IH. rewrite S_INR in Hfuel. lra.
    + apply Rltb_false in Hcmp. exact Hcmp.
Qed.

Lemma wrap_fuel_enough (angle : R) :
  Rabs angle < INR (wrap_fuel angle) * (2 * PI).
Proof.
  unfold wrap_fuel. pose proof two_PI_pos as Hpos.
  destruct (archimed (Rabs angle / (2 * PI))) as [Hup _].
  assert (Hnonneg : 0 <= Rabs angle / (2 * PI)).
  { apply Rmult_le_pos; [apply Rabs_pos|]. left. now apply Rinv_0_lt_compat. }
  assert (Hz : (0 <= up (Rabs angle / (2 * PI)))%Z).
  { apply le_IZR. lra. }
  rewrite INR_IZR_INZ, Z2Nat.id by exact Hz.
  apply Rmult_lt_reg_r with (r := / (2 * PI)); [now apply Rinv_0_lt_compat|].
  rewrite Rmult_assoc, Rinv_r by lra. unfold Rdiv in Hup. lra.
Qed.

Lemma wrap_down_exits (angle : R) :
  Rltb PI (wrap_down (wrap_fuel angle) angle) = false.
Proof.
  apply Rltb_false, wrap_down_le.
  pose proof (wrap_fuel_enough angle). pose proof (Rle_abs angle).
  pose proof PI_RGT_0. lra.
Qed.

Lemma wrap_up_exits (angle : R) :
  Rltb (wrap_up (wrap_fuel angle) angle) (- PI) = false.
Proof.
  apply Rltb_false, wrap_up_ge.
  pose proof (wrap_fuel_enough angle). pose proof (Rle_abs (- angle)).
  rewrite Rabs_Ropp in *. pose proof PI_RGT_0. lra.
Qed.

(** More fuel than a loop needs changes nothing. *)
Lemma wrap_down_more (fuel extra : nat) (angle : R) :
  Rltb PI (wrap_down fuel angle) = false ->
  wrap_down (fuel + extra) angle = wrap_down fuel angle.
Proof.
  revert angle. induction fuel as [|fuel IH]; intros angle Hexit.
  - cbn in *. destruct extra; cbn; [reflexivity|]. now rewrite Hexit.
  - cbn [wrap_down Nat.add] in *.
    destruct (Rltb PI angle); [now apply IH|reflexivity].
Qed.

Lemma wrap_up_more (fuel extra : nat) (angle : R) :
  Rltb (wrap_up fuel angle) (- PI) = false ->
  wrap_up (fuel + extra) angle = wrap_up fuel angle.
Proof.
  revert angle. induction fuel as [|fuel IH]; intros angle Hexit.
  - cbn in *. destruct extra; cbn; [reflexivity|]. now rewrite Hexit.
  - cbn [wrap_up Nat.add] in *.
    destruct (Rltb angle (- PI)); [now apply IH|reflexivity].
Qed.

Lemma wrap_up_le (fuel : nat) (angle : R) :
  angle <= PI -> wrap_up fuel angle <= PI.
Proof.
  revert angle. induction fuel as [|fuel IH]; intros angle Hle; cbn; [lra|].
  destruct (Rltb angle (- PI)) eqn:Hcmp; [|lra].
  apply Rltb_true in Hcmp. apply IH. pose proof PI_RGT_0. lra.
Qed.

Lemma normalizeAngle_range (angle : R) :
  - PI <= normalizeAngle angle <= PI.
Proof.
  unfold normalizeAngle. split.
  - apply Rltb_false, wrap_up_exits.
  - apply wrap_up_le, Rltb_false, wrap_down_exits.
Qed.

Lemma wrap_down_inside (fuel : nat) (angle : R) :
  angle <= PI -> wrap_down fuel angle = angle.
Proof.
  intros Hle. destruct fuel; cbn; [reflexivity|].
  destruct (Rltb PI angle) eqn:Hcmp; [|reflexivity].
  apply Rltb_true in Hcmp. lra.
Qed.

Lemma wrap_up_inside (fuel : nat) (angle : R) :
  - PI <= angle -> wrap_up fuel angle = angle.
Proof.
  intros Hle. destruct fuel; cbn; [reflexivity|].
  destruct (Rltb angle (- PI)) eqn:Hcmp; [|reflexivity].
  apply Rltb_true in Hcmp. lra.
Qed.

Lemma normalizeAngle_inside (angle : R) :
  - PI <= angle <= PI -> normalizeAngle angle = angle.
Proof.
  intros [Hlo Hhi]. unfold normalizeAngle.
  rewrite (wrap_down_inside _ _ Hhi). now apply wrap_up_inside.
Qed.

Lemma normalizeAngle_idempotent (angle : R) :
  normalizeAngle (normalizeAngle angle) = normalizeAngle angle.
Proof. apply normalizeAngle_inside, normalizeAngle_range. Qed.

End AngleFacts.

Section Ticks.
Local Open Scope R_scope.

(** The successive states of a tank along a sequence of physics steps,
    each with its own input and its own [dt]: the state after the first
    step, after the second, and so on. *)
Fixpoint physicsTrace (steps : list (PhysicsInput R * R))
    (h : option (R -> R -> R)) (tank : TankPhysicsState.t R)
  : list (TankPhysicsState.t R) :=
  match steps with
  | [] => []
  | (input, dt) :: rest =>
      let tank' := Physics.updateTankPhysics tank input dt h in
      tank' :: physicsTrace rest h tank'
  end.

Definition aimInRange (tank : TankPhysicsState.t R) : Prop :=
  - TURRET_YAW_MAX <= TankPhysicsState.turretYaw tank <= TURRET_YAW_MAX
  /\ GUN_PITCH_MIN <= TankPhysicsState.gunPitch tank <= GUN_PITCH_MAX.

Lemma updateTankPhysics_aim (tank : TankPhysicsState.t R)
    (input : PhysicsInput R) (dt : R) (h : option (R -> R -> R)) :
  aimInRange (Physics.updateTankPhysics tank input dt h).
Proof.
  unfold aimInRange, Physics.updateTankPhysics.
  cbn [TankPhysicsState.turretYaw TankPhysicsState.gunPitch]. split.
  - apply clamp_range. rewrite TURRET_YAW_MAX_real.
    pose proof PI_RGT_0. lra.
  - apply clamp_range. rewrite GUN_PITCH_MIN_real, GUN_PITCH_MAX_real. lra.
Qed.

End Ticks.

(* ================================================================== *)
(** * C2 in binary64: the clamp and NaN *)
(* ================================================================== *)

Section Binary64Order.
Import SpecFloat.

Lemma SFcompare_antisym (a b : spec_float) :
  SFcompare b a = option_map CompOpp (SFcompare a b).
Proof.
  destruct a as [sa|sa| |sa ma ea], b as [sb|sb| |sb mb eb];
    try reflexivity;
    try (destruct sa; reflexivity);
    try (destruct sb; reflexivity);
    try (destruct sa, sb; reflexivity).
  cbn [SFcompare option_map].
  destruct sa, sb; try reflexivity.
  - rewrite (Z.compare_antisym ea eb).
    destruct (Z.compare ea eb); cbn [CompOpp]; try reflexivity.
    rewrite (Pos.compare_cont_antisym ma mb Eq). reflexivity.
  - rewrite (Z.compare_antisym ea eb).
    destruct (Z.compare ea eb); cbn [CompOpp]; try reflexivity.
    rewrite (Pos.compare_cont_antisym ma mb Eq). reflexivity.
Qed.

Lemma SFcompare_refl (a : spec_float) :
  a <> S754_nan -> SFcompare a a = Some Eq.
Proof.
  destruct a as [s|s| |s m e]; intros Hnan; try reflexivity.
  - now destruct s.
  - contradiction.
  - cbn [SFcompare]. rewrite Z.compare_refl, Pos.compare_cont_refl.
    now destruct s.
Qed.

Lemma SFcompare_nan (a b : spec_float) :
  SFcompare a b = None <-> a = S754_nan \/ b = S754_nan.
Proof.
  destruct a as [sa|sa| |sa ma ea], b as [sb|sb| |sb mb eb]; cbn;
    split; intros Hc; try discriminate Hc; auto;
    destruct Hc as [Hc|Hc]; discriminate Hc.
Qed.

(** A double that is a number. *)
Definition isNumber (x : F64.float) : Prop := PrimFloat.is_nan x = false.

Lemma isNumber_spec (x : F64.float) :
  isNumber x <-> FloatOps.Prim2SF x <> S754_nan.
Proof.
  unfold isNumber, PrimFloat.is_nan.
  rewrite FloatAxioms.eqb_spec. unfold SFeqb.
  destruct (FloatOps.Prim2SF x) as [s|s| |s m e] eqn:Hx.
  - cbn. split; [discriminate|reflexivity].
  - cbn. destruct s; cbn; (split; [discriminate|reflexivity]).
  - cbn. split; [discriminate|]. intros Hne. now contradiction Hne.
  - rewrite SFcompare_refl by discriminate. cbn.
    split; [discriminate|reflexivity].
Qed.

Lemma ltb_leb (a b : F64.float) :
  PrimFloat.ltb a b = true -> PrimFloat.leb a b = true.
Proof.
  rewrite FloatAxioms.ltb_spec, FloatAxioms.leb_spec.
  unfold SFltb, SFleb.
  now destruct (SFcompare _ _) as [[| |]|].
Qed.

Lemma not_ltb_leb (a b : F64.float) :
  isNumber a -> isNumber b ->
  PrimFloat.ltb a b = false -> PrimFloat.leb b a = true.
Proof.
  rewrite !isNumber_spec, FloatAxioms.ltb_spec, FloatAxioms.leb_spec.
  unfold SFltb, SFleb. intros Ha Hb.
  rewrite (SFcompare_antisym (FloatOps.Prim2SF a) (FloatOps.Prim2SF b)).
  destruct (SFcompare (FloatOps.Prim2SF a) (FloatOps.Prim2SF b))
    as [[| |]|] eqn:Hc; cbn; try reflexivity; try discriminate.
  apply SFcompare_nan in Hc. tauto.
Qed.

Lemma leb_refl (a : F64.float) : isNumber a -> PrimFloat.leb a a = true.
Proof.
  rewrite isNumber_spec, FloatAxioms.leb_spec. unfold SFleb.
  intros Ha. now rewrite SFcompare_refl.
Qed.

(** A double is in [[lo, hi]]; false for NaN. *)
Definition within (lo hi x : F64.float) : bool :=
  (PrimFloat.leb lo x && PrimFloat.leb x hi)%bool.

Lemma within_isNumber (lo hi x : F64.float) :
  within lo hi x = true -> isNumber x.
Proof.
  unfold within. intros Hw. apply andb_true_iff in Hw. destruct Hw as [_ Hx].
  apply isNumber_spec. intros Hnan.
  rewrite FloatAxioms.leb_spec, Hnan in Hx. discriminate Hx.
Qed.

(** [clamp] in binary64: the result lies in the range, or it is NaN
    and the value was NaN. *)
Lemma clamp_binary64 (lo hi v : F64.float) :
  isNumber lo -> isNumber hi -> PrimFloat.leb lo hi = true ->
  (isNumber v /\ within lo hi (clamp v lo hi) = true)
  \/ (PrimFloat.is_nan v = true /\ PrimFloat.is_nan (clamp v lo hi) = true).
Proof.
  intros Hlo Hhi Hle.
  unfold clamp. change (@Math_max F64.float F64Number) with F64.max.
  change (@Math_min F64.float F64Number) with F64.min.
  destruct (PrimFloat.is_nan v) eqn:Hv.
  - right. split; [reflexivity|].
    unfold F64.min. rewrite Hv, orb_true_r.
    unfold F64.max. change (PrimFloat.is_nan PrimFloat.nan) with true.
    now rewrite orb_true_r.
  - left. split; [exact Hv|].
    assert (Hm : isNumber (F64.min hi v)
                 /\ PrimFloat.leb (F64.min hi v) hi = true).
    { unfold F64.min. rewrite Hhi, Hv. cbn [orb].
      destruct (PrimFloat.ltb hi v) eqn:H1; [split; [exact Hhi|]|].
      { now apply leb_refl. }
      destruct (PrimFloat.ltb v hi) eqn:H2;
        [split; [exact Hv|now apply ltb_leb]|].
      destruct (PrimFloat.get_sign hi);
        [split; [exact Hhi|now apply leb_refl]|].
      split; [exact Hv|]. now apply not_ltb_leb. }
    destruct Hm as [Hm Hmle]. set (m := F64.min hi v) in *.
    unfold within, F64.max. rewrite Hlo, Hm. cbn [orb].
    destruct (PrimFloat.ltb lo m) eqn:H1.
    { rewrite (ltb_leb _ _ H1), Hmle. reflexivity. }
    destruct (PrimFloat.ltb m lo) eqn:H2.
    { now rewrite (leb_refl _ Hlo), Hle. }
    destruct (PrimFloat.get_sign lo).
    + rewrite (not_ltb_leb m lo Hm Hlo H2), Hmle. reflexivity.
    + now rewrite (leb_refl _ Hlo), Hle.
Qed.

End Binary64Order.

Section SteeringReal.
Local Open Scope R_scope.
Import Physics.

Lemma Math_abs_real (x : R) : Math_abs x = Rabs x.
Proof.
  unfold Math_abs. change (nltb (of_Z 0) x) with (Rltb 0 x).
  change (nsub (of_Z 0) x) with (0 - x).
  destruct (Rltb 0 x) eqn:Hcmp.
  - apply Rltb_true in Hcmp. symmetry. apply Rabs_right. lra.
  - apply Rltb_false in Hcmp. rewrite Rabs_left1 by lra. lra.
Qed.

Lemma Math_sign_real (x : R) : Math_sign x = Rsign x.
Proof.
  unfold Math_sign, Rsign. change (nltb (of_Z 0) x) with (Rltb 0 x).
  change (nltb x (of_Z 0)) with (Rltb x 0).
  destruct (Rltb 0 x) eqn:H1; [reflexivity|].
  destruct (Rltb x 0) eqn:H2; [reflexivity|].
  apply Rltb_false in H1, H2. lra.
Qed.

(** A loop that has left its condition after [n] iterations is run to
    its end by any larger fuel. *)
Lemma wrapDown_real (n : nat) (angle : R) :
  Rltb PI (wrap_down n angle) = false ->
  forall fuel, (n < fuel)%nat -> wrapDown fuel angle = Some (wrap_down n angle).
Proof.
  revert angle. induction n as [|n IH]; intros angle Hexit fuel Hfuel;
    (destruct fuel as [|fuel]; [lia|]); cbn [wrapDown wrap_down] in *;
    change (nltb Math_PI angle) with (Rltb PI angle).
  - now rewrite Hexit.
  - destruct (Rltb PI angle); [|reflexivity].
    apply (IH _ Hexit). lia.
Qed.

Lemma wrapUp_real (n : nat) (angle : R) :
  Rltb (wrap_up n angle) (- PI) = false ->
  forall fuel, (n < fuel)%nat -> wrapUp fuel angle = Some (wrap_up n angle).
Proof.
  revert angle. induction n as [|n IH]; intros angle Hexit fuel Hfuel;
    (destruct fuel as [|fuel]; [lia|]); cbn [wrapUp wrap_up] in *;
    change (nltb angle (nopp Math_PI)) with (Rltb angle (- PI)).
  - now rewrite Hexit.
  - destruct (Rltb angle (- PI)); [|reflexivity].
    apply (IH _ Hexit). lia.
Qed.

(** The fuel that the two loops of [normalizeAngle] need, and one test
    more to see the second loop out. *)
Definition normalizeFuel (angle : R) : nat :=
  S (Nat.max (wrap_fuel angle)
       (wrap_fuel (wrap_down (wrap_fuel angle) angle))).

Lemma normalizeAngleWithin_real (angle : R) (fuel : nat) :
  (normalizeFuel angle <= fuel)%nat ->
  normalizeAngleWithin fuel angle = Some (normalizeAngle angle).
Proof.
  unfold normalizeFuel, normalizeAngleWithin, normalizeAngle. intros Hfuel.
  rewrite (wrapDown_real _ _ (wrap_down_exits angle)) by lia.
  apply wrapUp_real; [apply wrap_up_exits|lia].
Qed.

(** Over the reals the steering part returns, with enough fuel, what
    the physics step writes to the three angles. *)
Lemma steer_real (tank : TankPhysicsState.t R) (input : PhysicsInput R)
    (dt : R) (h : option (R -> R -> R)) :
  exists enough, forall fuel, (enough <= fuel)%nat ->
    steer fuel tank input dt
    = Some (TankPhysicsState.bodyYaw (updateTankPhysics tank input dt h),
            TankPhysicsState.turretYaw (updateTankPhysics tank input dt h),
            TankPhysicsState.gunPitch (updateTankPhysics tank input dt h)).
Proof.
  unfold steer, updateTankPhysics. cbv zeta.
  cbn [TankPhysicsState.bodyYaw TankPhysicsState.turretYaw
       TankPhysicsState.gunPitch].
  set (yaw2 := if in_turnRight input then _ else _).
  match goal with
  | |- context [normalizeAngleWithin _ (nsub ?t ?y)] => set (d := nsub t y)
  end.
  exists (Nat.max (normalizeFuel yaw2) (normalizeFuel d)).
  intros fuel Hfuel.
  change (if in_turnRight input
          then nsub (if in_turnLeft input
                     then nadd (TankPhysicsState.bodyYaw tank)
                            (nmul TANK_TURN_RATE dt)
                     else TankPhysicsState.bodyYaw tank)
                 (nmul TANK_TURN_RATE dt)
          else if in_turnLeft input
               then nadd (TankPhysicsState.bodyYaw tank)
                      (nmul TANK_TURN_RATE dt)
               else TankPhysicsState.bodyYaw tank) with yaw2.
  rewrite (normalizeAngleWithin_real yaw2) by lia.
  rewrite (normalizeAngleWithin_real d) by lia.
  rewrite Math_abs_real, Math_sign_real. reflexivity.
Qed.

End SteeringReal.

Section SteeringBinary64.
Import SpecFloat.
Local Open Scope num_scope.

Lemma is_nan_spec (x : F64.float) :
  PrimFloat.is_nan x = true <-> FloatOps.Prim2SF x = S754_nan.
Proof.
  pose proof (isNumber_spec x) as Hnum. unfold isNumber in Hnum.
  destruct (PrimFloat.is_nan x).
  - split; [intros _|reflexivity].
    destruct (FloatOps.Prim2SF x) as [s|s| |s m e]; try reflexivity;
      exfalso; assert (Hf : true = false) by (apply Hnum; discriminate);
      discriminate Hf.
  - split; [discriminate|]. intros Hx. exfalso.
    apply (proj1 Hnum eq_refl Hx).
Qed.

Lemma add_nan (x y : F64.float) :
  PrimFloat.is_nan x = true \/ PrimFloat.is_nan y = true ->
  PrimFloat.is_nan (PrimFloat.add x y) = true.
Proof.
  rewrite !is_nan_spec, FloatAxioms.add_spec. unfold FloatAxioms.SF64add.
  intros [Hx|Hy]; [rewrite Hx; reflexivity|rewrite Hy].
  now destruct (FloatOps.Prim2SF x).
Qed.

Lemma sub_nan (x y : F64.float) :
  PrimFloat.is_nan x = true \/ PrimFloat.is_nan y = true ->
  PrimFloat.is_nan (PrimFloat.sub x y) = true.
Proof.
  rewrite !is_nan_spec, FloatAxioms.sub_spec. unfold FloatAxioms.SF64sub.
  intros [Hx|Hy]; [rewrite Hx; reflexivity|rewrite Hy].
  now destruct (FloatOps.Prim2SF x).
Qed.

Lemma mul_nan (x y : F64.float) :
  PrimFloat.is_nan x = true \/ PrimFloat.is_nan y = true ->
  PrimFloat.is_nan (PrimFloat.mul x y) = true.
Proof.
  rewrite !is_nan_spec, FloatAxioms.mul_spec. unfold FloatAxioms.SF64mul.
  intros [Hx|Hy]; [rewrite Hx; reflexivity|rewrite Hy].
  now destruct (FloatOps.Prim2SF x).
Qed.

(** Every comparison with NaN is false. *)
Lemma ltb_nan (x y : F64.float) :
  PrimFloat.is_nan x = true \/ PrimFloat.is_nan y = true ->
  PrimFloat.ltb x y = false.
Proof.
  rewrite !is_nan_spec, FloatAxioms.ltb_spec. unfold SFltb.
  intros [Hx|Hy]; [rewrite Hx; reflexivity|rewrite Hy].
  now destruct (FloatOps.Prim2SF x).
Qed.

Lemma leb_nan (x y : F64.float) :
  PrimFloat.is_nan x = true \/ PrimFloat.is_nan y = true ->
  PrimFloat.leb x y = false.
Proof.
  rewrite !is_nan_spec, FloatAxioms.leb_spec. unfold SFleb.
  intros [Hx|Hy]; [rewrite Hx; reflexivity|rewrite Hy].
  now destruct (FloatOps.Prim2SF x).
Qed.

(** NaN leaves both loops of [normalizeAngle] at their first test. *)
Lemma normalizeAngleWithin_nan (fuel : nat) (angle out : F64.float) :
  PrimFloat.is_nan angle = true ->
  normalizeAngleWithin fuel angle = Some out -> out = angle.
Proof.
  intros Hnan. unfold normalizeAngleWithin.
  destruct fuel as [|fuel]; [discriminate|]. cbn [wrapDown wrapUp].
  change (nltb Math_PI angle) with (PrimFloat.ltb F64.PI angle).
  rewrite (ltb_nan F64.PI angle) by now right.
  change (nltb angle (nopp Math_PI))
    with (PrimFloat.ltb angle (PrimFloat.opp F64.PI)).
  rewrite (ltb_nan angle _) by now left.
  intros Heq. now injection Heq.
Qed.

Definition yawLo : F64.float := - TURRET_YAW_MAX.
Definition yawHi : F64.float := TURRET_YAW_MAX.
Definition pitchLo : F64.float := GUN_PITCH_MIN.
Definition pitchHi : F64.float := GUN_PITCH_MAX.

Lemma yaw_limits :
  isNumber yawLo /\ isNumber yawHi /\ PrimFloat.leb yawLo yawHi = true.
Proof. repeat split; vm_compute; reflexivity. Qed.

Lemma pitch_limits :
  isNumber pitchLo /\ isNumber pitchHi
  /\ PrimFloat.leb pitchLo pitchHi = true.
Proof. repeat split; vm_compute; reflexivity. Qed.

(** In binary64, whenever the steering part returns: each of the two
    aim angles lies in its range or is NaN; the gun pitch is NaN exactly
    when the pitch target is; the turret yaw is NaN whenever the yaw
    target or the turret yaw of the state is. *)
Lemma steer_binary64 (fuel : nat) (tank : TankPhysicsState.t F64.float)
    (input : PhysicsInput F64.float) (dt b ty gp : F64.float) :
  steer fuel tank input dt = Some (b, ty, gp) ->
  (within yawLo yawHi ty = true \/ PrimFloat.is_nan ty = true)
  /\ ((isNumber (in_gunPitch input) /\ within pitchLo pitchHi gp = true)
      \/ (PrimFloat.is_nan (in_gunPitch input) = true
          /\ PrimFloat.is_nan gp = true))
  /\ (PrimFloat.is_nan (in_turretYaw input) = true
      \/ PrimFloat.is_nan (TankPhysicsState.turretYaw tank) = true ->
      PrimFloat.is_nan ty = true).
Proof.
  unfold steer. cbv zeta.
  destruct (normalizeAngleWithin fuel _) as [b'|]; [|discriminate].
  set (target := clamp (in_turretYaw input) _ _).
  destruct (normalizeAngleWithin fuel (target - _)) as [diff|] eqn:Hdiff;
    [|discriminate].
  set (yaw1 := if _ <=? _ then _ else _).
  intros Heq. injection Heq as _ <- <-.
  destruct yaw_limits as (Hlo & Hhi & Hle).
  destruct pitch_limits as (Hplo & Hphi & Hple).
  split; [|split].
  - destruct (clamp_binary64 yawLo yawHi yaw1 Hlo Hhi Hle)
      as [[_ Hin]|[_ Hnan]]; [left|right]; assumption.
  - destruct (clamp_binary64 pitchLo pitchHi (in_gunPitch input)
                Hplo Hphi Hple) as [Hin|Hnan]; [left|right]; assumption.
  - intros Hcase.
    assert (Htarget : PrimFloat.is_nan (in_turretYaw input) = true ->
                      PrimFloat.is_nan target = true).
    { intros Hin.
      destruct (clamp_binary64 yawLo yawHi (in_turretYaw input)
                  Hlo Hhi Hle) as [[Hnum _]|[_ Hnan]]; [|exact Hnan].
      unfold isNumber in Hnum. congruence. }
    assert (Hd : PrimFloat.is_nan
                   (target - TankPhysicsState.turretYaw tank) = true).
    { apply sub_nan. destruct Hcase as [Hin|Hst]; [left; auto|right; auto]. }
    apply (normalizeAngleWithin_nan _ _ _ Hd) in Hdiff. subst diff.
    assert (Hyaw1 : PrimFloat.is_nan yaw1 = true).
    { unfold yaw1, Math_abs, Math_sign.
      set (d := target - TankPhysicsState.turretYaw tank) in *.
      change (nltb (of_Z 0) d) with (PrimFloat.ltb (F64.of_Z 0) d).
      rewrite (ltb_nan (F64.of_Z 0) d) by now right.
      change (nleb (nsub (of_Z 0) d) (nmul TURRET_TURN_RATE dt))
        with (PrimFloat.leb (PrimFloat.sub (F64.of_Z 0) d)
                (nmul TURRET_TURN_RATE dt)).
      rewrite leb_nan by (left; apply sub_nan; now right).
      change (nltb d (of_Z 0)) with (PrimFloat.ltb d (F64.of_Z 0)).
      rewrite (ltb_nan d _) by now left.
      apply add_nan. right. apply mul_nan. now left. }
    destruct (clamp_binary64 yawLo yawHi yaw1 Hlo Hhi Hle)
      as [[Hnum _]|[_ Hnan]]; [|exact Hnan].
    unfold isNumber in Hnum. congruence.
Qed.

End SteeringBinary64.

(** A tank at rest, and a command whose two aim targets are NaN. *)
Definition restingTank : TankPhysicsState.t F64.float :=
  TankPhysicsState.mk Vec3.zero Vec3.zero (of_Z 0) (of_Z 0) (of_Z 0).

Definition nanInput : PhysicsInput F64.float :=
  mkPhysicsInput false false false false PrimFloat.nan PrimFloat.nan.

Definition steadyInput : PhysicsInput F64.float :=
  mkPhysicsInput false false false false (of_Z 0) (of_Z 0).

(** A tank whose body yaw is 1e17: in binary64 subtracting [2 * Math.PI]
    from it changes nothing, so the first loop of [normalizeAngle] does
    not exit. *)
Definition spunTank : TankPhysicsState.t F64.float :=
  TankPhysicsState.mk Vec3.zero Vec3.zero (of_Z (10 ^ 17)) (of_Z 0) (of_Z 0).

Lemma wrapDown_spins (fuel : nat) :
  wrapDown fuel (of_Z (10 ^ 17) : F64.float) = None.
Proof.
  induction fuel as [|fuel IH]; [reflexivity|].
  change (wrapDown (S fuel) (of_Z (10 ^ 17) : F64.float))
    with (if nltb Math_PI (of_Z (10 ^ 17) : F64.float)
          then wrapDown fuel
                 (nsub (of_Z (10 ^ 17) : F64.float)
                    (nmul (of_Z 2) Math_PI))
          else Some (of_Z (10 ^ 17))).
  assert (H1 : nltb Math_PI (of_Z (10 ^ 17) : F64.float) = true)
    by (vm_compute; reflexivity).
  assert (H2 : nsub (of_Z (10 ^ 17) : F64.float) (nmul (of_Z 2) Math_PI)
               = of_Z (10 ^ 17))
    by (vm_compute; reflexivity).
  rewrite H1, H2. exact IH.
Qed.




(* ================================================================== *)
(** * Physics: damping and the frame rate *)
(* ================================================================== *)

Section Coasting.
Local Open Scope R_scope.
Import Physics.

(** The physics step applied [n] times with the same input and [dt]. *)
Fixpoint repeatPhysics (n : nat) (input : PhysicsInput R) (dt : R)
    (h : option (R -> R -> R)) (tank : TankPhysicsState.t R)
  : TankPhysicsState.t R :=
  match n with
  | O => tank
  | S n' => updateTankPhysics (repeatPhysics n' input dt h tank) input dt h
  end.

(** No movement input: none of the four movement flags is set. *)
Definition noMovement (input : PhysicsInput R) : Prop :=
  in_forward input = false /\ in_backward input = false
  /\ in_turnLeft input = false /\ in_turnRight input = false.

Lemma scale_scale (v : Vec3.t R) (a b : R) :
  Vec3.multiplyScalar (Vec3.multiplyScalar v a) b
  = Vec3.multiplyScalar v (a * b).
Proof. unfold Vec3.multiplyScalar. cbn. f_equal; ring. Qed.

Lemma length_scale (v : Vec3.t R) (s : R) :
  0 <= s -> Vec3.length (Vec3.multiplyScalar v s) = Vec3.length v * s.
Proof.
  intros Hs. unfold Vec3.length, Vec3.multiplyScalar. cbn.
  replace (Vec3.x v * s * (Vec3.x v * s) + Vec3.y v * s * (Vec3.y v * s)
           + Vec3.z v * s * (Vec3.z v * s))
    with ((Vec3.x v * Vec3.x v + Vec3.y v * Vec3.y v + Vec3.z v * Vec3.z v)
          * (s * s)) by ring.
  rewrite sqrt_mult; [|nra|nra]. now rewrite (sqrt_square s Hs).
Qed.

Lemma length_nonneg (v : Vec3.t R) : 0 <= Vec3.length v.
Proof. unfold Vec3.length. cbn. apply sqrt_pos. Qed.

Lemma damping_pos : 0 < TANK_DAMPING (num := R).
Proof. rewrite TANK_DAMPING_real. lra. Qed.

Lemma damping_pow_le (n : nat) : 0 < TANK_DAMPING ^ n <= 1.
Proof.
  rewrite TANK_DAMPING_real. induction n as [|n IH]; cbn; [lra|].
  destruct IH as [Hpos Hle]. split; nra.
Qed.

(** What a tank that coasts shows after some steps, relative to the
    state it started from: the velocity scaled by [factor], the body yaw
    normalised, the gun pitch at the clamped target. *)
Definition coasted (tank tank' : TankPhysicsState.t R)
    (input : PhysicsInput R) (factor : R) : Prop :=
  TankPhysicsState.velocity tank'
  = Vec3.multiplyScalar (TankPhysicsState.velocity tank) factor
  /\ TankPhysicsState.bodyYaw tank'
     = normalizeAngle (TankPhysicsState.bodyYaw tank)
  /\ TankPhysicsState.gunPitch tank'
     = clamp (in_gunPitch input) GUN_PITCH_MIN GUN_PITCH_MAX.

(** One step without movement input, when the damped speed is within
    the speed limit. *)
Lemma coast_step (tank : TankPhysicsState.t R) (input : PhysicsInput R)
    (dt : R) (h : option (R -> R -> R)) :
  noMovement input ->
  Vec3.length (TankPhysicsState.velocity tank) * Rpower TANK_DAMPING (dt * 60)
    <= TANK_MAX_SPEED ->
  coasted tank (updateTankPhysics tank input dt h) input
    (Rpower TANK_DAMPING (dt * 60)).
Proof.
  intros (Hf & Hb & Hl & Hr) Hspeed. unfold coasted, updateTankPhysics.
  rewrite Hf, Hb, Hl, Hr.
  cbn [TankPhysicsState.velocity TankPhysicsState.bodyYaw
       TankPhysicsState.gunPitch].
  repeat split.
  assert (Hpow : 0 <= Rpower TANK_DAMPING (dt * 60)).
  { left. unfold Rpower. apply exp_pos. }
  change (@nmul R RNumber) with Rmult in *.
  rewrite (length_scale _ _ Hpow).
  destruct (Rltb TANK_MAX_SPEED _) eqn:Hcmp; [|reflexivity].
  apply Rltb_true in Hcmp. lra.
Qed.

Lemma tick_exponent : 1 / 60 * 60 = 1.
Proof. lra. Qed.

Lemma step_exponent (n : nat) : INR n / 60 * 60 = INR n.
Proof. lra. Qed.

(** [n + 1] steps of 1/60 s without movement input. *)
Lemma coast_repeat (n : nat) (tank : TankPhysicsState.t R)
    (input : PhysicsInput R) (h : option (R -> R -> R)) :
  noMovement input ->
  Vec3.length (TankPhysicsState.velocity tank) * TANK_DAMPING
    <= TANK_MAX_SPEED ->
  coasted tank (repeatPhysics (S n) input (1 / 60) h tank) input
    (TANK_DAMPING ^ S n).
Proof.
  intros Hmove Hspeed. pose proof damping_pos as Hd.
  pose proof (length_nonneg (TankPhysicsState.velocity tank)) as Hlen.
  induction n as [|n IH].
  - cbn [repeatPhysics].
    destruct (coast_step tank input (1 / 60) h Hmove) as (Hv & Hy & Hg).
    { rewrite tick_exponent, Rpower_1 by exact Hd. exact Hspeed. }
    unfold coasted. rewrite Hv, Hy, Hg, tick_exponent, Rpower_1 by exact Hd.
    repeat split. f_equal. cbn. ring.
  - destruct IH as (IHv & IHy & IHg).
    cbn [repeatPhysics] in *.
    set (prev := updateTankPhysics (repeatPhysics n input (1 / 60) h tank) _ _ _) in *.
    destruct (coast_step prev input (1 / 60) h Hmove) as (Hv & Hy & Hg).
    { rewrite tick_exponent, Rpower_1 by exact Hd. rewrite IHv.
      rewrite length_scale by (left; apply damping_pow_le).
      pose proof (damping_pow_le (S n)) as [Hp Hle].
      rewrite TANK_DAMPING_real in *. nra. }
    unfold coasted.
    rewrite Hv, Hy, Hg, IHv, IHy, tick_exponent, Rpower_1 by exact Hd.
    rewrite scale_scale, normalizeAngle_idempotent. repeat split.
    f_equal. cbn [pow]. ring.
Qed.

(** One step of [(n + 1)/60] s without movement input. *)
Lemma coast_once (n : nat) (tank : TankPhysicsState.t R)
    (input : PhysicsInput R) (h : option (R -> R -> R)) :
  noMovement input ->
  Vec3.length (TankPhysicsState.velocity tank) * TANK_DAMPING
    <= TANK_MAX_SPEED ->
  coasted tank (updateTankPhysics tank input (INR (S n) / 60) h) input
    (TANK_DAMPING ^ S n).
Proof.
  intros Hmove Hspeed. pose proof damping_pos as Hd.
  pose proof (length_nonneg (TankPhysicsState.velocity tank)) as Hlen.
  destruct (coast_step tank input (INR (S n) / 60) h Hmove) as (Hv & Hy & Hg).
  { rewrite step_exponent, Rpower_pow by exact Hd.
    pose proof (damping_pow_le n) as [Hp Hle].
    rewrite TANK_DAMPING_real in *. cbn [pow]. nra. }
  unfold coasted. rewrite Hv, Hy, Hg, step_exponent, Rpower_pow by exact Hd.
  repeat split.
Qed.

End Coasting.

Section CoastingPosition.
Local Open Scope R_scope.
Import Physics.

(** Without a terrain function the new position is the old one plus the
    new velocity times [dt]. *)
Lemma step_position (tank : TankPhysicsState.t R) (input : PhysicsInput R)
    (dt : R) :
  TankPhysicsState.position (updateTankPhysics tank input dt None)
  = Vec3.add (TankPhysicsState.position tank)
      (Vec3.multiplyScalar
         (TankPhysicsState.velocity (updateTankPhysics tank input dt None))
         dt).
Proof. reflexivity. Qed.

(** [d + d^2 + ... + d^n]. *)
Fixpoint geometric (d : R) (n : nat) : R :=
  match n with
  | O => 0
  | S n' => geometric d n' + d ^ n
  end.

Lemma geometric_closed (d : R) (n : nat) :
  d <> 1 -> geometric d n = (d - d ^ S n) / (1 - d).
Proof.
  intros Hd. induction n as [|n IH].
  - cbn. field. lra.
  - cbn [geometric]. rewrite IH. cbn [pow]. field. lra.
Qed.

(** The position after [n] steps of 1/60 s without movement input and
    without terrain. *)
Lemma coast_repeat_position (n : nat) (tank : TankPhysicsState.t R)
    (input : PhysicsInput R) :
  noMovement input ->
  Vec3.length (TankPhysicsState.velocity tank) * TANK_DAMPING
    <= TANK_MAX_SPEED ->
  TankPhysicsState.position (repeatPhysics n input (1 / 60) None tank)
  = Vec3.add (TankPhysicsState.position tank)
      (Vec3.multiplyScalar (TankPhysicsState.velocity tank)
         (geometric TANK_DAMPING n / 60)).
Proof.
  intros Hmove Hspeed. induction n as [|n IH].
  - cbn [repeatPhysics geometric]. unfold Vec3.add, Vec3.multiplyScalar.
    destruct (TankPhysicsState.position tank) as [px py pz]. cbn.
    f_equal; lra.
  - destruct (coast_repeat n tank input None Hmove Hspeed) as (Hv & _).
    cbn [repeatPhysics] in *. rewrite step_position, Hv, IH.
    unfold Vec3.add, Vec3.multiplyScalar. cbn. f_equal; lra.
Qed.

End CoastingPosition.


(** A tank at the origin that moves at 10 m/s along -z, and an input
    with no flag set and both targets at 0. *)
Definition coastingTank : TankPhysicsState.t R :=
  TankPhysicsState.mk (Vec3.mk 0%R 0%R 0%R) (Vec3.mk 0%R 0%R (-10)%R)
    0%R 0%R 0%R.

Definition idleInput : PhysicsInput R :=
  mkPhysicsInput false false false false 0%R 0%R.

Lemma idleInput_noMovement : noMovement idleInput.
Proof. repeat split. Qed.

Lemma coastingTank_speed :
  (Vec3.length (TankPhysicsState.velocity coastingTank) * TANK_DAMPING
   <= TANK_MAX_SPEED)%R.
Proof.
  rewrite TANK_DAMPING_real, TANK_MAX_SPEED_real.
  unfold Vec3.length, coastingTank. cbn.
  replace (0 * 0 + 0 * 0 + -10 * -10)%R with (10 * 10)%R by ring.
  rewrite sqrt_square by lra. lra.
Qed.


Section CoastingCounterexamples.
Local Open Scope R_scope.
Import Physics.

Lemma coast_far_position :
  Vec3.z (TankPhysicsState.position
            (updateTankPhysics coastingTank idleInput (INR 60 / 60) None))
  - Vec3.z (TankPhysicsState.position
              (repeatPhysics 60 idleInput (1 / 60) None coastingTank))
  > 2.
Proof.
  rewrite (coast_repeat_position 60 coastingTank idleInput
             idleInput_noMovement coastingTank_speed).
  rewrite step_position.
  destruct (coast_once 59 coastingTank idleInput None idleInput_noMovement
              coastingTank_speed) as (Hv & _).
  rewrite Hv.
  rewrite geometric_closed by (rewrite TANK_DAMPING_real; lra).
  rewrite TANK_DAMPING_real.
  unfold Vec3.add, Vec3.multiplyScalar, coastingTank. cbn -[pow INR].
  replace (INR 60) with 60%R by (cbn; lra).
  lra.
Qed.

(** A tank that moves along -z at a speed [s]. *)
Definition alongZ (s : R) : TankPhysicsState.t R :=
  TankPhysicsState.mk (Vec3.mk 0 0 0) (Vec3.mk 0 0 (- s)) 0 0 0.

Lemma length_alongZ (s : R) : 0 <= s -> Vec3.length (Vec3.mk 0 0 (- s)) = s.
Proof.
  intros Hs. unfold Vec3.length. cbn.
  replace (0 * 0 + 0 * 0 + - s * - s) with (s * s) by ring.
  now apply sqrt_square.
Qed.

(** One idle step of a tank whose velocity points along -z: the damped
    speed, cut at the speed limit. *)
Lemma step_alongZ (tank : TankPhysicsState.t R) (s dt : R) :
  0 < s ->
  TankPhysicsState.velocity tank = Vec3.mk 0 0 (- s) ->
  TankPhysicsState.velocity (updateTankPhysics tank idleInput dt None)
  = Vec3.mk 0 0
      (- (if Rltb TANK_MAX_SPEED (s * Rpower TANK_DAMPING (dt * 60))
          then TANK_MAX_SPEED
          else s * Rpower TANK_DAMPING (dt * 60))).
Proof.
  intros Hs Hvel. unfold updateTankPhysics, idleInput.
  cbn [in_forward in_backward in_turnLeft in_turnRight
       TankPhysicsState.velocity].
  rewrite Hvel.
  set (f := Rpower TANK_DAMPING (dt * 60)).
  assert (Hf : 0 < f) by (unfold f, Rpower; apply exp_pos).
  assert (Hscaled : Vec3.multiplyScalar (Vec3.mk 0 0 (- s)) f
                    = Vec3.mk 0 0 (- (s * f))).
  { unfold Vec3.multiplyScalar. cbn. f_equal; ring. }
  rewrite Hscaled, length_alongZ by nra.
  destruct (Rltb TANK_MAX_SPEED (s * f)) eqn:Hcmp; [|reflexivity].
  unfold Vec3.normalize. rewrite length_alongZ by nra.
  change (@of_Z R RNumber 0) with 0. change (@of_Z R RNumber 1) with 1.
  change (@nltb R RNumber) with Rltb. change (@ndiv R RNumber) with Rdiv.
  assert (Hpos : Rltb 0 (s * f) = true) by (apply Rltb_true; nra).
  rewrite Hpos. unfold Vec3.multiplyScalar. cbn.
  f_equal; field; nra.
Qed.

Lemma coast_overspeed_velocity :
  Vec3.z (TankPhysicsState.velocity
            (repeatPhysics 2 idleInput (1 / 60) None (alongZ 100)))
  - Vec3.z (TankPhysicsState.velocity
              (updateTankPhysics (alongZ 100) idleInput (INR 2 / 60) None))
  > 2 / 10.
Proof.
  pose proof damping_pos as Hd.
  assert (Hmax : TANK_MAX_SPEED (num := R) = 1459 / 100)
    by apply TANK_MAX_SPEED_real.
  assert (Hdamp : TANK_DAMPING (num := R) = 985 / 1000)
    by apply TANK_DAMPING_real.
  cbn [repeatPhysics].
  (* the single step of 2/60 s *)
  rewrite (step_alongZ (alongZ 100) 100 (INR 2 / 60)) by (lra || reflexivity).
  rewrite step_exponent, Rpower_pow by exact Hd.
  assert (Honce : Rltb TANK_MAX_SPEED (100 * TANK_DAMPING ^ 2) = true).
  { apply Rltb_true. rewrite Hmax, Hdamp. lra. }
  rewrite Honce.
  (* the first step of 1/60 s *)
  pose proof (step_alongZ (alongZ 100) 100 (1 / 60)) as Hfirst.
  rewrite tick_exponent, Rpower_1 in Hfirst by exact Hd.
  assert (Hcut : Rltb TANK_MAX_SPEED (100 * TANK_DAMPING) = true).
  { apply Rltb_true. rewrite Hmax, Hdamp. lra. }
  rewrite Hcut in Hfirst.
  specialize (Hfirst ltac:(lra) eq_refl).
  (* the second step of 1/60 s *)
  rewrite (step_alongZ _ TANK_MAX_SPEED (1 / 60)) by (lra || exact Hfirst).
  rewrite tick_exponent, Rpower_1 by exact Hd.
  assert (Hkeep : Rltb TANK_MAX_SPEED (TANK_MAX_SPEED * TANK_DAMPING) = false).
  { apply Rltb_false. rewrite Hmax, Hdamp. lra. }
  rewrite Hkeep. cbn [Vec3.z]. rewrite Hmax, Hdamp. lra.
Qed.

(** An angle between pi and 3 pi is wrapped once. *)
Lemma normalizeAngle_wrap_once (angle : R) :
  PI < angle <= 3 * PI -> normalizeAngle angle = angle - 2 * PI.
Proof.
  intros [Hlo Hhi]. unfold normalizeAngle.
  pose proof (wrap_fuel_enough angle) as Hfuel.
  destruct (wrap_fuel angle) as [|fuel] eqn:Hf.
  - cbn in Hfuel. pose proof (Rabs_pos angle). lra.
  - cbn [wrap_down]. assert (Hcmp : Rltb PI angle = true) by now apply Rltb_true.
    rewrite Hcmp, wrap_down_inside by lra. apply wrap_up_inside. lra.
Qed.

(** A tank whose turret stands at the left stop, and an idle input that
    asks for the right stop. *)
Definition turretLeft : TankPhysicsState.t R :=
  TankPhysicsState.mk (Vec3.mk 0 0 0) (Vec3.mk 0 0 0) 0 (- TURRET_YAW_MAX) 0.

Definition aimRight : PhysicsInput R :=
  mkPhysicsInput false false false false TURRET_YAW_MAX 0.

(** From the left stop, the shortest way to the right stop leads
    through the back, which the stop forbids: a step too short to reach
    the target leaves the turret at the left stop, a step long enough
    puts it at the right stop. *)
Lemma turret_step_from_left_stop (tank : TankPhysicsState.t R) (dt : R) :
  TankPhysicsState.turretYaw tank = - TURRET_YAW_MAX ->
  0 <= dt ->
  TankPhysicsState.turretYaw (updateTankPhysics tank aimRight dt None)
  = if Rleb (PI / 2) (TURRET_TURN_RATE * dt)
    then TURRET_YAW_MAX else - TURRET_YAW_MAX.
Proof.
  intros Hleft Hdt. pose proof PI2_3_2 as Hpi. pose proof PI_4 as Hpi4.
  assert (Hmax : TURRET_YAW_MAX (num := R) = PI * (3 / 4))
    by apply TURRET_YAW_MAX_real.
  unfold updateTankPhysics, aimRight.
  cbn [in_turretYaw TankPhysicsState.turretYaw].
  rewrite Hleft.
  change (@nopp R RNumber) with Ropp. change (@nmul R RNumber) with Rmult.
  rewrite (clamp_inside TURRET_YAW_MAX) by lra.
  rewrite normalizeAngle_wrap_once by lra.
  replace (TURRET_YAW_MAX - - TURRET_YAW_MAX - 2 * PI) with (- (PI / 2))
    by lra.
  rewrite Rabs_Ropp, Rabs_pos_eq by lra.
  rewrite TURRET_TURN_RATE_real.
  destruct (Rleb (PI / 2) (2 * dt)) eqn:Hreach.
  - apply clamp_inside. lra.
  - assert (Hsign : Rsign (- (PI / 2)) = -1).
    { unfold Rsign.
      assert (H1 : Rltb 0 (- (PI / 2)) = false) by (apply Rltb_false; lra).
      assert (H2 : Rltb (- (PI / 2)) 0 = true) by (apply Rltb_true; lra).
      now rewrite H1, H2. }
    rewrite Hsign, clamp_real. unfold Rmax, Rmin.
    destruct (Rle_dec TURRET_YAW_MAX _); destruct (Rle_dec (- TURRET_YAW_MAX) _);
      lra.
Qed.

Lemma turret_stays_at_left_stop (n : nat) :
  TankPhysicsState.turretYaw (repeatPhysics n aimRight (1 / 60) None turretLeft)
  = - TURRET_YAW_MAX.
Proof.
  pose proof PI2_3_2 as Hpi.
  induction n as [|n IH]; [reflexivity|].
  cbn [repeatPhysics]. rewrite (turret_step_from_left_stop _ _ IH) by lra.
  assert (Hshort : Rleb (PI / 2) (TURRET_TURN_RATE * (1 / 60)) = false).
  { apply Rleb_false. rewrite TURRET_TURN_RATE_real. lra. }
  now rewrite Hshort.
Qed.

Lemma coast_turret_yaw :
  TankPhysicsState.turretYaw
    (updateTankPhysics turretLeft aimRight (INR 60 / 60) None)
  - TankPhysicsState.turretYaw
      (repeatPhysics 60 aimRight (1 / 60) None turretLeft)
  > 4.
Proof.
  pose proof PI2_3_2 as Hpi. pose proof PI_4 as Hpi4.
  rewrite turret_stays_at_left_stop.
  rewrite (turret_step_from_left_stop turretLeft _ eq_refl)
    by (cbn; lra).
  assert (Hlong : Rleb (PI / 2) (TURRET_TURN_RATE * (INR 60 / 60)) = true).
  { apply Rleb_true. rewrite TURRET_TURN_RATE_real.
    replace (INR 60) with 60 by (cbn; lra). lra. }
  rewrite Hlong, TURRET_YAW_MAX_real. lra.
Qed.

End CoastingCounterexamples.


(* ================================================================== *)
(** * Maps and the monad *)
(* ================================================================== *)

Section MapFacts.
Variable V : Type.

(** A JavaScript [Map] holds a key once. *)
Definition wellKeyed (m : JSMap.t V) : Prop := NoDup (JSMap.keys m).

Lemma delete_absent (k : Z) (m : JSMap.t V) :
  ~ In k (JSMap.keys m) -> JSMap.delete k m = m.
Proof.
  induction m as [|[k' v] m IH]; intros Hnotin; [reflexivity|].
  cbn in *. destruct (Z.eqb_spec k' k) as [->|Hne]; cbn.
  - exfalso. apply Hnotin. now left.
  - f_equal. apply IH. tauto.
Qed.

Lemma size_delete_head (k : Z) (v : V) (m : JSMap.t V) :
  wellKeyed ((k, v) :: m) ->
  JSMap.size (JSMap.delete k ((k, v) :: m)) + 1 = JSMap.size ((k, v) :: m).
Proof.
  unfold wellKeyed. cbn. intros Hnd. inversion Hnd as [|? ? Hnotin _]; subst.
  rewrite Z.eqb_refl. cbn. change (filter _ m) with (JSMap.delete k m).
  rewrite delete_absent by exact Hnotin. unfold JSMap.size. lia.
Qed.

Lemma get_None_keys (k : Z) (m : JSMap.t V) :
  JSMap.get k m = None <-> ~ In k (JSMap.keys m).
Proof.
  induction m as [|[k' v] m IH]; cbn; [tauto|].
  destruct (Z.eqb_spec k' k) as [->|Hne].
  - split; [discriminate|]. intros Hnotin. exfalso. apply Hnotin. now left.
  - rewrite IH. tauto.
Qed.

Lemma keys_set (k : Z) (v : V) (m : JSMap.t V) :
  JSMap.keys (JSMap.set k v m)
  = if JSMap.has k m then JSMap.keys m else JSMap.keys m ++ [k].
Proof.
  unfold JSMap.has, JSMap.keys.
  induction m as [|[k' v'] m IH]; cbn; [reflexivity|].
  destruct (Z.eqb_spec k' k) as [->|Hne]; cbn; [reflexivity|].
  rewrite IH. now destruct (JSMap.get k m).
Qed.

Lemma size_set (k : Z) (v : V) (m : JSMap.t V) :
  JSMap.size (JSMap.set k v m)
  = if JSMap.has k m then JSMap.size m else S (JSMap.size m).
Proof.
  unfold JSMap.size. rewrite <- !(length_map fst).
  pose proof (keys_set k v m) as Hkeys. unfold JSMap.keys in Hkeys.
  rewrite Hkeys.
  destruct (JSMap.has k m); [reflexivity|]. rewrite length_app. cbn. lia.
Qed.

Lemma get_set_same (k : Z) (v : V) (m : JSMap.t V) :
  JSMap.get k (JSMap.set k v m) = Some v.
Proof.
  induction m as [|[k' v'] m IH]; cbn.
  - now rewrite Z.eqb_refl.
  - destruct (Z.eqb_spec k' k) as [->|Hne]; cbn.
    + now rewrite Z.eqb_refl.
    + destruct (Z.eqb_spec k' k); [contradiction|exact IH].
Qed.

End MapFacts.
Arguments wellKeyed {V} m.
Arguments delete_absent {V} k m.
Arguments size_delete_head {V} k v m.
Arguments get_None_keys {V} k m.
Arguments keys_set {V} k v m.
Arguments size_set {V} k v m.
Arguments get_set_same {V} k v m.

Section MonadFacts.
Context {num : Type}.

Lemma bind_Some {A B} (m : Proc.M num A) (k : A -> Proc.M num B)
    (p : Proc.t num) (a : A) (p' : Proc.t num) :
  m p = Some (a, p') -> Proc.bind m k p = k a p'.
Proof. intros Hm. unfold Proc.bind. now rewrite Hm. Qed.

Lemma bind_inv {A B} (m : Proc.M num A) (k : A -> Proc.M num B)
    (p : Proc.t num) (r : B * Proc.t num) :
  Proc.bind m k p = Some r ->
  exists a p', m p = Some (a, p') /\ k a p' = Some r.
Proof.
  unfold Proc.bind. destruct (m p) as [[a p']|]; [|discriminate].
  intros Hk. now exists a, p'.
Qed.

End MonadFacts.

(* ================================================================== *)
(** * Room: admission *)
(* ================================================================== *)

(** The contract of [Math.random()]: every number that it will return
    lies in [0, 1). *)
Definition fairProc {num : Type} `{JSNumber num} (p : Proc.t num) : Prop :=
  forall n,
    (nleb (of_Z 0) (Proc.random p n) && nltb (Proc.random p n) (of_Z 1))%bool
    = true.

(** On the map [m] the spawn selector of [imports] raises no exception
    while [Math.random()] keeps its contract, and it leaves the random
    numbers to come within the contract.  Lemma [RealImports_spawnsOn]
    below proves it of the selector of the repository, on every map with
    a spawn zone that is at least 10 wide and deep, as every generated map
    is; on a map without a spawn zone the selector of the repository
    raises a TypeError. *)
Definition spawnsOn {num : Type} `{JSNumber num} (imports : Imports num)
    (m : MapGenerator.GameMapData num) : Prop :=
  forall sm player enemies p,
    fairProc p ->
    exists pos sm' p',
      selectSpawnPoint imports sm player enemies m p = Some ((pos, sm'), p')
      /\ fairProc p'.

Section Admission.
Context {num : Type} `{JSNumber num}.
Variable imports : Imports num.

Lemma Math_random_fair (p : Proc.t num) :
  fairProc p ->
  exists r p', Proc.Math_random p = Some (r, p') /\ fairProc p'.
Proof.
  intros Hfair. unfold Proc.Math_random. eexists. eexists.
  split; [reflexivity|]. intros n. apply Hfair.
Qed.

Lemma respawn_returns (pos : Vec3.t num) (pl : Player.t num)
    (p : Proc.t num) :
  fairProc p ->
  exists pl' p', Player.respawn pos pl p = Some (pl', p') /\ fairProc p'.
Proof.
  intros Hfair. unfold Player.respawn, Proc.bind, Proc.Math_random, Proc.ret.
  eexists. eexists. split; [reflexivity|]. intros n. apply Hfair.
Qed.

Lemma respawnAtSpawnPoint_returns (r : nat) (w : GameWorld.t num)
    (p : Proc.t num) :
  spawnsOn imports (GameWorld.map w) -> fairProc p ->
  exists pos w' p',
    GameWorld.respawnAtSpawnPoint imports r w p = Some ((pos, w'), p')
    /\ GameWorld.players w' = GameWorld.players w
    /\ GameWorld.nextRef w' = GameWorld.nextRef w
    /\ GameWorld.map w' = GameWorld.map w
    /\ fairProc p'.
Proof.
  intros Hspawn Hfair. unfold GameWorld.respawnAtSpawnPoint.
  destruct (Hspawn (GameWorld.spawnManager w) (GameWorld.objs w r)
              (GameWorld.enemiesOf r w) p Hfair)
    as (pos & sm & p1 & Hsel & Hfair1).
  rewrite (bind_Some _ _ _ _ _ Hsel). cbv zeta.
  destruct (respawn_returns pos
              (GameWorld.objs (GameWorld.set_spawnManager sm w) r) p1 Hfair1)
    as (pl' & p2 & Hre & Hfair2).
  rewrite (bind_Some _ _ _ _ _ Hre). unfold Proc.ret.
  eexists. eexists. eexists. split; [reflexivity|]. repeat split.
  exact Hfair2.
Qed.

Lemma world_addPlayer_returns (player : Player.t num) (w : GameWorld.t num)
    (p : Proc.t num) :
  spawnsOn imports (GameWorld.map w) -> fairProc p ->
  exists w' p',
    GameWorld.addPlayer imports player w p
    = Some ((GameWorld.nextRef w, w'), p')
    /\ GameWorld.players w'
       = JSMap.set (Player.id player) (GameWorld.nextRef w)
           (GameWorld.players w)
    /\ GameWorld.map w' = GameWorld.map w
    /\ fairProc p'.
Proof.
  intros Hspawn Hfair. unfold GameWorld.addPlayer.
  match goal with
  | |- context [GameWorld.respawnAtSpawnPoint imports ?r ?w0] =>
      destruct (respawnAtSpawnPoint_returns r w0 p Hspawn Hfair)
        as (pos & w' & p' & Hre & Hpl & _ & Hmap & Hfair')
  end.
  unfold Proc.bind at 1. rewrite Hre. unfold Proc.ret. cbn in Hpl.
  exists w', p'. split; [reflexivity|]. split; [exact Hpl|].
  split; [exact Hmap|exact Hfair'].
Qed.

(** What [removeAIBot] does to the two maps. *)
Lemma removeAIBot_maps (botId : Z) (r : GameRoom.t num) :
  GameRoom.aiBots (GameRoom.removeAIBot botId r)
  = JSMap.delete botId (GameRoom.aiBots r)
  /\ GameWorld.players (GameRoom.world (GameRoom.removeAIBot botId r))
     = JSMap.delete botId (GameWorld.players (GameRoom.world r))
  /\ GameRoom.clients (GameRoom.removeAIBot botId r) = GameRoom.clients r.
Proof. repeat split. Qed.

(** The part of [addPlayer] after the capacity test returns the new
    combatant and leaves the AI controllers as they are. *)
Lemma join_returns (nickname : string) (now : num) (r : GameRoom.t num)
    (p : Proc.t num) :
  spawnsOn imports (GameWorld.map (GameRoom.world r)) -> fairProc p ->
  exists ref r' p',
    GameRoom.join imports nickname now r p = Some ((Some ref, r'), p')
    /\ GameRoom.aiBots r' = GameRoom.aiBots r
    /\ fairProc p'.
Proof.
  intros Hspawn Hfair. unfold GameRoom.join. cbn zeta.
  match goal with
  | |- context [GameWorld.addPlayer imports ?pl ?w0] =>
      destruct (world_addPlayer_returns pl w0 p Hspawn Hfair)
        as (w' & p' & Hadd & _ & _ & Hfair')
  end.
  unfold Proc.bind. rewrite Hadd. unfold Proc.ret.
  eexists. eexists. eexists. split; [reflexivity|]. split; [|exact Hfair'].
  cbn. destruct (GameRoom.state r); cbn; try reflexivity.
  match goal with
  | |- context [if ?c then _ else _] => destruct c; reflexivity
  end.
Qed.

Lemma addPlayer_below_capacity (nickname : string) (now : num)
    (r : GameRoom.t num) (p : Proc.t num) :
  spawnsOn imports (GameWorld.map (GameRoom.world r)) -> fairProc p ->
  JSMap.size (GameWorld.players (GameRoom.world r)) < MAX_PLAYERS ->
  exists ref r' p',
    GameRoom.addPlayer imports nickname now r p = Some ((Some ref, r'), p')
    /\ GameRoom.aiBots r' = GameRoom.aiBots r
    /\ fairProc p'.
Proof.
  intros Hspawn Hfair Hroom. unfold GameRoom.addPlayer.
  destruct (Nat.leb_spec MAX_PLAYERS
              (JSMap.size (GameWorld.players (GameRoom.world r)))); [lia|].
  now apply join_returns.
Qed.

Lemma addPlayer_evicts (nickname : string) (now : num)
    (r : GameRoom.t num) (p : Proc.t num) (bot : Z) (rest : list Z) :
  spawnsOn imports (GameWorld.map (GameRoom.world r)) -> fairProc p ->
  MAX_PLAYERS <= JSMap.size (GameWorld.players (GameRoom.world r)) ->
  JSMap.keys (GameRoom.aiBots r) = bot :: rest ->
  exists ref r' p',
    GameRoom.addPlayer imports nickname now r p = Some ((Some ref, r'), p')
    /\ GameRoom.aiBots r' = JSMap.delete bot (GameRoom.aiBots r)
    /\ fairProc p'.
Proof.
  intros Hspawn Hfair Hfull Hbots. unfold GameRoom.addPlayer.
  destruct (Nat.leb_spec MAX_PLAYERS
              (JSMap.size (GameWorld.players (GameRoom.world r)))); [|lia].
  rewrite Hbots.
  destruct (join_returns nickname now (GameRoom.removeAIBot bot r) p
              Hspawn Hfair)
    as (ref & r' & p' & Hk & Hai & Hfair').
  exists ref, r', p'. split; [exact Hk|]. rewrite Hai.
  split; [reflexivity|exact Hfair'].
Qed.

Lemma addPlayer_rejects_iff (nickname : string) (now : num)
    (r : GameRoom.t num) (p : Proc.t num) :
  spawnsOn imports (GameWorld.map (GameRoom.world r)) -> fairProc p ->
  (exists r' p',
      GameRoom.addPlayer imports nickname now r p = Some ((None, r'), p'))
  <-> MAX_PLAYERS <= JSMap.size (GameWorld.players (GameRoom.world r))
      /\ GameRoom.aiBots r = [].
Proof.
  intros Hspawn Hfair. split.
  - intros (r' & p' & Hadd).
    destruct (Nat.lt_ge_cases
                (JSMap.size (GameWorld.players (GameRoom.world r)))
                MAX_PLAYERS) as [Hroom|Hfull].
    + destruct (addPlayer_below_capacity nickname now r p Hspawn Hfair Hroom)
        as (ref & r2 & p2 & Heq & _). congruence.
    + split; [exact Hfull|].
      destruct (GameRoom.aiBots r) as [|[bot ai] bots] eqn:Hbots;
        [reflexivity|].
      destruct (addPlayer_evicts nickname now r p bot (JSMap.keys bots)
                  Hspawn Hfair Hfull)
        as (ref & r2 & p2 & Heq & _); [now rewrite Hbots|congruence].
  - intros [Hfull Hnone]. unfold GameRoom.addPlayer.
    destruct (Nat.leb_spec MAX_PLAYERS
                (JSMap.size (GameWorld.players (GameRoom.world r)))); [|lia].
    rewrite Hnone. cbn. unfold Proc.ret. eauto.
Qed.

End Admission.


(* ================================================================== *)
(** * Executable collaborators, for examples in binary64 *)
(* ================================================================== *)

(** Collaborators that compute in binary64: a tank that stands still, a
    barrel that points along -z, an empty flat map and a spawn selector
    that always answers the origin. *)
Definition testImports : Imports F64.float :=
  mkImports
    (fun tank _ _ _ => tank)
    (fun tank =>
       Vec3.add (TankPhysicsState.velocity tank)
         (Vec3.multiplyScalar (Vec3.mk (of_Z 0) (of_Z 0) (of_Z (-1)))
            MUZZLE_VELOCITY))
    (fun tank =>
       Vec3.add (TankPhysicsState.position tank)
         (Vec3.mk (of_Z 0) (dec 22 1) (of_Z (-4))))
    (fun _ _ _ => Vec3.mk (of_Z 0) (of_Z 0) (of_Z (-1)))
    (fun seed => MapGenerator.mkMap MAP_WIDTH MAP_DEPTH [] 0 [] [] seed)
    (fun sm _ _ _ => Proc.ret (Vec3.zero, sm)).

Lemma testImports_spawn (m : MapGenerator.GameMapData F64.float) :
  spawnsOn testImports m.
Proof.
  intros sm player enemies p Hfair. exists Vec3.zero, sm, p.
  split; [reflexivity|exact Hfair].
Qed.

(** A process whose [Math.random()] always returns 0.5. *)
Definition testProc : Proc.t F64.float := Proc.mk (fun _ => dec 5 1) 0.

(** The result of a computation that does not raise, or [default]. *)
Definition valueOr {A} (default : A) (m : option (A * Proc.t F64.float)) : A :=
  match m with
  | Some (a, _) => a
  | None => default
  end.

Definition voidRoom : GameRoom.t F64.float :=
  GameRoom.mk "void" Warmup (GameWorld.new testImports (of_Z 0)) [] (of_Z 0)
    false 1 (of_Z 0) [] 100 [] (of_Z 0).

(** A new room: ten AI combatants, no human. *)
Definition botRoom : GameRoom.t F64.float :=
  valueOr voidRoom (GameRoom.new testImports "room" (of_Z 42) testProc).

(** The room after [n] joins. *)
Fixpoint joined (n : nat) (r : GameRoom.t F64.float) : GameRoom.t F64.float :=
  match n with
  | O => r
  | S n' =>
      snd (valueOr (None, voidRoom)
             (GameRoom.addPlayer testImports "human" (of_Z 0) (joined n' r)
                testProc))
  end.

(** The room after ten joins: ten humans, no AI. *)
Definition humanRoom : GameRoom.t F64.float := joined 10 botRoom.


(* ================================================================== *)
(** * AI names *)
(* ================================================================== *)

(** The names of the AI combatants of a room, oldest first. *)
Definition botNames {num : Type} (r : GameRoom.t num) : list string :=
  List.map
    (fun e : Z * AIPlayer.t num =>
       Player.nickname
         (GameWorld.objs (GameRoom.world r) (AIPlayer.player (snd e))))
    (GameRoom.aiBots r).

(** C9, as amended.  The name index is one counter of the whole
    process, not a field of a room: [AIPlayer.create] always returns,
    names the new AI combatant after the entry of AI_NAMES at the
    process-wide index modulo 12, and increments that index by one, for
    whichever room it is called.  The name therefore depends on how many
    AI combatants the process has created before, in any room. *)
Theorem create_names_by_process_wide_index :
  forall (num : Type) (N : JSNumber num) (playerId : Z) (difficulty : string)
         (p : Proc.t num),
  exists player ai p',
    AIPlayer.create playerId difficulty p = Some ((player, ai), p')
    /\ Player.nickname player
       = ("[BOT] " ++ nth (Proc.nameIndex p mod 12) AIPlayer.AI_NAMES "")%string
    /\ Player.id player = playerId
    /\ Player.isBot player = true
    /\ Proc.nameIndex p' = S (Proc.nameIndex p).
Proof.
  intros num N playerId difficulty p.
  unfold AIPlayer.create, AIPlayer.new, Proc.bind, Proc.nextNameIndex,
    Proc.Math_random, Proc.ret.
  cbn. eexists. eexists. eexists. repeat split.
Qed.

(** The process state after a computation that does not raise. *)
Definition procAfter {A} (m : option (A * Proc.t F64.float))
  : Proc.t F64.float :=
  match m with
  | Some (_, p) => p
  | None => testProc
  end.

(** A room created in a fresh process, and a room created in the same
    way after the process has created another room. *)
Definition firstRoom : GameRoom.t F64.float :=
  valueOr voidRoom (GameRoom.new testImports "B" (of_Z 42) testProc).

Definition laterRoom : GameRoom.t F64.float :=
  valueOr voidRoom
    (GameRoom.new testImports "B" (of_Z 42)
       (procAfter (GameRoom.new testImports "A" (of_Z 7) testProc))).

(** C9, as stated, fails: the names given to the AI combatants of a
    room depend on the AI combatants created for another room.  Created
    first, the room's AI are Panzer_Bot, T34_AI, ...; created after
    another room, they are Centurion_Bot, IS2_AI, Panzer_Bot, ... *)
Lemma bot_names_depend_on_other_rooms :
  hd_error (botNames firstRoom) = Some "[BOT] Panzer_Bot"%string
  /\ hd_error (botNames laterRoom) = Some "[BOT] Centurion_Bot"%string
  /\ botNames firstRoom <> botNames laterRoom.
Proof.
  assert (H1 : hd_error (botNames firstRoom) = Some "[BOT] Panzer_Bot"%string)
    by (vm_compute; reflexivity).
  assert (H2 : hd_error (botNames laterRoom)
               = Some "[BOT] Centurion_Bot"%string)
    by (vm_compute; reflexivity).
  split; [exact H1|]. split; [exact H2|].
  intros Heq. rewrite Heq in H1. rewrite H2 in H1. discriminate H1.
Qed.

(* ================================================================== *)
(** * Spawn selection *)
(* ================================================================== *)

Section SpawnFacts.
Local Open Scope R_scope.
Import MapGenerator.

(** Every number that [Math.random()] will return satisfies [Q]. *)
Definition always (Q : R -> Prop) (p : Proc.t R) : Prop :=
  forall n, Q (Proc.random p n).

Definition unitInterval (r : R) : Prop := 0 <= r < 1.

Lemma Math_random_always (Q : R -> Prop) (p : Proc.t R) :
  always Q p ->
  exists r p', Proc.Math_random p = Some (r, p') /\ Q r /\ always Q p'.
Proof.
  intros Hall. unfold Proc.Math_random. eexists. eexists.
  split; [reflexivity|]. split; [apply Hall|]. intros n. apply Hall.
Qed.

(** A point inside the map's margin of 5 and on its terrain. *)
Definition onTerrain (map : GameMapData R) (pt : Vec3.t R) : Prop :=
  - width map / 2 + 5 <= Vec3.x pt <= width map / 2 - 5
  /\ - depth map / 2 + 5 <= Vec3.z pt <= depth map / 2 - 5
  /\ Vec3.y pt = getHeightAt map (Vec3.x pt) (Vec3.z pt).

Lemma Rmax_Rmin_range (lo hi x : R) :
  lo <= hi -> lo <= Rmax lo (Rmin hi x) <= hi.
Proof.
  intros Hle. unfold Rmax, Rmin.
  destruct (Rle_dec hi x); destruct (Rle_dec lo _); lra.
Qed.

Lemma zoneCandidates_spec (Q : R -> Prop) (map : GameMapData R)
    (zone : SpawnZone R) (n : nat) (p : Proc.t R) :
  10 <= width map -> 10 <= depth map -> always Q p ->
  exists l p',
    SpawnManager.zoneCandidates map zone n p = Some (l, p')
    /\ always Q p' /\ List.length l = n /\ Forall (onTerrain map) l.
Proof.
  intros Hw Hd. revert p. induction n as [|n IH]; intros p Hall.
  - exists [], p. cbn. unfold Proc.ret. auto.
  - cbn [SpawnManager.zoneCandidates].
    destruct (Math_random_always Q p Hall) as (ra & p1 & Hra & _ & Hall1).
    destruct (Math_random_always Q p1 Hall1) as (rr & p2 & Hrr & _ & Hall2).
    destruct (IH p2 Hall2) as (l & p3 & Hl & Hall3 & Hlen & Hforall).
    rewrite (bind_Some _ _ _ _ _ Hra), (bind_Some _ _ _ _ _ Hrr).
    cbn zeta. rewrite (bind_Some _ _ _ _ _ Hl). unfold Proc.ret.
    eexists. eexists. split; [reflexivity|].
    split; [exact Hall3|]. split; [cbn; lia|].
    constructor; [|exact Hforall].
    unfold onTerrain. cbn [Vec3.x Vec3.y Vec3.z].
    split; [apply Rmax_Rmin_range; lra|].
    split; [apply Rmax_Rmin_range; lra|reflexivity].
Qed.

Lemma allCandidates_spec (Q : R -> Prop) (map : GameMapData R)
    (zones : list (SpawnZone R)) (n : nat) (p : Proc.t R) :
  10 <= width map -> 10 <= depth map -> always Q p ->
  exists l p',
    SpawnManager.allCandidates map zones n p = Some (l, p')
    /\ always Q p' /\ List.length l = (List.length zones * n)%nat
    /\ Forall (onTerrain map) l.
Proof.
  intros Hw Hd. revert p. induction zones as [|zone zones IH]; intros p Hall.
  - exists [], p. cbn. unfold Proc.ret. auto.
  - cbn [SpawnManager.allCandidates].
    destruct (zoneCandidates_spec Q map zone n p Hw Hd Hall)
      as (here & p1 & Hhere & Hall1 & Hlen1 & Hfor1).
    destruct (IH p1 Hall1) as (rest & p2 & Hrest & Hall2 & Hlen2 & Hfor2).
    rewrite (bind_Some _ _ _ _ _ Hhere), (bind_Some _ _ _ _ _ Hrest).
    unfold Proc.ret.
    eexists. eexists. split; [reflexivity|].
    split; [exact Hall2|]. split.
    + rewrite length_app, Hlen1, Hlen2. cbn. lia.
    + apply Forall_app. auto.
Qed.

Lemma ceilDiv_pos (a b : nat) :
  (0 < a)%nat -> (0 < b)%nat -> (0 < SpawnManager.ceilDiv a b)%nat.
Proof.
  intros Ha Hb. unfold SpawnManager.ceilDiv.
  apply Nat.div_str_pos. lia.
Qed.

(** Sorting keeps the elements. *)
Lemma insertByScore_In (e x : Vec3.t R * R) (l : list (Vec3.t R * R)) :
  In x (SpawnManager.insertByScore e l) <-> x = e \/ In x l.
Proof.
  induction l as [|e' l IH]; cbn.
  - intuition.
  - destruct (Rltb (snd e') (snd e)); cbn; rewrite ?IH; intuition.
Qed.

Lemma insertByScore_length (e : Vec3.t R * R) (l : list (Vec3.t R * R)) :
  List.length (SpawnManager.insertByScore e l) = S (List.length l).
Proof.
  induction l as [|e' l IH]; cbn; [reflexivity|].
  destruct (Rltb (snd e') (snd e)); cbn; [reflexivity|now rewrite IH].
Qed.

Lemma sortByScore_In (x : Vec3.t R * R) (l : list (Vec3.t R * R)) :
  In x (SpawnManager.sortByScore l) <-> In x l.
Proof.
  unfold SpawnManager.sortByScore.
  assert (Hgen : forall acc,
             In x (fold_left (fun sorted e => SpawnManager.insertByScore e sorted)
                     l acc)
             <-> In x l \/ In x acc).
  { induction l as [|e l IH]; intros acc; cbn; [tauto|].
    rewrite IH, insertByScore_In. intuition. }
  rewrite Hgen. cbn. tauto.
Qed.

Lemma sortByScore_length (l : list (Vec3.t R * R)) :
  List.length (SpawnManager.sortByScore l) = List.length l.
Proof.
  unfold SpawnManager.sortByScore.
  assert (Hgen : forall acc,
             List.length
               (fold_left (fun sorted e => SpawnManager.insertByScore e sorted)
                  l acc)
             = (List.length l + List.length acc)%nat).
  { induction l as [|e l IH]; intros acc; cbn; [reflexivity|].
    rewrite IH, insertByScore_length. lia. }
  rewrite Hgen. cbn. lia.
Qed.

Lemma In_firstn {A} (x : A) (n : nat) (l : list A) :
  In x (firstn n l) -> In x l.
Proof.
  revert l. induction n as [|n IH]; intros [|a l]; cbn; try tauto.
  intros [Heq|Hin]; [now left|right; now apply IH].
Qed.

(** The index [Math.floor(r * n)] for [r] in [0, 1) and [n] positive. *)
Lemma floor_index (r : R) (n : nat) :
  0 <= r < 1 -> (0 < n)%nat -> (Z.to_nat (Int_part (r * INR n)) < n)%nat.
Proof.
  intros [Hlo Hhi] Hn.
  assert (Hpos : 0 < INR n) by (apply lt_0_INR; exact Hn).
  destruct (base_Int_part (r * INR n)) as [Hle Hgt].
  assert (Hz : (0 <= Int_part (r * INR n))%Z).
  { apply Z.lt_succ_r. apply lt_IZR. rewrite succ_IZR. nra. }
  apply Nat2Z.inj_lt. rewrite Z2Nat.id by exact Hz.
  apply lt_IZR. rewrite <- INR_IZR_INZ. nra.
Qed.

End SpawnFacts.

Section SpawnSelection.
Local Open Scope R_scope.
Import MapGenerator.

(** What [selectSpawnPoint] leaves in the history after choosing [pt]. *)
Definition recorded (sm : SpawnManager.t R) (pt : Vec3.t R)
  : SpawnManager.t R :=
  let recent := SpawnManager.recentSpawns sm ++ [pt] in
  SpawnManager.mk
    (if (SpawnManager.maxRecentSpawns <? List.length recent)%nat
     then tl recent else recent).

(** [selectSpawnPoint] returns one of the candidates it generated, and
    records it, whenever the map has a spawn zone and the random numbers
    lie in [0, 1). *)
Lemma selectSpawnPoint_candidate (Q : R -> Prop) (sm : SpawnManager.t R)
    (player : Player.t R) (enemies : list (Player.t R))
    (map : GameMapData R) (p : Proc.t R) :
  (forall r, Q r -> unitInterval r) ->
  spawnZones map <> [] -> 10 <= width map -> 10 <= depth map ->
  always Q p ->
  exists candidates p1 pt p',
    SpawnManager.generateCandidates map p = Some (candidates, p1)
    /\ SpawnManager.selectSpawnPoint sm player enemies map p
       = Some ((pt, recorded sm pt), p')
    /\ In pt candidates /\ Forall (onTerrain map) candidates
    /\ always Q p'.
Proof.
  intros HQ Hzones Hw Hd Hall.
  unfold SpawnManager.selectSpawnPoint, SpawnManager.generateCandidates.
  destruct (allCandidates_spec Q map (spawnZones map)
              (SpawnManager.ceilDiv SPAWN_CANDIDATE_COUNT
                 (List.length (spawnZones map))) p Hw Hd Hall)
    as (cands & p1 & Hgen & Hall1 & Hlen & Hfor).
  exists cands, p1.
  rewrite (bind_Some _ _ _ _ _ Hgen). cbn zeta.
  destruct (Math_random_always Q p1 Hall1) as (r & p2 & Hr & Hqr & Hall2).
  rewrite (bind_Some _ _ _ _ _ Hr).
  set (scored := SpawnManager.sortByScore _).
  assert (Hcount : (0 < List.length cands)%nat).
  { rewrite Hlen. apply Nat.mul_pos_pos.
    - destruct (spawnZones map); [contradiction|cbn; lia].
    - apply ceilDiv_pos; [unfold SPAWN_CANDIDATE_COUNT; lia|].
      destruct (spawnZones map); [contradiction|cbn; lia]. }
  assert (Hscored : List.length scored = List.length cands).
  { unfold scored. now rewrite sortByScore_length, length_map. }
  assert (Htop : (0 < List.length (firstn SPAWN_TOP_K scored))%nat).
  { rewrite length_firstn, Hscored. unfold SPAWN_TOP_K. lia. }
  pose proof (floor_index r _ (HQ r Hqr) Htop) as Hidx.
  destruct (nth_error (firstn SPAWN_TOP_K scored) _) as [sel|] eqn:Hnth.
  - exists (fst sel), p2. unfold Proc.ret.
    split; [exact Hgen|]. split; [reflexivity|].
    split; [|split; [exact Hfor|exact Hall2]].
    apply nth_error_In in Hnth. apply In_firstn in Hnth.
    unfold scored in Hnth. apply (proj1 (sortByScore_In _ _)) in Hnth.
    apply (proj1 (in_map_iff _ _ _)) in Hnth as (pt & Hpt & Hin).
    now subst sel.
  - apply nth_error_None in Hnth. lia.
Qed.

(** The score of a candidate is the score it would have with an empty
    history, less the flat penalty when a recorded point is nearer than
    the cooldown radius. *)
Lemma scoreCandidate_penalty (sm : SpawnManager.t R) (candidate : Vec3.t R)
    (enemies : list (Player.t R)) (map : GameMapData R) :
  SpawnManager.scoreCandidate sm candidate enemies map
  = let base :=
      SpawnManager.scoreCandidate SpawnManager.new candidate enemies map in
    if existsb
         (fun q => Rltb (Vec3.distanceTo candidate q) SPAWN_COOLDOWN_RADIUS)
         (SpawnManager.recentSpawns sm)
    then base - SPAWN_WEIGHTS_recent else base.
Proof. reflexivity. Qed.

(** The [n] last elements of a list. *)
Definition lastn {A} (n : nat) (l : list A) : list A :=
  skipn (List.length l - n) l.

Lemma lastn_all {A} (n : nat) (l : list A) :
  (List.length l <= n)%nat -> lastn n l = l.
Proof.
  intros Hle. unfold lastn.
  replace (List.length l - n)%nat with 0%nat by lia. reflexivity.
Qed.

Lemma lastn_length {A} (n : nat) (l : list A) :
  (List.length (lastn n l) <= n)%nat.
Proof. unfold lastn. rewrite length_skipn. lia. Qed.

Lemma lastn_app {A} (n : nat) (l1 l2 : list A) :
  lastn n (lastn n l1 ++ l2) = lastn n (l1 ++ l2).
Proof.
  unfold lastn.
  set (k := (List.length l1 - n)%nat).
  assert (Hk : (k <= List.length l1)%nat) by (subst k; lia).
  assert (Happ : skipn k l1 ++ l2 = skipn k (l1 ++ l2)).
  { rewrite skipn_app.
    replace (k - List.length l1)%nat with 0%nat by lia. reflexivity. }
  rewrite Happ, skipn_skipn. f_equal.
  rewrite length_skipn, length_app. subst k. lia.
Qed.

Lemma recorded_lastn (sm : SpawnManager.t R) (pt : Vec3.t R) :
  (List.length (SpawnManager.recentSpawns sm)
   <= SpawnManager.maxRecentSpawns)%nat ->
  SpawnManager.recentSpawns (recorded sm pt)
  = lastn SpawnManager.maxRecentSpawns (SpawnManager.recentSpawns sm ++ [pt]).
Proof.
  intros Hle. unfold recorded, lastn. cbn [SpawnManager.recentSpawns].
  rewrite length_app. cbn [List.length].
  destruct (Nat.ltb_spec SpawnManager.maxRecentSpawns
              (List.length (SpawnManager.recentSpawns sm) + 1)) as [Hlt|Hge].
  - replace (List.length (SpawnManager.recentSpawns sm) + 1
             - SpawnManager.maxRecentSpawns)%nat with 1%nat by lia.
    reflexivity.
  - replace (List.length (SpawnManager.recentSpawns sm) + 1
             - SpawnManager.maxRecentSpawns)%nat with 0%nat by lia.
    reflexivity.
Qed.

(** A sequence of calls of [selectSpawnPoint] on one manager: every call
    works on the history that the call before it left.  Each call has its
    own player and list of enemies. *)
Fixpoint selectAll (sm : SpawnManager.t R)
    (calls : list (Player.t R * list (Player.t R))) (map : GameMapData R)
  : Proc.M R (list (Vec3.t R) * SpawnManager.t R) :=
  match calls with
  | [] => Proc.ret ([], sm)
  | call :: calls' =>
      (r <- SpawnManager.selectSpawnPoint sm (fst call) (snd call) map ;;
       rest <- selectAll (snd r) calls' map ;;
       Proc.ret (fst r :: fst rest, snd rest))%proc
  end.

(** No point of the sequence is nearer than the cooldown radius to one of
    the [maxRecentSpawns] points returned before it. *)
Definition respectsCooldown (pts : list (Vec3.t R)) : Prop :=
  forall earlier pt later,
    pts = earlier ++ pt :: later ->
    Forall (fun q => SPAWN_COOLDOWN_RADIUS <= Vec3.distanceTo pt q)
      (lastn SpawnManager.maxRecentSpawns earlier).

Lemma selectAll_spec (Q : R -> Prop) (P : Vec3.t R -> Prop)
    (map : GameMapData R) (calls : list (Player.t R * list (Player.t R))) :
  (forall r, Q r -> unitInterval r) ->
  spawnZones map <> [] -> 10 <= width map -> 10 <= depth map ->
  (forall p candidates p1,
      always Q p ->
      SpawnManager.generateCandidates map p = Some (candidates, p1) ->
      Forall P candidates) ->
  forall sm p,
    (List.length (SpawnManager.recentSpawns sm)
     <= SpawnManager.maxRecentSpawns)%nat ->
    always Q p ->
    exists pts sm' p',
      selectAll sm calls map p = Some ((pts, sm'), p')
      /\ List.length pts = List.length calls
      /\ Forall (onTerrain map) pts
      /\ Forall P pts
      /\ SpawnManager.recentSpawns sm'
         = lastn SpawnManager.maxRecentSpawns
             (SpawnManager.recentSpawns sm ++ pts)
      /\ always Q p'.
Proof.
  intros HQ Hzones Hw Hd HP.
  induction calls as [|[player enemies] calls IH]; intros sm p Hlen Hall.
  - exists [], sm, p. cbn [selectAll]. unfold Proc.ret.
    rewrite app_nil_r, lastn_all by exact Hlen.
    repeat split; try constructor; exact Hall.
  - cbn [selectAll fst snd].
    destruct (selectSpawnPoint_candidate Q sm player enemies map p
                HQ Hzones Hw Hd Hall)
      as (cands & p1 & pt & p2 & Hgen & Hsel & Hin & Hfor & Hall2).
    assert (Hlen1 : (List.length (SpawnManager.recentSpawns (recorded sm pt))
                     <= SpawnManager.maxRecentSpawns)%nat).
    { rewrite recorded_lastn by exact Hlen. apply lastn_length. }
    destruct (IH (recorded sm pt) p2 Hlen1 Hall2)
      as (pts & sm' & p3 & Hrest & Hcount & Hter & HPs & Hrec & Hall3).
    rewrite (bind_Some _ _ _ _ _ Hsel). cbn [fst snd].
    rewrite (bind_Some _ _ _ _ _ Hrest). cbn [fst snd]. unfold Proc.ret.
    exists (pt :: pts), sm', p3.
    split; [reflexivity|]. split; [cbn; now rewrite Hcount|].
    pose proof (proj1 (Forall_forall _ _) Hfor pt Hin) as Hpt.
    pose proof (proj1 (Forall_forall _ _) (HP p cands p1 Hall Hgen) pt Hin)
      as HPpt.
    split; [now constructor|]. split; [now constructor|].
    split; [|exact Hall3].
    rewrite Hrec, recorded_lastn by exact Hlen.
    rewrite lastn_app, <- app_assoc. reflexivity.
Qed.

End SpawnSelection.

(* ------------------------------------------------------------------ *)
(** ** Generated maps *)

Section GeneratedMaps.
Local Open Scope R_scope.
Import MapGenerator.

Lemma generate_spawnZones (seed : R) :
  spawnZones (generate seed) = generateSpawnZones.
Proof.
  unfold generate.
  destruct (fillHeightmap seed HEIGHTMAP_RESOLUTION seed) as [hm s].
  destruct (generateCovers s) as [cs s']. reflexivity.
Qed.

Lemma generate_width (seed : R) : width (generate seed) = 400.
Proof.
  unfold generate.
  destruct (fillHeightmap seed HEIGHTMAP_RESOLUTION seed) as [hm s].
  destruct (generateCovers s) as [cs s']. reflexivity.
Qed.

Lemma generate_depth (seed : R) : depth (generate seed) = 400.
Proof.
  unfold generate.
  destruct (fillHeightmap seed HEIGHTMAP_RESOLUTION seed) as [hm s].
  destruct (generateCovers s) as [cs s']. reflexivity.
Qed.

Lemma generate_has_zones (seed : R) : spawnZones (generate seed) <> [].
Proof. rewrite generate_spawnZones. intros H. discriminate H. Qed.

Lemma generate_wide (seed : R) : 10 <= width (generate seed).
Proof. rewrite generate_width. lra. Qed.

Lemma generate_deep (seed : R) : 10 <= depth (generate seed).
Proof. rewrite generate_depth. lra. Qed.

End GeneratedMaps.

(* ------------------------------------------------------------------ *)
(** ** C8: what a sequence of selections guarantees *)

(** C8, amended.  For every sequence of calls of [selectSpawnPoint] on
    one manager whose history holds at most [maxRecentSpawns] points, on a
    map with a spawn zone and at least 10 wide and deep, and with every
    [Math.random()] in [0, 1): no call raises; every call returns a point
    inside the map's margin whose height is the terrain's; the history
    afterwards is the last [maxRecentSpawns] points of the old history
    followed by the returned points.  The history enters the choice only
    through the score: a candidate nearer than [SPAWN_COOLDOWN_RADIUS] to a
    recorded point loses [SPAWN_WEIGHTS_recent], and is not excluded. *)
Theorem selectSpawnPoint_returns_terrain_points
    (sm : SpawnManager.t R) (calls : list (Player.t R * list (Player.t R)))
    (map : MapGenerator.GameMapData R) (p : Proc.t R) :
  MapGenerator.spawnZones map <> [] ->
  (10 <= MapGenerator.width map)%R -> (10 <= MapGenerator.depth map)%R ->
  (List.length (SpawnManager.recentSpawns sm)
   <= SpawnManager.maxRecentSpawns)%nat ->
  always unitInterval p ->
  (exists pts sm' p',
      selectAll sm calls map p = Some ((pts, sm'), p')
      /\ List.length pts = List.length calls
      /\ Forall (onTerrain map) pts
      /\ SpawnManager.recentSpawns sm'
         = lastn SpawnManager.maxRecentSpawns
             (SpawnManager.recentSpawns sm ++ pts))
  /\ (forall candidate enemies,
         SpawnManager.scoreCandidate sm candidate enemies map
         = let base :=
             SpawnManager.scoreCandidate SpawnManager.new candidate enemies
               map in
           if existsb
                (fun q => Rltb (Vec3.distanceTo candidate q)
                            SPAWN_COOLDOWN_RADIUS)
                (SpawnManager.recentSpawns sm)
           then (base - SPAWN_WEIGHTS_recent)%R else base).
Proof.
  intros Hzones Hw Hd Hlen Hall. split.
  - destruct (selectAll_spec unitInterval (fun _ => True) map calls
                (fun r H => H) Hzones Hw Hd) with (sm := sm) (p := p)
      as (pts & sm' & p' & Hsel & Hcount & Hter & _ & Hrec & _).
    + intros p0 candidates p1 _ _. apply Forall_forall. intros c _. exact I.
    + exact Hlen.
    + exact Hall.
    + exists pts, sm', p'. auto.
  - intros candidate enemies. apply scoreCandidate_penalty.
Qed.

(** A process whose [Math.random()] always returns 0. *)
Definition zeroProc : Proc.t R := Proc.mk (fun _ => 0%R) 0.

Definition newcomer : Player.t R := Player.new 1 "Kim".

Lemma zeroProc_unitInterval : always unitInterval zeroProc.
Proof. intros n. unfold unitInterval. cbn. lra. Qed.

Lemma selectSpawnPoint_returns_terrain_points_witness :
  exists pts sm' p',
    selectAll SpawnManager.new [(newcomer, []); (newcomer, [])]
      (MapGenerator.generate 42%R) zeroProc
    = Some ((pts, sm'), p')
    /\ List.length pts = 2%nat
    /\ Forall (onTerrain (MapGenerator.generate 42%R)) pts
    /\ SpawnManager.recentSpawns sm' = lastn SpawnManager.maxRecentSpawns pts.
Proof.
  destruct (selectSpawnPoint_returns_terrain_points SpawnManager.new
              [(newcomer, []); (newcomer, [])] (MapGenerator.generate 42%R)
              zeroProc (generate_has_zones 42%R) (generate_wide 42%R)
              (generate_deep 42%R))
    as [(pts & sm' & p' & Hsel & Hcount & Hter & Hrec) _].
  - cbn. lia.
  - exact zeroProc_unitInterval.
  - exists pts, sm', p'. repeat split; assumption.
Defined.

(* ------------------------------------------------------------------ *)
(** ** The selector of the repository keeps the spawn contract *)

Section RealSelector.
Local Open Scope R_scope.
Import MapGenerator.

Lemma fairProc_real (p : Proc.t R) : fairProc p <-> always unitInterval p.
Proof.
  unfold fairProc, always, unitInterval.
  split; intros Hall n; specialize (Hall n).
  - apply andb_true_iff in Hall. destruct Hall as [Hlo Hhi].
    change (Rleb 0 (Proc.random p n) = true) in Hlo.
    change (Rltb (Proc.random p n) 1 = true) in Hhi.
    apply Rleb_true in Hlo. apply Rltb_true in Hhi. lra.
  - apply andb_true_iff. split.
    + change (Rleb 0 (Proc.random p n) = true). apply Rleb_true. lra.
    + change (Rltb (Proc.random p n) 1 = true). apply Rltb_true. lra.
Qed.

(** The selector of the repository returns on every map with a spawn
    zone that is at least 10 wide and deep. *)
Lemma RealImports_spawnsOn (m : GameMapData R) :
  spawnZones m <> [] -> 10 <= width m -> 10 <= depth m ->
  spawnsOn RealImports m.
Proof.
  intros Hzones Hw Hd sm player enemies p Hfair.
  apply fairProc_real in Hfair.
  destruct (selectSpawnPoint_candidate unitInterval sm player enemies m p
              (fun r Hr => Hr) Hzones Hw Hd Hfair)
    as (candidates & p1 & pt & p' & _ & Hsel & _ & _ & Hfair').
  exists pt, (recorded sm pt), p'. split; [exact Hsel|].
  now apply fairProc_real.
Qed.

(** So it does on every generated map. *)
Lemma RealImports_spawnsOn_generated (seed : R) :
  spawnsOn RealImports (generate seed).
Proof.
  apply RealImports_spawnsOn;
    [apply generate_has_zones|apply generate_wide|apply generate_deep].
Qed.

Lemma zeroProc_fair : fairProc zeroProc.
Proof. apply fairProc_real, zeroProc_unitInterval. Qed.

End RealSelector.

(** *** C3 on a generated map, with the selector of the repository *)

(** A world on the map [m] with the combatants [ids], all alive. *)
Definition crewWorld (m : MapGenerator.GameMapData R) (ids : list Z)
  : GameWorld.t R :=
  GameWorld.mk 0 0 (fun r => Player.new (nth r ids 0%Z) "crew")
    (List.length ids) (combine ids (seq 0 (List.length ids))) [] m
    SpawnManager.new 1 [] [].

(** The controller of the AI combatant at reference [ref]. *)
Definition crewBot (ref : nat) : AIPlayer.t R :=
  AIPlayer.mk ref AIPlayer.normal AIPlayer.Patrol 0 0%R 0%R 0%R 0%R None
    0%R None 0%R 0%R false 0%R Vec3.zero 1%R.

Definition tenBots : list Z := [100; 101; 102; 103; 104; 105; 106; 107; 108; 109]%Z.
Definition tenHumans : list Z := [1; 2; 3; 4; 5; 6; 7; 8; 9; 10]%Z.

(** A room with ten AI combatants and no human, and a room with ten
    humans and no AI, on the map [m]. *)
Definition botsOnly (m : MapGenerator.GameMapData R) : GameRoom.t R :=
  GameRoom.mk "room" Warmup (crewWorld m tenBots) [] 0%R false 1
    (300 * 1000)%R
    (List.map (fun e : Z * nat => (fst e, crewBot (snd e)))
       (combine tenBots (seq 0 10)))
    110 [] 0%R.

Definition humansOnly (m : MapGenerator.GameMapData R) : GameRoom.t R :=
  GameRoom.mk "room" InRound (crewWorld m tenHumans)
    (List.map (fun k : Z => (k, mkClient k [])) tenHumans) 0%R true 11
    (300 * 1000)%R [] 100
    (List.map (fun k : Z => (k, 0%R)) tenHumans) 0%R.

Lemma crew_map (m : MapGenerator.GameMapData R) :
  GameWorld.map (GameRoom.world (botsOnly m)) = m
  /\ GameWorld.map (GameRoom.world (humansOnly m)) = m.
Proof. split; reflexivity. Qed.

Lemma botsOnly_counts (m : MapGenerator.GameMapData R) :
  wellKeyed (GameRoom.aiBots (botsOnly m))
  /\ JSMap.size (GameWorld.players (GameRoom.world (botsOnly m)))
     = (JSMap.size (GameRoom.clients (botsOnly m))
        + JSMap.size (GameRoom.aiBots (botsOnly m)))%nat
  /\ (MAX_PLAYERS
      <= JSMap.size (GameRoom.clients (botsOnly m))
         + JSMap.size (GameRoom.aiBots (botsOnly m)))%nat
  /\ (0 < GameRoom.getAICount (botsOnly m))%nat.
Proof.
  split; [|split; [reflexivity|split; [cbn; unfold MAX_PLAYERS; lia|cbn; lia]]].
  unfold wellKeyed. cbn.
  repeat (constructor; [cbn; intuition lia|]). constructor.
Qed.

Lemma humansOnly_counts (m : MapGenerator.GameMapData R) :
  wellKeyed (GameRoom.aiBots (humansOnly m))
  /\ JSMap.size (GameWorld.players (GameRoom.world (humansOnly m)))
     = (JSMap.size (GameRoom.clients (humansOnly m))
        + JSMap.size (GameRoom.aiBots (humansOnly m)))%nat
  /\ GameRoom.isFull (humansOnly m) = true
  /\ GameRoom.getAICount (humansOnly m) = 0%nat.
Proof. repeat split. constructor. Qed.


(* ------------------------------------------------------------------ *)
(** ** C8: the cooldown is not enforced *)

Section Crowding.
Local Open Scope R_scope.
Import MapGenerator.

Definition isZero (r : R) : Prop := r = 0.

Lemma isZero_unitInterval (r : R) : isZero r -> unitInterval r.
Proof. unfold isZero, unitInterval. intros ->. lra. Qed.

(** The candidate that a zone yields when both draws are 0: the zone's
    centre, clamped into the map and lifted to the terrain. *)
Definition anchor (map : GameMapData R) (zone : SpawnZone R) : Vec3.t R :=
  let x := Rmax (- width map / 2 + 5)
             (Rmin (width map / 2 - 5) (Vec3.x (center zone))) in
  let z := Rmax (- depth map / 2 + 5)
             (Rmin (depth map / 2 - 5) (Vec3.z (center zone))) in
  Vec3.mk x (getHeightAt map x z) z.

Lemma zoneCandidates_zero (map : GameMapData R) (zone : SpawnZone R)
    (n : nat) (p : Proc.t R) :
  always isZero p ->
  exists l p',
    SpawnManager.zoneCandidates map zone n p = Some (l, p')
    /\ always isZero p' /\ Forall (eq (anchor map zone)) l.
Proof.
  revert p. induction n as [|n IH]; intros p Hall.
  - exists [], p. cbn. unfold Proc.ret. auto.
  - cbn [SpawnManager.zoneCandidates].
    destruct (Math_random_always isZero p Hall)
      as (ra & p1 & Hra & Hzra & Hall1).
    destruct (Math_random_always isZero p1 Hall1)
      as (rr & p2 & Hrr & Hzrr & Hall2).
    destruct (IH p2 Hall2) as (l & p3 & Hl & Hall3 & Hfor).
    rewrite (bind_Some _ _ _ _ _ Hra), (bind_Some _ _ _ _ _ Hrr).
    cbn zeta. rewrite (bind_Some _ _ _ _ _ Hl). unfold Proc.ret.
    eexists. eexists. split; [reflexivity|]. split; [exact Hall3|].
    constructor; [|exact Hfor].
    unfold isZero in Hzra, Hzrr. subst ra rr. unfold anchor.
    replace (Vec3.x (center zone) + cos (0 * PI * 2) * (0 * zone_radius zone))
      with (Vec3.x (center zone)) by ring.
    replace (Vec3.z (center zone) + sin (0 * PI * 2) * (0 * zone_radius zone))
      with (Vec3.z (center zone)) by ring.
    reflexivity.
Qed.

Lemma allCandidates_zero (map : GameMapData R) (zones : list (SpawnZone R))
    (n : nat) (p : Proc.t R) :
  always isZero p ->
  exists l p',
    SpawnManager.allCandidates map zones n p = Some (l, p')
    /\ always isZero p'
    /\ Forall (fun c => In c (List.map (anchor map) zones)) l.
Proof.
  revert p. induction zones as [|zone zones IH]; intros p Hall.
  - exists [], p. cbn. unfold Proc.ret. auto.
  - cbn [SpawnManager.allCandidates].
    destruct (zoneCandidates_zero map zone n p Hall)
      as (here & p1 & Hhere & Hall1 & Hfor1).
    destruct (IH p1 Hall1) as (rest & p2 & Hrest & Hall2 & Hfor2).
    rewrite (bind_Some _ _ _ _ _ Hhere), (bind_Some _ _ _ _ _ Hrest).
    unfold Proc.ret.
    eexists. eexists. split; [reflexivity|]. split; [exact Hall2|].
    apply Forall_app. split.
    + apply Forall_forall. intros c Hc.
      pose proof (proj1 (Forall_forall _ _) Hfor1 c Hc) as Heq.
      left. exact Heq.
    + apply Forall_forall. intros c Hc.
      pose proof (proj1 (Forall_forall _ _) Hfor2 c Hc) as Hin.
      right. exact Hin.
Qed.

Lemma generateCandidates_zero (map : GameMapData R) (p : Proc.t R)
    (candidates : list (Vec3.t R)) (p1 : Proc.t R) :
  always isZero p ->
  SpawnManager.generateCandidates map p = Some (candidates, p1) ->
  Forall (fun c => In c (List.map (anchor map) (spawnZones map))) candidates.
Proof.
  intros Hall Hgen. unfold SpawnManager.generateCandidates in Hgen.
  destruct (allCandidates_zero map (spawnZones map)
              (SpawnManager.ceilDiv SPAWN_CANDIDATE_COUNT
                 (List.length (spawnZones map))) p Hall)
    as (l & p' & Hl & _ & Hfor).
  rewrite Hl in Hgen. injection Hgen as <- _. exact Hfor.
Qed.

Lemma Vec3_eq_decidable : decidable_eq (Vec3.t R).
Proof.
  intros [x1 y1 z1] [x2 y2 z2]. unfold Decidable.decidable.
  destruct (Req_dec x1 x2) as [->|Hx]; [|right; intros H; injection H; tauto].
  destruct (Req_dec y1 y2) as [->|Hy]; [|right; intros H; injection H; tauto].
  destruct (Req_dec z1 z2) as [->|Hz]; [|right; intros H; injection H; tauto].
  now left.
Qed.

(** When every draw is 0, more selections than the map has spawn zones
    return some point twice, and this within the history. *)
Lemma crowded_selection (map : GameMapData R)
    (calls : list (Player.t R * list (Player.t R))) (sm : SpawnManager.t R)
    (p : Proc.t R) :
  spawnZones map <> [] -> 10 <= width map -> 10 <= depth map ->
  (List.length (SpawnManager.recentSpawns sm)
   <= SpawnManager.maxRecentSpawns)%nat ->
  always isZero p ->
  (List.length (spawnZones map) < List.length calls)%nat ->
  (List.length calls <= SpawnManager.maxRecentSpawns)%nat ->
  exists pts sm' p',
    selectAll sm calls map p = Some ((pts, sm'), p')
    /\ ~ respectsCooldown pts.
Proof.
  intros Hzones Hw Hd Hlen Hall Hmore Hfew.
  destruct (selectAll_spec isZero
              (fun c => In c (List.map (anchor map) (spawnZones map)))
              map calls isZero_unitInterval Hzones Hw Hd) with (sm := sm) (p := p)
    as (pts & sm' & p' & Hsel & Hcount & _ & Hanchors & _ & _).
  - intros p0 candidates p1. apply generateCandidates_zero.
  - exact Hlen.
  - exact Hall.
  - exists pts, sm', p'. split; [exact Hsel|].
    assert (Hdup : ~ NoDup pts).
    { intros Hnodup.
      assert (Hincl : incl pts (List.map (anchor map) (spawnZones map))).
      { intros c Hc. exact (proj1 (Forall_forall _ _) Hanchors c Hc). }
      pose proof (NoDup_incl_length Hnodup Hincl) as Hle.
      rewrite length_map in Hle. lia. }
    destruct (not_NoDup Vec3_eq_decidable Hdup)
      as (a & l1 & l2 & l3 & Hpts).
    intros Hcool.
    specialize (Hcool (l1 ++ a :: l2) a l3).
    rewrite <- app_assoc in Hcool. cbn [app] in Hcool.
    specialize (Hcool Hpts).
    assert (Hshort : (List.length (l1 ++ a :: l2)
                      <= SpawnManager.maxRecentSpawns)%nat).
    { assert (Hl : List.length pts
                   = (List.length (l1 ++ a :: l2) + S (List.length l3))%nat).
      { rewrite Hpts, !length_app. cbn [List.length]. rewrite length_app.
        cbn [List.length]. lia. }
      lia. }
    rewrite lastn_all in Hcool by exact Hshort.
    assert (Hin : In a (l1 ++ a :: l2)).
    { apply in_or_app. right. now left. }
    pose proof (proj1 (Forall_forall _ _) Hcool a Hin) as Hfar.
    cbv beta in Hfar. rewrite distanceTo_self in Hfar.
    change (SPAWN_COOLDOWN_RADIUS (num := R)) with 20 in Hfar. lra.
Qed.

End Crowding.

Lemma zeroProc_isZero : always isZero zeroProc.
Proof. intros n. reflexivity. Qed.

(** C8, counterexample.  Nine successive selections for a newcomer
    without enemies on the map of seed 42, when [Math.random()] returns 0
    every time: no call raises, and one of the nine returned points lies
    at distance 0 from a point returned before it. *)
Lemma selection_lands_inside_cooldown_radius :
  exists pts sm' p',
    selectAll SpawnManager.new (repeat (newcomer, []) 9)
      (MapGenerator.generate 42%R) zeroProc
    = Some ((pts, sm'), p')
    /\ ~ respectsCooldown pts.
Proof.
  apply crowded_selection.
  - apply generate_has_zones.
  - apply generate_wide.
  - apply generate_deep.
  - cbn. lia.
  - exact zeroProc_isZero.
  - rewrite generate_spawnZones, repeat_length.
    unfold MapGenerator.generateSpawnZones. cbn [List.length]. lia.
  - rewrite repeat_length. unfold SpawnManager.maxRecentSpawns. lia.
Qed.

(* ================================================================== *)
(** * Terrain generation *)
(* ================================================================== *)

Section TerrainFacts.
Local Open Scope R_scope.
Import MapGenerator.

Lemma fold_left_invariant {A B} (P : A -> Prop) (f : A -> B -> A)
    (l : list B) (a : A) :
  (forall a b, P a -> P (f a b)) -> P a -> P (fold_left f l a).
Proof.
  intros Hstep. revert a.
  induction l as [|b l IH]; intros a Ha; cbn; [exact Ha|].
  apply IH, Hstep, Ha.
Qed.

Lemma list_set_length {A} (l : list A) (i : nat) (v : A) :
  List.length (list_set l i v) = List.length l.
Proof.
  revert i. induction l as [|h t IH]; intros [|i]; cbn; try reflexivity.
  now rewrite IH.
Qed.

Lemma fillRow_length (seed : R) (resolution z : nat) (acc : list R * R) :
  List.length (fst (fillRow seed resolution z acc))
  = (List.length (fst acc) + resolution)%nat.
Proof.
  unfold fillRow.
  assert (Hgen : forall xs acc,
             List.length
               (fst (fold_left
                       (fun (acc : list R * R) (x : nat) =>
                          let '(cells, s) := acc in
                          let '(r, s') := seededRandom s in
                          (cells ++ [baseHeight seed resolution x z r], s'))
                       xs acc))
             = (List.length (fst acc) + List.length xs)%nat).
  { induction xs as [|x xs IH]; intros [cells s];
      cbn [fold_left List.length fst].
    - lia.
    - destruct (seededRandom s) as [r s'].
      rewrite IH. cbn [fst]. rewrite length_app. cbn [List.length]. lia. }
  rewrite Hgen, length_seq. reflexivity.
Qed.

Lemma fillHeightmap_length (seed : R) (resolution : nat) (s : R) :
  List.length (fst (fillHeightmap seed resolution s))
  = (resolution * resolution)%nat.
Proof.
  unfold fillHeightmap.
  assert (Hgen : forall zs acc,
             List.length
               (fst (fold_left (fun acc z => fillRow seed resolution z acc)
                       zs acc))
             = (List.length (fst acc) + List.length zs * resolution)%nat).
  { induction zs as [|z zs IH]; intros acc; cbn [fold_left List.length].
    - lia.
    - rewrite IH, fillRow_length. lia. }
  rewrite Hgen, length_seq. cbn [fst List.length]. lia.
Qed.

Lemma clampCell_length (maxHeightDiff : R) (resolution : nat)
    (hm : list R) (idx : nat) :
  List.length (clampCell maxHeightDiff resolution hm idx) = List.length hm.
Proof.
  unfold clampCell.
  apply (fold_left_invariant
           (fun hm' : list R => List.length hm' = List.length hm));
    [|reflexivity].
  intros hm' nh Hlen.
  destruct (Rltb maxHeightDiff _); [|exact Hlen].
  now rewrite list_set_length.
Qed.

Lemma clampSlopes_length (hm : list R) (resolution : nat)
    (maxSlope gridSpacing : R) :
  List.length (clampSlopes hm resolution maxSlope gridSpacing)
  = List.length hm.
Proof.
  unfold clampSlopes.
  apply (fold_left_invariant
           (fun hm' : list R => List.length hm' = List.length hm));
    [|reflexivity].
  intros hm1 _ H1.
  apply (fold_left_invariant
           (fun hm' : list R => List.length hm' = List.length hm));
    [|exact H1].
  intros hm2 z H2.
  apply (fold_left_invariant
           (fun hm' : list R => List.length hm' = List.length hm));
    [|exact H2].
  intros hm3 x H3. now rewrite clampCell_length.
Qed.

(** The seeded generator returns numbers from 0 to 1, both included. *)
Lemma seededRandom_range (s : R) : 0 <= fst (seededRandom s) <= 1.
Proof.
  unfold seededRandom. cbn [fst]. unfold ToUint32.
  set (u := (trunc _ mod 2 ^ 32)%Z).
  assert (Hu : (0 <= u < 2 ^ 32)%Z)
    by (subst u; apply Z.mod_pos_bound; reflexivity).
  assert (Hlo : 0 <= IZR u) by (apply IZR_le; lia).
  assert (Hhi : IZR u <= 4294967295).
  { apply IZR_le. change (2 ^ 32)%Z with 4294967296%Z in Hu. lia. }
  split.
  - apply Rmult_le_pos; [exact Hlo|]. apply Rlt_le, Rinv_0_lt_compat. lra.
  - apply Rmult_le_reg_r with 4294967295; [lra|].
    unfold Rdiv. rewrite Rmult_assoc, Rinv_l by lra. lra.
Qed.

Lemma coverLoop_length (count : nat) (s : R) :
  List.length (fst (coverLoop count s)) = count.
Proof.
  revert s. induction count as [|count IH]; intros s; cbn [coverLoop].
  - reflexivity.
  - destruct (seededRandom s) as [rx s1].
    destruct (seededRandom s1) as [rz s2].
    destruct (seededRandom s2) as [rr s3].
    destruct (seededRandom s3) as [rh s4].
    specialize (IH s4). destruct (coverLoop count s4) as [rest s5].
    cbn [fst List.length] in *. now rewrite IH.
Qed.

Lemma generateCovers_count (s : R) :
  (15 <= List.length (fst (generateCovers s)) <= 25)%nat.
Proof.
  unfold generateCovers.
  pose proof (seededRandom_range s) as Hr.
  destruct (seededRandom s) as [r s1]. cbn [fst] in Hr.
  rewrite coverLoop_length.
  destruct (base_Int_part (r * 10)) as [Hle Hgt].
  assert (Hlo : (0 <= Int_part (r * 10))%Z).
  { apply Z.lt_succ_r. apply lt_IZR. rewrite succ_IZR. lra. }
  assert (Hhi : (Int_part (r * 10) <= 10)%Z).
  { apply le_IZR. lra. }
  lia.
Qed.

(** The fields of a generated map. *)
Lemma generate_fields (seed0 : R) :
  let filled := fillHeightmap seed0 HEIGHTMAP_RESOLUTION seed0 in
  heightmap (generate seed0)
  = clampSlopes (fst filled) HEIGHTMAP_RESOLUTION MAX_SLOPE
      (MAP_WIDTH / INR HEIGHTMAP_RESOLUTION)
  /\ covers (generate seed0) = fst (generateCovers (snd filled))
  /\ resolution (generate seed0) = Z.of_nat HEIGHTMAP_RESOLUTION
  /\ seed (generate seed0) = seed0.
Proof.
  cbv zeta. unfold generate.
  destruct (fillHeightmap seed0 HEIGHTMAP_RESOLUTION seed0) as [hm s].
  cbn [fst snd]. destruct (generateCovers s) as [cs s'].
  cbn [heightmap covers resolution seed fst snd]. repeat split.
Qed.

End TerrainFacts.

Section WorldTerrain.
Context {num : Type} `{JSNumber num}.
Variable imports : Imports num.

Lemma respawnAtSpawnPoint_map (r : nat) (w : GameWorld.t num)
    (p : Proc.t num) (pos : Vec3.t num) (w' : GameWorld.t num)
    (p' : Proc.t num) :
  GameWorld.respawnAtSpawnPoint imports r w p = Some ((pos, w'), p') ->
  GameWorld.map w' = GameWorld.map w.
Proof.
  unfold GameWorld.respawnAtSpawnPoint. intros Hre.
  apply bind_inv in Hre as ([spawnPos sm] & p1 & _ & Hre).
  cbv zeta in Hre.
  apply bind_inv in Hre as (pl & p2 & _ & Hre).
  unfold Proc.ret in Hre. injection Hre as _ <- _. reflexivity.
Qed.

Lemma resetAll_map (refs : list nat) (w : GameWorld.t num) (p : Proc.t num)
    (w' : GameWorld.t num) (p' : Proc.t num) :
  GameWorld.resetAll imports refs w p = Some (w', p') ->
  GameWorld.map w' = GameWorld.map w.
Proof.
  revert w p. induction refs as [|r refs IH]; intros w p Hall.
  - cbn in Hall. unfold Proc.ret in Hall. now injection Hall as <- _.
  - cbn [GameWorld.resetAll] in Hall. cbv zeta in Hall.
    apply bind_inv in Hall as ([pos w1] & p1 & Hre & Hall).
    apply respawnAtSpawnPoint_map in Hre.
    apply IH in Hall. rewrite Hall, Hre. reflexivity.
Qed.

(** After [reset(newSeed)] the world holds the map of [newSeed]. *)
Lemma reset_map (newSeed : num) (w : GameWorld.t num) (p : Proc.t num)
    (w' : GameWorld.t num) (p' : Proc.t num) :
  GameWorld.reset imports newSeed w p = Some (w', p') ->
  GameWorld.map w' = generate imports newSeed.
Proof.
  unfold GameWorld.reset. cbv zeta. intros Hall.
  apply resetAll_map in Hall. rewrite Hall. reflexivity.
Qed.

Lemma new_map (mapSeed : num) :
  GameWorld.map (GameWorld.new imports mapSeed) = generate imports mapSeed.
Proof. reflexivity. Qed.

End WorldTerrain.

Lemma generate_of_mkImports {num : Type}
    (a : TankPhysicsState.t num -> PhysicsInput num -> num ->
         option (num -> num -> num) -> TankPhysicsState.t num)
    (b c : TankPhysicsState.t num -> Vec3.t num)
    (d : num -> num -> num -> Vec3.t num)
    (g : num -> MapGenerator.GameMapData num)
    (s : SpawnManager.t num -> Player.t num -> list (Player.t num) ->
         MapGenerator.GameMapData num ->
         Proc.M num (Vec3.t num * SpawnManager.t num)) :
  generate (mkImports a b c d g s) = g.
Proof. reflexivity. Qed.

(** The terrain generator of the repository's world. *)
Lemma RealImports_generate (mapSeed : R) :
  generate RealImports mapSeed = MapGenerator.generate mapSeed.
Proof.
  exact (f_equal (fun g => g mapSeed)
           (generate_of_mkImports Physics.updateTankPhysics
              Physics.calculateMuzzleVelocity Physics.getMuzzlePosition
              Physics.getBarrelDirection MapGenerator.generate
              SpawnManager.selectSpawnPoint)).
Qed.

(** ** Where the rounding is the identity *)

Section Binary64Facts.
Import MapGenerator.
Local Open Scope R_scope.

Lemma ln2_pos : 0 < ln 2.
Proof. rewrite <- ln_1. apply ln_increasing; lra. Qed.

(** [exponent2 x] is the exponent of [x]. *)
Lemma exponent2_spec (x : R) :
  x <> 0 ->
  powerRZ 2 (exponent2 x) <= Rabs x < powerRZ 2 (exponent2 x + 1).
Proof.
  intros Hx. unfold exponent2.
  assert (Habs : 0 < Rabs x) by now apply Rabs_pos_lt.
  pose proof ln2_pos as Hln2.
  destruct (base_Int_part (ln (Rabs x) / ln 2)) as [Hlo Hhi].
  set (e := Int_part (ln (Rabs x) / ln 2)) in *.
  assert (Hlo' : IZR e * ln 2 <= ln (Rabs x)).
  { apply (Rmult_le_compat_r (ln 2)) in Hlo; [|lra].
    unfold Rdiv in Hlo. rewrite Rmult_assoc, Rinv_l in Hlo by lra. lra. }
  assert (Hhi' : ln (Rabs x) < IZR (e + 1) * ln 2).
  { rewrite plus_IZR.
    assert (H1 : ln (Rabs x) / ln 2 < IZR e + 1) by lra.
    apply (Rmult_lt_compat_r (ln 2)) in H1; [|lra].
    unfold Rdiv in H1. rewrite Rmult_assoc, Rinv_l in H1 by lra. lra. }
  rewrite !powerRZ_Rpower by lra. unfold Rpower.
  rewrite <- (exp_ln (Rabs x) Habs). split.
  - destruct Hlo' as [Hlt|Heq]; [left; now apply exp_increasing|].
    right. now rewrite Heq.
  - now apply exp_increasing.
Qed.

Lemma powerRZ_2_le (n m : Z) : (n <= m)%Z -> powerRZ 2 n <= powerRZ 2 m.
Proof.
  intros Hnm. replace m with (n + (m - n))%Z by lia.
  rewrite powerRZ_add by lra.
  assert (H1 : 1 <= powerRZ 2 (m - n)).
  { destruct (m - n)%Z as [|q|q] eqn:E; [cbn; lra| |lia].
    cbn [powerRZ]. apply pow_R1_Rle. lra. }
  pose proof (powerRZ_lt 2 n ltac:(lra)). nra.
Qed.

Lemma powerRZ_2_IZR (n : Z) : (0 <= n)%Z -> powerRZ 2 n = IZR (2 ^ n).
Proof.
  intros Hn. destruct n as [|q|q]; [reflexivity| |lia].
  cbn [powerRZ]. rewrite pow_IZR. now rewrite positive_nat_Z.
Qed.

Lemma nearestEven_IZR (n : Z) : nearestEven (IZR n) = n.
Proof.
  unfold nearestEven. cbv zeta.
  assert (Hn : Int_part (IZR n) = n)
    by (symmetry; apply Int_part_spec; lra).
  rewrite Hn, Rminus_diag.
  now rewrite (proj2 (Rltb_true 0 (1 / 2))) by lra.
Qed.

(** A number [k * 2^j] with [|k| < 2^53] and [j] from -1074 on, below
    the overflow threshold, is a double: the rounding leaves it as it
    is.  So do the integers up to 2^53 in absolute value. *)
Lemma binary64_dyadic (k j : Z) :
  (Z.abs k < 2 ^ 53)%Z -> (- 1074 <= j)%Z ->
  Rabs (IZR k * powerRZ 2 j) < powerRZ 2 1024 - powerRZ 2 970 ->
  binary64 (IZR k * powerRZ 2 j) = Some (IZR k * powerRZ 2 j).
Proof.
  intros Hk Hj Hfin. unfold binary64.
  rewrite (proj2 (Rleb_false _ _)) by exact Hfin.
  pose proof (powerRZ_lt 2 j ltac:(lra)) as Hpj.
  destruct (Z.eq_dec k 0) as [->|Hk0].
  { rewrite Rmult_0_l, Rabs_R0.
    now rewrite (proj2 (Rleb_true 0 0)) by lra. }
  assert (Hx : IZR k * powerRZ 2 j <> 0).
  { apply Rmult_integral_contrapositive_currified; [|lra].
    now apply not_0_IZR. }
  rewrite (proj2 (Rleb_false _ _)) by now apply Rabs_pos_lt.
  cbv zeta. set (x := IZR k * powerRZ 2 j) in *.
  destruct (exponent2_spec x Hx) as [Hlo _].
  set (e := Z.max (exponent2 x) (- 1022)).
  assert (He : (e - 52 <= j)%Z).
  { destruct (Z.max_spec (exponent2 x) (- 1022)) as [[_ Hm]|[_ Hm]];
      fold e in Hm; rewrite Hm; [lia|].
    destruct (Z_le_gt_dec (exponent2 x - 52) j) as [Hle|Hgt]; [exact Hle|].
    exfalso.
    assert (Hbig : powerRZ 2 (53 + j) <= Rabs x).
    { eapply Rle_trans; [|exact Hlo]. apply powerRZ_2_le. lia. }
    unfold x in Hbig. rewrite Rabs_mult, (Rabs_pos_eq (powerRZ 2 j)) in Hbig
      by lra.
    rewrite powerRZ_add in Hbig by lra.
    assert (Hk' : Rabs (IZR k) < powerRZ 2 53).
    { rewrite <- abs_IZR, powerRZ_2_IZR by lia. now apply IZR_lt. }
    nra. }
  assert (Hdiv : x / powerRZ 2 (e - 52) = IZR (k * 2 ^ (j - (e - 52)))).
  { rewrite mult_IZR, <- powerRZ_2_IZR by lia.
    unfold x. replace j with ((j - (e - 52)) + (e - 52))%Z at 1 by lia.
    rewrite powerRZ_add by lra.
    pose proof (powerRZ_lt 2 (e - 52) ltac:(lra)). field. lra. }
  rewrite Hdiv, nearestEven_IZR, <- Hdiv. f_equal.
  pose proof (powerRZ_lt 2 (e - 52) ltac:(lra)). field. lra.
Qed.

Lemma binary64_integer (k : Z) :
  (Z.abs k < 2 ^ 53)%Z -> binary64 (IZR k) = Some (IZR k).
Proof.
  intros Hk. rewrite <- (Rmult_1_r (IZR k)).
  change 1 with (powerRZ 2 0). apply binary64_dyadic; [exact Hk|lia|].
  rewrite powerRZ_O, Rmult_1_r, <- abs_IZR.
  apply Rlt_trans with (IZR (2 ^ 53)); [now apply IZR_lt|].
  assert (H1 : powerRZ 2 971 <= powerRZ 2 1024) by (apply powerRZ_2_le; lia).
  assert (H2 : powerRZ 2 971 = 2 * powerRZ 2 970).
  { replace 971%Z with (1 + 970)%Z by lia. rewrite powerRZ_add by lra.
    now rewrite powerRZ_1. }
  assert (H3 : IZR (2 ^ 53) <= powerRZ 2 969).
  { rewrite <- powerRZ_2_IZR by lia. apply powerRZ_2_le. lia. }
  assert (H4 : powerRZ 2 970 = 2 * powerRZ 2 969).
  { replace 970%Z with (1 + 969)%Z by lia. rewrite powerRZ_add by lra.
    now rewrite powerRZ_1. }
  pose proof (powerRZ_lt 2 969 ltac:(lra)).
  set (a := IZR (2 ^ 53)) in *. lra.
Qed.

Lemma exponent2_unique (x : R) (n : Z) :
  powerRZ 2 n <= Rabs x < powerRZ 2 (n + 1) -> exponent2 x = n.
Proof.
  intros [Hlo Hhi].
  assert (Hx : x <> 0).
  { intros ->. rewrite Rabs_R0 in Hlo.
    pose proof (powerRZ_lt 2 n ltac:(lra)). lra. }
  destruct (exponent2_spec x Hx) as [Hlo' Hhi'].
  destruct (Z_lt_le_dec n (exponent2 x)) as [Hlt|Hle].
  - assert (powerRZ 2 (n + 1) <= powerRZ 2 (exponent2 x))
      by (apply powerRZ_2_le; lia). lra.
  - destruct (Z_lt_le_dec (exponent2 x) n) as [Hlt|Hge]; [|lia].
    assert (powerRZ 2 (exponent2 x + 1) <= powerRZ 2 n)
      by (apply powerRZ_2_le; lia). lra.
Qed.

(** Beyond 2^53 it is not: 2^53 + 1 lies halfway between two doubles
    and is rounded to the even one, 2^53. *)
Lemma binary64_rounds_beyond_2_53 :
  binary64 (IZR (2 ^ 53 + 1)) = Some (IZR (2 ^ 53)).
Proof.
  assert (H53 : powerRZ 2 53 = IZR (2 ^ 53)) by (apply powerRZ_2_IZR; lia).
  assert (H54 : powerRZ 2 54 = 2 * IZR (2 ^ 53)).
  { replace 54%Z with (1 + 53)%Z by lia.
    now rewrite powerRZ_add, powerRZ_1, H53 by lra. }
  assert (Hpos : 1 < IZR (2 ^ 53)) by (apply IZR_lt; lia).
  assert (Hx : IZR (2 ^ 53 + 1) = IZR (2 ^ 53) + 1) by now rewrite plus_IZR.
  assert (Habs : Rabs (IZR (2 ^ 53 + 1)) = IZR (2 ^ 53) + 1)
    by (rewrite Hx; apply Rabs_pos_eq; lra).
  assert (Hbig : IZR (2 ^ 53) + 1 < powerRZ 2 1024 - powerRZ 2 970).
  { assert (H1 : powerRZ 2 971 <= powerRZ 2 1024)
      by (apply powerRZ_2_le; lia).
    assert (H2 : powerRZ 2 971 = 2 * powerRZ 2 970).
    { replace 971%Z with (1 + 970)%Z by lia. rewrite powerRZ_add by lra.
      now rewrite powerRZ_1. }
    assert (H3 : 2 * IZR (2 ^ 53) <= powerRZ 2 969)
      by (rewrite <- H54; apply powerRZ_2_le; lia).
    assert (H4 : powerRZ 2 970 = 2 * powerRZ 2 969).
    { replace 970%Z with (1 + 969)%Z by lia. rewrite powerRZ_add by lra.
      now rewrite powerRZ_1. }
    assert (1 <= IZR (2 ^ 53)) by (apply IZR_le; lia).
    set (a := IZR (2 ^ 53)) in *. lra. }
  assert (He : exponent2 (IZR (2 ^ 53 + 1)) = 53%Z).
  { apply exponent2_unique. rewrite Habs, H53.
    change (53 + 1)%Z with 54%Z. rewrite H54.
    set (a := IZR (2 ^ 53)) in *. lra. }
  unfold binary64. rewrite Habs.
  rewrite (proj2 (Rleb_false _ _)) by exact Hbig.
  rewrite (proj2 (Rleb_false _ _)) by lra.
  cbv zeta. rewrite He.
  change (Z.max 53 (- 1022) - 52)%Z with 1%Z. rewrite powerRZ_1.
  assert (Hhalf : IZR (2 ^ 53 + 1) / 2 = IZR (2 ^ 52) + 1 / 2).
  { rewrite Hx. replace (2 ^ 53)%Z with (2 * 2 ^ 52)%Z by lia.
    rewrite mult_IZR. lra. }
  assert (Hfloor : Int_part (IZR (2 ^ 52) + 1 / 2) = (2 ^ 52)%Z)
    by (symmetry; apply Int_part_spec; lra).
  unfold nearestEven. cbv zeta. rewrite Hhalf, Hfloor.
  replace (IZR (2 ^ 52) + 1 / 2 - IZR (2 ^ 52)) with (1 / 2) by lra.
  rewrite (proj2 (Rltb_false (1 / 2) (1 / 2))) by lra.
  change (Z.even (2 ^ 52)) with true. cbv iota. f_equal.
  replace (2 ^ 53)%Z with (2 ^ 52 * 2)%Z by lia. now rewrite mult_IZR.
Qed.

(** For an integer state of 32 bits the seeded generator computes
    [(s * 1664525 + 1013904223) mod 2^32] exactly: nothing is rounded. *)
Lemma seededRandom_int32 (s : Z) :
  (- 2 ^ 31 <= s < 2 ^ 32)%Z ->
  snd (seededRandom (IZR s)) = IZR (ToInt32 (IZR (s * 1664525 + 1013904223))).
Proof.
  intros Hs. unfold seededRandom. cbv zeta. cbn [snd].
  unfold dmul, dadd. rewrite <- mult_IZR, binary64_integer by lia.
  rewrite <- plus_IZR, binary64_integer by lia. reflexivity.
Qed.

End Binary64Facts.

(** ** The closure of [createSeededRandom] in a store

    [createSeededRandom(seed)] returns a closure over a variable [s] of
    its own, which every call of the closure updates.  To state that two
    calls of [generate] share nothing, the generator is embedded a second
    time with the captured variables of all the closures made so far in a
    store: a closure is the index of its cell.  [MapGenerator.generate]
    above is the same function with the one cell it uses passed along as
    a value; lemma [generate_in_store] relates the two. *)
Module Closures.
Import MapGenerator.
Local Open Scope R_scope.

Definition store : Type := list R.

(** [createSeededRandom(seed)]: [let s = seed] makes a new cell; the
    closure returned is its index. *)
Definition createSeededRandom (seed : R) (st : store) : nat * store :=
  (List.length st, st ++ [seed]).

(** A call [rng()] of the closure [rng]. *)
Definition call (rng : nat) (st : store) : R * store :=
  let '(r, s') := seededRandom (nth rng st 0) in
  (r, list_set st rng s').

Definition fillRow (seed : R) (resolution z : nat) (rng : nat)
    (acc : list R * store) : list R * store :=
  fold_left
    (fun (acc : list R * store) (x : nat) =>
       let '(cells, st) := acc in
       let '(r, st') := call rng st in
       (cells ++ [baseHeight seed resolution x z r], st'))
    (seq 0 resolution) acc.

Definition fillHeightmap (seed : R) (resolution : nat) (rng : nat)
    (st : store) : list R * store :=
  fold_left (fun acc z => fillRow seed resolution z rng acc)
    (seq 0 resolution) ([], st).

Fixpoint coverLoop (count : nat) (rng : nat) (st : store)
  : list (CoverNode R) * store :=
  match count with
  | O => ([], st)
  | S count' =>
      let halfW := MAP_WIDTH / 2 in
      let halfD := MAP_DEPTH / 2 in
      let '(rx, st) := call rng st in
      let '(rz, st) := call rng st in
      let '(rr, st) := call rng st in
      let '(rh, st) := call rng st in
      let c := mkCover
                 (Vec3.mk ((rx - 5 / 10) * halfW * (16 / 10)) 0
                          ((rz - 5 / 10) * halfD * (16 / 10)))
                 (2 + rr * 3) (2 + rh * 2) in
      let '(rest, st) := coverLoop count' rng st in
      (c :: rest, st)
  end.

Definition generateCovers (rng : nat) (st : store)
  : list (CoverNode R) * store :=
  let '(r, st) := call rng st in
  let count := (15 + Int_part (r * 10))%Z in
  coverLoop (Z.to_nat count) rng st.

(** [MapGenerator.generate(seed)] in the store [st]: the map, and the
    store that the call leaves. *)
Definition generate (seed : R) (st : store) : GameMapData R * store :=
  let resolution := HEIGHTMAP_RESOLUTION in
  let '(rng, st) := createSeededRandom seed st in
  let '(heightmap, st) := fillHeightmap seed resolution rng st in
  let heightmap :=
    clampSlopes heightmap resolution MAX_SLOPE (MAP_WIDTH / INR resolution) in
  let '(covers, st) := generateCovers rng st in
  let spawnZones := generateSpawnZones in
  (mkMap MAP_WIDTH MAP_DEPTH heightmap (Z.of_nat resolution) covers
     spawnZones seed, st).

End Closures.

Section ClosureFacts.
Import MapGenerator.
Local Open Scope R_scope.

Lemma list_set_last {A} (l : list A) (a b : A) :
  list_set (l ++ [a]) (List.length l) b = l ++ [b].
Proof. induction l as [|h t IH]; cbn; [reflexivity|now rewrite IH]. Qed.

(** A call of the closure made last: the cells before it stay. *)
Lemma call_last (st : Closures.store) (s : R) :
  Closures.call (List.length st) (st ++ [s])
  = (fst (seededRandom s), st ++ [snd (seededRandom s)]).
Proof.
  unfold Closures.call. rewrite nth_middle.
  destruct (seededRandom s) as [r s']. cbn [fst snd].
  now rewrite list_set_last.
Qed.

Lemma fillRow_in_store (seed : R) (resolution z : nat)
    (st : Closures.store) (cells : list R) (s : R) :
  Closures.fillRow seed resolution z (List.length st) (cells, st ++ [s])
  = (fst (fillRow seed resolution z (cells, s)),
     st ++ [snd (fillRow seed resolution z (cells, s))]).
Proof.
  unfold Closures.fillRow, fillRow.
  generalize (seq 0 resolution). intros l. revert cells s.
  induction l as [|x l IH]; intros cells s; [reflexivity|].
  cbn [fold_left]. rewrite call_last.
  destruct (seededRandom s) as [r s']. cbn [fst snd]. apply IH.
Qed.

Lemma fillHeightmap_in_store (seed : R) (resolution : nat)
    (st : Closures.store) (s : R) :
  Closures.fillHeightmap seed resolution (List.length st) (st ++ [s])
  = (fst (fillHeightmap seed resolution s),
     st ++ [snd (fillHeightmap seed resolution s)]).
Proof.
  unfold Closures.fillHeightmap, fillHeightmap.
  assert (Hrows : forall (l : list nat) (cells : list R) (s0 : R),
             fold_left
               (fun acc z =>
                  Closures.fillRow seed resolution z (List.length st) acc)
               l (cells, st ++ [s0])
             = (fst (fold_left (fun acc z => fillRow seed resolution z acc)
                       l (cells, s0)),
                st ++ [snd (fold_left
                              (fun acc z => fillRow seed resolution z acc)
                              l (cells, s0))])).
  { induction l as [|z l IH]; intros cells s0; [reflexivity|].
    cbn [fold_left]. rewrite fillRow_in_store.
    destruct (fillRow seed resolution z (cells, s0)) as [cells' s'].
    cbn [fst snd]. apply IH. }
  apply Hrows.
Qed.

Lemma coverLoop_in_store (count : nat) (st : Closures.store) (s : R) :
  Closures.coverLoop count (List.length st) (st ++ [s])
  = (fst (coverLoop count s), st ++ [snd (coverLoop count s)]).
Proof.
  revert s. induction count as [|count IH]; intros s; [reflexivity|].
  cbn [Closures.coverLoop coverLoop].
  rewrite call_last. destruct (seededRandom s) as [rx s1]. cbn [fst snd].
  rewrite call_last. destruct (seededRandom s1) as [rz s2]. cbn [fst snd].
  rewrite call_last. destruct (seededRandom s2) as [rr s3]. cbn [fst snd].
  rewrite call_last. destruct (seededRandom s3) as [rh s4]. cbn [fst snd].
  rewrite IH. destruct (coverLoop count s4) as [rest s5]. reflexivity.
Qed.

Lemma generateCovers_in_store (st : Closures.store) (s : R) :
  Closures.generateCovers (List.length st) (st ++ [s])
  = (fst (generateCovers s), st ++ [snd (generateCovers s)]).
Proof.
  unfold Closures.generateCovers, generateCovers. rewrite call_last.
  destruct (seededRandom s) as [r s1]. cbn [fst snd].
  apply coverLoop_in_store.
Qed.

(** The cell of the closure of [generate(seed)] when the call returns. *)
Definition finalCell (seed : R) : R :=
  snd (generateCovers (snd (fillHeightmap seed HEIGHTMAP_RESOLUTION seed))).

(** A call of [generate] in a store appends the cell of its own closure
    and returns the map of the store-free reading. *)
Lemma generate_in_store (seed : R) (st : Closures.store) :
  Closures.generate seed st = (generate seed, st ++ [finalCell seed]).
Proof.
  unfold Closures.generate, generate, Closures.createSeededRandom, finalCell.
  cbv zeta. rewrite fillHeightmap_in_store.
  destruct (fillHeightmap seed HEIGHTMAP_RESOLUTION seed) as [hm s].
  cbn [fst snd]. rewrite generateCovers_in_store.
  destruct (generateCovers s) as [cs s']. reflexivity.
Qed.

End ClosureFacts.

(** C7.  Terrain generation is deterministic per seed.  With the
    captured variables of the seeded generators held in a store: a call
    of [generate(seed)], a second call made in the store that the first
    left, and a call made in any other store return the same heightmap
    (of 128 x 128 cells), the same cover list (hence the same count, from
    15 to 25, and the same positions, radii and heights) and the same
    spawn-zone list (the eight fixed zones); each call makes one closure
    of its own and leaves the cells of the closures made before as they
    were.  The map is the one of the store-free reading
    [MapGenerator.generate], and a new world, a world reset in any state
    of the world and of the process, and a regeneration from the seed
    recorded in the map all hold it. *)
Theorem generate_is_deterministic_per_seed (seed : R)
    (st other : Closures.store) :
  let first := Closures.generate seed st in
  let second := Closures.generate seed (snd first) in
  let third := Closures.generate seed other in
  MapGenerator.heightmap (fst first) = MapGenerator.heightmap (fst second)
  /\ MapGenerator.covers (fst first) = MapGenerator.covers (fst second)
  /\ MapGenerator.spawnZones (fst first)
     = MapGenerator.spawnZones (fst second)
  /\ fst first = fst third
  /\ firstn (List.length st) (snd second) = st
  /\ List.length (snd second) = (List.length st + 2)%nat
  /\ fst first = MapGenerator.generate seed
  /\ List.length (MapGenerator.heightmap (fst first))
     = (HEIGHTMAP_RESOLUTION * HEIGHTMAP_RESOLUTION)%nat
  /\ (15 <= List.length (MapGenerator.covers (fst first)) <= 25)%nat
  /\ MapGenerator.spawnZones (fst first) = MapGenerator.generateSpawnZones
  /\ GameWorld.map (GameWorld.new RealImports seed) = fst first
  /\ (forall w p w' p',
         GameWorld.reset RealImports seed w p = Some (w', p') ->
         GameWorld.map w' = fst first)
  /\ MapGenerator.generate (MapGenerator.seed (fst first)) = fst first.
Proof.
  cbv zeta. repeat (rewrite generate_in_store; cbn [fst snd]).
  destruct (generate_fields seed) as (Hhm & Hcov & _ & Hseed).
  cbv zeta in Hhm, Hcov.
  split; [reflexivity|]. split; [reflexivity|]. split; [reflexivity|].
  split; [reflexivity|]. split.
  { rewrite <- app_assoc. rewrite firstn_app, Nat.sub_diag, firstn_all.
    cbn [firstn]. apply app_nil_r. }
  split; [rewrite !length_app; cbn [List.length]; lia|].
  split; [reflexivity|]. split.
  { rewrite Hhm, clampSlopes_length. apply fillHeightmap_length. }
  split.
  { rewrite Hcov. apply generateCovers_count. }
  split; [apply generate_spawnZones|].
  split.
  { exact (eq_trans (new_map RealImports seed) (RealImports_generate seed)). }
  split.
  { intros w p w' p' Hreset.
    exact (eq_trans (reset_map RealImports seed w p w' p' Hreset)
             (RealImports_generate seed)). }
  exact (f_equal MapGenerator.generate Hseed).
Qed.

(** Seed 42 in a store that holds the cell of an older closure, and in
    another store. *)
Lemma generate_is_deterministic_per_seed_witness :
  fst (Closures.generate 42%R [5%R]) = fst (Closures.generate 42%R [7%R; 8%R])
  /\ MapGenerator.heightmap (fst (Closures.generate 42%R [5%R]))
     = MapGenerator.heightmap
         (fst (Closures.generate 42%R (snd (Closures.generate 42%R [5%R]))))
  /\ firstn 1 (snd (Closures.generate 42%R
                      (snd (Closures.generate 42%R [5%R]))))
     = [5%R]
  /\ List.length (snd (Closures.generate 42%R
                         (snd (Closures.generate 42%R [5%R]))))
     = 3%nat
  /\ fst (Closures.generate 42%R [5%R]) = MapGenerator.generate 42%R.
Proof.
  pose proof (generate_is_deterministic_per_seed 42%R [5%R] [7%R; 8%R])
    as H.
  cbv zeta in H.
  destruct H as (Hhm & _ & _ & Hother & Hkept & Hlen & Hpure & _).
  split; [exact Hother|]. split; [exact Hhm|]. split; [exact Hkept|].
  split; [exact Hlen|exact Hpure].
Defined.

(* ================================================================== *)
(** * The tick: deaths, kills and respawns *)
(* ================================================================== *)

Section WorldVocabulary.
Context {num : Type} `{JSNumber num}.

(** What the cycle of death and respawn reads and writes of a
    combatant. *)
Definition vitals (p : Player.t num) : Z * bool * num * nat * nat :=
  (Player.id p, Player.alive p, Player.hp p, Player.kills p, Player.deaths p).

Definition isVital (e : GameEvent num) : bool :=
  match e with
  | DeathEvent _ _ _ _ => true
  | RespawnEvent _ _ => true
  | _ => false
  end.

(** The death and respawn events pushed so far in the tick. *)
Definition vitalEvents (w : GameWorld.t num) : list (GameEvent num) :=
  filter isVital (GameWorld.pendingEvents w).

(** The respawn-queue entries of the Player object at [r]. *)
Definition queueOf (r : nat) (w : GameWorld.t num) : list (nat * num) :=
  filter (fun e => (fst e =? r)%nat) (GameWorld.respawnQueue w).

(** A change of the world that the cycle does not see. *)
Definition cosmetic (w w' : GameWorld.t num) : Prop :=
  GameWorld.players w' = GameWorld.players w
  /\ GameWorld.respawnQueue w' = GameWorld.respawnQueue w
  /\ vitalEvents w' = vitalEvents w
  /\ forall r, vitals (GameWorld.objs w' r) = vitals (GameWorld.objs w r).

(** The pattern [const died = x.takeDamage(amount); if (died)
    this.handleDeath(x, killerId)] of [handleDirectHit] and of the splash
    loop. *)
Definition damageStep (amount : num) (killerId : Z) (r : nat)
    (w : GameWorld.t num) : GameWorld.t num :=
  let '(died, p') := Player.takeDamage amount (GameWorld.objs w r) in
  let w := GameWorld.store r p' w in
  if died then GameWorld.handleDeath r killerId w else w.

End WorldVocabulary.

Section CosmeticFacts.
Context {num : Type} `{JSNumber num}.

Lemma objs_modify_same (r : nat) (f : Player.t num -> Player.t num)
    (w : GameWorld.t num) :
  GameWorld.objs (GameWorld.modify r f w) r = f (GameWorld.objs w r).
Proof. unfold GameWorld.modify. cbn. now rewrite Nat.eqb_refl. Qed.

Lemma objs_modify_other (r r' : nat) (f : Player.t num -> Player.t num)
    (w : GameWorld.t num) :
  r' <> r ->
  GameWorld.objs (GameWorld.modify r f w) r' = GameWorld.objs w r'.
Proof.
  intros Hne. unfold GameWorld.modify. cbn.
  destruct (Nat.eqb_spec r' r); [contradiction|reflexivity].
Qed.

Lemma cosmetic_refl (w : GameWorld.t num) : cosmetic w w.
Proof. repeat split. Qed.

Lemma cosmetic_trans (w1 w2 w3 : GameWorld.t num) :
  cosmetic w1 w2 -> cosmetic w2 w3 -> cosmetic w1 w3.
Proof.
  intros (Hp & Hq & He & Hv) (Hp' & Hq' & He' & Hv').
  split; [congruence|]. split; [congruence|]. split; [congruence|].
  intros r. now rewrite Hv', Hv.
Qed.

Lemma cosmetic_modify (r : nat) (f : Player.t num -> Player.t num)
    (w : GameWorld.t num) :
  vitals (f (GameWorld.objs w r)) = vitals (GameWorld.objs w r) ->
  cosmetic w (GameWorld.modify r f w).
Proof.
  intros Hf. do 3 (split; [reflexivity|]).
  intros r'. unfold GameWorld.modify. cbn.
  destruct (Nat.eqb_spec r' r) as [->|Hne]; [exact Hf|reflexivity].
Qed.

Lemma cosmetic_store (r : nat) (p : Player.t num) (w : GameWorld.t num) :
  vitals p = vitals (GameWorld.objs w r) ->
  cosmetic w (GameWorld.store r p w).
Proof. intros Hp. unfold GameWorld.store. now apply cosmetic_modify. Qed.

Lemma cosmetic_pushEvent (e : GameEvent num) (w : GameWorld.t num) :
  isVital e = false -> cosmetic w (GameWorld.pushEvent e w).
Proof.
  intros He. do 2 (split; [reflexivity|]). split; [|reflexivity].
  unfold vitalEvents, GameWorld.pushEvent. cbn.
  rewrite filter_app. cbn. rewrite He. apply app_nil_r.
Qed.

Lemma cosmetic_storeProjectile (proj : Projectile.t num)
    (w : GameWorld.t num) :
  cosmetic w (GameWorld.storeProjectile proj w).
Proof. repeat split. Qed.

Lemma cosmetic_fold {A} (f : GameWorld.t num -> A -> GameWorld.t num)
    (l : list A) (w : GameWorld.t num) :
  (forall w a, cosmetic w (f w a)) -> cosmetic w (fold_left f l w).
Proof.
  intros Hf. revert w. induction l as [|a l IH]; intros w; cbn.
  - apply cosmetic_refl.
  - eapply cosmetic_trans; [apply Hf|apply IH].
Qed.

End CosmeticFacts.

(** ** Input, movement and firing are cosmetic *)

Section MovementFacts.
Context {num : Type} `{JSNumber num}.
Variable imports : Imports num.

Lemma popInput_vitals (p : Player.t num) :
  vitals (snd (Player.popInput p)) = vitals p.
Proof.
  unfold Player.popInput.
  destruct (Player.inputQueue p) as [|cmd rest]; [|reflexivity].
  destruct (Player.lastInput p); reflexivity.
Qed.

Lemma pushInput_vitals (cmd : InputCmd.t num) (p : Player.t num) :
  vitals (Player.pushInput cmd p) = vitals p.
Proof.
  unfold Player.pushInput.
  destruct (List.length (Player.inputQueue p) <? 10)%nat; reflexivity.
Qed.

Lemma tryFire_vitals (p : Player.t num) :
  vitals (snd (Player.tryFire p)) = vitals p.
Proof.
  unfold Player.tryFire.
  destruct (negb (Player.alive p) || _); reflexivity.
Qed.

Lemma updateReload_vitals (dtMs : num) (p : Player.t num) :
  vitals (Player.updateReload dtMs p) = vitals p.
Proof.
  unfold Player.updateReload.
  match goal with |- context [if ?c then _ else _] => destruct c end;
    reflexivity.
Qed.

Lemma pushOutOfCover_vitals (terrainOf : num -> num -> num)
    (p : Player.t num) (cover : MapGenerator.CoverNode num) :
  vitals (GameWorld.pushOutOfCover terrainOf p cover) = vitals p.
Proof.
  unfold GameWorld.pushOutOfCover. cbv zeta.
  match goal with |- context [if ?c then _ else _] => destruct c end;
    reflexivity.
Qed.

Lemma clampToMap_vitals (halfW halfD : num) (p : Player.t num) :
  vitals (GameWorld.clampToMap halfW halfD p) = vitals p.
Proof.
  unfold GameWorld.clampToMap. cbv zeta.
  repeat match goal with
         | |- context [let '(_, _) := ?c in _] => destruct c
         | |- context [if ?c then _ else _] => destruct c
         end; reflexivity.
Qed.

Lemma spawnProjectile_cosmetic (r : nat) (w : GameWorld.t num) :
  cosmetic w (GameWorld.spawnProjectile imports r w).
Proof.
  unfold GameWorld.spawnProjectile. cbv zeta.
  eapply cosmetic_trans; [|apply cosmetic_pushEvent; reflexivity].
  eapply cosmetic_trans; [|apply cosmetic_storeProjectile].
  repeat split.
Qed.

Lemma applyInput_cosmetic (r : nat) (input : InputCmd.t num) (dt : num)
    (w : GameWorld.t num) :
  cosmetic w (GameWorld.applyInput imports r input dt w).
Proof.
  unfold GameWorld.applyInput. cbv zeta.
  match goal with
  | |- context [GameWorld.clampToMap ?hw ?hd ?pl] =>
      set (clamped := GameWorld.clampToMap hw hd pl);
      assert (Hclamped : vitals clamped = vitals (GameWorld.objs w r))
  end.
  { subst clamped. rewrite clampToMap_vitals.
    apply (fold_left_invariant
             (fun p => vitals p = vitals (GameWorld.objs w r)));
      [|reflexivity].
    intros p cover Hp. now rewrite pushOutOfCover_vitals. }
  match goal with
  | |- context [Player.set_position ?pos clamped] =>
      set (placed := Player.set_position pos clamped);
      assert (Hplaced : vitals placed = vitals (GameWorld.objs w r))
        by exact Hclamped
  end.
  destruct (InputCmd.fire input).
  - pose proof (tryFire_vitals placed) as Hfire.
    destruct (Player.tryFire placed) as [fired pl]. cbn [snd] in Hfire.
    assert (Hstore : cosmetic w (GameWorld.store r pl w)).
    { apply cosmetic_store. now rewrite Hfire. }
    destruct fired; [|exact Hstore].
    eapply cosmetic_trans; [exact Hstore|apply spawnProjectile_cosmetic].
  - now apply cosmetic_store.
Qed.

Lemma inputStep_cosmetic (dt : num) (w : GameWorld.t num) (r : nat) :
  cosmetic w (GameWorld.inputStep imports dt w r).
Proof.
  unfold GameWorld.inputStep. cbv zeta.
  destruct (negb (Player.alive (GameWorld.objs w r)));
    [apply cosmetic_refl|].
  pose proof (popInput_vitals (GameWorld.objs w r)) as Hpop.
  destruct (Player.popInput (GameWorld.objs w r)) as [input pl].
  cbn [snd] in Hpop.
  assert (Hstore : cosmetic w (GameWorld.store r pl w))
    by now apply cosmetic_store.
  destruct input as [input|]; [|exact Hstore].
  eapply cosmetic_trans; [exact Hstore|apply applyInput_cosmetic].
Qed.

Lemma separate_cosmetic (w : GameWorld.t num) (ab : nat * nat) :
  cosmetic w (GameWorld.separate w ab).
Proof.
  unfold GameWorld.separate. destruct ab as [ra rb]. cbv zeta.
  match goal with |- context [if ?c then _ else _] => destruct c end;
    [|apply cosmetic_refl].
  eapply cosmetic_trans; apply cosmetic_modify; reflexivity.
Qed.

Lemma resolveTankTankCollisions_cosmetic (w : GameWorld.t num) :
  cosmetic w (GameWorld.resolveTankTankCollisions w).
Proof.
  unfold GameWorld.resolveTankTankCollisions. cbv zeta.
  apply cosmetic_fold. apply separate_cosmetic.
Qed.

Lemma purgeProjectiles_cosmetic (w : GameWorld.t num) :
  cosmetic w (GameWorld.purgeProjectiles w).
Proof. repeat split. Qed.

End MovementFacts.

(** ** Damage and death *)

Section DeathFacts.
Context {num : Type} `{JSNumber num}.
Local Open Scope num_scope.

(** What [handleDeath] does to the world. *)
Lemma handleDeath_effect (v : nat) (killerId : Z) (w : GameWorld.t num) :
  let w' := GameWorld.handleDeath v killerId w in
  GameWorld.players w' = GameWorld.players w
  /\ GameWorld.respawnQueue w'
     = GameWorld.respawnQueue w ++ [(v, RESPAWN_DELAY)]
  /\ vitalEvents w'
     = vitalEvents w
       ++ [DeathEvent (Player.id (GameWorld.objs w v)) killerId "killed"
             (Player.position (GameWorld.objs w v))]
  /\ forall r,
       Player.id (GameWorld.objs w' r) = Player.id (GameWorld.objs w r)
       /\ Player.alive (GameWorld.objs w' r)
          = Player.alive (GameWorld.objs w r)
       /\ Player.hp (GameWorld.objs w' r) = Player.hp (GameWorld.objs w r)
       /\ Player.deaths (GameWorld.objs w' r)
          = (Player.deaths (GameWorld.objs w r)
             + if (r =? v)%nat then 1 else 0)%nat
       /\ Player.kills (GameWorld.objs w' r)
          = (Player.kills (GameWorld.objs w r)
             + match JSMap.get killerId (GameWorld.players w) with
               | Some k => if (r =? k)%nat then 1 else 0
               | None => 0
               end)%nat.
Proof.
  cbv zeta. unfold GameWorld.handleDeath. cbv zeta.
  set (w1 := GameWorld.modify v _ w).
  assert (Hpl1 : GameWorld.players w1 = GameWorld.players w) by reflexivity.
  rewrite Hpl1.
  set (w2 := match JSMap.get killerId (GameWorld.players w) with
             | Some killer => GameWorld.modify killer _ w1
             | None => w1
             end).
  assert (Hw2 : GameWorld.players w2 = GameWorld.players w
                /\ GameWorld.respawnQueue w2 = GameWorld.respawnQueue w
                /\ GameWorld.pendingEvents w2 = GameWorld.pendingEvents w).
  { subst w2. destruct (JSMap.get killerId (GameWorld.players w));
      repeat split. }
  destruct Hw2 as (Hpl2 & Hq2 & He2).
  assert (Hobjs : forall r,
             GameWorld.objs w2 r
             = let p := GameWorld.objs w r in
               let p := if (r =? v)%nat
                        then Player.set_deaths (S (Player.deaths p)) p
                        else p in
               match JSMap.get killerId (GameWorld.players w) with
               | Some k =>
                   if (r =? k)%nat
                   then Player.set_kills (S (Player.kills p)) p else p
               | None => p
               end).
  { intros r. subst w2 w1. cbv zeta.
    destruct (JSMap.get killerId (GameWorld.players w)) as [k|];
      unfold GameWorld.modify; cbn; reflexivity. }
  unfold GameWorld.set_respawnQueue, GameWorld.pushEvent,
    GameWorld.set_pendingEvents.
  cbn [GameWorld.players GameWorld.respawnQueue GameWorld.objs
       GameWorld.pendingEvents].
  split; [exact Hpl2|]. split; [now rewrite Hq2|]. split.
  - unfold vitalEvents. cbn [GameWorld.pendingEvents].
    rewrite ?He2, filter_app. cbn [filter isVital]. f_equal.
    rewrite Hobjs. cbv zeta.
    destruct (JSMap.get killerId (GameWorld.players w)) as [k|];
      destruct (v =? v)%nat; try destruct (v =? k)%nat; reflexivity.
  - intros r. rewrite Hobjs. cbv zeta.
    destruct (JSMap.get killerId (GameWorld.players w)) as [k|];
      destruct (r =? v)%nat; try destruct (r =? k)%nat; cbn;
      repeat split; lia.
Qed.

(** The three outcomes of applying damage to the combatant at [r]. *)
Lemma damageStep_cases (amount : num) (killerId : Z) (r : nat)
    (w : GameWorld.t num) :
  let p := GameWorld.objs w r in
  (Player.alive p = false /\ damageStep amount killerId r w
                             = GameWorld.store r p w)
  \/ (Player.alive p = true
      /\ exists p1,
           damageStep amount killerId r w = GameWorld.store r p1 w
           /\ Player.alive p1 = true /\ Player.id p1 = Player.id p
           /\ Player.kills p1 = Player.kills p
           /\ Player.deaths p1 = Player.deaths p)
  \/ (Player.alive p = true
      /\ exists p1,
           damageStep amount killerId r w
           = GameWorld.handleDeath r killerId (GameWorld.store r p1 w)
           /\ Player.alive p1 = false /\ (Player.hp p1 <=? #0) = true
           /\ Player.id p1 = Player.id p
           /\ Player.kills p1 = Player.kills p
           /\ Player.deaths p1 = Player.deaths p).
Proof.
  cbv zeta. unfold damageStep, Player.takeDamage.
  destruct (Player.alive (GameWorld.objs w r)) eqn:Halive; cbn [negb].
  - right. cbv zeta.
    match goal with |- context [if ?c then _ else _] =>
      destruct c eqn:Hle end.
    + right. split; [reflexivity|]. eexists. split; [reflexivity|].
      split; [reflexivity|]. split; [exact Hle|]. repeat split.
    + left. split; [reflexivity|]. eexists. split; [reflexivity|].
      split; [exact Halive|]. repeat split.
  - left. split; reflexivity.
Qed.

End DeathFacts.

(** ** The tally of a tick *)

Lemma values_get {V} (m : JSMap.t V) (v : V) :
  wellKeyed m -> In v (JSMap.values m) -> exists k, JSMap.get k m = Some v.
Proof.
  unfold wellKeyed, JSMap.values, JSMap.keys.
  induction m as [|[k' v'] m IH]; cbn; intros Hnd Hin; [contradiction|].
  inversion Hnd as [|? ? Hnotin Hnd']; subst.
  destruct Hin as [->|Hin].
  - exists k'. now rewrite Z.eqb_refl.
  - destruct (IH Hnd' Hin) as (k & Hk). exists k.
    destruct (Z.eqb_spec k' k) as [->|Hne]; [|exact Hk].
    exfalso. apply Hnotin.
    destruct (in_dec Z.eq_dec k (List.map fst m)) as [Hin'|Hnin];
      [exact Hin'|].
    apply (proj2 (get_None_keys k m)) in Hnin. congruence.
Qed.

Section TickAccounting.
Context {num : Type} `{JSNumber num}.
Local Open Scope num_scope.

(** What may have become of a combatant since the tick began, and how
    many death events name it as the victim. *)
Definition fate (before after : Player.t num) (died : nat) : Prop :=
  match Player.alive before, Player.alive after with
  | true, true => died = 0%nat
  | true, false => died = 1%nat /\ (Player.hp after <=? #0) = true
  | false, false => died = 0%nat /\ Player.hp after = Player.hp before
  | false, true => False
  end.

(** The books of the combatant [id], whose Player object is at [r],
    between the world [w0] at the beginning of the tick and the world [w]
    later in the tick, up to the collision phase. *)
Definition tally (w0 w : GameWorld.t num) (id : Z) (r : nat) : Prop :=
  Player.id (GameWorld.objs w r) = id
  /\ Player.deaths (GameWorld.objs w r)
     = (Player.deaths (GameWorld.objs w0 r)
        + deathsOf id (vitalEvents w))%nat
  /\ Player.kills (GameWorld.objs w r)
     = (Player.kills (GameWorld.objs w0 r)
        + killsBy id (vitalEvents w))%nat
  /\ queueOf r w
     = queueOf r w0 ++ repeat (r, RESPAWN_DELAY) (deathsOf id (vitalEvents w))
  /\ fate (GameWorld.objs w0 r) (GameWorld.objs w r)
       (deathsOf id (vitalEvents w)).

Definition tallied (w0 w : GameWorld.t num) : Prop :=
  wellKeyed (GameWorld.players w0)
  /\ GameWorld.players w = GameWorld.players w0
  /\ forall id r,
       JSMap.get id (GameWorld.players w0) = Some r -> tally w0 w id r.

Lemma deathsOf_app (id : Z) (evs : list (GameEvent num))
    (e : GameEvent num) :
  deathsOf id (evs ++ [e])
  = (deathsOf id evs + if isDeathOf id e then 1 else 0)%nat.
Proof.
  unfold deathsOf. rewrite filter_app, length_app. cbn.
  now destruct (isDeathOf id e).
Qed.

Lemma killsBy_app (id : Z) (evs : list (GameEvent num))
    (e : GameEvent num) :
  killsBy id (evs ++ [e])
  = (killsBy id evs + if isKillBy id e then 1 else 0)%nat.
Proof.
  unfold killsBy. rewrite filter_app, length_app. cbn.
  now destruct (isKillBy id e).
Qed.

Lemma vitals_inv (p p' : Player.t num) :
  vitals p' = vitals p ->
  Player.id p' = Player.id p /\ Player.alive p' = Player.alive p
  /\ Player.hp p' = Player.hp p /\ Player.kills p' = Player.kills p
  /\ Player.deaths p' = Player.deaths p.
Proof. unfold vitals. intros Hv. injection Hv as -> -> -> -> ->. auto. Qed.

(** The books do not see a change of what they do not read. *)
Lemma tally_ext (w0 w w' : GameWorld.t num) (id : Z) (r : nat) :
  vitalEvents w' = vitalEvents w ->
  GameWorld.respawnQueue w' = GameWorld.respawnQueue w ->
  vitals (GameWorld.objs w' r) = vitals (GameWorld.objs w r) ->
  tally w0 w id r -> tally w0 w' id r.
Proof.
  intros He Hq Hv (Hid & Hd & Hk & Hqr & Hfate).
  apply vitals_inv in Hv as (Hi' & Ha' & Hh' & Hk' & Hd').
  unfold tally, queueOf, fate in *.
  rewrite He, Hq, Hi', Ha', Hh', Hk', Hd'. auto.
Qed.

Lemma tallied_cosmetic (w0 w w' : GameWorld.t num) :
  tallied w0 w -> cosmetic w w' -> tallied w0 w'.
Proof.
  intros (Hkeys & Hpl & Htal) (Hpl' & Hq' & He' & Hv').
  split; [exact Hkeys|]. split; [congruence|].
  intros id r Hget. apply (tally_ext w0 w w'); auto.
Qed.

Lemma tallied_fold {A} (w0 : GameWorld.t num)
    (f : GameWorld.t num -> A -> GameWorld.t num) (l : list A)
    (w : GameWorld.t num) :
  (forall w a, In a l -> tallied w0 w -> tallied w0 (f w a)) ->
  tallied w0 w -> tallied w0 (fold_left f l w).
Proof.
  revert w. induction l as [|a l IH]; intros w Hf Hw; cbn; [exact Hw|].
  apply IH.
  - intros w' a' Hin. apply Hf. now right.
  - apply Hf; [now left|exact Hw].
Qed.

End TickAccounting.

Section DamageAccounting.
Context {num : Type} `{JSNumber num}.
Local Open Scope num_scope.

Lemma repeat_snoc {A} (x : A) (n : nat) :
  repeat x (n + 1) = repeat x n ++ [x].
Proof. now rewrite repeat_app. Qed.

(** In a world whose books are kept, a registered Player object is
    registered under its own id, and under no other. *)
Lemma tallied_same_ref (w0 w : GameWorld.t num) (id id' : Z) (r r' : nat) :
  tallied w0 w ->
  JSMap.get id (GameWorld.players w0) = Some r ->
  JSMap.get id' (GameWorld.players w0) = Some r' ->
  (r' =? r)%nat = (id =? id')%Z.
Proof.
  intros (_ & _ & Htal) Hr Hr'.
  destruct (Htal id r Hr) as (Hid & _).
  destruct (Htal id' r' Hr') as (Hid' & _).
  destruct (Nat.eqb_spec r' r) as [->|Hne];
    destruct (Z.eqb_spec id id') as [->|Hne']; try reflexivity.
  - congruence.
  - congruence.
Qed.

Lemma tallied_damageStep (w0 w : GameWorld.t num) (amount : num)
    (killerId : Z) (r : nat) :
  tallied w0 w -> In r (GameWorld.playerRefs w) ->
  tallied w0 (damageStep amount killerId r w).
Proof.
  intros Hw Hin. pose proof Hw as (Hkeys & Hpl & Htal).
  unfold GameWorld.playerRefs in Hin. rewrite Hpl in Hin.
  destruct (values_get _ _ Hkeys Hin) as (k & Hk).
  pose proof (Htal k r Hk) as (Hid & Hd & Hki & Hq & Hfate).
  destruct (damageStep_cases amount killerId r w)
    as [(Hdead & ->)
       |[(Halive & p1 & -> & Ha1 & Hi1 & Hk1 & Hd1)
        |(Halive & p1 & -> & Ha1 & Hhp1 & Hi1 & Hk1 & Hd1)]].
  - (* not alive: nothing happens *)
    apply (tallied_cosmetic w0 w); [exact Hw|].
    now apply cosmetic_store.
  - (* survives *)
    split; [exact Hkeys|]. split; [exact Hpl|].
    intros id' r' Hget. pose proof (Htal id' r' Hget) as Ht'.
    destruct (Nat.eq_dec r' r) as [->|Hne].
    + assert (id' = k) as -> by (destruct Ht'; congruence).
      unfold tally, fate in *. unfold GameWorld.store.
      rewrite objs_modify_same.
      change (vitalEvents (GameWorld.modify r (fun _ => p1) w))
        with (vitalEvents w).
      change (queueOf r (GameWorld.modify r (fun _ => p1) w))
        with (queueOf r w).
      rewrite Hi1, Hk1, Hd1, Ha1. rewrite Halive in Hfate.
      repeat split; try assumption.
    + apply (tally_ext w0 w); try reflexivity; [|exact Ht'].
      unfold GameWorld.store. now rewrite objs_modify_other.
  - (* dies *)
    set (w1 := GameWorld.store r p1 w).
    destruct (handleDeath_effect r killerId w1)
      as (Hpl' & Hq' & He' & Hobjs').
    assert (Hw1r : GameWorld.objs w1 r = p1)
      by (subst w1; unfold GameWorld.store; apply objs_modify_same).
    rewrite Hw1r in He'.
    change (GameWorld.players w1) with (GameWorld.players w) in *.
    change (GameWorld.respawnQueue w1) with (GameWorld.respawnQueue w) in *.
    change (vitalEvents w1) with (vitalEvents w) in *.
    split; [exact Hkeys|]. split; [congruence|].
    intros id' r' Hget. pose proof (Htal id' r' Hget) as Ht'.
    destruct (Hobjs' r') as (Hi' & Ha' & Hh' & Hd' & Hk').
    pose proof (tallied_same_ref w0 w k id' r r' Hw Hk Hget) as Hsame.
    assert (Hkiller :
              match JSMap.get killerId (GameWorld.players w) with
              | Some kr => if (r' =? kr)%nat then 1%nat else 0%nat
              | None => 0%nat
              end = if (killerId =? id')%Z then 1%nat else 0%nat).
    { rewrite Hpl.
      destruct (JSMap.get killerId (GameWorld.players w0)) as [kr|] eqn:Hkr.
      - now rewrite (tallied_same_ref w0 w killerId id' kr r' Hw Hkr Hget).
      - destruct (Z.eqb_spec killerId id') as [->|_]; [congruence|easy]. }
    rewrite Hkiller in Hk'. clear Hkiller.
    unfold tally. rewrite He', deathsOf_app, killsBy_app.
    cbn [isDeathOf isKillBy]. rewrite Hi1, Hid.
    unfold queueOf in *. rewrite Hq', filter_app. cbn [filter fst].
    rewrite (Nat.eqb_sym r r'), Hsame in *.
    rewrite Hi', Hd', Hk'.
    destruct Ht' as (Hid0 & Hd0 & Hk0 & Hq0 & Hfate0).
    unfold queueOf in Hq0.
    destruct (Z.eqb_spec k id') as [<-|Hne].
    + (* the victim itself *)
      assert (r' = r) as -> by congruence.
      rewrite Hw1r, Hi1, Hd1, Hk1 in *.
      split; [exact Hid|]. split; [lia|]. split; [lia|]. split.
      * rewrite Hq0, repeat_snoc, app_assoc. reflexivity.
      * unfold fate in *. rewrite Ha', Hh', Ha1.
        rewrite Halive in Hfate0.
        destruct (Player.alive (GameWorld.objs w0 r));
          [|contradiction].
        split; [lia|exact Hhp1].
    + (* another combatant *)
      assert (Hne' : r' <> r).
      { intros ->. rewrite Nat.eqb_refl in Hsame. discriminate Hsame. }
      assert (Hw1 : GameWorld.objs w1 r' = GameWorld.objs w r')
        by (subst w1; unfold GameWorld.store; now apply objs_modify_other).
      rewrite Hw1 in *.
      split; [exact Hid0|]. split; [lia|]. split; [lia|]. split.
      * rewrite Nat.add_0_r, app_nil_r. exact Hq0.
      * unfold fate in *. rewrite Ha', Hh', Nat.add_0_r. exact Hfate0.
Qed.

End DamageAccounting.

(** ** Explosions and hits keep the books *)

Section CombatFacts.
Context {num : Type} `{JSNumber num}.
Local Open Scope num_scope.

Lemma tallied_refs (w0 w : GameWorld.t num) :
  tallied w0 w ->
  GameWorld.playerRefs w = JSMap.values (GameWorld.players w0).
Proof. intros (_ & Hpl & _). unfold GameWorld.playerRefs. now rewrite Hpl. Qed.

Lemma splashOne_tallied (w0 w : GameWorld.t num) (proj : Projectile.t num)
    (directHitTargetId : option Z) (r : nat) :
  tallied w0 w -> In r (GameWorld.playerRefs w) ->
  tallied w0 (GameWorld.splashOne proj directHitTargetId w r).
Proof.
  intros Hw Hin. unfold GameWorld.splashOne. cbv zeta.
  destruct (negb (Player.alive (GameWorld.objs w r))); [exact Hw|].
  destruct (Player.id (GameWorld.objs w r) =? Projectile.shooterId proj)%Z;
    [exact Hw|].
  match goal with |- context [if ?c then w else _] => destruct c end;
    [exact Hw|].
  match goal with |- context [if ?c then _ else w] => destruct c end;
    [|exact Hw].
  apply (tallied_damageStep w0 w _ (Projectile.shooterId proj) r Hw Hin).
Qed.

Lemma handleProjectileExplode_tallied (w0 w : GameWorld.t num)
    (proj : Projectile.t num) (directHitTargetId : option Z) :
  tallied w0 w ->
  tallied w0 (GameWorld.handleProjectileExplode proj directHitTargetId w).
Proof.
  intros Hw. unfold GameWorld.handleProjectileExplode. cbv zeta.
  set (w1 := GameWorld.pushEvent _ w).
  assert (Hw1 : tallied w0 w1).
  { apply (tallied_cosmetic w0 w); [exact Hw|].
    now apply cosmetic_pushEvent. }
  apply tallied_fold; [|exact Hw1].
  intros w' r Hin Hw'. apply splashOne_tallied; [exact Hw'|].
  rewrite (tallied_refs w0 w' Hw'), <- (tallied_refs w0 w1 Hw1). exact Hin.
Qed.

Lemma coverLoop_tallied (w0 w : GameWorld.t num) (proj : Projectile.t num)
    (prev : Vec3.t num) (covers : list (MapGenerator.CoverNode num)) :
  tallied w0 w -> tallied w0 (snd (GameWorld.coverLoop proj prev covers w)).
Proof.
  intros Hw. induction covers as [|cover covers IH]; [exact Hw|].
  cbn [GameWorld.coverLoop]. cbv zeta.
  match goal with |- context [if ?c then _ else _] => destruct c end.
  { cbn [snd]. apply handleProjectileExplode_tallied.
    apply (tallied_cosmetic w0 w); [exact Hw|].
    apply cosmetic_storeProjectile. }
  match goal with |- context [if ?c then _ else _] => destruct c end;
    [exact IH|].
  match goal with |- context [if ?c then _ else _] => destruct c end;
    [exact IH|].
  match goal with |- context [match ?c with Some _ => _ | None => _ end] =>
    destruct c as [[t hitY]|] end; [|exact IH].
  cbn [snd]. apply handleProjectileExplode_tallied.
  apply (tallied_cosmetic w0 w); [exact Hw|].
  apply cosmetic_storeProjectile.
Qed.

Lemma projectileStep_tallied (w0 w : GameWorld.t num) (dt : num) (pid : Z) :
  tallied w0 w -> tallied w0 (GameWorld.projectileStep dt w pid).
Proof.
  intros Hw. unfold GameWorld.projectileStep.
  destruct (JSMap.get pid (GameWorld.projectiles w)) as [proj|]; [|exact Hw].
  destruct (negb (Projectile.active proj)); [exact Hw|]. cbv zeta.
  destruct (Projectile.checkGroundHit _ _) as [grounded proj'].
  assert (Hstored : tallied w0 (GameWorld.storeProjectile proj' w)).
  { apply (tallied_cosmetic w0 w); [exact Hw|].
    apply cosmetic_storeProjectile. }
  destruct grounded.
  - now apply handleProjectileExplode_tallied.
  - unfold GameWorld.checkProjectileCoverCollision.
    now apply coverLoop_tallied.
Qed.

Lemma handleDirectHit_tallied (w0 w : GameWorld.t num)
    (proj : Projectile.t num) (target : nat) :
  tallied w0 w -> In target (GameWorld.playerRefs w) ->
  tallied w0 (GameWorld.handleDirectHit proj target w).
Proof.
  intros Hw Hin. unfold GameWorld.handleDirectHit. cbv zeta.
  set (w1 := GameWorld.pushEvent _ (GameWorld.storeProjectile _ w)).
  assert (Hw1 : tallied w0 w1).
  { apply (tallied_cosmetic w0 w); [exact Hw|].
    eapply cosmetic_trans; [apply cosmetic_storeProjectile|].
    now apply cosmetic_pushEvent. }
  set (w2 := match JSMap.get _ (GameWorld.players w1) with
             | Some shooter => GameWorld.modify shooter _ w1
             | None => w1
             end).
  assert (Hw2 : tallied w0 w2).
  { subst w2. destruct (JSMap.get _ (GameWorld.players w1)); [|exact Hw1].
    apply (tallied_cosmetic w0 w1); [exact Hw1|].
    now apply cosmetic_modify. }
  assert (Hin2 : In target (GameWorld.playerRefs w2)).
  { now rewrite (tallied_refs w0 w2 Hw2), <- (tallied_refs w0 w Hw). }
  pose proof (tallied_damageStep w0 w2 DIRECT_HIT_DAMAGE
                (Projectile.shooterId (Projectile.set_active false proj))
                target Hw2 Hin2) as Hw3.
  unfold damageStep in Hw3.
  destruct (Player.takeDamage DIRECT_HIT_DAMAGE (GameWorld.objs w2 target))
    as [died target'].
  now apply handleProjectileExplode_tallied.
Qed.

Lemma checkAllCollisions_tallied (w0 w : GameWorld.t num) :
  tallied w0 w -> tallied w0 (GameWorld.checkAllCollisions w).
Proof.
  intros Hw. unfold GameWorld.checkAllCollisions.
  apply tallied_fold; [|exact Hw].
  intros w' pid _ Hw'.
  destruct (JSMap.get pid (GameWorld.projectiles w')) as [proj|];
    [|exact Hw'].
  destruct (negb (Projectile.active proj)); [exact Hw'|].
  destruct (GameWorld.firstHit proj w') as [target|] eqn:Hhit; [|exact Hw'].
  apply handleDirectHit_tallied; [exact Hw'|].
  unfold GameWorld.firstHit in Hhit.
  apply find_some in Hhit. tauto.
Qed.

End CombatFacts.

(** ** The respawn phase *)

Section RespawnFacts.
Context {num : Type} `{JSNumber num}.
Variable imports : Imports num.
Local Open Scope num_scope.

Definition isRespawn (e : GameEvent num) : bool :=
  match e with
  | RespawnEvent _ _ => true
  | _ => false
  end.

Lemma respawn_spec (pos : Vec3.t num) (pl : Player.t num) (p : Proc.t num) :
  fairProc p ->
  exists pl' p',
    Player.respawn pos pl p = Some (pl', p')
    /\ fairProc p'
    /\ Player.alive pl' = true /\ Player.hp pl' = TANK_MAX_HP
    /\ Player.id pl' = Player.id pl /\ Player.kills pl' = Player.kills pl
    /\ Player.deaths pl' = Player.deaths pl.
Proof.
  intros Hfair.
  unfold Player.respawn, Proc.bind, Proc.Math_random, Proc.ret.
  eexists. eexists. split; [reflexivity|]. cbv zeta.
  split; [intros n; apply Hfair|]. repeat split.
Qed.

(** The respawn of the Player object at [r0]. *)
Lemma respawnAtSpawnPoint_spec (r0 : nat) (w : GameWorld.t num)
    (p : Proc.t num) :
  spawnsOn imports (GameWorld.map w) -> fairProc p ->
  exists pos w' p',
    GameWorld.respawnAtSpawnPoint imports r0 w p = Some ((pos, w'), p')
    /\ GameWorld.map w' = GameWorld.map w
    /\ fairProc p'
    /\ GameWorld.players w' = GameWorld.players w
    /\ GameWorld.respawnQueue w' = GameWorld.respawnQueue w
    /\ GameWorld.pendingEvents w' = GameWorld.pendingEvents w
    /\ Player.alive (GameWorld.objs w' r0) = true
    /\ Player.hp (GameWorld.objs w' r0) = TANK_MAX_HP
    /\ (forall r, r <> r0 -> GameWorld.objs w' r = GameWorld.objs w r)
    /\ forall r,
         Player.id (GameWorld.objs w' r) = Player.id (GameWorld.objs w r)
         /\ Player.kills (GameWorld.objs w' r)
            = Player.kills (GameWorld.objs w r)
         /\ Player.deaths (GameWorld.objs w' r)
            = Player.deaths (GameWorld.objs w r).
Proof.
  intros Hspawn Hfair. unfold GameWorld.respawnAtSpawnPoint.
  destruct (Hspawn (GameWorld.spawnManager w) (GameWorld.objs w r0)
              (GameWorld.enemiesOf r0 w) p Hfair)
    as (pos & sm & p1 & Hsel & Hfair1).
  rewrite (bind_Some _ _ _ _ _ Hsel). cbv zeta.
  destruct (respawn_spec pos
              (GameWorld.objs (GameWorld.set_spawnManager sm w) r0) p1
              Hfair1)
    as (pl' & p2 & Hre & Hfair2 & Ha & Hhp & Hi & Hk & Hd).
  rewrite (bind_Some _ _ _ _ _ Hre). unfold Proc.ret.
  exists pos. eexists. exists p2. split; [reflexivity|].
  split; [reflexivity|]. split; [exact Hfair2|].
  do 3 (split; [reflexivity|]).
  unfold GameWorld.store. rewrite objs_modify_same.
  split; [exact Ha|]. split; [exact Hhp|]. split.
  - intros r Hne. now rewrite objs_modify_other.
  - intros r. destruct (Nat.eq_dec r r0) as [->|Hne].
    + rewrite objs_modify_same. auto.
    + rewrite objs_modify_other by exact Hne. auto.
Qed.

(** The respawn loop: the Player objects of the list come back to life
    with full health and each gets its respawn event; nothing else
    changes. *)
Lemma respawnAll_spec (toRespawn : list nat) (w : GameWorld.t num)
    (p : Proc.t num) :
  spawnsOn imports (GameWorld.map w) -> fairProc p ->
  exists w' p' extra,
    GameWorld.respawnAll imports toRespawn w p = Some (w', p')
    /\ GameWorld.map w' = GameWorld.map w
    /\ fairProc p'
    /\ GameWorld.players w' = GameWorld.players w
    /\ GameWorld.respawnQueue w' = GameWorld.respawnQueue w
    /\ GameWorld.pendingEvents w' = GameWorld.pendingEvents w ++ extra
    /\ forallb isRespawn extra = true
    /\ forall r,
         Player.id (GameWorld.objs w' r) = Player.id (GameWorld.objs w r)
         /\ Player.kills (GameWorld.objs w' r)
            = Player.kills (GameWorld.objs w r)
         /\ Player.deaths (GameWorld.objs w' r)
            = Player.deaths (GameWorld.objs w r)
         /\ if existsb (Nat.eqb r) toRespawn
            then Player.alive (GameWorld.objs w' r) = true
                 /\ Player.hp (GameWorld.objs w' r) = TANK_MAX_HP
                 /\ existsb (isRespawnOf (Player.id (GameWorld.objs w r)))
                      extra = true
            else GameWorld.objs w' r = GameWorld.objs w r.
Proof.
  revert w p. induction toRespawn as [|r0 rest IH]; intros w p Hspawn Hfair.
  - exists w, p, []. cbn. unfold Proc.ret. rewrite app_nil_r.
    split; [reflexivity|]. split; [reflexivity|]. split; [exact Hfair|].
    repeat split.
  - cbn [GameWorld.respawnAll].
    destruct (respawnAtSpawnPoint_spec r0 w p Hspawn Hfair)
      as (pos & w1 & p1 & Hre & Hmap1 & Hfair1 & Hpl1 & Hq1 & He1 & Ha1
          & Hhp1 & Hoth1 & Hvit1).
    rewrite (bind_Some _ _ _ _ _ Hre). cbv zeta.
    set (w2 := GameWorld.pushEvent _ w1).
    assert (Hspawn2 : spawnsOn imports (GameWorld.map w2)).
    { change (GameWorld.map w2) with (GameWorld.map w1). now rewrite Hmap1. }
    destruct (IH w2 p1 Hspawn2 Hfair1)
      as (w' & p' & extra & Hall & Hmap & Hfair' & Hpl & Hq & He & Hextra
          & Hobjs).
    rewrite Hall.
    exists w', p', (RespawnEvent (Player.id (GameWorld.objs w1 r0)) pos
                      :: extra).
    split; [reflexivity|].
    split; [rewrite Hmap; exact Hmap1|]. split; [exact Hfair'|].
    split; [now rewrite Hpl|].
    split; [now rewrite Hq|]. split.
    { rewrite He. subst w2. unfold GameWorld.pushEvent. cbn.
      rewrite He1, <- app_assoc. reflexivity. }
    split; [exact Hextra|].
    intros r. destruct (Hobjs r) as (Hi & Hk & Hd & Hlater).
    destruct (Hvit1 r) as (Hi1 & Hk1 & Hd1).
    change (GameWorld.objs w2 r) with (GameWorld.objs w1 r) in *.
    split; [congruence|]. split; [congruence|]. split; [congruence|].
    cbn [existsb].
    destruct (Nat.eqb_spec r r0) as [->|Hne]; cbn [orb].
    + destruct (Hvit1 r0) as (Hi0 & _).
      cbn [existsb isRespawnOf]. rewrite Hi0, Z.eqb_refl. cbn [orb].
      destruct (existsb (Nat.eqb r0) rest).
      * destruct Hlater as (Ha & Hhp & _). auto.
      * rewrite Hlater. auto.
    + rewrite (Hoth1 r Hne) in *.
      destruct (existsb (Nat.eqb r) rest); [|exact Hlater].
      destruct Hlater as (Ha & Hhp & Hev). cbn [existsb].
      rewrite Hev, orb_true_r. auto.
Qed.

End RespawnFacts.

Section QueueFacts.
Context {num : Type} `{JSNumber num}.
Local Open Scope num_scope.

(** One tick of the timer of a queue entry, and whether it has run
    out. *)
Definition tickDown (dtMs : num) (e : nat * num) : nat * num :=
  (fst e, snd e - dtMs).

Definition expired (e : nat * num) : bool := snd e <=? #0.

Lemma queue_kept (dtMs : num) (r : nat) (q : list (nat * num)) :
  filter (fun e => (fst e =? r)%nat)
    (filter (fun e => negb (expired e)) (List.map (tickDown dtMs) q))
  = filter (fun e => negb (expired e))
      (List.map (tickDown dtMs) (filter (fun e => (fst e =? r)%nat) q)).
Proof.
  induction q as [|[r1 t] q IH]; [reflexivity|].
  cbn [List.map filter fst].
  destruct (r1 =? r)%nat eqn:Hr;
    destruct (expired (tickDown dtMs (r1, t))) eqn:Hexp;
    cbn [List.map filter negb]; rewrite ?Hexp; cbn [negb filter];
    change (fst (tickDown dtMs (r1, t))) with r1; rewrite ?Hr;
    first [exact IH | f_equal; exact IH].
Qed.

Lemma queue_expired (dtMs : num) (r : nat) (q : list (nat * num)) :
  existsb (Nat.eqb r)
    (List.map fst (filter expired (List.map (tickDown dtMs) q)))
  = existsb expired
      (List.map (tickDown dtMs) (filter (fun e => (fst e =? r)%nat) q)).
Proof.
  induction q as [|[r1 t] q IH]; [reflexivity|].
  cbn [List.map filter fst].
  rewrite (Nat.eqb_sym r1 r).
  destruct (r =? r1)%nat eqn:Hr;
    destruct (expired (tickDown dtMs (r1, t))) eqn:Hexp;
    cbn [List.map filter existsb]; rewrite ?Hexp;
    cbn [List.map existsb fst tickDown]; rewrite ?Hr; cbn [orb];
    try reflexivity; exact IH.
Qed.

End QueueFacts.

Section RespawnQueueFacts.
Context {num : Type} `{JSNumber num}.
Variable imports : Imports num.
Local Open Scope num_scope.

Lemma updateRespawnQueue_spec (dtMs : num) (w : GameWorld.t num)
    (p : Proc.t num) :
  spawnsOn imports (GameWorld.map w) -> fairProc p ->
  exists w' p' extra,
    GameWorld.updateRespawnQueue imports dtMs w p = Some (w', p')
    /\ GameWorld.map w' = GameWorld.map w
    /\ fairProc p'
    /\ GameWorld.players w' = GameWorld.players w
    /\ GameWorld.pendingEvents w' = GameWorld.pendingEvents w ++ extra
    /\ forallb isRespawn extra = true
    /\ forall r,
         Player.id (GameWorld.objs w' r) = Player.id (GameWorld.objs w r)
         /\ Player.kills (GameWorld.objs w' r)
            = Player.kills (GameWorld.objs w r)
         /\ Player.deaths (GameWorld.objs w' r)
            = Player.deaths (GameWorld.objs w r)
         /\ queueOf r w'
            = filter (fun e => negb (expired e))
                (List.map (tickDown dtMs) (queueOf r w))
         /\ if existsb expired (List.map (tickDown dtMs) (queueOf r w))
            then Player.alive (GameWorld.objs w' r) = true
                 /\ Player.hp (GameWorld.objs w' r) = TANK_MAX_HP
                 /\ existsb (isRespawnOf (Player.id (GameWorld.objs w r)))
                      extra = true
            else GameWorld.objs w' r = GameWorld.objs w r.
Proof.
  intros Hspawn Hfair. unfold GameWorld.updateRespawnQueue. cbv zeta.
  change (fun e : nat * num => (fst e, snd e - dtMs)) with (tickDown dtMs).
  change (fun e : nat * num => snd e <=? #0) with expired.
  set (entries := List.map (tickDown dtMs) (GameWorld.respawnQueue w)).
  set (w1 := GameWorld.set_respawnQueue _ w).
  destruct (respawnAll_spec imports
              (List.map fst (filter expired entries)) w1 p Hspawn Hfair)
    as (w' & p' & extra & Hall & Hmap & Hfair' & Hpl & Hq & He & Hextra
        & Hobjs).
  exists w', p', extra. split; [exact Hall|]. split; [exact Hmap|].
  split; [exact Hfair'|]. split; [exact Hpl|].
  split; [exact He|]. split; [exact Hextra|].
  intros r. destruct (Hobjs r) as (Hi & Hk & Hd & Hre).
  change (GameWorld.objs w1 r) with (GameWorld.objs w r) in *.
  split; [exact Hi|]. split; [exact Hk|]. split; [exact Hd|]. split.
  - unfold queueOf. rewrite Hq. subst w1 entries.
    cbn [GameWorld.respawnQueue GameWorld.set_respawnQueue].
    apply queue_kept.
  - subst entries. rewrite queue_expired in Hre. exact Hre.
Qed.

End RespawnQueueFacts.

(** ** One tick *)

Section EventFacts.
Context {num : Type} `{JSNumber num}.

Lemma deathsOf_vital (id : Z) (evs : list (GameEvent num)) :
  deathsOf id (filter isVital evs) = deathsOf id evs.
Proof.
  unfold deathsOf. induction evs as [|e evs IH]; [reflexivity|].
  destruct e; cbn; try exact IH;
    try (destruct (victimId =? id)%Z; cbn; now rewrite IH).
Qed.

Lemma killsBy_vital (id : Z) (evs : list (GameEvent num)) :
  killsBy id (filter isVital evs) = killsBy id evs.
Proof.
  unfold killsBy. induction evs as [|e evs IH]; [reflexivity|].
  destruct e; cbn; try exact IH;
    try (destruct (killerId =? id)%Z; cbn; now rewrite IH).
Qed.

Lemma deathsOf_respawns (id : Z) (evs extra : list (GameEvent num)) :
  forallb isRespawn extra = true ->
  deathsOf id (evs ++ extra) = deathsOf id evs.
Proof.
  intros Hextra. unfold deathsOf. rewrite filter_app, length_app.
  replace (filter (isDeathOf id) extra) with (@nil (GameEvent num));
    [cbn; lia|].
  induction extra as [|e extra IH]; [reflexivity|].
  cbn in Hextra. apply andb_prop in Hextra as [He Hextra].
  destruct e; try discriminate He. cbn. now apply IH.
Qed.

Lemma killsBy_respawns (id : Z) (evs extra : list (GameEvent num)) :
  forallb isRespawn extra = true ->
  killsBy id (evs ++ extra) = killsBy id evs.
Proof.
  intros Hextra. unfold killsBy. rewrite filter_app, length_app.
  replace (filter (isKillBy id) extra) with (@nil (GameEvent num));
    [cbn; lia|].
  induction extra as [|e extra IH]; [reflexivity|].
  cbn in Hextra. apply andb_prop in Hextra as [He Hextra].
  destruct e; try discriminate He. cbn. now apply IH.
Qed.

End EventFacts.

Section TickFacts.
Context {num : Type} `{JSNumber num}.
Variable imports : Imports num.
Local Open Scope num_scope.

(** A world as the ticks keep it: a key once in [players], each Player
    object registered under its own id, no respawn-queue entry for a
    live combatant and at most one for a dead one. *)
Definition sane (w : GameWorld.t num) : Prop :=
  wellKeyed (GameWorld.players w)
  /\ forall id r,
       JSMap.get id (GameWorld.players w) = Some r ->
       Player.id (GameWorld.objs w r) = id
       /\ if Player.alive (GameWorld.objs w r)
          then queueOf r w = []
          else (List.length (queueOf r w) <= 1)%nat.

(** The world of a tick when its respawn phase begins. *)
Definition beforeRespawns (w : GameWorld.t num) : GameWorld.t num :=
  let dt := TICK_INTERVAL / #1000 in
  let w := GameWorld.set_pendingEvents [] w in
  let w := GameWorld.set_currentTick (GameWorld.currentTick w + 1)%Z w in
  let w :=
    fold_left (GameWorld.inputStep imports dt) (GameWorld.playerRefs w) w in
  let w := GameWorld.resolveTankTankCollisions w in
  let w :=
    fold_left (GameWorld.projectileStep dt)
      (JSMap.keys (GameWorld.projectiles w)) w in
  let w := GameWorld.checkAllCollisions w in
  GameWorld.purgeProjectiles w.

(** The world after the reload phase, the last of the tick. *)
Definition reloaded (w : GameWorld.t num) : GameWorld.t num :=
  fold_left
    (fun w r => GameWorld.modify r (Player.updateReload TICK_INTERVAL) w)
    (GameWorld.playerRefs w) w.

Lemma update_phases (w : GameWorld.t num) :
  GameWorld.update imports w
  = (w5 <- GameWorld.updateRespawnQueue imports TICK_INTERVAL
             (beforeRespawns w) ;;
     Proc.ret (GameWorld.pendingEvents (reloaded w5), reloaded w5))%proc.
Proof. reflexivity. Qed.

Lemma beforeRespawns_tallied (w : GameWorld.t num) :
  sane w ->
  tallied (GameWorld.set_pendingEvents [] w) (beforeRespawns w).
Proof.
  intros (Hkeys & Hreg).
  set (w0 := GameWorld.set_pendingEvents [] w).
  assert (H0 : tallied w0 w0).
  { split; [exact Hkeys|]. split; [reflexivity|].
    intros id r Hget. destruct (Hreg id r Hget) as (Hid & _).
    unfold tally. change (vitalEvents w0) with (@nil (GameEvent num)).
    cbn [deathsOf killsBy filter List.length repeat].
    rewrite !Nat.add_0_r, app_nil_r.
    repeat (split; [first [exact Hid|reflexivity]|]).
    unfold fate. destruct (Player.alive (GameWorld.objs w0 r)); auto. }
  unfold beforeRespawns. cbv zeta. fold w0.
  eapply tallied_cosmetic; [|apply purgeProjectiles_cosmetic].
  apply checkAllCollisions_tallied.
  apply tallied_fold; [intros; now apply projectileStep_tallied|].
  eapply tallied_cosmetic; [|apply resolveTankTankCollisions_cosmetic].
  eapply tallied_cosmetic;
    [|apply cosmetic_fold; intros; apply inputStep_cosmetic].
  eapply tallied_cosmetic; [exact H0|]. repeat split.
Qed.

Lemma reloaded_cosmetic (w : GameWorld.t num) :
  cosmetic w (reloaded w)
  /\ GameWorld.pendingEvents (reloaded w) = GameWorld.pendingEvents w.
Proof.
  unfold reloaded. split.
  - apply cosmetic_fold. intros w' r. apply cosmetic_modify.
    apply updateReload_vitals.
  - apply (fold_left_invariant
             (fun w' => GameWorld.pendingEvents w' = GameWorld.pendingEvents w));
      [|reflexivity].
    intros w' r Hw'. exact Hw'.
Qed.

End TickFacts.

(** ** The map is the round's *)

Section MapKept.
Context {num : Type} `{JSNumber num}.
Variable imports : Imports num.
Local Open Scope num_scope.

Lemma fold_map {A} (f : GameWorld.t num -> A -> GameWorld.t num)
    (l : list A) (w : GameWorld.t num) :
  (forall w a, GameWorld.map (f w a) = GameWorld.map w) ->
  GameWorld.map (fold_left f l w) = GameWorld.map w.
Proof.
  intros Hf. revert w. induction l as [|a l IH]; intros w; cbn;
    [reflexivity|]. now rewrite IH, Hf.
Qed.

Lemma handleDeath_map (victim : nat) (killerId : Z) (w : GameWorld.t num) :
  GameWorld.map (GameWorld.handleDeath victim killerId w) = GameWorld.map w.
Proof.
  unfold GameWorld.handleDeath. cbv zeta.
  cbn [GameWorld.map GameWorld.set_respawnQueue GameWorld.pushEvent
       GameWorld.set_pendingEvents].
  destruct (JSMap.get killerId _); reflexivity.
Qed.

Lemma splashOne_map (proj : Projectile.t num) (direct : option Z)
    (w : GameWorld.t num) (r : nat) :
  GameWorld.map (GameWorld.splashOne proj direct w r) = GameWorld.map w.
Proof.
  unfold GameWorld.splashOne. cbv zeta.
  destruct (negb _); [reflexivity|].
  destruct (_ =? _)%Z; [reflexivity|].
  destruct (match direct with Some _ => _ | None => _ end); [reflexivity|].
  destruct (_ >? _); [|reflexivity].
  destruct (Player.takeDamage _ _) as [died player'].
  destruct died; [now rewrite handleDeath_map|reflexivity].
Qed.

Lemma handleProjectileExplode_map (proj : Projectile.t num)
    (direct : option Z) (w : GameWorld.t num) :
  GameWorld.map (GameWorld.handleProjectileExplode proj direct w)
  = GameWorld.map w.
Proof.
  unfold GameWorld.handleProjectileExplode. cbv zeta.
  rewrite fold_map; [reflexivity|]. intros. apply splashOne_map.
Qed.

Lemma handleDirectHit_map (proj : Projectile.t num) (target : nat)
    (w : GameWorld.t num) :
  GameWorld.map (GameWorld.handleDirectHit proj target w) = GameWorld.map w.
Proof.
  unfold GameWorld.handleDirectHit. cbv zeta.
  destruct (Player.takeDamage _ _) as [died target'].
  rewrite handleProjectileExplode_map.
  destruct died; [rewrite handleDeath_map|];
    cbn [GameWorld.map GameWorld.store GameWorld.modify GameWorld.set_objs];
    destruct (JSMap.get _ _); reflexivity.
Qed.

Lemma checkAllCollisions_map (w : GameWorld.t num) :
  GameWorld.map (GameWorld.checkAllCollisions w) = GameWorld.map w.
Proof.
  unfold GameWorld.checkAllCollisions. apply fold_map.
  intros w' pid. destruct (JSMap.get pid _) as [proj|]; [|reflexivity].
  destruct (negb _); [reflexivity|].
  destruct (GameWorld.firstHit proj w'); [|reflexivity].
  apply handleDirectHit_map.
Qed.

Lemma applyInput_map (r : nat) (input : InputCmd.t num) (dt : num)
    (w : GameWorld.t num) :
  GameWorld.map (GameWorld.applyInput imports r input dt w) = GameWorld.map w.
Proof.
  unfold GameWorld.applyInput. cbv zeta.
  destruct (InputCmd.fire input); [|reflexivity].
  destruct (Player.tryFire _) as [fired player].
  destruct fired; reflexivity.
Qed.

Lemma inputStep_map (dt : num) (w : GameWorld.t num) (r : nat) :
  GameWorld.map (GameWorld.inputStep imports dt w r) = GameWorld.map w.
Proof.
  unfold GameWorld.inputStep. cbv zeta.
  destruct (negb _); [reflexivity|].
  destruct (Player.popInput _) as [[input|] player]; [|reflexivity].
  now rewrite applyInput_map.
Qed.

Lemma separate_map (w : GameWorld.t num) (ab : nat * nat) :
  GameWorld.map (GameWorld.separate w ab) = GameWorld.map w.
Proof.
  unfold GameWorld.separate. destruct ab as [ra rb]. cbv zeta.
  destruct (_ && _); reflexivity.
Qed.

Lemma resolveTankTankCollisions_map (w : GameWorld.t num) :
  GameWorld.map (GameWorld.resolveTankTankCollisions w) = GameWorld.map w.
Proof.
  unfold GameWorld.resolveTankTankCollisions. cbv zeta.
  apply fold_map. apply separate_map.
Qed.

Lemma coverLoop_map (proj : Projectile.t num) (prev : Vec3.t num)
    (covers : list (MapGenerator.CoverNode num)) (w : GameWorld.t num) :
  GameWorld.map (snd (GameWorld.coverLoop proj prev covers w))
  = GameWorld.map w.
Proof.
  induction covers as [|cover covers IH]; [reflexivity|].
  cbn [GameWorld.coverLoop]. cbv zeta.
  destruct (_ && _ && _);
    [cbn [snd]; now rewrite handleProjectileExplode_map|].
  destruct (_ <? _); [exact IH|].
  destruct (_ <? _); [exact IH|].
  destruct (GameWorld.sweptHit _ _ _ _ _) as [[t hitY]|]; [|exact IH].
  cbn [snd]. now rewrite handleProjectileExplode_map.
Qed.

Lemma projectileStep_map (dt : num) (w : GameWorld.t num) (pid : Z) :
  GameWorld.map (GameWorld.projectileStep dt w pid) = GameWorld.map w.
Proof.
  unfold GameWorld.projectileStep.
  destruct (JSMap.get pid _) as [proj|]; [|reflexivity].
  destruct (negb _); [reflexivity|]. cbv zeta.
  destruct (Projectile.checkGroundHit _ _) as [grounded proj'].
  destruct grounded; [now rewrite handleProjectileExplode_map|].
  unfold GameWorld.checkProjectileCoverCollision.
  now rewrite coverLoop_map.
Qed.

Lemma beforeRespawns_map (w : GameWorld.t num) :
  GameWorld.map (beforeRespawns imports w) = GameWorld.map w.
Proof.
  unfold beforeRespawns. cbv zeta.
  change (GameWorld.map (GameWorld.purgeProjectiles ?x))
    with (GameWorld.map x).
  rewrite checkAllCollisions_map.
  rewrite fold_map by (intros; apply projectileStep_map).
  rewrite resolveTankTankCollisions_map.
  rewrite fold_map by (intros; apply inputStep_map).
  reflexivity.
Qed.

Lemma reloaded_map (w : GameWorld.t num) :
  GameWorld.map (reloaded w) = GameWorld.map w.
Proof. unfold reloaded. apply fold_map. reflexivity. Qed.

End MapKept.

Section TickSpec.
Context {num : Type} `{JSNumber num}.
Variable imports : Imports num.
Local Open Scope num_scope.

(** The respawn delay is longer than a tick. *)
Hypothesis Hfirst : (RESPAWN_DELAY - TICK_INTERVAL <=? #0) = false.

(** What one tick, from [w] to [w'] with the events [evs], does to the
    combatant [id] whose Player object is at [r]: a live combatant either
    stays alive, or dies once and waits in the respawn queue; a dead one
    sees its timer decreased and comes back, with full health, when the
    timer has run out, and not otherwise. *)
Definition outcome (w w' : GameWorld.t num) (evs : list (GameEvent num))
    (id : Z) (r : nat) : Prop :=
  if Player.alive (GameWorld.objs w r)
  then (deathsOf id evs = 0%nat
        /\ Player.alive (GameWorld.objs w' r) = true
        /\ queueOf r w' = [])
       \/ (deathsOf id evs = 1%nat
           /\ Player.alive (GameWorld.objs w' r) = false
           /\ (Player.hp (GameWorld.objs w' r) <=? #0) = true
           /\ queueOf r w' = [(r, RESPAWN_DELAY - TICK_INTERVAL)])
  else deathsOf id evs = 0%nat
       /\ queueOf r w'
          = filter (fun e => negb (expired e))
              (List.map (tickDown TICK_INTERVAL) (queueOf r w))
       /\ if existsb expired
               (List.map (tickDown TICK_INTERVAL) (queueOf r w))
          then Player.alive (GameWorld.objs w' r) = true
               /\ Player.hp (GameWorld.objs w' r) = TANK_MAX_HP
               /\ existsb (isRespawnOf id) evs = true
          else Player.alive (GameWorld.objs w' r) = false
               /\ Player.hp (GameWorld.objs w' r)
                  = Player.hp (GameWorld.objs w r).

Lemma update_books (w : GameWorld.t num) (p : Proc.t num) :
  spawnsOn imports (GameWorld.map w) -> fairProc p ->
  sane w ->
  exists evs w' p',
    GameWorld.update imports w p = Some ((evs, w'), p')
    /\ GameWorld.map w' = GameWorld.map w
    /\ fairProc p'
    /\ GameWorld.players w' = GameWorld.players w
    /\ forall id r,
         JSMap.get id (GameWorld.players w) = Some r ->
         Player.id (GameWorld.objs w' r) = id
         /\ Player.deaths (GameWorld.objs w' r)
            = (Player.deaths (GameWorld.objs w r) + deathsOf id evs)%nat
         /\ Player.kills (GameWorld.objs w' r)
            = (Player.kills (GameWorld.objs w r) + killsBy id evs)%nat
         /\ outcome w w' evs id r.
Proof.
  intros Hspawn Hfair Hsane.
  pose proof (beforeRespawns_tallied imports w Hsane) as Htal.
  destruct Hsane as (Hkeys & Hreg).
  set (w4 := beforeRespawns imports w) in *.
  assert (Hmap4 : GameWorld.map w4 = GameWorld.map w)
    by apply beforeRespawns_map.
  assert (Hspawn4 : spawnsOn imports (GameWorld.map w4))
    by (rewrite Hmap4; exact Hspawn).
  destruct (updateRespawnQueue_spec imports TICK_INTERVAL w4 p Hspawn4 Hfair)
    as (w5 & p5 & extra & Hupd & Hmap5 & Hfair5 & Hpl5 & He5 & Hextra
        & Hobjs5).
  destruct (reloaded_cosmetic w5) as ((Hpl6 & Hq6 & _ & Hv6) & He6).
  destruct Htal as (_ & Hpl4 & Htally).
  change (GameWorld.players (GameWorld.set_pendingEvents [] w))
    with (GameWorld.players w) in *.
  exists (GameWorld.pendingEvents (reloaded w5)), (reloaded w5), p5.
  rewrite update_phases, (bind_Some _ _ _ _ _ Hupd).
  split; [reflexivity|].
  split; [rewrite reloaded_map, Hmap5; exact Hmap4|].
  split; [exact Hfair5|]. split; [congruence|].
  clear Hmap4 Hspawn4 Hmap5.
  intros id r Hget.
  destruct (Htally id r Hget) as (Hid4 & Hd4 & Hk4 & Hq4 & Hfate4).
  destruct (Hreg id r Hget) as (Hid0 & Hq0).
  destruct (Hobjs5 r) as (Hi5 & Hk5 & Hd5 & Hq5 & Hre5).
  destruct (vitals_inv _ _ (Hv6 r)) as (Hi6 & Ha6 & Hh6 & Hk6 & Hd6).
  assert (Hq6r : queueOf r (reloaded w5) = queueOf r w5)
    by (unfold queueOf; now rewrite Hq6).
  change (GameWorld.objs (GameWorld.set_pendingEvents [] w) r)
    with (GameWorld.objs w r) in *.
  change (queueOf r (GameWorld.set_pendingEvents [] w))
    with (queueOf r w) in *.
  assert (Hdeaths : deathsOf id (GameWorld.pendingEvents (reloaded w5))
                    = deathsOf id (vitalEvents w4)).
  { rewrite He6, He5, (deathsOf_respawns _ _ _ Hextra).
    symmetry. apply deathsOf_vital. }
  assert (Hkills : killsBy id (GameWorld.pendingEvents (reloaded w5))
                   = killsBy id (vitalEvents w4)).
  { rewrite He6, He5, (killsBy_respawns _ _ _ Hextra).
    symmetry. apply killsBy_vital. }
  split; [congruence|]. split; [congruence|]. split; [congruence|].
  unfold outcome, fate in *. rewrite Hdeaths, Hq6r, Ha6, Hh6.
  destruct (Player.alive (GameWorld.objs w r)) eqn:Ha0.
  - rewrite Hq0 in Hq4. cbn [app] in Hq4.
    destruct (Player.alive (GameWorld.objs w4 r)) eqn:Ha4.
    + rewrite Hfate4 in *. cbn [repeat] in Hq4. rewrite Hq4 in *.
      cbn [List.map existsb filter] in *. rewrite Hre5.
      left. auto.
    + destruct Hfate4 as (Hn & Hhp). rewrite Hn in *.
      cbn [repeat] in Hq4. rewrite Hq4 in *.
      cbn [List.map existsb filter] in *.
      unfold expired, tickDown in *. cbn [fst snd] in *.
      rewrite Hfirst in *. cbn [orb negb] in *. rewrite Hre5.
      right. auto.
  - destruct (Player.alive (GameWorld.objs w4 r)) eqn:Ha4; [contradiction|].
    destruct Hfate4 as (Hn & Hhp). rewrite Hn in *.
    cbn [repeat] in Hq4. rewrite app_nil_r in Hq4. rewrite Hq4 in *.
    split; [reflexivity|]. split; [exact Hq5|].
    destruct (existsb expired _).
    + destruct Hre5 as (Ha5 & Hh5 & Hev). split; [exact Ha5|].
      split; [exact Hh5|]. rewrite He6, He5, existsb_app.
      rewrite Hid4 in Hev. rewrite Hev. apply orb_true_r.
    + rewrite Hre5. auto.
Qed.

End TickSpec.

(** ** Successive ticks *)

Section Runs.
Context {num : Type} `{JSNumber num}.
Variable imports : Imports num.
Local Open Scope num_scope.

(** Between two ticks the room only queues commands: [handleInput] for a
    human and [AIPlayer.update] for a bot call [pushInput] on a Player
    object. *)
Definition feedInputs (inputs : list (nat * InputCmd.t num))
    (w : GameWorld.t num) : GameWorld.t num :=
  fold_left
    (fun w i => GameWorld.modify (fst i) (Player.pushInput (snd i)) w)
    inputs w.

(** [n] ticks; the commands [feed i] are queued before tick [i].  The
    result is the events of the last tick and the world after it. *)
Fixpoint ticks (feed : nat -> list (nat * InputCmd.t num)) (n : nat)
    (w : GameWorld.t num)
  : Proc.M num (list (GameEvent num) * GameWorld.t num) :=
  match n with
  | O => Proc.ret ([], w)
  | S n' =>
      (r <- ticks feed n' w ;;
       GameWorld.update imports (feedInputs (feed n') (snd r)))%proc
  end.

(** The timer of a queue entry after [k] ticks. *)
Definition countdown (k : nat) : num :=
  Nat.iter k (fun t => t - TICK_INTERVAL) RESPAWN_DELAY.

Lemma feedInputs_cosmetic (inputs : list (nat * InputCmd.t num))
    (w : GameWorld.t num) :
  cosmetic w (feedInputs inputs w).
Proof.
  unfold feedInputs. apply cosmetic_fold. intros w' i.
  apply cosmetic_modify. apply pushInput_vitals.
Qed.

Lemma feedInputs_map (inputs : list (nat * InputCmd.t num))
    (w : GameWorld.t num) :
  GameWorld.map (feedInputs inputs w) = GameWorld.map w.
Proof. unfold feedInputs. apply fold_map. reflexivity. Qed.

Lemma sane_cosmetic (w w' : GameWorld.t num) :
  sane w -> cosmetic w w' -> sane w'.
Proof.
  intros (Hkeys & Hreg) (Hpl & Hq & _ & Hv).
  split; [now rewrite Hpl|].
  intros id r Hget. rewrite Hpl in Hget.
  destruct (Hreg id r Hget) as (Hid & Hqueue).
  destruct (vitals_inv _ _ (Hv r)) as (Hi & Ha & _).
  unfold queueOf in *. rewrite Hq, Hi, Ha. auto.
Qed.

End Runs.

Section Waiting.
Context {num : Type} `{JSNumber num}.
Variable imports : Imports num.
Local Open Scope num_scope.
Hypothesis Hfirst : (RESPAWN_DELAY - TICK_INTERVAL <=? #0) = false.

Lemma filter_length_le {A} (f : A -> bool) (l : list A) :
  (List.length (filter f l) <= List.length l)%nat.
Proof.
  induction l as [|a l IH]; cbn; [lia|]. destruct (f a); cbn; lia.
Qed.

(** A tick keeps the world sane, and emits at most one death event for
    a combatant. *)
Lemma update_sane (w : GameWorld.t num) (p : Proc.t num) :
  spawnsOn imports (GameWorld.map w) -> fairProc p ->
  sane w ->
  exists evs w' p',
    GameWorld.update imports w p = Some ((evs, w'), p')
    /\ GameWorld.map w' = GameWorld.map w
    /\ fairProc p'
    /\ sane w'
    /\ GameWorld.players w' = GameWorld.players w
    /\ forall id r,
         JSMap.get id (GameWorld.players w) = Some r ->
         Player.deaths (GameWorld.objs w' r)
         = (Player.deaths (GameWorld.objs w r) + deathsOf id evs)%nat
         /\ Player.kills (GameWorld.objs w' r)
            = (Player.kills (GameWorld.objs w r) + killsBy id evs)%nat
         /\ outcome w w' evs id r.
Proof.
  intros Hspawn Hfair Hsane.
  destruct (update_books imports Hfirst w p Hspawn Hfair Hsane)
    as (evs & w' & p' & Hupd & Hmap & Hfair' & Hpl & Hbooks).
  exists evs, w', p'. split; [exact Hupd|]. split; [exact Hmap|].
  split; [exact Hfair'|]. split; [|split; [exact Hpl|]].
  - destruct Hsane as (Hkeys & Hreg). split; [now rewrite Hpl|].
    intros id r Hget. rewrite Hpl in Hget.
    destruct (Hbooks id r Hget) as (Hid & _ & _ & Hout).
    destruct (Hreg id r Hget) as (_ & Hq).
    split; [exact Hid|]. unfold outcome in Hout.
    destruct (Player.alive (GameWorld.objs w r)).
    + destruct Hout as [(_ & -> & ->)|(_ & -> & _ & ->)];
        [reflexivity|cbn; lia].
    + destruct Hout as (_ & Hq' & Hre). rewrite Hq'.
      destruct (queueOf r w) as [|e [|e' q]]; [| |cbn in Hq; lia].
      * cbn in *. destruct Hre as (-> & _). cbn. lia.
      * cbn [List.map existsb filter] in *.
        destruct (expired (tickDown TICK_INTERVAL e)); cbn [orb negb] in *.
        -- destruct Hre as (-> & _). reflexivity.
        -- destruct Hre as (-> & _). cbn. lia.
  - intros id r Hget. destruct (Hbooks id r Hget) as (_ & Hrest).
    exact Hrest.
Qed.

(** A tick for a dead combatant whose one timer stands at [t]. *)
Lemma waiting_tick (w : GameWorld.t num) (p : Proc.t num) (id : Z) (r : nat)
    (t : num) (inputs : list (nat * InputCmd.t num)) :
  spawnsOn imports (GameWorld.map w) -> fairProc p ->
  sane w ->
  JSMap.get id (GameWorld.players w) = Some r ->
  Player.alive (GameWorld.objs w r) = false ->
  queueOf r w = [(r, t)] ->
  exists evs w' p',
    GameWorld.update imports (feedInputs inputs w) p = Some ((evs, w'), p')
    /\ GameWorld.map w' = GameWorld.map w
    /\ fairProc p'
    /\ sane w'
    /\ GameWorld.players w' = GameWorld.players w
    /\ if t - TICK_INTERVAL <=? #0
       then Player.alive (GameWorld.objs w' r) = true
            /\ Player.hp (GameWorld.objs w' r) = TANK_MAX_HP
            /\ existsb (isRespawnOf id) evs = true
       else Player.alive (GameWorld.objs w' r) = false
            /\ Player.hp (GameWorld.objs w' r)
               = Player.hp (GameWorld.objs w r)
            /\ queueOf r w' = [(r, t - TICK_INTERVAL)].
Proof.
  intros Hspawn Hfair Hsane Hget Hdead Hq.
  pose proof (feedInputs_cosmetic inputs w) as Hcos.
  pose proof (sane_cosmetic _ _ Hsane Hcos) as Hsane1.
  destruct Hcos as (Hpl1 & Hq1 & _ & Hv1).
  destruct (vitals_inv _ _ (Hv1 r)) as (_ & Ha1 & Hh1 & _).
  assert (Hspawn1 : spawnsOn imports (GameWorld.map (feedInputs inputs w)))
    by (rewrite feedInputs_map; exact Hspawn).
  destruct (update_sane (feedInputs inputs w) p Hspawn1 Hfair Hsane1)
    as (evs & w' & p' & Hupd & Hmap & Hfair' & Hsane' & Hpl & Hbooks).
  exists evs, w', p'. split; [exact Hupd|].
  split; [rewrite Hmap; apply feedInputs_map|]. split; [exact Hfair'|].
  split; [exact Hsane'|]. split; [congruence|].
  rewrite <- Hpl1 in Hget.
  destruct (Hbooks id r Hget) as (_ & _ & Hout).
  unfold outcome in Hout. rewrite Ha1, Hdead in Hout.
  assert (Hq1r : queueOf r (feedInputs inputs w) = [(r, t)])
    by (unfold queueOf in *; now rewrite Hq1).
  rewrite Hq1r in Hout. cbn [List.map existsb filter] in Hout.
  unfold expired, tickDown in Hout. cbn [fst snd] in Hout.
  destruct Hout as (_ & Hq' & Hre).
  destruct (t - TICK_INTERVAL <=? #0); cbn [orb negb] in *.
  - exact Hre.
  - destruct Hre as (Ha & Hh). rewrite Hh1 in Hh. auto.
Qed.

(** While the timer has not run out the combatant stays dead. *)
Lemma waiting (feed : nat -> list (nat * InputCmd.t num)) (n : nat)
    (w : GameWorld.t num) (p : Proc.t num) (id : Z) (r : nat) (j : nat) :
  spawnsOn imports (GameWorld.map w) -> fairProc p ->
  sane w ->
  JSMap.get id (GameWorld.players w) = Some r ->
  Player.alive (GameWorld.objs w r) = false ->
  queueOf r w = [(r, countdown j)] ->
  (forall i, (j < i <= j + n)%nat -> (countdown i <=? #0) = false) ->
  exists evs wn pn,
    ticks imports feed n w p = Some ((evs, wn), pn)
    /\ GameWorld.map wn = GameWorld.map w
    /\ fairProc pn
    /\ sane wn
    /\ GameWorld.players wn = GameWorld.players w
    /\ Player.alive (GameWorld.objs wn r) = false
    /\ Player.hp (GameWorld.objs wn r) = Player.hp (GameWorld.objs w r)
    /\ queueOf r wn = [(r, countdown (j + n))].
Proof.
  intros Hspawn Hfair Hsane Hget Hdead Hq.
  induction n as [|n IH]; intros Hpos.
  - exists [], w, p. rewrite Nat.add_0_r. cbn [ticks]. unfold Proc.ret.
    repeat (split; [first [reflexivity|assumption]|]). assumption.
  - destruct IH
      as (evs & wn & pn & Hrun & Hmapn & Hfairn & Hsanen & Hpln & Han & Hhn
          & Hqn).
    { intros i Hi. apply Hpos. lia. }
    cbn [ticks]. rewrite (bind_Some _ _ _ _ _ Hrun). cbn [snd].
    rewrite <- Hpln in Hget. rewrite <- Hmapn in Hspawn.
    destruct (waiting_tick wn pn id r (countdown (j + n)) (feed n)
                Hspawn Hfairn Hsanen Hget Han Hqn)
      as (evs' & w' & p' & Hupd & Hmap' & Hfair' & Hsane' & Hpl' & Hre).
    exists evs', w', p'. split; [exact Hupd|].
    split; [now rewrite Hmap'|]. split; [exact Hfair'|].
    split; [exact Hsane'|]. split; [congruence|].
    assert (Hnext : countdown (j + n) - TICK_INTERVAL = countdown (j + S n)).
    { rewrite Nat.add_succ_r. reflexivity. }
    rewrite Hnext in Hre. rewrite (Hpos (j + S n)%nat) in Hre by lia.
    destruct Hre as (Ha & Hh & Hq'). split; [exact Ha|].
    split; [congruence|exact Hq'].
Qed.

(** The tick in which the timer runs out brings the combatant back. *)
Lemma respawning (feed : nat -> list (nat * InputCmd.t num)) (n : nat)
    (w : GameWorld.t num) (p : Proc.t num) (id : Z) (r : nat) (j : nat) :
  spawnsOn imports (GameWorld.map w) -> fairProc p ->
  sane w ->
  JSMap.get id (GameWorld.players w) = Some r ->
  Player.alive (GameWorld.objs w r) = false ->
  queueOf r w = [(r, countdown j)] ->
  (forall i, (j < i <= j + n)%nat -> (countdown i <=? #0) = false) ->
  (countdown (j + S n) <=? #0) = true ->
  exists evs w' p',
    ticks imports feed (S n) w p = Some ((evs, w'), p')
    /\ GameWorld.map w' = GameWorld.map w
    /\ fairProc p'
    /\ Player.alive (GameWorld.objs w' r) = true
    /\ Player.hp (GameWorld.objs w' r) = TANK_MAX_HP
    /\ existsb (isRespawnOf id) evs = true.
Proof.
  intros Hspawn Hfair Hsane Hget Hdead Hq Hpos Hout.
  destruct (waiting feed n w p id r j Hspawn Hfair Hsane Hget Hdead Hq Hpos)
    as (evs & wn & pn & Hrun & Hmapn & Hfairn & Hsanen & Hpln & Han & _
        & Hqn).
  cbn [ticks]. rewrite (bind_Some _ _ _ _ _ Hrun). cbn [snd].
  rewrite <- Hpln in Hget. rewrite <- Hmapn in Hspawn.
  destruct (waiting_tick wn pn id r (countdown (j + n)) (feed n)
              Hspawn Hfairn Hsanen Hget Han Hqn)
    as (evs' & w' & p' & Hupd & Hmap' & Hfair' & _ & _ & Hre).
  assert (Hnext : countdown (j + n) - TICK_INTERVAL = countdown (j + S n)).
  { rewrite Nat.add_succ_r. reflexivity. }
  rewrite Hnext, Hout in Hre.
  exists evs', w', p'. split; [exact Hupd|].
  split; [now rewrite Hmap'|]. split; [exact Hfair'|exact Hre].
Qed.

End Waiting.

(** ** The killer named by a death event *)

Section KillerFacts.
Context {num : Type} `{JSNumber num}.
Local Open Scope num_scope.

(** A death event that names [s] as the killer. *)
Definition namesKiller (s : Z) (e : GameEvent num) : Prop :=
  exists victim pos, e = DeathEvent victim s "killed" pos.

(** From [w] to [w'] only death events that name [s] were pushed, of
    the events of death and respawn. *)
Definition grows (s : Z) (w w' : GameWorld.t num) : Prop :=
  exists more,
    vitalEvents w' = vitalEvents w ++ more /\ Forall (namesKiller s) more.

Lemma grows_refl (s : Z) (w : GameWorld.t num) : grows s w w.
Proof. exists []. now rewrite app_nil_r. Qed.

Lemma grows_trans (s : Z) (w1 w2 w3 : GameWorld.t num) :
  grows s w1 w2 -> grows s w2 w3 -> grows s w1 w3.
Proof.
  intros (m1 & H1 & F1) (m2 & H2 & F2). exists (m1 ++ m2).
  split; [now rewrite H2, H1, app_assoc|]. apply Forall_app. auto.
Qed.

Lemma grows_cosmetic (s : Z) (w w' : GameWorld.t num) :
  cosmetic w w' -> grows s w w'.
Proof.
  intros (_ & _ & He & _). exists []. now rewrite He, app_nil_r.
Qed.

Lemma grows_damageStep (s : Z) (amount : num) (r : nat)
    (w : GameWorld.t num) :
  grows s w (damageStep amount s r w).
Proof.
  destruct (damageStep_cases amount s r w)
    as [(_ & ->)|[(_ & p1 & -> & _)|(_ & p1 & -> & _)]].
  - exists []. split; [now rewrite app_nil_r|constructor].
  - exists []. split; [now rewrite app_nil_r|constructor].
  - destruct (handleDeath_effect r s (GameWorld.store r p1 w))
      as (_ & _ & He & _).
    eexists. split; [exact He|]. constructor; [|constructor].
    eexists. eexists. reflexivity.
Qed.

Lemma grows_fold {A} (s : Z) (f : GameWorld.t num -> A -> GameWorld.t num)
    (l : list A) (w : GameWorld.t num) :
  (forall w a, grows s w (f w a)) -> grows s w (fold_left f l w).
Proof.
  intros Hf. revert w. induction l as [|a l IH]; intros w; cbn.
  - apply grows_refl.
  - eapply grows_trans; [apply Hf|apply IH].
Qed.

Lemma splashOne_grows (proj : Projectile.t num) (d : option Z)
    (w : GameWorld.t num) (r : nat) :
  grows (Projectile.shooterId proj) w (GameWorld.splashOne proj d w r).
Proof.
  unfold GameWorld.splashOne. cbv zeta.
  destruct (negb (Player.alive (GameWorld.objs w r))); [apply grows_refl|].
  destruct (Player.id (GameWorld.objs w r) =? Projectile.shooterId proj)%Z;
    [apply grows_refl|].
  match goal with |- context [if ?c then w else _] => destruct c end;
    [apply grows_refl|].
  match goal with |- context [if ?c then _ else w] => destruct c end;
    [|apply grows_refl].
  apply (grows_damageStep (Projectile.shooterId proj)).
Qed.

Lemma handleProjectileExplode_grows (proj : Projectile.t num)
    (d : option Z) (w : GameWorld.t num) :
  grows (Projectile.shooterId proj) w
    (GameWorld.handleProjectileExplode proj d w).
Proof.
  unfold GameWorld.handleProjectileExplode. cbv zeta.
  match goal with
  | |- grows _ _ (fold_left _ _ ?w1) => apply grows_trans with w1
  end.
  - apply grows_cosmetic, cosmetic_pushEvent. reflexivity.
  - apply grows_fold. intros w' r. apply splashOne_grows.
Qed.

(** Whether [takeDamage] reports a death depends on the alive flag and
    the health only. *)
Lemma takeDamage_died_vitals (amount : num) (p p' : Player.t num) :
  vitals p' = vitals p ->
  fst (Player.takeDamage amount p') = fst (Player.takeDamage amount p).
Proof.
  intros Hv. apply vitals_inv in Hv as (_ & Ha & Hh & _).
  unfold Player.takeDamage. rewrite Ha, Hh.
  destruct (negb (Player.alive p)); [reflexivity|]. cbv zeta. cbn.
  match goal with |- context [if ?c then _ else _] => destruct c end;
    reflexivity.
Qed.

(** A lethal direct hit pushes the death event of the target, which
    names the shooter of the projectile, and then only death events that
    name this shooter. *)
Lemma handleDirectHit_lethal (proj : Projectile.t num) (target : nat)
    (w : GameWorld.t num) :
  fst (Player.takeDamage DIRECT_HIT_DAMAGE (GameWorld.objs w target)) = true ->
  exists pos more,
    vitalEvents (GameWorld.handleDirectHit proj target w)
    = vitalEvents w
      ++ DeathEvent (Player.id (GameWorld.objs w target))
           (Projectile.shooterId proj) "killed" pos :: more
    /\ Forall (namesKiller (Projectile.shooterId proj)) more.
Proof.
  intros Hdied. unfold GameWorld.handleDirectHit. cbv zeta.
  set (proj' := Projectile.set_active false proj).
  set (w1 := GameWorld.pushEvent _ (GameWorld.storeProjectile proj' w)).
  assert (Hw1 : cosmetic w w1).
  { eapply cosmetic_trans; [apply cosmetic_storeProjectile|].
    now apply cosmetic_pushEvent. }
  set (w2 := match JSMap.get _ (GameWorld.players w1) with
             | Some shooter => GameWorld.modify shooter _ w1
             | None => w1
             end).
  assert (Hw2 : cosmetic w w2).
  { eapply cosmetic_trans; [exact Hw1|]. subst w2.
    destruct (JSMap.get _ (GameWorld.players w1)); [|apply cosmetic_refl].
    now apply cosmetic_modify. }
  destruct Hw2 as (_ & _ & He2 & Hv2).
  rewrite <- (takeDamage_died_vitals _ _ _ (Hv2 target)) in Hdied.
  pose proof (takeDamage_frame DIRECT_HIT_DAMAGE (GameWorld.objs w2 target))
    as Hframe.
  destruct (Player.takeDamage DIRECT_HIT_DAMAGE (GameWorld.objs w2 target))
    as [died target'].
  cbn [fst snd] in Hdied, Hframe. subst died.
  destruct Hframe as (Hid' & _).
  destruct (handleDeath_effect target (Projectile.shooterId proj')
              (GameWorld.store target target' w2))
    as (_ & _ & He3 & _).
  assert (Hst : GameWorld.objs (GameWorld.store target target' w2) target
                = target')
    by (unfold GameWorld.store; apply objs_modify_same).
  rewrite Hst in He3.
  change (vitalEvents (GameWorld.store target target' w2))
    with (vitalEvents w2) in He3.
  match goal with
  | |- context [GameWorld.handleProjectileExplode proj' ?d ?w3] =>
      destruct (handleProjectileExplode_grows proj' d w3)
        as (more & Hmore & Fmore)
  end.
  exists (Player.position target'), more.
  split; [|exact Fmore].
  rewrite Hmore, He3, He2, <- app_assoc, Hid'.
  destruct (vitals_inv _ _ (Hv2 target)) as (-> & _). reflexivity.
Qed.

End KillerFacts.

(** ** From the lethal hit to the respawn *)

Section Cycle.
Context {num : Type} `{JSNumber num}.
Variable imports : Imports num.
Local Open Scope num_scope.

(** The timer of a queue entry is positive after each of its first [K]
    ticks and has run out after one more. *)
Variable K : nat.
Hypothesis HK : (1 <= K)%nat.
Hypothesis Hpos :
  forall i, (1 <= i <= K)%nat -> (countdown i <=? #0) = false.
Hypothesis Hout : (countdown (S K) <=? #0) = true.

(** What the claim says of the combatant [id] at [r] in a tick from [w]
    to [w'] with events [evs], followed by the ticks of [feed] from the
    process state [p']. *)
Definition deathCycle (feed : nat -> list (nat * InputCmd.t num))
    (w w' : GameWorld.t num) (p' : Proc.t num) (evs : list (GameEvent num))
    (id : Z) (r : nat) : Prop :=
  Player.deaths (GameWorld.objs w' r)
  = (Player.deaths (GameWorld.objs w r) + deathsOf id evs)%nat
  /\ Player.kills (GameWorld.objs w' r)
     = (Player.kills (GameWorld.objs w r) + killsBy id evs)%nat
  /\ (deathsOf id evs <= 1)%nat
  /\ (deathsOf id evs = 1%nat
      <-> Player.alive (GameWorld.objs w r) = true
          /\ Player.alive (GameWorld.objs w' r) = false)
  /\ (deathsOf id evs = 1%nat ->
      (Player.hp (GameWorld.objs w' r) <=? #0) = true
      /\ forall n, (n <= K)%nat ->
           exists evs_n w_n p_n,
             ticks imports feed n w' p' = Some ((evs_n, w_n), p_n)
             /\ if (n <? K)%nat
                then Player.alive (GameWorld.objs w_n r) = false
                else Player.alive (GameWorld.objs w_n r) = true
                     /\ Player.hp (GameWorld.objs w_n r) = TANK_MAX_HP
                     /\ existsb (isRespawnOf id) evs_n = true).

Lemma update_deathCycle (feed : nat -> list (nat * InputCmd.t num))
    (w : GameWorld.t num) (p : Proc.t num) :
  spawnsOn imports (GameWorld.map w) -> fairProc p ->
  sane w ->
  exists evs w' p',
    GameWorld.update imports w p = Some ((evs, w'), p')
    /\ GameWorld.map w' = GameWorld.map w
    /\ fairProc p'
    /\ sane w'
    /\ forall id r,
         JSMap.get id (GameWorld.players w) = Some r ->
         deathCycle feed w w' p' evs id r.
Proof.
  intros Hspawn Hfair Hsane.
  assert (Hfirst : (RESPAWN_DELAY - TICK_INTERVAL <=? #0) = false)
    by (apply (Hpos 1%nat); lia).
  destruct (update_sane imports Hfirst w p Hspawn Hfair Hsane)
    as (evs & w' & p' & Hupd & Hmap' & Hfair' & Hsane' & Hpl & Hbooks).
  assert (Hspawn' : spawnsOn imports (GameWorld.map w'))
    by (rewrite Hmap'; exact Hspawn).
  exists evs, w', p'. split; [exact Hupd|]. split; [exact Hmap'|].
  split; [exact Hfair'|]. split; [exact Hsane'|].
  intros id r Hget. destruct (Hbooks id r Hget) as (Hd & Hk & Hout').
  unfold deathCycle. split; [exact Hd|]. split; [exact Hk|].
  unfold outcome in Hout'.
  destruct (Player.alive (GameWorld.objs w r)) eqn:Ha0.
  - destruct Hout' as [(Hn & Ha & Hq)|(Hn & Ha & Hhp & Hq)].
    + rewrite Hn, Ha. split; [lia|]. split.
      * split; [discriminate|]. intros (_ & Hf). discriminate Hf.
      * discriminate.
    + rewrite Hn, Ha. split; [lia|]. split; [tauto|].
      intros _. split; [exact Hhp|].
      intros n Hn'. rewrite <- Hpl in Hget.
      change (RESPAWN_DELAY - TICK_INTERVAL) with (countdown 1) in Hq.
      destruct (Nat.ltb_spec n K) as [Hlt|Hge].
      * destruct (waiting imports Hfirst feed n w' p' id r 1
                    Hspawn' Hfair' Hsane' Hget Ha Hq)
          as (evs_n & w_n & p_n & Hrun & _ & _ & _ & _ & Han & _).
        { intros i Hi. apply Hpos. lia. }
        exists evs_n, w_n, p_n. auto.
      * assert (n = S (K - 1)) as -> by lia.
        destruct (respawning imports Hfirst feed (K - 1) w' p' id r 1
                    Hspawn' Hfair' Hsane' Hget Ha Hq)
          as (evs_n & w_n & p_n & Hrun & _ & _ & Hback).
        -- intros i Hi. apply Hpos. lia.
        -- replace (1 + S (K - 1))%nat with (S K) by lia. exact Hout.
        -- exists evs_n, w_n, p_n. auto.
  - destruct Hout' as (Hn & _ & _). rewrite Hn. split; [lia|]. split.
    + split; [discriminate|]. intros (Hf & _). discriminate Hf.
    + discriminate.
Qed.

End Cycle.

(** A new world is sane. *)
Lemma new_sane {num : Type} `{JSNumber num} (imports : Imports num)
    (mapSeed : num) :
  sane (GameWorld.new imports mapSeed).
Proof.
  split; [constructor|]. intros id r Hget. discriminate Hget.
Qed.

(* ================================================================== *)
(** * C1: the lethal hit *)
(* ================================================================== *)

(** ** The round restart *)

Section RestartFacts.
Context {num : Type} `{JSNumber num}.
Variable imports : Imports num.
Local Open Scope num_scope.

(** A Player object as [respawn] leaves it. *)
Definition revived (pl : Player.t num) : Prop :=
  Player.alive pl = true /\ Player.hp pl = TANK_MAX_HP.

Lemma endRound_delay (r : GameRoom.t num) : snd (endRound r) = #3000.
Proof. reflexivity. Qed.

Lemma endRound_world (r : GameRoom.t num) :
  GameRoom.world (fst (endRound r)) = GameRoom.world r.
Proof. reflexivity. Qed.

(** The loop of [reset] revives every Player object of its list, and
    leaves a revived one so. *)
Lemma resetAll_revives (refs : list nat) :
  forall (w : GameWorld.t num) (p : Proc.t num),
    spawnsOn imports (GameWorld.map w) -> fairProc p ->
    exists w' p',
      GameWorld.resetAll imports refs w p = Some (w', p')
      /\ GameWorld.map w' = GameWorld.map w
      /\ fairProc p'
      /\ GameWorld.players w' = GameWorld.players w
      /\ GameWorld.respawnQueue w' = GameWorld.respawnQueue w
      /\ forall r,
           In r refs \/ revived (GameWorld.objs w r) ->
           revived (GameWorld.objs w' r).
Proof.
  induction refs as [|r0 rest IH]; intros w p Hspawn Hfair.
  - exists w, p. cbn [GameWorld.resetAll]. unfold Proc.ret.
    repeat (split; [first [reflexivity|assumption]|]).
    intros r [[]|Hr]. exact Hr.
  - cbn [GameWorld.resetAll]. cbv zeta.
    set (w0 := GameWorld.modify r0 Player.resetStats w).
    destruct (respawnAtSpawnPoint_spec imports r0 w0 p Hspawn Hfair)
      as (pos & w1 & p1 & Hre & Hmap1 & Hfair1 & Hpl1 & Hq1 & _ & Ha1 & Hhp1
          & Hoth1 & _).
    rewrite (bind_Some _ _ _ _ _ Hre).
    assert (Hspawn1 : spawnsOn imports (GameWorld.map w1))
      by (rewrite Hmap1; exact Hspawn).
    destruct (IH w1 p1 Hspawn1 Hfair1)
      as (w' & p' & Hall & Hmap & Hfair' & Hpl & Hq & Hrev).
    exists w', p'. split; [exact Hall|].
    split; [rewrite Hmap; exact Hmap1|]. split; [exact Hfair'|].
    split; [rewrite Hpl; exact Hpl1|]. split; [rewrite Hq; exact Hq1|].
    intros r Hr. apply Hrev.
    destruct (Nat.eq_dec r r0) as [->|Hne]; [right; split; assumption|].
    destruct Hr as [[Heq|Hin]|Hr]; [congruence|left; exact Hin|].
    right. rewrite (Hoth1 r Hne). unfold w0.
    rewrite objs_modify_other by exact Hne. exact Hr.
Qed.

(** [reset] empties the respawn queue and revives every combatant. *)
Lemma reset_revives (newSeed : num) (w : GameWorld.t num) (p : Proc.t num) :
  spawnsOn imports (generate imports newSeed) -> fairProc p ->
  exists w' p',
    GameWorld.reset imports newSeed w p = Some (w', p')
    /\ GameWorld.map w' = generate imports newSeed
    /\ fairProc p'
    /\ GameWorld.players w' = GameWorld.players w
    /\ GameWorld.respawnQueue w' = []
    /\ forall r,
         In r (GameWorld.playerRefs w) -> revived (GameWorld.objs w' r).
Proof.
  intros Hspawn Hfair. unfold GameWorld.reset. cbv zeta.
  match goal with
  | |- context [GameWorld.resetAll imports ?refs ?w0 p] =>
      destruct (resetAll_revives refs w0 p Hspawn Hfair)
        as (w' & p' & Hall & Hmap & Hfair' & Hpl & Hq & Hrev)
  end.
  exists w', p'. split; [exact Hall|]. split; [exact Hmap|].
  split; [exact Hfair'|]. split; [exact Hpl|]. split; [exact Hq|].
  intros r Hr. apply Hrev. left. exact Hr.
Qed.

(** The loop of [restartRound] over the controllers only respawns. *)
Lemma readdBots_revives (bots : list (AIPlayer.t num)) :
  forall (w : GameWorld.t num) (p : Proc.t num),
    spawnsOn imports (GameWorld.map w) -> fairProc p ->
    exists w' p',
      readdBots imports bots w p = Some (w', p')
      /\ GameWorld.map w' = GameWorld.map w
      /\ fairProc p'
      /\ GameWorld.respawnQueue w' = GameWorld.respawnQueue w
      /\ forall r,
           revived (GameWorld.objs w r) -> revived (GameWorld.objs w' r).
Proof.
  induction bots as [|bot rest IH]; intros w p Hspawn Hfair.
  - exists w, p. cbn [readdBots]. unfold Proc.ret.
    repeat (split; [first [reflexivity|assumption]|]). auto.
  - cbn [readdBots].
    destruct (JSMap.get _ (GameWorld.players w)); [now apply IH|].
    unfold readd. cbv zeta.
    set (w0 := GameWorld.set_players _ w).
    destruct (respawnAtSpawnPoint_spec imports (AIPlayer.player bot) w0 p
                Hspawn Hfair)
      as (pos & w1 & p1 & Hre & Hmap1 & Hfair1 & _ & Hq1 & _ & Ha1 & Hhp1
          & Hoth1 & _).
    unfold Proc.bind at 1 2. rewrite Hre. unfold Proc.ret.
    assert (Hspawn1 : spawnsOn imports (GameWorld.map w1))
      by (rewrite Hmap1; exact Hspawn).
    destruct (IH w1 p1 Hspawn1 Hfair1)
      as (w' & p' & Hall & Hmap & Hfair' & Hq & Hrev).
    exists w', p'. split; [exact Hall|].
    split; [rewrite Hmap; exact Hmap1|]. split; [exact Hfair'|].
    split; [rewrite Hq; exact Hq1|].
    intros r Hr. apply Hrev.
    destruct (Nat.eq_dec r (AIPlayer.player bot)) as [->|Hne];
      [split; assumption|].
    rewrite (Hoth1 r Hne). exact Hr.
Qed.

Lemma startRound_revived (r : GameRoom.t num) (ref : nat) :
  revived (GameWorld.objs (GameRoom.world r) ref) ->
  revived (GameWorld.objs (GameRoom.world (GameRoom.startRound r)) ref)
  /\ GameWorld.respawnQueue (GameRoom.world (GameRoom.startRound r))
     = GameWorld.respawnQueue (GameRoom.world r).
Proof.
  intros Hr. unfold GameRoom.startRound. cbv zeta.
  cbn [GameRoom.world GameRoom.startTickLoop GameRoom.set_tickTimer
       GameRoom.set_world GameRoom.set_roundTimer GameRoom.set_state].
  apply (fold_left_invariant
           (fun w' => revived (GameWorld.objs w' ref)
                      /\ GameWorld.respawnQueue w'
                         = GameWorld.respawnQueue (GameRoom.world r)));
    [|split; [exact Hr|reflexivity]].
  intros w' r1 (Hrev & Hq). split; [|exact Hq].
  destruct (Nat.eq_dec ref r1) as [->|Hne].
  - rewrite objs_modify_same. exact Hrev.
  - rewrite objs_modify_other by exact Hne. exact Hrev.
Qed.

(** The round restart revives every combatant of the world, whatever
    the timer of its respawn-queue entry, and empties the queue. *)
Lemma restartRound_revives (now : num) (r : GameRoom.t num)
    (p : Proc.t num) :
  spawnsOn imports (generate imports now) -> fairProc p ->
  exists r' p',
    restartRound imports now r p = Some (r', p')
    /\ fairProc p'
    /\ GameWorld.respawnQueue (GameRoom.world r') = []
    /\ forall ref,
         In ref (GameWorld.playerRefs (GameRoom.world r)) ->
         revived (GameWorld.objs (GameRoom.world r') ref).
Proof.
  intros Hspawn Hfair. unfold restartRound.
  destruct (reset_revives now (GameRoom.world r) p Hspawn Hfair)
    as (w1 & p1 & Hreset & Hmap1 & Hfair1 & _ & Hq1 & Hrev1).
  rewrite (bind_Some _ _ _ _ _ Hreset).
  assert (Hspawn1 : spawnsOn imports (GameWorld.map w1))
    by (rewrite Hmap1; exact Hspawn).
  destruct (readdBots_revives (JSMap.values (GameRoom.aiBots r)) w1 p1
              Hspawn1 Hfair1)
    as (w2 & p2 & Hbots & _ & Hfair2 & Hq2 & Hrev2).
  rewrite (bind_Some _ _ _ _ _ Hbots). cbv zeta. unfold Proc.ret.
  eexists. exists p2. split; [reflexivity|]. split; [exact Hfair2|].
  set (r2 := GameRoom.set_world w2 r).
  assert (Hw2 : GameRoom.world r2 = w2) by reflexivity.
  destruct (_ || _).
  - split.
    + destruct (GameWorld.playerRefs (GameRoom.world r)) as [|ref refs] eqn:E.
      * unfold GameRoom.startRound. cbv zeta.
        cbn [GameRoom.world GameRoom.startTickLoop GameRoom.set_tickTimer
             GameRoom.set_world GameRoom.set_roundTimer GameRoom.set_state].
        apply (fold_left_invariant
                 (fun w' => GameWorld.respawnQueue w' = []));
          [intros w' r1 Hq; exact Hq|]. rewrite Hw2, Hq2. exact Hq1.
      * destruct (startRound_revived r2 ref) as (_ & ->).
        -- rewrite Hw2. apply Hrev2, Hrev1. now left.
        -- rewrite Hw2, Hq2. exact Hq1.
    + intros ref Hin. apply startRound_revived. rewrite Hw2.
      apply Hrev2, Hrev1, Hin.
  - split.
    + cbn [GameRoom.world GameRoom.set_state]. rewrite Hw2, Hq2. exact Hq1.
    + intros ref Hin. cbn [GameRoom.world GameRoom.set_state]. rewrite Hw2.
      apply Hrev2, Hrev1, Hin.
Qed.

End RestartFacts.

(** ** The timer *)

(** In binary64 the timer [RESPAWN_DELAY = 4000] decreased by
    [TICK_INTERVAL = 1000 / 60] is still positive after 240 decrements
    (about 1.4e-11) and has run out after 241. *)
Lemma countdown_binary64_positive (i : nat) :
  (1 <= i <= 240)%nat ->
  nleb (countdown (num := F64.float) i) (of_Z 0) = false.
Proof.
  intros Hi.
  assert (Hall : forallb
                   (fun i => negb (nleb (countdown (num := F64.float) i)
                                     (of_Z 0)))
                   (seq 1 240) = true)
    by (vm_compute; reflexivity).
  apply negb_true_iff.
  apply (proj1 (forallb_forall _ _) Hall i). apply in_seq. lia.
Qed.

Lemma countdown_binary64_out :
  nleb (countdown (num := F64.float) 241) (of_Z 0) = true.
Proof. vm_compute. reflexivity. Qed.

(** Over the reals it is exactly 0 after 240 decrements. *)
Lemma countdown_real (i : nat) :
  countdown (num := R) i = (4000 - INR i * (1000 / 60))%R.
Proof.
  induction i as [|i IH].
  - change (countdown (num := R) 0) with 4000%R. cbn [INR]. lra.
  - change (countdown (num := R) (S i))
      with (countdown (num := R) i - 1000 / 60)%R.
    rewrite IH, S_INR. lra.
Qed.

Lemma countdown_real_positive (i : nat) :
  (1 <= i <= 239)%nat -> nleb (countdown (num := R) i) (of_Z 0) = false.
Proof.
  intros [_ Hi]. apply Rleb_false. rewrite countdown_real.
  apply le_INR in Hi. rewrite (INR_IZR_INZ 239) in Hi. cbn in Hi.
  change (0 < 4000 - INR i * (1000 / 60))%R. lra.
Qed.

Lemma countdown_real_out :
  nleb (countdown (num := R) 240) (of_Z 0) = true.
Proof.
  apply Rleb_true. rewrite countdown_real, (INR_IZR_INZ 240).
  change (4000 - 240 * (1000 / 60) <= 0)%R. lra.
Qed.

(** ** A duel, in binary64 *)

(** Ann, at 10 m, has a shell in flight toward Bob, who stands at the
    origin one hit from death. *)
Definition shooter : Player.t F64.float :=
  Player.set_position (Vec3.mk (of_Z 0) (of_Z 0) (of_Z 10))
    (Player.new 1 "Ann").

Definition victim : Player.t F64.float :=
  Player.set_hp DIRECT_HIT_DAMAGE (Player.new 2 "Bob").

Definition shell : Projectile.t F64.float :=
  Projectile.new 1 1 (Vec3.mk (of_Z 0) (dec 22 1) (dec 333 2))
    (Vec3.mk (of_Z 0) (of_Z 0) (of_Z (-80))) PROJECTILE_TTL.

Definition duelWorld : GameWorld.t F64.float :=
  GameWorld.mk 0 0 (fun r => if (r =? 0)%nat then shooter else victim) 2
    [(1%Z, 0%nat); (2%Z, 1%nat)] [(1%Z, shell)]
    (generate testImports (of_Z 0)) SpawnManager.new 2 [] [].

Definition noInputs : nat -> list (nat * InputCmd.t F64.float) :=
  fun _ => [].

Lemma duelWorld_sane : sane duelWorld.
Proof.
  split.
  - unfold wellKeyed. cbn. repeat constructor; cbn; intuition lia.
  - intros id r Hget. unfold duelWorld in Hget.
    cbn [GameWorld.players JSMap.get] in Hget.
    destruct (1 =? id)%Z eqn:H1.
    + injection Hget as <-. apply Z.eqb_eq in H1. subst id.
      split; reflexivity.
    + destruct (2 =? id)%Z eqn:H2; [|discriminate Hget].
      injection Hget as <-. apply Z.eqb_eq in H2. subst id.
      split; reflexivity.
Qed.

Lemma testProc_fair : fairProc testProc.
Proof. intros n. vm_compute. reflexivity. Qed.

(** The world and the process after the tick of the duel, and after [n]
    more ticks. *)
Definition afterDuel : GameWorld.t F64.float * Proc.t F64.float :=
  match GameWorld.update testImports duelWorld testProc with
  | Some (_, w, p) => (w, p)
  | None => (duelWorld, testProc)
  end.

Definition afterDuelEvents : list (GameEvent F64.float) :=
  match GameWorld.update testImports duelWorld testProc with
  | Some (evs, _, _) => evs
  | None => []
  end.

Definition laterOn (n : nat) : GameWorld.t F64.float :=
  match ticks testImports noInputs n (fst afterDuel) (snd afterDuel) with
  | Some (_, w, _) => w
  | None => duelWorld
  end.

(** The room of the duel, when the tick that killed Bob was also the
    last of the round: [tick] has run [world.update()] and then found the
    round timer at the round's duration. *)
Definition duelRoom : GameRoom.t F64.float :=
  GameRoom.mk "room" InRound (fst afterDuel)
    [(1%Z, mkClient 1 []); (2%Z, mkClient 2 [])]
    (nmul (of_Z 300) (of_Z 1000)) true 3 (nmul (of_Z 300) (of_Z 1000))
    [] 100 [(1%Z, of_Z 0); (2%Z, of_Z 0)] (of_Z 0).

(** ** The same with the collaborators of the repository *)

(** Two combatants on the map [m]. *)
Definition pairWorld (m : MapGenerator.GameMapData R) : GameWorld.t R :=
  crewWorld m [1; 2]%Z.

Lemma pairWorld_map (m : MapGenerator.GameMapData R) :
  GameWorld.map (pairWorld m) = m.
Proof. reflexivity. Qed.

Lemma pairWorld_sane (m : MapGenerator.GameMapData R) : sane (pairWorld m).
Proof.
  split.
  - unfold wellKeyed. cbn. repeat constructor; cbn; intuition lia.
  - intros id r Hget. unfold pairWorld, crewWorld in Hget.
    cbn [GameWorld.players JSMap.get combine seq List.length] in Hget.
    destruct (1 =? id)%Z eqn:H1.
    + injection Hget as <-. apply Z.eqb_eq in H1. subst id.
      split; reflexivity.
    + destruct (2 =? id)%Z eqn:H2; [|discriminate Hget].
      injection Hget as <-. apply Z.eqb_eq in H2. subst id.
      split; reflexivity.
Qed.

(** The room as the tick in which Bob was killed leaves it: Bob is not
    alive, his health is 0 and his respawn-queue entry has been decreased
    once. *)
Definition fallenBob : Player.t R :=
  Player.set_deaths 1
    (Player.set_alive false (Player.set_hp 0%R (Player.new 2 "Bob"))).

Definition fallenWorld (m : MapGenerator.GameMapData R) : GameWorld.t R :=
  GameWorld.mk 1 0
    (fun r => if (r =? 0)%nat
              then Player.set_kills 1 (Player.new 1 "Ann") else fallenBob)
    2 [(1%Z, 0%nat); (2%Z, 1%nat)] [] m SpawnManager.new 2 []
    [(1%nat, (RESPAWN_DELAY - TICK_INTERVAL)%R)].

Definition fallenRoom (m : MapGenerator.GameMapData R) : GameRoom.t R :=
  GameRoom.mk "room" InRound (fallenWorld m)
    [(1%Z, mkClient 1 []); (2%Z, mkClient 2 [])]
    (300 * 1000)%R true 3 (300 * 1000)%R [] 100
    [(1%Z, 0%R); (2%Z, 0%R)] 0%R.

Lemma fallenRoom_refs (m : MapGenerator.GameMapData R) :
  GameWorld.playerRefs (GameRoom.world (fallenRoom m)) = [0%nat; 1%nat]
  /\ Player.alive (GameWorld.objs (GameRoom.world (fallenRoom m)) 1) = false
  /\ queueOf 1 (GameRoom.world (fallenRoom m))
     = [(1%nat, (RESPAWN_DELAY - TICK_INTERVAL)%R)].
Proof. repeat split. Qed.

(** The original claim fails at a round restart.  In binary64 the hit of
    the duel kills Bob in a tick; when this tick is the last of the round,
    [endRound] sets the timeout of [restartRound] to 3000 ms, less than
    [RESPAWN_DELAY], and [restartRound] returns with Bob alive at full
    health and no respawn pending.  With the collaborators of the
    repository on a generated map [restartRound] does the same to a
    combatant that a tick has just left dead. *)
Lemma round_restart_revives_before_respawn_delay :
  (deathsOf 2 afterDuelEvents = 1%nat
   /\ Player.alive (GameWorld.objs (fst afterDuel) 1) = false
   /\ nltb (snd (endRound duelRoom)) RESPAWN_DELAY = true
   /\ exists r' p',
        restartRound testImports (of_Z 3000) (fst (endRound duelRoom))
          (snd afterDuel)
        = Some (r', p')
        /\ GameWorld.respawnQueue (GameRoom.world r') = []
        /\ Player.alive (GameWorld.objs (GameRoom.world r') 1) = true
        /\ Player.hp (GameWorld.objs (GameRoom.world r') 1) = TANK_MAX_HP)
  /\ (Player.alive
        (GameWorld.objs
           (GameRoom.world (fallenRoom (MapGenerator.generate 42%R))) 1)
      = false
      /\ nltb (snd (endRound (fallenRoom (MapGenerator.generate 42%R))))
           RESPAWN_DELAY = true
      /\ exists r' p',
           restartRound RealImports 3000%R
             (fst (endRound (fallenRoom (MapGenerator.generate 42%R))))
             zeroProc
           = Some (r', p')
           /\ GameWorld.respawnQueue (GameRoom.world r') = []
           /\ Player.alive (GameWorld.objs (GameRoom.world r') 1) = true
           /\ Player.hp (GameWorld.objs (GameRoom.world r') 1)
              = TANK_MAX_HP).
Proof.
  split.
  - split; [vm_compute; reflexivity|].
    split; [vm_compute; reflexivity|].
    split; [vm_compute; reflexivity|].
    destruct (update_deathCycle testImports 240 (le_n_S _ _ (Nat.le_0_l _))
                countdown_binary64_positive countdown_binary64_out noInputs
                duelWorld testProc (testImports_spawn _) testProc_fair
                duelWorld_sane)
      as (evs & w' & p' & Hupd & _ & Hfair' & _).
    assert (Hw : snd afterDuel = p')
      by (unfold afterDuel; rewrite Hupd; reflexivity).
    rewrite Hw.
    destruct (restartRound_revives testImports (of_Z 3000)
                (fst (endRound duelRoom)) p' (testImports_spawn _) Hfair')
      as (r' & p2 & Hrun & _ & Hq & Hrev).
    exists r', p2. split; [exact Hrun|]. split; [exact Hq|].
    apply Hrev. vm_compute. right. left. reflexivity.
  - destruct (fallenRoom_refs (MapGenerator.generate 42%R))
      as (Hrefs & Hdead & _).
    split; [exact Hdead|]. split.
    + rewrite endRound_delay. apply Rltb_true.
      change (IZR 3000 < IZR 4000)%R. lra.
    + destruct (restartRound_revives RealImports 3000%R
                  (fst (endRound (fallenRoom (MapGenerator.generate 42%R))))
                  zeroProc (RealImports_spawnsOn_generated _) zeroProc_fair)
        as (r' & p2 & Hrun & _ & Hq & Hrev).
      exists r', p2. split; [exact Hrun|]. split; [exact Hq|].
      apply Hrev. rewrite endRound_world, Hrefs. right. left. reflexivity.
Qed.

(** C1, as amended.  For every number type, every world that the ticks
    keep (a key once in [players], each Player object under its own id,
    no respawn-queue entry for a live combatant and at most one for a dead
    one), every sequence of commands queued between ticks, collaborators
    whose spawn selector returns on the world's map, and [Math.random()]
    within its contract: when [K] is the number of ticks after which the
    timer of a respawn-queue entry runs out, a tick returns, keeps the
    world so, and for every combatant of the world
    - its [deaths] grow by the number of death events of the tick that
      name it as the victim, its [kills] by the number that name it as the
      killer, and at most one death event names it as the victim;
    - there is such a death event exactly when the tick found the
      combatant alive and leaves it not alive, its health then at 0;
    - after such a death, while ticks follow one another, the combatant
      is not alive after each of the next [K - 1] ticks, and tick [K]
      brings it back alive with [TANK_MAX_HP] and emits its respawn event.
    A lethal direct hit pushes the death event of its target with the
    shooter of the projectile as the killer.  In binary64 [K] is 240, and
    240 ticks last [RESPAWN_DELAY] while 239 ticks do not. *)
Theorem lethal_hit_one_death_and_timed_respawn
    {num : Type} `{JSNumber num} (imports : Imports num) (K : nat)
    (feed : nat -> list (nat * InputCmd.t num))
    (w : GameWorld.t num) (p : Proc.t num) :
  (1 <= K)%nat ->
  (forall i, (1 <= i <= K)%nat -> nleb (countdown i) (of_Z 0) = false) ->
  nleb (countdown (S K)) (of_Z 0) = true ->
  spawnsOn imports (GameWorld.map w) ->
  fairProc p ->
  sane w ->
  (exists evs w' p',
      GameWorld.update imports w p = Some ((evs, w'), p')
      /\ GameWorld.map w' = GameWorld.map w
      /\ fairProc p'
      /\ sane w'
      /\ forall id r,
           JSMap.get id (GameWorld.players w) = Some r ->
           deathCycle imports K feed w w' p' evs id r)
  /\ (forall (proj : Projectile.t num) (target : nat)
        (wh : GameWorld.t num),
         fst (Player.takeDamage DIRECT_HIT_DAMAGE (GameWorld.objs wh target))
         = true ->
         exists pos more,
           vitalEvents (GameWorld.handleDirectHit proj target wh)
           = vitalEvents wh
             ++ DeathEvent (Player.id (GameWorld.objs wh target))
                  (Projectile.shooterId proj) "killed" pos :: more
           /\ Forall (namesKiller (Projectile.shooterId proj)) more)
  /\ (forall i, (1 <= i <= 240)%nat ->
                nleb (countdown (num := F64.float) i) (of_Z 0) = false)
  /\ nleb (countdown (num := F64.float) 241) (of_Z 0) = true
  /\ nleb (RESPAWN_DELAY (num := F64.float))
       (nmul (of_Z 240) TICK_INTERVAL) = true
  /\ nltb (nmul (of_Z 239) (TICK_INTERVAL (num := F64.float)))
       RESPAWN_DELAY = true.
Proof.
  intros HK Hpos Hout Hspawn Hfair Hsane.
  split; [|split; [|split; [|split; [|split]]]].
  - now apply (update_deathCycle imports K).
  - intros proj target wh. apply handleDirectHit_lethal.
  - exact countdown_binary64_positive.
  - exact countdown_binary64_out.
  - vm_compute. reflexivity.
  - vm_compute. reflexivity.
Qed.

Lemma lethal_hit_one_death_and_timed_respawn_witness :
  (deathsOf 2 afterDuelEvents = 1%nat
   /\ killsBy 1 afterDuelEvents = 1%nat
   /\ Player.deaths (GameWorld.objs (fst afterDuel) 1) = 1%nat
   /\ Player.kills (GameWorld.objs (fst afterDuel) 0) = 1%nat
   /\ Player.alive (GameWorld.objs (laterOn 239) 1) = false
   /\ Player.alive (GameWorld.objs (laterOn 240) 1) = true
   /\ Player.hp (GameWorld.objs (laterOn 240) 1) = TANK_MAX_HP)
  /\ exists evs w' p',
       GameWorld.update RealImports (pairWorld (MapGenerator.generate 42%R))
         zeroProc
       = Some ((evs, w'), p')
       /\ sane w'
       /\ forall id r,
            JSMap.get id
              (GameWorld.players (pairWorld (MapGenerator.generate 42%R)))
            = Some r ->
            deathCycle RealImports 239 (fun _ => [])
              (pairWorld (MapGenerator.generate 42%R)) w' p' evs id r.
Proof.
  split.
  - destruct (lethal_hit_one_death_and_timed_respawn testImports 240
                noInputs duelWorld testProc (le_n_S _ _ (Nat.le_0_l _))
                countdown_binary64_positive countdown_binary64_out
                (testImports_spawn _) testProc_fair duelWorld_sane)
      as [(evs & w' & p' & Hupd & _ & _ & _ & Hcycle) _].
    assert (Hevs : afterDuelEvents = evs)
      by (unfold afterDuelEvents; rewrite Hupd; reflexivity).
    assert (Hw : afterDuel = (w', p'))
      by (unfold afterDuel; rewrite Hupd; reflexivity).
    assert (Hw' : fst afterDuel = w') by (rewrite Hw; reflexivity).
    destruct (Hcycle 2%Z 1%nat eq_refl) as (Hd & _ & _ & Hiff & Hthen).
    destruct (Hcycle 1%Z 0%nat eq_refl) as (_ & Hk & _).
    assert (Hdied : deathsOf 2 evs = 1%nat).
    { apply (proj2 Hiff). split; [reflexivity|].
      rewrite <- Hw'. vm_compute. reflexivity. }
    destruct (Hthen Hdied) as (_ & Hlater).
    assert (Hkilled : killsBy 1 afterDuelEvents = 1%nat)
      by (vm_compute; reflexivity).
    rewrite Hevs, Hw'. split; [exact Hdied|].
    split; [rewrite <- Hevs; exact Hkilled|].
    split; [rewrite Hd, Hdied; reflexivity|].
    split; [rewrite Hk, <- Hevs, Hkilled; reflexivity|].
    destruct (Hlater 239%nat) as (e1 & w1 & p1 & Hrun1 & Ha1); [lia|].
    destruct (Hlater 240%nat) as (e2 & w2 & p2 & Hrun2 & Ha2); [lia|].
    change (239 <? 240)%nat with true in Ha1.
    change (240 <? 240)%nat with false in Ha2.
    assert (H1 : laterOn 239 = w1)
      by (unfold laterOn; rewrite Hw; cbn [fst snd]; rewrite Hrun1;
          reflexivity).
    assert (H2 : laterOn 240 = w2)
      by (unfold laterOn; rewrite Hw; cbn [fst snd]; rewrite Hrun2;
          reflexivity).
    rewrite H1, H2. destruct Ha2 as (Ha2 & Hh2 & _).
    split; [exact Ha1|]. split; [exact Ha2|exact Hh2].
  - destruct (lethal_hit_one_death_and_timed_respawn RealImports 239
                (fun _ => []) (pairWorld (MapGenerator.generate 42%R))
                zeroProc)
      as [(evs & w' & p' & Hupd & _ & _ & Hsane' & Hcycle) _].
    + lia.
    + exact countdown_real_positive.
    + exact countdown_real_out.
    + rewrite pairWorld_map. apply RealImports_spawnsOn_generated.
    + exact zeroProc_fair.
    + apply pairWorld_sane.
    + exists evs, w', p'. split; [exact Hupd|]. split; [exact Hsane'|].
      exact Hcycle.
Defined.

(* ================================================================== *)
(** * Further properties: the Player object *)
(* ================================================================== *)

Section InputQueueFacts.
Context {num : Type} `{JSNumber num}.

(** Commands queued one after the other. *)
Definition pushAll (cmds : list (InputCmd.t num)) (p : Player.t num)
  : Player.t num :=
  fold_left (fun p cmd => Player.pushInput cmd p) cmds p.

(** [n] successive calls of [popInput]: what each returned, and the
    player after the last. *)
Fixpoint popN (n : nat) (p : Player.t num)
  : list (option (InputCmd.t num)) * Player.t num :=
  match n with
  | O => ([], p)
  | S n' =>
      let '(cmd, p1) := Player.popInput p in
      let '(rest, p2) := popN n' p1 in
      (cmd :: rest, p2)
  end.

Lemma firstn_full {A} (n : nat) (l more : list A) :
  List.length l = n -> firstn n (l ++ more) = l.
Proof.
  intros <-. rewrite firstn_app, Nat.sub_diag, firstn_all. cbn.
  apply app_nil_r.
Qed.

Lemma pushAll_queue (cmds : list (InputCmd.t num)) (p : Player.t num) :
  (List.length (Player.inputQueue p) <= 10)%nat ->
  pushAll cmds p
  = Player.set_inputQueue (firstn 10 (Player.inputQueue p ++ cmds)) p.
Proof.
  revert p. induction cmds as [|cmd cmds IH]; intros p Hlen.
  - cbn [pushAll fold_left]. rewrite app_nil_r, firstn_all2 by exact Hlen.
    now destruct p.
  - cbn [pushAll fold_left]. fold (pushAll cmds (Player.pushInput cmd p)).
    unfold Player.pushInput.
    destruct (Nat.ltb_spec (List.length (Player.inputQueue p)) 10)
      as [Hlt|Hge].
    + rewrite IH.
      * cbn [Player.inputQueue Player.set_inputQueue].
        rewrite <- app_assoc. reflexivity.
      * cbn [Player.inputQueue Player.set_inputQueue].
        rewrite length_app. cbn. lia.
    + rewrite IH by exact Hlen.
      assert (Hfull : List.length (Player.inputQueue p) = 10%nat) by lia.
      now rewrite !firstn_full by exact Hfull.
Qed.

End InputQueueFacts.

(** X1.  The input queue holds at most ten commands and, when commands
    arrive faster than they are consumed, keeps the ten oldest: after any
    succession of [pushInput] the queue is the first ten of the old queue
    followed by the new commands, and nothing else of the player has
    changed. *)
Theorem pushInput_keeps_ten_oldest {num : Type} `{JSNumber num}
    (cmds : list (InputCmd.t num)) (p : Player.t num) :
  (List.length (Player.inputQueue p) <= 10)%nat ->
  pushAll cmds p
  = Player.set_inputQueue (firstn 10 (Player.inputQueue p ++ cmds)) p
  /\ (List.length (Player.inputQueue (pushAll cmds p)) <= 10)%nat.
Proof.
  intros Hlen. rewrite (pushAll_queue cmds p Hlen). split; [reflexivity|].
  cbn [Player.inputQueue Player.set_inputQueue]. rewrite length_firstn. lia.
Qed.

(** The command with sequence number [n], no key pressed. *)
Definition numbered (n : Z) : InputCmd.t F64.float :=
  InputCmd.mk 2 n false false false false (of_Z 0) (of_Z 0) false false
    (of_Z 0).

Lemma pushInput_keeps_ten_oldest_witness :
  List.map (@InputCmd.seq F64.float)
    (Player.inputQueue
       (pushAll (List.map numbered [1; 2; 3; 4; 5; 6; 7; 8; 9; 10; 11; 12]%Z)
          (Player.new 1 "Ann")))
  = [1; 2; 3; 4; 5; 6; 7; 8; 9; 10]%Z.
Proof.
  destruct (pushInput_keeps_ten_oldest
              (List.map numbered [1; 2; 3; 4; 5; 6; 7; 8; 9; 10; 11; 12]%Z)
              (Player.new (num := F64.float) 1 "Ann")) as [Heq _].
  - cbn. lia.
  - rewrite Heq. reflexivity.
Defined.

Section InputOrderFacts.
Context {num : Type} `{JSNumber num}.

Lemma last_default {A} (x d d' : A) (l : list A) :
  last (x :: l) d = last (x :: l) d'.
Proof.
  revert x. induction l as [|y l IH]; intros x; [reflexivity|].
  change (last (y :: l) d = last (y :: l) d'). apply IH.
Qed.

Lemma last_cons {A} (x d : A) (l : list A) : last (x :: l) d = last l x.
Proof.
  destruct l as [|y l]; [reflexivity|].
  change (last (y :: l) d = last (y :: l) x). apply last_default.
Qed.

Lemma popN_queue (cmds : list (InputCmd.t num)) (p : Player.t num) :
  Player.inputQueue p = cmds ->
  fst (popN (List.length cmds) p) = List.map Some cmds
  /\ Player.inputQueue (snd (popN (List.length cmds) p)) = []
  /\ Player.lastInput (snd (popN (List.length cmds) p))
     = last (List.map Some cmds) (Player.lastInput p).
Proof.
  revert p. induction cmds as [|cmd cmds IH]; intros p Hq.
  - cbn. auto.
  - cbn [List.length popN]. unfold Player.popInput. rewrite Hq.
    set (p1 := Player.set_lastInput (Some cmd) (Player.set_inputQueue cmds p)).
    destruct (IH p1 eq_refl) as (Hfst & Hrest & Hlast).
    destruct (popN (List.length cmds) p1) as [rest p2].
    cbn [fst snd] in *. rewrite Hfst, Hrest, Hlast.
    split; [reflexivity|]. split; [reflexivity|].
    cbn [List.map]. rewrite last_cons. reflexivity.
Qed.

End InputOrderFacts.

(** X2.  The input queue is first in, first out: up to ten commands
    queued on an empty queue are returned by as many calls of [popInput]
    in the order of their arrival, each as it was sent; the queue is then
    empty and the last of them is the command that the next calls
    replay. *)
Theorem popInput_returns_commands_in_order {num : Type} `{JSNumber num}
    (cmds : list (InputCmd.t num)) (p : Player.t num) :
  Player.inputQueue p = [] ->
  (List.length cmds <= 10)%nat ->
  let popped := popN (List.length cmds) (pushAll cmds p) in
  fst popped = List.map Some cmds
  /\ Player.inputQueue (snd popped) = []
  /\ Player.lastInput (snd popped)
     = last (List.map Some cmds) (Player.lastInput p).
Proof.
  intros Hempty Hlen. cbv zeta.
  assert (Hq : Player.inputQueue (pushAll cmds p) = cmds).
  { rewrite pushAll_queue by (rewrite Hempty; cbn; lia).
    cbn [Player.inputQueue Player.set_inputQueue].
    rewrite Hempty. cbn [app]. now apply firstn_all2. }
  destruct (popN_queue cmds (pushAll cmds p) Hq) as (Hfst & Hrest & Hlast).
  split; [exact Hfst|]. split; [exact Hrest|].
  rewrite Hlast. rewrite pushAll_queue by (rewrite Hempty; cbn; lia).
  reflexivity.
Qed.

Lemma popInput_returns_commands_in_order_witness :
  List.map (option_map (@InputCmd.seq F64.float))
    (fst (popN 3 (pushAll (List.map numbered [7; 8; 9]%Z)
                    (Player.new 1 "Ann"))))
  = [Some 7; Some 8; Some 9]%Z.
Proof.
  destruct (popInput_returns_commands_in_order
              (List.map numbered [7; 8; 9]%Z)
              (Player.new (num := F64.float) 1 "Ann")) as [Heq _].
  - reflexivity.
  - cbn. lia.
  - exact (f_equal (List.map (option_map (@InputCmd.seq F64.float))) Heq).
Defined.

Section CommandFacts.
Context {num : Type} `{JSNumber num}.

Lemma popInput_nothing (p : Player.t num) :
  Player.inputQueue p = [] -> Player.lastInput p = None ->
  Player.popInput p = (None, p).
Proof. intros Hq Hl. unfold Player.popInput. now rewrite Hq, Hl. Qed.

Lemma respawn_keeps_commands (pos : Vec3.t num) (p q : Player.t num)
    (proc proc' : Proc.t num) :
  Player.respawn pos p proc = Some (q, proc') ->
  Player.inputQueue q = Player.inputQueue p
  /\ Player.lastInput q = Player.lastInput p.
Proof.
  unfold Player.respawn, Proc.bind, Proc.Math_random, Proc.ret.
  intros Hr. injection Hr as <- _. split; reflexivity.
Qed.

Lemma takeDamage_died_commands (amount : num) (p p' : Player.t num) :
  Player.takeDamage amount p = (true, p') ->
  Player.inputQueue p' = [] /\ Player.lastInput p' = None
  /\ Player.velocity p' = Vec3.zero
  /\ Player.position p' = Player.position p.
Proof.
  unfold Player.takeDamage.
  destruct (Player.alive p); cbn [negb]; [|discriminate].
  cbv zeta. destruct (nleb _ _); [|discriminate].
  intros Heq. injection Heq as <-. repeat split.
Qed.

End CommandFacts.

(** X3.  A combatant that a hit has just destroyed has forgotten its
    commands: its velocity is zero, it stands where it stood, and
    [popInput] returns nothing for it, neither a queued command nor a
    replay of the last one; this is still so after its respawn, until a
    new command is queued. *)
Theorem destroyed_tank_forgets_its_commands {num : Type} `{JSNumber num}
    (amount : num) (p p' : Player.t num) :
  Player.takeDamage amount p = (true, p') ->
  Player.popInput p' = (None, p')
  /\ Player.velocity p' = Vec3.zero
  /\ Player.position p' = Player.position p
  /\ (forall pos proc q proc',
         Player.respawn pos p' proc = Some (q, proc') ->
         Player.popInput q = (None, q)).
Proof.
  intros Hdied.
  destruct (takeDamage_died_commands amount p p' Hdied)
    as (Hq & Hl & Hv & Hp).
  split; [now apply popInput_nothing|]. split; [exact Hv|].
  split; [exact Hp|].
  intros pos proc q proc' Hr.
  destruct (respawn_keeps_commands pos p' q proc proc' Hr) as [Hq' Hl'].
  apply popInput_nothing; congruence.
Qed.

(** A combatant with a command in its queue and a last applied command,
    in binary64, and what a hit of its full health leaves of it. *)
Definition driver : Player.t F64.float :=
  Player.pushInput (numbered 5)
    (Player.set_lastInput (Some (numbered 4)) (Player.new 2 "Bob")).

Definition fallen : Player.t F64.float :=
  snd (Player.takeDamage TANK_MAX_HP driver).

Lemma destroyed_tank_forgets_its_commands_witness :
  fst (Player.popInput driver) = Some (numbered 5)
  /\ Player.popInput fallen = (None, fallen).
Proof.
  split; [reflexivity|].
  apply (destroyed_tank_forgets_its_commands TANK_MAX_HP driver fallen).
  vm_compute. reflexivity.
Defined.

Section ReloadFacts.
Context {num : Type} `{JSNumber num}.
Local Open Scope num_scope.

(** [k] calls of [updateReload], one per tick. *)
Definition reloadTicks (dtMs : num) (k : nat) (p : Player.t num)
  : Player.t num :=
  Nat.iter k (Player.updateReload dtMs) p.

(** What a call of [updateReload] does to the cooldown. *)
Definition cool (dtMs r : num) : num :=
  if r >? #0 then Math_max #0 (r - dtMs) else r.

Lemma updateReload_cool (dtMs : num) (p : Player.t num) :
  Player.updateReload dtMs p
  = Player.set_reloadRemain (cool dtMs (Player.reloadRemain p)) p.
Proof.
  unfold Player.updateReload, cool.
  destruct (nltb _ _); [reflexivity|]. destruct p; reflexivity.
Qed.

Lemma reloadTicks_cool (dtMs : num) (k : nat) (p : Player.t num) :
  reloadTicks dtMs k p
  = Player.set_reloadRemain (Nat.iter k (cool dtMs) (Player.reloadRemain p)) p.
Proof.
  unfold reloadTicks. induction k as [|k IH].
  - destruct p; reflexivity.
  - rewrite !Nat.iter_succ, IH, updateReload_cool. reflexivity.
Qed.

Lemma tryFire_cooling (r : num) (p : Player.t num) :
  Player.alive p = true ->
  Player.tryFire (Player.set_reloadRemain r p)
  = if r >? #0 then (false, Player.set_reloadRemain r p)
    else (true, Player.set_shots (S (Player.shots p))
                  (Player.set_reloadRemain RELOAD_TIME p)).
Proof.
  intros Halive. unfold Player.tryFire.
  cbn [Player.alive Player.reloadRemain Player.set_reloadRemain].
  rewrite Halive. cbn [negb orb]. destruct (nltb _ _); reflexivity.
Qed.

End ReloadFacts.

(** In binary64 the cooldown [RELOAD_TIME = 2500] decreased by
    [TICK_INTERVAL = 1000 / 60] is still positive after 150 decrements
    and is 0 after 151. *)
Lemma cooldown_binary64_positive (k : nat) :
  (k <= 150)%nat ->
  nltb (of_Z 0)
    (Nat.iter k (cool (num := F64.float) TICK_INTERVAL) RELOAD_TIME) = true.
Proof.
  intros Hk.
  assert (Hall : forallb
                   (fun k => nltb (of_Z 0)
                               (Nat.iter k (cool (num := F64.float)
                                              TICK_INTERVAL) RELOAD_TIME))
                   (seq 0 151) = true)
    by (vm_compute; reflexivity).
  apply (proj1 (forallb_forall _ _) Hall k). apply in_seq. lia.
Qed.

Lemma cooldown_binary64_out :
  nltb (of_Z 0)
    (Nat.iter 151 (cool (num := F64.float) TICK_INTERVAL) RELOAD_TIME) = false.
Proof. vm_compute. reflexivity. Qed.

(** X4.  The rate of fire, in binary64: a live combatant whose gun is
    loaded fires, which counts one shot and starts the cooldown; after
    each of the next 150 reload updates of one tick interval [tryFire]
    refuses and changes nothing, and after the 151st it fires again.  (In
    exact arithmetic 150 intervals of 1000/60 ms are the 2500 ms of
    [RELOAD_TIME]; the rounded interval leaves a remainder.) *)
Theorem gun_fires_again_after_151_ticks (p : Player.t F64.float) :
  Player.alive p = true ->
  nltb (of_Z 0) (Player.reloadRemain p) = false ->
  exists fired,
    Player.tryFire p = (true, fired)
    /\ Player.shots fired = S (Player.shots p)
    /\ Player.reloadRemain fired = RELOAD_TIME
    /\ (forall k, (k <= 150)%nat ->
          Player.tryFire (reloadTicks TICK_INTERVAL k fired)
          = (false, reloadTicks TICK_INTERVAL k fired))
    /\ fst (Player.tryFire (reloadTicks TICK_INTERVAL 151 fired)) = true
    /\ Player.shots
         (snd (Player.tryFire (reloadTicks TICK_INTERVAL 151 fired)))
       = S (S (Player.shots p)).
Proof.
  intros Halive Hloaded.
  exists (Player.set_shots (S (Player.shots p))
            (Player.set_reloadRemain RELOAD_TIME p)).
  assert (Halive' : Player.alive
                      (Player.set_shots (S (Player.shots p))
                         (Player.set_reloadRemain RELOAD_TIME p)) = true)
    by exact Halive.
  split.
  { unfold Player.tryFire. rewrite Halive, Hloaded. reflexivity. }
  split; [reflexivity|]. split; [reflexivity|]. split.
  { intros k Hk. rewrite reloadTicks_cool.
    rewrite (tryFire_cooling _ _ Halive').
    cbn [Player.reloadRemain Player.set_shots Player.set_reloadRemain].
    now rewrite (cooldown_binary64_positive k Hk). }
  rewrite reloadTicks_cool, (tryFire_cooling _ _ Halive').
  cbn [Player.reloadRemain Player.set_shots Player.set_reloadRemain].
  rewrite cooldown_binary64_out. split; reflexivity.
Qed.

Lemma gun_fires_again_after_151_ticks_witness :
  exists fired,
    Player.tryFire (Player.new (num := F64.float) 1 "Ann") = (true, fired)
    /\ fst (Player.tryFire (reloadTicks TICK_INTERVAL 150 fired)) = false
    /\ fst (Player.tryFire (reloadTicks TICK_INTERVAL 151 fired)) = true.
Proof.
  assert (Hloaded : nltb (of_Z 0)
                      (Player.reloadRemain
                         (Player.new (num := F64.float) 1 "Ann")) = false)
    by (vm_compute; reflexivity).
  destruct (gun_fires_again_after_151_ticks
              (Player.new (num := F64.float) 1 "Ann") eq_refl Hloaded)
    as (fired & Hfire & _ & _ & Hwait & Hagain & _).
  exists fired. split; [exact Hfire|]. split; [|exact Hagain].
  rewrite (Hwait 150%nat (le_n _)). reflexivity.
Defined.

(** X5.  In binary64, [HITS_TO_DESTROY] direct hits destroy a combatant
    at full health and fewer do not: after [n < 5] hits of
    [DIRECT_HIT_DAMAGE] no call of [takeDamage] has reported a death, the
    combatant is alive and its health is [100 - 20 n]; the fifth hit
    reports the death and leaves it not alive at health 0, and every
    further hit changes nothing. *)
Theorem five_direct_hits_destroy_a_full_health_tank (p : Player.t F64.float) :
  Player.alive p = true ->
  Player.hp p = TANK_MAX_HP ->
  (forall n, (n < HITS_TO_DESTROY)%nat ->
     let after := damageAll (repeat DIRECT_HIT_DAMAGE n) p in
     fst after = 0%nat
     /\ Player.alive (snd after) = true
     /\ Player.hp (snd after) = of_Z (100 - 20 * Z.of_nat n))
  /\ (forall n, (HITS_TO_DESTROY <= n)%nat ->
        let after := damageAll (repeat DIRECT_HIT_DAMAGE n) p in
        fst after = 1%nat
        /\ Player.alive (snd after) = false
        /\ Player.hp (snd after) = of_Z 0
        /\ snd after
           = snd (damageAll (repeat DIRECT_HIT_DAMAGE HITS_TO_DESTROY) p)).
Proof.
  intros Halive Hhp. destruct p. cbn in Halive, Hhp. subst.
  split.
  - intros n Hn. unfold HITS_TO_DESTROY in Hn.
    do 5 (destruct n as [|n]; [vm_compute; repeat split|]). lia.
  - intros n Hn. unfold HITS_TO_DESTROY in Hn |- *.
    replace n with (5 + (n - 5))%nat by lia.
    rewrite repeat_app.
    set (more := repeat (DIRECT_HIT_DAMAGE (num := F64.float)) (n - 5)).
    cbn [repeat Nat.add app].
    repeat (cbn [damageAll];
            match goal with
            | |- context [Player.takeDamage ?a ?q] =>
                let r := eval vm_compute in (Player.takeDamage a q) in
                change (Player.takeDamage a q) with r; cbv iota beta
            end).
    match goal with
    | |- context [damageAll more ?q] =>
        rewrite (damageAll_dead more q eq_refl)
    end.
    vm_compute. repeat split.
Qed.

Lemma five_direct_hits_destroy_a_full_health_tank_witness :
  Player.alive
    (snd (damageAll (repeat DIRECT_HIT_DAMAGE 4)
            (Player.new (num := F64.float) 1 "Ann"))) = true
  /\ Player.alive
       (snd (damageAll (repeat DIRECT_HIT_DAMAGE 5)
               (Player.new (num := F64.float) 1 "Ann"))) = false.
Proof.
  assert (Hfull : Player.hp (Player.new (num := F64.float) 1 "Ann")
                  = TANK_MAX_HP) by reflexivity.
  destruct (five_direct_hits_destroy_a_full_health_tank
              (Player.new (num := F64.float) 1 "Ann") eq_refl Hfull)
    as [Hfew Hmany].
  split.
  - apply (Hfew 4%nat). unfold HITS_TO_DESTROY. lia.
  - apply (Hmany 5%nat). unfold HITS_TO_DESTROY. lia.
Defined.

Section RespawnHistory.
Context {num : Type} `{JSNumber num}.
Local Open Scope num_scope.

(** One respawn after the other, at the given positions. *)
Fixpoint respawnEach (positions : list (Vec3.t num)) (p : Player.t num)
  : Proc.M num (Player.t num) :=
  match positions with
  | [] => Proc.ret p
  | pos :: rest => (q <- Player.respawn pos p ;; respawnEach rest q)%proc
  end.

Lemma respawn_history (pos : Vec3.t num) (p : Player.t num)
    (proc : Proc.t num) :
  (List.length (Player.lastSpawnPositions p) <= 5)%nat ->
  exists q proc',
    Player.respawn pos p proc = Some (q, proc')
    /\ Player.lastSpawnPositions q
       = lastn 5 (Player.lastSpawnPositions p ++ [pos])
    /\ Player.position q = pos
    /\ Player.velocity q = Vec3.zero
    /\ Player.alive q = true
    /\ Player.hp q = TANK_MAX_HP
    /\ Player.reloadRemain q = #0
    /\ Player.kills q = Player.kills p
    /\ Player.deaths q = Player.deaths p
    /\ Player.inputQueue q = Player.inputQueue p
    /\ Player.lastInput q = Player.lastInput p.
Proof.
  intros Hle.
  unfold Player.respawn, Proc.bind, Proc.Math_random, Proc.ret.
  eexists. eexists. split; [reflexivity|]. cbv zeta.
  split; [|repeat split].
  match goal with
  | |- Player.lastSpawnPositions (Player.set_lastSpawnPositions ?s _) = _ =>
      change (s = lastn 5 (Player.lastSpawnPositions p ++ [pos]))
  end.
  match goal with
  | |- context [Player.lastSpawnPositions ?q ++ [pos]] =>
      change (Player.lastSpawnPositions q) with (Player.lastSpawnPositions p)
  end.
  unfold lastn. rewrite length_app. cbn [List.length].
  destruct (Nat.ltb_spec 5 (List.length (Player.lastSpawnPositions p) + 1))
    as [Hlt|Hge].
  - replace (List.length (Player.lastSpawnPositions p) + 1 - 5)%nat
      with 1%nat by lia.
    reflexivity.
  - replace (List.length (Player.lastSpawnPositions p) + 1 - 5)%nat
      with 0%nat by lia.
    reflexivity.
Qed.

End RespawnHistory.

(** X6.  The spawn history of a combatant is the last five positions at
    which it respawned, oldest first: whatever the sequence of respawns
    (none of which raises), a history of at most five positions is
    followed by the history made of the last five of the old history and
    the new positions.  A respawn touches neither the statistics nor the
    pending commands, and after the last one the combatant is alive, at
    full health, at rest at the last position, its gun loaded. *)
Theorem respawn_keeps_last_five_spawn_positions {num : Type} `{JSNumber num}
    (positions : list (Vec3.t num)) (p : Player.t num) (proc : Proc.t num) :
  (List.length (Player.lastSpawnPositions p) <= 5)%nat ->
  exists q proc',
    respawnEach positions p proc = Some (q, proc')
    /\ Player.lastSpawnPositions q
       = lastn 5 (Player.lastSpawnPositions p ++ positions)
    /\ (List.length (Player.lastSpawnPositions q) <= 5)%nat
    /\ Player.kills q = Player.kills p
    /\ Player.deaths q = Player.deaths p
    /\ Player.inputQueue q = Player.inputQueue p
    /\ Player.lastInput q = Player.lastInput p
    /\ (positions <> [] ->
        Player.position q = last positions (Player.position p)
        /\ Player.velocity q = Vec3.zero
        /\ Player.alive q = true
        /\ Player.hp q = TANK_MAX_HP
        /\ Player.reloadRemain q = of_Z 0).
Proof.
  revert p proc. induction positions as [|pos rest IH]; intros p proc Hle.
  - exists p, proc. split; [reflexivity|].
    rewrite app_nil_r, (lastn_all 5 _ Hle).
    split; [reflexivity|]. split; [exact Hle|].
    do 4 (split; [reflexivity|]). intros Hne. now destruct Hne.
  - destruct (respawn_history pos p proc Hle)
      as (q1 & proc1 & Hrun & Hhist & Hpos & Hvel & Halive & Hhp & Hrel
          & Hk & Hd & Hq & Hl).
    assert (Hle1 : (List.length (Player.lastSpawnPositions q1) <= 5)%nat)
      by (rewrite Hhist; apply lastn_length).
    destruct (IH q1 proc1 Hle1)
      as (q & proc' & Hrest & Hhist' & Hle' & Hk' & Hd' & Hq' & Hl' & Hlast).
    exists q, proc'. split.
    { cbn [respawnEach]. unfold Proc.bind. rewrite Hrun. exact Hrest. }
    split.
    { rewrite Hhist', Hhist, lastn_app, <- app_assoc. reflexivity. }
    split; [exact Hle'|].
    split; [congruence|]. split; [congruence|]. split; [congruence|].
    split; [congruence|]. intros _.
    destruct rest as [|pos' rest'].
    + cbn in Hrest. injection Hrest as <- _. cbn [last]. auto.
    + destruct Hlast as (Hp' & Hrestq); [discriminate|].
      split; [|exact Hrestq].
      rewrite Hp', Hpos. rewrite (last_cons pos (Player.position p)).
      reflexivity.
Qed.

(** Seven respawns of a new combatant along the x axis, in binary64. *)
Definition alongX (n : Z) : Vec3.t F64.float :=
  Vec3.mk (of_Z n) (of_Z 0) (of_Z 0).

Lemma respawn_keeps_last_five_spawn_positions_witness :
  exists q proc',
    respawnEach (List.map alongX [1; 2; 3; 4; 5; 6; 7]%Z)
      (Player.new 1 "Ann") testProc = Some (q, proc')
    /\ Player.lastSpawnPositions q = List.map alongX [3; 4; 5; 6; 7]%Z.
Proof.
  destruct (respawn_keeps_last_five_spawn_positions
              (List.map alongX [1; 2; 3; 4; 5; 6; 7]%Z)
              (Player.new (num := F64.float) 1 "Ann") testProc)
    as (q & proc' & Hrun & Hhist & _).
  - cbn. lia.
  - exists q, proc'. split; [exact Hrun|]. rewrite Hhist. reflexivity.
Defined.

(* ================================================================== *)
(** * Further properties: projectiles *)
(* ================================================================== *)

Section FlightFacts.
Context {num : Type} `{JSNumber num}.
Local Open Scope num_scope.

(** [k] calls of [update], one per tick. *)
Definition fly (dt : num) (k : nat) (p : Projectile.t num)
  : Projectile.t num :=
  Nat.iter k (Projectile.update dt) p.

(** The time to live after [k] updates of a projectile in flight. *)
Definition ttlAfter (dt ttl : num) (k : nat) : num :=
  Nat.iter k (fun t => t - dt * #1000) ttl.

(** [k] steps of the shared kinematics on a position and a velocity. *)
Definition flight (dt : num) (k : nat) (s : Vec3.t num * Vec3.t num)
  : Vec3.t num * Vec3.t num :=
  Nat.iter k (fun s => updateProjectile (fst s) (snd s) dt) s.

Lemma fly_succ (dt : num) (k : nat) (p : Projectile.t num) :
  fly dt (S k) p = Projectile.update dt (fly dt k p).
Proof. apply Nat.iter_succ. Qed.

Lemma fly_add (dt : num) (a b : nat) (p : Projectile.t num) :
  fly dt (a + b) p = fly dt a (fly dt b p).
Proof. apply Nat.iter_add. Qed.

Lemma ttlAfter_succ (dt ttl : num) (k : nat) :
  ttlAfter dt ttl (S k) = ttlAfter dt ttl k - dt * #1000.
Proof. apply Nat.iter_succ. Qed.

Lemma update_inactive (dt : num) (p : Projectile.t num) :
  Projectile.active p = false -> Projectile.update dt p = p.
Proof. intros Hoff. unfold Projectile.update. now rewrite Hoff. Qed.

Lemma fly_inactive (dt : num) (k : nat) (p : Projectile.t num) :
  Projectile.active p = false -> fly dt k p = p.
Proof.
  intros Hoff. unfold fly. induction k as [|k IH]; [reflexivity|].
  rewrite Nat.iter_succ, IH. now apply update_inactive.
Qed.

Lemma update_active (dt : num) (p : Projectile.t num) :
  Projectile.active p = true ->
  Projectile.update dt p
  = Projectile.mk (Projectile.id p) (Projectile.shooterId p)
      (fst (updateProjectile (Projectile.position p) (Projectile.velocity p) dt))
      (snd (updateProjectile (Projectile.position p) (Projectile.velocity p) dt))
      (Projectile.ttl p - dt * #1000)
      (negb (Projectile.ttl p - dt * #1000 <=? #0)).
Proof.
  intros Hon. unfold Projectile.update. rewrite Hon. cbn [negb].
  destruct (updateProjectile _ _ _) as [pos vel]. cbn [fst snd].
  now destruct (nleb _ _).
Qed.

(** As long as the time to live stays positive the projectile is in
    flight and follows the shared kinematics. *)
Lemma fly_active (dt : num) (k : nat) (p : Projectile.t num) :
  Projectile.active p = true ->
  (forall j, (1 <= j <= k)%nat ->
     (ttlAfter dt (Projectile.ttl p) j <=? #0) = false) ->
  Projectile.active (fly dt k p) = true
  /\ Projectile.ttl (fly dt k p) = ttlAfter dt (Projectile.ttl p) k
  /\ Projectile.id (fly dt k p) = Projectile.id p
  /\ Projectile.shooterId (fly dt k p) = Projectile.shooterId p
  /\ (Projectile.position (fly dt k p), Projectile.velocity (fly dt k p))
     = flight dt k (Projectile.position p, Projectile.velocity p).
Proof.
  intros Hon. induction k as [|k IH]; intros Hpos.
  - repeat split. exact Hon.
  - destruct IH as (Hk & Httl & Hid & Hsh & Hfl);
      [intros j Hj; apply Hpos; lia|].
    unfold fly, flight, ttlAfter in *. rewrite !Nat.iter_succ.
    rewrite (update_active dt _ Hk).
    cbn [Projectile.active Projectile.ttl Projectile.id Projectile.shooterId
         Projectile.position Projectile.velocity].
    rewrite Httl, Hid, Hsh, <- Hfl. cbn [fst snd].
    specialize (Hpos (S k)). rewrite Nat.iter_succ in Hpos.
    rewrite Hpos by lia. repeat split.
Qed.

End FlightFacts.

(** In binary64 the time to live [PROJECTILE_TTL = 5000] decreased by
    [TICK_INTERVAL / 1000 * 1000] is still positive after 299 decrements
    and has run out after 300. *)
Lemma ttl_binary64_positive (j : nat) :
  (1 <= j <= 299)%nat ->
  nleb (ttlAfter (num := F64.float) (ndiv TICK_INTERVAL (of_Z 1000))
          PROJECTILE_TTL j) (of_Z 0) = false.
Proof.
  intros Hj.
  assert (Hall : forallb
                   (fun j => negb (nleb (ttlAfter (num := F64.float)
                                           (ndiv TICK_INTERVAL (of_Z 1000))
                                           PROJECTILE_TTL j) (of_Z 0)))
                   (seq 1 299) = true)
    by (vm_compute; reflexivity).
  apply negb_true_iff.
  apply (proj1 (forallb_forall _ _) Hall j). apply in_seq. lia.
Qed.

Lemma ttl_binary64_out :
  nleb (ttlAfter (num := F64.float) (ndiv TICK_INTERVAL (of_Z 1000))
          PROJECTILE_TTL 300) (of_Z 0) = true.
Proof. vm_compute. reflexivity. Qed.

(** X7.  The lifetime of a projectile, in binary64: a projectile in
    flight with the time to live [PROJECTILE_TTL] that it is created with
    is still in flight after each of its first 299 updates of one tick
    ([dt = TICK_INTERVAL / 1000]), following the shared kinematics and
    keeping its id and its shooter; the 300th update puts it out, and
    every later update leaves it exactly as the 300th left it. *)
Theorem projectile_expires_at_its_300th_update (p : Projectile.t F64.float) :
  Projectile.active p = true ->
  Projectile.ttl p = PROJECTILE_TTL ->
  let dt := ndiv TICK_INTERVAL (of_Z 1000) in
  (forall k, (k < 300)%nat ->
     Projectile.active (fly dt k p) = true
     /\ Projectile.id (fly dt k p) = Projectile.id p
     /\ Projectile.shooterId (fly dt k p) = Projectile.shooterId p
     /\ (Projectile.position (fly dt k p), Projectile.velocity (fly dt k p))
        = flight dt k (Projectile.position p, Projectile.velocity p))
  /\ (forall k, (300 <= k)%nat ->
        Projectile.active (fly dt k p) = false
        /\ fly dt k p = fly dt 300 p).
Proof.
  intros Hon Httl dt.
  assert (Hflying : forall k, (k < 300)%nat ->
            Projectile.active (fly dt k p) = true
            /\ Projectile.ttl (fly dt k p) = ttlAfter dt PROJECTILE_TTL k
            /\ Projectile.id (fly dt k p) = Projectile.id p
            /\ Projectile.shooterId (fly dt k p) = Projectile.shooterId p
            /\ (Projectile.position (fly dt k p),
                Projectile.velocity (fly dt k p))
               = flight dt k (Projectile.position p, Projectile.velocity p)).
  { intros k Hk. rewrite <- Httl. apply fly_active; [exact Hon|].
    intros j Hj. rewrite Httl. apply ttl_binary64_positive. lia. }
  assert (Hout : Projectile.active (fly dt 300 p) = false).
  { destruct (Hflying 299%nat) as (Hk & Hq & _); [lia|].
    rewrite (fly_succ dt 299 p), (update_active dt _ Hk).
    cbn [Projectile.active].
    rewrite Hq, <- (ttlAfter_succ dt PROJECTILE_TTL 299).
    unfold dt. now rewrite ttl_binary64_out. }
  split.
  - intros k Hk. destruct (Hflying k Hk) as (H1 & _ & H3 & H4 & H5). auto.
  - intros k Hk.
    assert (Hsame : fly dt k p = fly dt 300 p).
    { replace k with ((k - 300) + 300)%nat by lia.
      rewrite fly_add. apply fly_inactive. exact Hout. }
    rewrite Hsame. split; [exact Hout|reflexivity].
Qed.

(** A shell as the gun of a tank at the origin fires it, in binary64. *)
Definition tracer : Projectile.t F64.float :=
  Projectile.new 9 1 (Vec3.mk (of_Z 0) (dec 22 1) (of_Z (-4)))
    (Vec3.mk (of_Z 0) (of_Z 0) (of_Z (-80))) PROJECTILE_TTL.

Lemma projectile_expires_at_its_300th_update_witness :
  Projectile.active
    (fly (ndiv TICK_INTERVAL (of_Z 1000)) 299 tracer) = true
  /\ Projectile.active
       (fly (ndiv TICK_INTERVAL (of_Z 1000)) 300 tracer) = false.
Proof.
  destruct (projectile_expires_at_its_300th_update tracer eq_refl eq_refl)
    as [Hflying Hout].
  split.
  - apply (Hflying 299%nat). lia.
  - apply (Hout 300%nat). lia.
Defined.

Section Ballistics.
Local Open Scope R_scope.

Lemma GRAVITY_real : GRAVITY (num := R) = 981 / 100.
Proof. unfold GRAVITY. rewrite dec_real. cbn. lra. Qed.

Lemma flight_succ (dt : R) (k : nat) (s : Vec3.t R * Vec3.t R) :
  flight dt (S k) s
  = updateProjectile (fst (flight dt k s)) (snd (flight dt k s)) dt.
Proof. apply Nat.iter_succ. Qed.

End Ballistics.

(** X8.  Over the reals, [n] steps of [updateProjectile] with the step
    [dt] from the position [(x, y, z)] and the velocity [(vx, vy, vz)]
    give the velocity [(vx, vy - g n dt, vz)] and the position
    [(x + n dt vx, y + n dt vy - g dt^2 n (n + 1) / 2, z + n dt vz)]:
    the horizontal motion is uniform, and the height is the one of the
    semi-implicit Euler scheme (gravity is applied to the velocity before
    the position is advanced), which lies below the parabola of the exact
    motion by [g dt^2 n / 2]. *)
Theorem updateProjectile_closed_form (dt : R) (n : nat)
    (pos vel : Vec3.t R) :
  let s := flight dt n (pos, vel) in
  let t := (INR n * dt)%R in
  Vec3.x (snd s) = Vec3.x vel
  /\ Vec3.y (snd s) = (Vec3.y vel - GRAVITY * t)%R
  /\ Vec3.z (snd s) = Vec3.z vel
  /\ Vec3.x (fst s) = (Vec3.x pos + Vec3.x vel * t)%R
  /\ Vec3.y (fst s)
     = (Vec3.y pos + Vec3.y vel * t - GRAVITY * t * t / 2
        - GRAVITY * dt * t / 2)%R
  /\ Vec3.z (fst s) = (Vec3.z pos + Vec3.z vel * t)%R.
Proof.
  cbv zeta. induction n as [|n IH].
  - cbn. repeat split; lra.
  - rewrite flight_succ. destruct IH as (Hvx & Hvy & Hvz & Hx & Hy & Hz).
    unfold updateProjectile.
    cbn [fst snd Vec3.x Vec3.y Vec3.z Vec3.set_y Vec3.add
         Vec3.multiplyScalar nadd nsub nmul RNumber].
    rewrite Hvx, Hvy, Hvz, Hx, Hy, Hz, S_INR.
    repeat split; lra.
Qed.

Section HitGeometry.
Local Open Scope R_scope.

Lemma distanceToSq_nonneg (a b : Vec3.t R) : 0 <= Vec3.distanceToSq a b.
Proof.
  assert (Hsq : forall u : R, 0 <= u * u) by (intros u; nra).
  unfold Vec3.distanceToSq. cbv zeta.
  repeat apply Rplus_le_le_0_compat; apply Hsq.
Qed.

Lemma distanceTo_sqrt (a b : Vec3.t R) :
  Vec3.distanceTo a b = sqrt (Vec3.distanceToSq a b).
Proof. reflexivity. Qed.

Lemma distanceTo_sym (a b : Vec3.t R) :
  Vec3.distanceTo a b = Vec3.distanceTo b a.
Proof.
  rewrite !distanceTo_sqrt. f_equal. unfold Vec3.distanceToSq. cbn. ring.
Qed.

End HitGeometry.

(** X9.  Over the reals, for radii whose sum is not negative, the
    squared-distance test of [checkProjectileHit] holds exactly when the
    two centres are at most the sum of the radii apart (the distance of
    [Vec3.distanceTo]); the test is symmetric in the two positions.  With
    the radii of the game a projectile hits a tank exactly when it is at
    most 3 m from it. *)
Theorem checkProjectileHit_iff_within_radii
    (projPos targetPos : Vec3.t R) (projRadius targetRadius : R) :
  (0 <= projRadius + targetRadius)%R ->
  (checkProjectileHit projPos targetPos projRadius targetRadius = true
   <-> (Vec3.distanceTo projPos targetPos <= projRadius + targetRadius)%R)
  /\ checkProjectileHit projPos targetPos projRadius targetRadius
     = checkProjectileHit targetPos projPos projRadius targetRadius
  /\ (checkProjectileHit projPos targetPos PROJECTILE_COLLISION_RADIUS
        TANK_COLLISION_RADIUS = true
      <-> (Vec3.distanceTo projPos targetPos <= 3)%R).
Proof.
  intros Hsum.
  assert (Hiff : forall r : R, (0 <= r)%R ->
            (Rleb (Vec3.distanceToSq projPos targetPos) (r * r) = true
             <-> (Vec3.distanceTo projPos targetPos <= r)%R)).
  { intros r Hr. rewrite Rleb_true, distanceTo_sqrt.
    pose proof (distanceToSq_nonneg projPos targetPos) as Hd.
    split; intros Hle.
    - rewrite <- (sqrt_square r Hr). now apply sqrt_le_1_alt.
    - rewrite <- (sqrt_sqrt _ Hd).
      pose proof (sqrt_pos (Vec3.distanceToSq projPos targetPos)) as Hs.
      nra. }
  split; [|split].
  - apply (Hiff _ Hsum).
  - unfold checkProjectileHit. f_equal.
    unfold Vec3.distanceToSq. cbn. ring.
  - assert (H3 : (PROJECTILE_COLLISION_RADIUS + TANK_COLLISION_RADIUS)%num
                 = 3%R).
    { unfold PROJECTILE_COLLISION_RADIUS, TANK_COLLISION_RADIUS.
      rewrite !dec_real. cbn. lra. }
    unfold checkProjectileHit. cbv zeta. rewrite H3.
    apply Hiff. lra.
Qed.

(** A projectile 3 m east of a tank at the origin. *)
Definition tankAtOrigin : Vec3.t R := Vec3.mk 0%R 0%R 0%R.
Definition shellAtThree : Vec3.t R := Vec3.mk 3%R 0%R 0%R.

Lemma checkProjectileHit_iff_within_radii_witness :
  checkProjectileHit shellAtThree tankAtOrigin PROJECTILE_COLLISION_RADIUS
    TANK_COLLISION_RADIUS = true.
Proof.
  assert (Hd3 : Vec3.distanceTo shellAtThree tankAtOrigin = 3%R).
  { unfold Vec3.distanceTo. cbn.
    replace ((3 - 0) * (3 - 0) + (0 - 0) * (0 - 0) + (0 - 0) * (0 - 0))%R
      with (3 * 3)%R by ring.
    apply sqrt_square. lra. }
  destruct (checkProjectileHit_iff_within_radii shellAtThree tankAtOrigin
              (1 / 2)%R (5 / 2)%R) as (_ & _ & Hgame).
  - lra.
  - apply (proj2 Hgame). rewrite Hd3. lra.
Defined.

(* ================================================================== *)
(** * Further properties: the kinematics over the reals *)
(* ================================================================== *)

Section BarrelFacts.
Local Open Scope R_scope.

Lemma MUZZLE_VELOCITY_real : MUZZLE_VELOCITY (num := R) = 80.
Proof. reflexivity. Qed.

(** The length of a vector given by its spherical angles. *)
Lemma spherical_length (yaw pitch s : R) :
  0 <= s ->
  sqrt ((- sin yaw * cos pitch * s) * (- sin yaw * cos pitch * s)
        + (sin pitch * s) * (sin pitch * s)
        + (- cos yaw * cos pitch * s) * (- cos yaw * cos pitch * s)) = s.
Proof.
  intros Hs.
  replace ((- sin yaw * cos pitch * s) * (- sin yaw * cos pitch * s)
           + (sin pitch * s) * (sin pitch * s)
           + (- cos yaw * cos pitch * s) * (- cos yaw * cos pitch * s))
    with (s * s * ((sin yaw * sin yaw + cos yaw * cos yaw)
                   * (cos pitch * cos pitch) + sin pitch * sin pitch))
    by ring.
  pose proof (sin2_cos2 yaw) as Hy. pose proof (sin2_cos2 pitch) as Hp.
  unfold Rsqr in Hy, Hp. rewrite Hy, Rmult_1_l, Rplus_comm, Hp, Rmult_1_r.
  now apply sqrt_square.
Qed.

End BarrelFacts.

(** X10.  Over the reals, for every tank state: the forward vector and
    the barrel direction are unit vectors, the barrel rises by the sine
    of the gun pitch, the muzzle is 4 m from the sight point 2.2 m above
    the tank's position, and the muzzle velocity differs from the tank's
    velocity by a vector of length [MUZZLE_VELOCITY]. *)
Theorem barrel_geometry (tank : TankPhysicsState.t R) :
  let dir :=
    Physics.getBarrelDirection (TankPhysicsState.bodyYaw tank)
      (TankPhysicsState.turretYaw tank) (TankPhysicsState.gunPitch tank) in
  let sight :=
    Vec3.add (TankPhysicsState.position tank) (Vec3.mk 0%R (22 / 10)%R 0%R) in
  Vec3.length (Physics.getForwardVector (TankPhysicsState.bodyYaw tank)) = 1%R
  /\ Vec3.length dir = 1%R
  /\ Vec3.y dir = sin (TankPhysicsState.gunPitch tank)
  /\ Vec3.distanceTo (Physics.getMuzzlePosition tank) sight = 4%R
  /\ Vec3.distanceTo (Physics.calculateMuzzleVelocity tank)
       (TankPhysicsState.velocity tank) = MUZZLE_VELOCITY.
Proof.
  cbv zeta. destruct tank as [pos vel bodyYaw turretYaw gunPitch].
  cbn [TankPhysicsState.bodyYaw TankPhysicsState.turretYaw
       TankPhysicsState.gunPitch TankPhysicsState.position
       TankPhysicsState.velocity].
  split; [|split; [|split; [|split]]].
  - etransitivity; [|apply (spherical_length bodyYaw 0 1); lra].
    unfold Physics.getForwardVector, Vec3.length. cbn.
    f_equal. rewrite cos_0, sin_0. ring.
  - etransitivity;
      [|apply (spherical_length (bodyYaw + turretYaw) (gunPitch + 0) 1); lra].
    unfold Physics.getBarrelDirection, Vec3.length. cbn. f_equal. ring.
  - unfold Physics.getBarrelDirection. cbn. f_equal. ring.
  - etransitivity;
      [|apply (spherical_length (bodyYaw + turretYaw) (gunPitch + 0) 4); lra].
    unfold Physics.getMuzzlePosition, Physics.getBarrelDirection,
      Vec3.distanceTo. cbn. f_equal. ring.
  - rewrite MUZZLE_VELOCITY_real. etransitivity;
      [|apply (spherical_length (bodyYaw + turretYaw) (gunPitch + 0) 80); lra].
    unfold Physics.calculateMuzzleVelocity, Physics.getBarrelDirection,
      Vec3.distanceTo, MUZZLE_VELOCITY. cbn. f_equal. ring.
Qed.

Section MotionFacts.
Local Open Scope R_scope.
Import Physics.

Lemma TANK_MAX_SPEED_pos : 0 < TANK_MAX_SPEED (num := R).
Proof. rewrite TANK_MAX_SPEED_real. lra. Qed.

(** A vector that is not null has a normalised vector of length 1. *)
Lemma normalize_length (v : Vec3.t R) :
  0 < Vec3.length v -> Vec3.length (Vec3.normalize v) = 1.
Proof.
  intros Hpos. unfold Vec3.normalize. cbv zeta.
  change (nltb (of_Z 0) (Vec3.length v)) with (Rltb 0 (Vec3.length v)).
  rewrite (proj2 (Rltb_true 0 (Vec3.length v)) Hpos).
  rewrite length_scale.
  - change (@ndiv R RNumber) with Rdiv. change (@of_Z R RNumber 1) with 1.
    field. lra.
  - change (@ndiv R RNumber) with Rdiv. change (@of_Z R RNumber 1) with 1.
    apply Rlt_le. apply Rdiv_lt_0_compat; lra.
Qed.

(** The speed limit of step 6. *)
Lemma limited_speed (v : Vec3.t R) :
  Vec3.length
    (if Rltb TANK_MAX_SPEED (Vec3.length v)
     then Vec3.multiplyScalar (Vec3.normalize v) TANK_MAX_SPEED
     else v)
  <= TANK_MAX_SPEED.
Proof.
  pose proof TANK_MAX_SPEED_pos as Hmax.
  destruct (Rltb TANK_MAX_SPEED (Vec3.length v)) eqn:Hcmp.
  - apply Rltb_true in Hcmp.
    rewrite length_scale by lra. rewrite normalize_length by lra. lra.
  - now apply Rltb_false in Hcmp.
Qed.

(** The horizontal part of a vector is not longer than the vector. *)
Lemma horizontal_le_length (v : Vec3.t R) (m : R) :
  Vec3.length v <= m ->
  Vec3.x v * Vec3.x v + Vec3.z v * Vec3.z v <= m * m.
Proof.
  intros Hle. pose proof (length_nonneg v) as Hpos.
  assert (Hsq : Vec3.length v * Vec3.length v
                = Vec3.x v * Vec3.x v + Vec3.y v * Vec3.y v
                  + Vec3.z v * Vec3.z v).
  { unfold Vec3.length. cbn. apply sqrt_sqrt. nra. }
  nra.
Qed.

(** The velocity and the position that a step leaves, in terms of the
    velocity [v3] after the damping of step 5. *)
Lemma updateTankPhysics_motion (tank : TankPhysicsState.t R)
    (input : PhysicsInput R) (dt : R) (h : option (R -> R -> R)) :
  exists v3,
    let v4 :=
      if Rltb TANK_MAX_SPEED (Vec3.length v3)
      then Vec3.multiplyScalar (Vec3.normalize v3) TANK_MAX_SPEED
      else v3 in
    let p1 :=
      Vec3.add (TankPhysicsState.position tank) (Vec3.multiplyScalar v4 dt) in
    TankPhysicsState.velocity (updateTankPhysics tank input dt h) = v4
    /\ TankPhysicsState.position (updateTankPhysics tank input dt h)
       = match h with
         | Some hf => Vec3.set_y p1 (hf (Vec3.x p1) (Vec3.z p1))
         | None => p1
         end.
Proof.
  unfold updateTankPhysics. cbv zeta.
  cbn [TankPhysicsState.velocity TankPhysicsState.position].
  eexists. split; reflexivity.
Qed.

End MotionFacts.

(** X11.  Over the reals, whatever the state, the command, the step
    [dt] and the terrain, one step of [updateTankPhysics] leaves a speed
    of at most [TANK_MAX_SPEED] and a body yaw in [-PI, PI]; the tank has
    moved by at most [TANK_MAX_SPEED * |dt|] horizontally, and by exactly
    its new velocity times [dt]; with a terrain its height is the
    terrain's at its new place. *)
Theorem updateTankPhysics_keeps_speed_limit
    (tank : TankPhysicsState.t R) (input : PhysicsInput R) (dt : R)
    (h : option (R -> R -> R)) :
  let tank' := Physics.updateTankPhysics tank input dt h in
  let pos := TankPhysicsState.position tank in
  let pos' := TankPhysicsState.position tank' in
  let vel' := TankPhysicsState.velocity tank' in
  (Vec3.length vel' <= TANK_MAX_SPEED)%R
  /\ (- PI <= TankPhysicsState.bodyYaw tank' <= PI)%R
  /\ Vec3.x pos' = (Vec3.x pos + Vec3.x vel' * dt)%R
  /\ Vec3.z pos' = (Vec3.z pos + Vec3.z vel' * dt)%R
  /\ ((Vec3.x pos' - Vec3.x pos) * (Vec3.x pos' - Vec3.x pos)
      + (Vec3.z pos' - Vec3.z pos) * (Vec3.z pos' - Vec3.z pos)
      <= (TANK_MAX_SPEED * dt) * (TANK_MAX_SPEED * dt))%R
  /\ match h with
     | Some hf => Vec3.y pos' = hf (Vec3.x pos') (Vec3.z pos')
     | None => Vec3.y pos' = (Vec3.y pos + Vec3.y vel' * dt)%R
     end.
Proof.
  cbv zeta.
  destruct (updateTankPhysics_motion tank input dt h) as (v3 & Hvel & Hpos).
  cbv zeta in Hvel, Hpos. rewrite Hvel, Hpos.
  pose proof (limited_speed v3) as Hlim.
  set (v4 := if Rltb TANK_MAX_SPEED (Vec3.length v3)
             then Vec3.multiplyScalar (Vec3.normalize v3) TANK_MAX_SPEED
             else v3) in *.
  pose proof (horizontal_le_length v4 _ Hlim) as Hhor.
  split; [exact Hlim|]. split.
  { unfold Physics.updateTankPhysics. cbv zeta.
    cbn [TankPhysicsState.bodyYaw]. apply normalizeAngle_range. }
  destruct h as [hf|];
    cbn [Vec3.x Vec3.y Vec3.z Vec3.set_y Vec3.add Vec3.multiplyScalar];
    change (@nadd R RNumber) with Rplus;
    change (@nmul R RNumber) with Rmult;
    (split; [reflexivity|]); (split; [reflexivity|]);
    (split; [nra|reflexivity]).
Qed.

Section AngleCongruence.
Local Open Scope R_scope.
Import Physics.

(** Each loop of [normalizeAngle] moves the angle by a whole number of
    turns. *)
Lemma wrap_down_turns (fuel : nat) (angle : R) :
  exists j : nat, wrap_down fuel angle = angle - INR j * (2 * PI).
Proof.
  revert angle. induction fuel as [|fuel IH]; intros angle.
  - exists 0%nat. cbn. lra.
  - cbn [wrap_down]. destruct (Rltb PI angle).
    + destruct (IH (angle - 2 * PI)) as [j Hj]. exists (S j).
      rewrite Hj, S_INR. lra.
    + exists 0%nat. cbn. lra.
Qed.

Lemma wrap_up_turns (fuel : nat) (angle : R) :
  exists j : nat, wrap_up fuel angle = angle + INR j * (2 * PI).
Proof.
  revert angle. induction fuel as [|fuel IH]; intros angle.
  - exists 0%nat. cbn. lra.
  - cbn [wrap_up]. destruct (Rltb angle (- PI)).
    + destruct (IH (angle + 2 * PI)) as [j Hj]. exists (S j).
      rewrite Hj, S_INR. lra.
    + exists 0%nat. cbn. lra.
Qed.

Lemma normalizeAngle_turns (angle : R) :
  exists k : Z, normalizeAngle angle = angle + IZR k * (2 * PI).
Proof.
  unfold normalizeAngle.
  destruct (wrap_down_turns (wrap_fuel angle) angle) as [j Hj].
  destruct (wrap_up_turns (wrap_fuel (wrap_down (wrap_fuel angle) angle))
              (wrap_down (wrap_fuel angle) angle)) as [i Hi].
  exists (Z.of_nat i - Z.of_nat j)%Z.
  rewrite Hi, Hj, minus_IZR, <- !INR_IZR_INZ. lra.
Qed.

(** Angles a whole number of turns apart have the same sine and
    cosine. *)
Lemma turns_same_direction (x y : R) (k : Z) :
  y = x + IZR k * (2 * PI) -> sin y = sin x /\ cos y = cos x.
Proof.
  intros ->. destruct (Z_le_gt_dec 0 k) as [Hk|Hk].
  - rewrite <- (Z2Nat.id k Hk), <- INR_IZR_INZ.
    replace (x + INR (Z.to_nat k) * (2 * PI))
      with (x + 2 * INR (Z.to_nat k) * PI) by ring.
    split; [apply sin_period|apply cos_period].
  - remember (x + IZR k * (2 * PI)) as y eqn:Hy.
    assert (Hx : x = y + 2 * INR (Z.to_nat (- k)) * PI).
    { subst y. rewrite INR_IZR_INZ, Z2Nat.id by lia. rewrite opp_IZR. ring. }
    clear Hy. rewrite Hx.
    split; symmetry; [apply sin_period|apply cos_period].
Qed.

End AngleCongruence.

(** X12.  Over the reals, for every angle the two loops of
    [normalizeAngle] end, and what they return lies in [-PI, PI], differs
    from the angle by a whole number of turns, and therefore has the same
    sine and cosine: it is the same direction.  An angle already in
    [-PI, PI] is returned as it is (both [-PI] and [PI] are kept). *)
Theorem normalizeAngle_same_direction (angle : R) :
  (- PI <= Physics.normalizeAngle angle <= PI)%R
  /\ (exists k : Z,
         Physics.normalizeAngle angle = (angle + IZR k * (2 * PI))%R)
  /\ sin (Physics.normalizeAngle angle) = sin angle
  /\ cos (Physics.normalizeAngle angle) = cos angle
  /\ ((- PI <= angle <= PI)%R -> Physics.normalizeAngle angle = angle)
  /\ Physics.normalizeAngle PI = PI
  /\ Physics.normalizeAngle (- PI) = (- PI)%R.
Proof.
  pose proof PI_RGT_0 as Hpi.
  destruct (normalizeAngle_turns angle) as [k Hk].
  destruct (turns_same_direction angle _ k Hk) as [Hsin Hcos].
  split; [apply normalizeAngle_range|].
  split; [now exists k|]. split; [exact Hsin|]. split; [exact Hcos|].
  split; [apply normalizeAngle_inside|].
  split; apply normalizeAngle_inside; lra.
Qed.

Lemma normalizeAngle_same_direction_witness :
  Physics.normalizeAngle (PI / 2) = (PI / 2)%R.
Proof.
  destruct (normalizeAngle_same_direction (PI / 2))
    as (_ & _ & _ & _ & Hinside & _).
  apply Hinside. pose proof PI_RGT_0. lra.
Defined.

Section BellFacts.
Local Open Scope R_scope.

Lemma opp_div_mono (a b den : R) :
  0 < den -> a <= b -> - b / den <= - a / den.
Proof.
  intros Hden Hab. unfold Rdiv.
  assert (Hinv : 0 < / den) by now apply Rinv_0_lt_compat.
  assert (Hprod : 0 <= (b - a) * / den) by (apply Rmult_le_pos; lra).
  lra.
Qed.

Lemma square_abs_mono (a b : R) : Rabs a <= Rabs b -> a * a <= b * b.
Proof.
  intros Hle. pose proof (Rabs_pos a) as Ha.
  assert (Hsq : forall u : R, u * u = Rabs u * Rabs u).
  { intros u. unfold Rabs. destruct (Rcase_abs u); ring. }
  rewrite (Hsq a), (Hsq b). nra.
Qed.

End BellFacts.

(** X13.  Over the reals, for a deviation [sigma] other than 0, the
    score of [gaussianScore] lies in (0, 1], it is 1 exactly at the mean,
    it is the same at equal distances on both sides of the mean, and a
    value farther from the mean never scores higher. *)
Theorem gaussianScore_bell (mean sigma : R) :
  sigma <> 0%R ->
  (forall value,
      (0 < Physics.gaussianScore value mean sigma <= 1)%R)
  /\ (forall value,
         Physics.gaussianScore value mean sigma = 1%R <-> value = mean)
  /\ (forall d,
         Physics.gaussianScore (mean + d) mean sigma
         = Physics.gaussianScore (mean - d) mean sigma)
  /\ (forall v1 v2,
         (Rabs (v1 - mean) <= Rabs (v2 - mean))%R ->
         (Physics.gaussianScore v2 mean sigma
          <= Physics.gaussianScore v1 mean sigma)%R).
Proof.
  intros Hsigma.
  assert (Hden : (0 < 2 * sigma * sigma)%R)
    by (pose proof (Rsqr_pos_lt sigma Hsigma) as Hsq; unfold Rsqr in Hsq;
        lra).
  assert (Harg : forall value,
            (- ((value - mean) * (value - mean)) / (2 * sigma * sigma)
             <= 0)%R).
  { intros value.
    pose proof (opp_div_mono 0 ((value - mean) * (value - mean)) _ Hden
                  (Rle_0_sqr (value - mean))) as Hle.
    unfold Rdiv in Hle. rewrite Ropp_0, Rmult_0_l in Hle. exact Hle. }
  unfold Physics.gaussianScore. cbv zeta.
  split; [|split; [|split]].
  - intros value. split; [apply exp_pos|].
    rewrite <- exp_0. destruct (Harg value) as [Hlt|Heq].
    + left. now apply exp_increasing.
    + rewrite Heq. lra.
  - intros value. split.
    + intros Hone. rewrite <- exp_0 in Hone. apply exp_inv in Hone.
      unfold Rdiv in Hone.
      apply Rmult_integral in Hone. destruct Hone as [Hz|Hz].
      * nra.
      * apply Rinv_neq_0_compat in Hz; [contradiction|lra].
    + intros ->. replace (- ((mean - mean) * (mean - mean))
                          / (2 * sigma * sigma))%R with 0%R
        by (unfold Rdiv; ring).
      apply exp_0.
  - intros d. f_equal. f_equal. ring.
  - intros v1 v2 Hfar.
    assert (Hle : (- ((v2 - mean) * (v2 - mean)) / (2 * sigma * sigma)
                   <= - ((v1 - mean) * (v1 - mean)) / (2 * sigma * sigma))%R)
      by (apply opp_div_mono; [exact Hden|now apply square_abs_mono]).
    destruct Hle as [Hlt|Heq].
    + left. now apply exp_increasing.
    + rewrite Heq. lra.
Qed.

Lemma gaussianScore_bell_witness :
  Physics.gaussianScore IDEAL_SPAWN_DISTANCE IDEAL_SPAWN_DISTANCE
    SPAWN_DISTANCE_SIGMA = 1%R.
Proof.
  destruct (gaussianScore_bell IDEAL_SPAWN_DISTANCE SPAWN_DISTANCE_SIGMA)
    as (_ & Hpeak & _).
  - unfold SPAWN_DISTANCE_SIGMA. cbn. lra.
  - apply (proj2 (Hpeak _)). reflexivity.
Defined.

Section ShortWay.
Local Open Scope R_scope.
Import Physics.

(** Two angles of [-PI, PI] a whole number of turns apart are equal or
    are the two ends of the range. *)
Lemma range_turns (u v : R) (k : Z) :
  - PI <= u <= PI -> - PI <= v <= PI -> u = v + IZR k * (2 * PI) ->
  Rabs u = Rabs v.
Proof.
  intros Hu Hv Heq. pose proof PI_RGT_0 as Hpi.
  assert (Hk : (-1 <= k <= 1)%Z).
  { split; apply le_IZR.
    - apply Rmult_le_reg_r with (2 * PI); [lra|]. lra.
    - apply Rmult_le_reg_r with (2 * PI); [lra|]. lra. }
  assert (Hcases : k = (-1)%Z \/ k = 0%Z \/ k = 1%Z) by lia.
  destruct Hcases as [->|[->| ->]].
  - assert (Hu' : u = - PI) by lra. assert (Hv' : v = PI) by lra.
    now rewrite Hu', Hv', Rabs_Ropp.
  - f_equal. lra.
  - assert (Hu' : u = PI) by lra. assert (Hv' : v = - PI) by lra.
    now rewrite Hu', Hv', Rabs_Ropp.
Qed.

(** The size of the normalised angle depends on the direction only. *)
Lemma abs_normalizeAngle_turns (x y : R) (k : Z) :
  x = y + IZR k * (2 * PI) ->
  Rabs (normalizeAngle x) = Rabs (normalizeAngle y).
Proof.
  intros Heq.
  destruct (normalizeAngle_turns x) as [kx Hx].
  destruct (normalizeAngle_turns y) as [ky Hy].
  apply (range_turns _ _ (kx + k - ky));
    [apply normalizeAngle_range|apply normalizeAngle_range|].
  rewrite Hx, Hy, Heq, minus_IZR, plus_IZR. ring.
Qed.

Lemma Rsign_abs (x : R) : Rsign x * x = Rabs x.
Proof.
  unfold Rsign, Rabs.
  destruct (Rltb 0 x) eqn:Hpos; [apply Rltb_true in Hpos|apply Rltb_false in Hpos].
  - destruct (Rcase_abs x); lra.
  - destruct (Rltb x 0) eqn:Hneg;
      [apply Rltb_true in Hneg|apply Rltb_false in Hneg];
      destruct (Rcase_abs x); lra.
Qed.

Lemma Rsign_cases (x : R) :
  (0 < x /\ Rsign x = 1) \/ (x < 0 /\ Rsign x = -1) \/ (x = 0 /\ Rsign x = 0).
Proof.
  unfold Rsign.
  destruct (Rltb 0 x) eqn:Hpos; [apply Rltb_true in Hpos|apply Rltb_false in Hpos].
  - left. split; [lra|reflexivity].
  - destruct (Rltb x 0) eqn:Hneg;
      [apply Rltb_true in Hneg|apply Rltb_false in Hneg].
    + right. left. split; [lra|reflexivity].
    + right. right. split; [lra|reflexivity].
Qed.

End ShortWay.

(** X14.  Over the reals, [moveTowardsAngle] with a step [maxStep >= 0]
    turns the short way and never past the target.  With [d] the
    normalised difference between the target and the current angle: when
    [|d| <= maxStep] the target itself is returned; otherwise the angle
    moves by exactly [maxStep], up when [d > 0] and down when [d < 0],
    and the size of the normalised difference that remains is
    [|d| - maxStep]. *)
Theorem moveTowardsAngle_approaches_target (current target maxStep : R) :
  (0 <= maxStep)%R ->
  let d := Physics.normalizeAngle (target - current) in
  let next := Physics.moveTowardsAngle current target maxStep in
  ((Rabs d <= maxStep)%R -> next = target)
  /\ ((maxStep < Rabs d)%R ->
      Rabs (next - current) = maxStep
      /\ ((0 < d)%R -> next = (current + maxStep)%R)
      /\ ((d < 0)%R -> next = (current - maxStep)%R)
      /\ Rabs (Physics.normalizeAngle (target - next))
         = (Rabs d - maxStep)%R).
Proof.
  intros Hstep. cbv zeta. unfold Physics.moveTowardsAngle. cbv zeta.
  set (d := Physics.normalizeAngle (target - current)).
  pose proof (normalizeAngle_range (target - current)) as Hrange.
  fold d in Hrange.
  destruct (normalizeAngle_turns (target - current)) as [k Hk]. fold d in Hk.
  split.
  - intros Hnear. now rewrite (proj2 (Rleb_true _ _) Hnear).
  - intros Hfar. rewrite (proj2 (Rleb_false _ _) Hfar).
    assert (Hrest : Rabs (Physics.normalizeAngle
                            (target - (current + Physics.Rsign d * maxStep)))
                    = Rabs (d - Physics.Rsign d * maxStep)%R).
    { rewrite (abs_normalizeAngle_turns _ (d - Physics.Rsign d * maxStep)%R
                 (- k)).
      - f_equal. apply normalizeAngle_inside.
        destruct (Rsign_cases d) as [[Hd ->]|[[Hd ->]|[Hd ->]]];
          unfold Rabs in Hfar; destruct (Rcase_abs d); lra.
      - rewrite opp_IZR. lra. }
    rewrite Hrest.
    destruct (Rsign_cases d) as [[Hd ->]|[[Hd ->]|[Hd ->]]].
    + rewrite (Rabs_pos_eq d) in * by lra.
      replace (current + 1 * maxStep - current)%R with maxStep by ring.
      rewrite (Rabs_pos_eq maxStep Hstep).
      rewrite (Rabs_pos_eq (d - 1 * maxStep)%R) by lra.
      repeat split; intros; lra.
    + rewrite (Rabs_left d) in * by lra.
      replace (current + -1 * maxStep - current)%R with (- maxStep)%R
        by ring.
      rewrite Rabs_Ropp, (Rabs_pos_eq maxStep Hstep).
      rewrite (Rabs_left1 (d - -1 * maxStep)%R) by lra.
      repeat split; intros; lra.
    + subst d. rewrite Hd, Rabs_R0 in Hfar. lra.
Qed.

Lemma moveTowardsAngle_approaches_target_witness :
  Physics.moveTowardsAngle 0 (1 / 20) (1 / 10) = (1 / 20)%R.
Proof.
  pose proof PI_RGT_0 as Hpi. pose proof PI2_3_2 as Hpi2.
  assert (Hin : Physics.normalizeAngle (1 / 20 - 0) = (1 / 20)%R).
  { replace (1 / 20 - 0)%R with (1 / 20)%R by lra.
    apply normalizeAngle_inside. unfold PI2 in Hpi2. lra. }
  destruct (moveTowardsAngle_approaches_target 0 (1 / 20) (1 / 10))
    as [Hnear _]; [lra|].
  apply Hnear. rewrite Hin, Rabs_pos_eq; lra.
Defined.

(** X15.  Over the reals, [lerpAngle] interpolates along the short arc:
    it starts at [a], at [t = 1] it points in the direction of [b] (the
    same sine and cosine, though not always the same number), for
    [0 <= t <= 1] it stays within [PI * t] of [a], and when [b - a] lies
    in [-PI, PI] it is the plain interpolation [lerp]. *)
Theorem lerpAngle_follows_short_arc (a b t : R) :
  Physics.lerpAngle a b 0 = a
  /\ sin (Physics.lerpAngle a b 1) = sin b
  /\ cos (Physics.lerpAngle a b 1) = cos b
  /\ ((0 <= t <= 1)%R ->
      (Rabs (Physics.lerpAngle a b t - a) <= PI * t)%R)
  /\ ((- PI <= b - a <= PI)%R ->
      Physics.lerpAngle a b t = Physics.lerp a b t).
Proof.
  unfold Physics.lerpAngle, Physics.lerp. cbv zeta.
  pose proof (normalizeAngle_range (b - a)) as Hrange.
  destruct (normalizeAngle_turns (b - a)) as [k Hk].
  split; [ring|].
  assert (Hturn : (a + Physics.normalizeAngle (b - a) * 1
                   = b + IZR k * (2 * PI))%R) by (rewrite Hk; ring).
  destruct (turns_same_direction b _ k Hturn) as [Hsin Hcos].
  split; [exact Hsin|]. split; [exact Hcos|]. split.
  - intros [Ht0 Ht1].
    replace (a + Physics.normalizeAngle (b - a) * t - a)%R
      with (Physics.normalizeAngle (b - a) * t)%R by ring.
    rewrite Rabs_mult, (Rabs_pos_eq t Ht0).
    apply Rmult_le_compat_r; [exact Ht0|].
    unfold Rabs. destruct (Rcase_abs _); lra.
  - intros Hin. now rewrite (normalizeAngle_inside _ Hin).
Qed.

Lemma lerpAngle_follows_short_arc_witness :
  (Rabs (Physics.lerpAngle 3 (-3) (1 / 2) - 3) <= PI * (1 / 2))%R.
Proof.
  destruct (lerpAngle_follows_short_arc 3 (-3) (1 / 2))
    as (_ & _ & _ & Hnear & _).
  apply Hnear. lra.
Defined.

(* ================================================================== *)
(** * Further properties: combat in the world *)
(* ================================================================== *)

Section Sparing.
Context {num : Type} `{JSNumber num}.
Local Open Scope num_scope.

(** What a hit or a death can change of a combatant. *)
Definition condition (p : Player.t num) : Z * bool * num * nat :=
  (Player.id p, Player.alive p, Player.hp p, Player.deaths p).

(** The combatant at [r] is in the same condition in [w'] as in [w]. *)
Definition spared (r : nat) (w w' : GameWorld.t num) : Prop :=
  condition (GameWorld.objs w' r) = condition (GameWorld.objs w r).

(** The three tests with which the splash loop passes over a combatant:
    not alive, the shooter, the target of the direct hit. *)
Definition skipped (proj : Projectile.t num) (directHitTargetId : option Z)
    (p : Player.t num) : bool :=
  negb (Player.alive p)
  || (Player.id p =? Projectile.shooterId proj)%Z
  || match directHitTargetId with
     | Some d => (Player.id p =? d)%Z
     | None => false
     end.

(** Every projectile of the world was fired by the combatant [id]. *)
Definition firedBy (id : Z) (w : GameWorld.t num) : Prop :=
  Forall (fun e : Z * Projectile.t num => Projectile.shooterId (snd e) = id)
    (GameWorld.projectiles w).

Lemma spared_refl (r : nat) (w : GameWorld.t num) : spared r w w.
Proof. reflexivity. Qed.

Lemma spared_trans (r : nat) (w1 w2 w3 : GameWorld.t num) :
  spared r w1 w2 -> spared r w2 w3 -> spared r w1 w3.
Proof. unfold spared. congruence. Qed.

Lemma spared_id (r : nat) (w w' : GameWorld.t num) :
  spared r w w' ->
  Player.id (GameWorld.objs w' r) = Player.id (GameWorld.objs w r).
Proof. unfold spared, condition. congruence. Qed.

Lemma spared_skipped (r : nat) (w w' : GameWorld.t num)
    (proj : Projectile.t num) (d : option Z) :
  spared r w w' ->
  skipped proj d (GameWorld.objs w' r) = skipped proj d (GameWorld.objs w r).
Proof.
  unfold spared, condition, skipped. intros Heq.
  injection Heq as Hid Halive _ _. now rewrite Hid, Halive.
Qed.

Lemma modify_spared_other (r r' : nat) (f : Player.t num -> Player.t num)
    (w : GameWorld.t num) :
  r <> r' -> spared r w (GameWorld.modify r' f w).
Proof.
  intros Hne. unfold spared. now rewrite objs_modify_other.
Qed.

Lemma modify_spared (r r' : nat) (f : Player.t num -> Player.t num)
    (w : GameWorld.t num) :
  (forall p, condition (f p) = condition p) ->
  spared r w (GameWorld.modify r' f w).
Proof.
  intros Hf. unfold spared. destruct (Nat.eq_dec r r') as [->|Hne].
  - rewrite objs_modify_same. apply Hf.
  - now rewrite objs_modify_other.
Qed.

Lemma handleDeath_spared (r v : nat) (killerId : Z) (w : GameWorld.t num) :
  r <> v -> spared r w (GameWorld.handleDeath v killerId w).
Proof.
  intros Hne.
  destruct (handleDeath_effect v killerId w) as (_ & _ & _ & Hobjs).
  destruct (Hobjs r) as (Hid & Halive & Hhp & Hdeaths & _).
  unfold spared, condition. rewrite Hid, Halive, Hhp, Hdeaths.
  apply Nat.eqb_neq in Hne. rewrite Hne. now rewrite Nat.add_0_r.
Qed.

Lemma handleDeath_projectiles (v : nat) (killerId : Z) (w : GameWorld.t num) :
  GameWorld.projectiles (GameWorld.handleDeath v killerId w)
  = GameWorld.projectiles w.
Proof.
  unfold GameWorld.handleDeath. cbv zeta.
  destruct (JSMap.get killerId _); reflexivity.
Qed.

(** One iteration of the splash loop, seen from a combatant that the
    loop passes over. *)
Lemma splashOne_spared (proj : Projectile.t num) (d : option Z)
    (w : GameWorld.t num) (r r' : nat) :
  skipped proj d (GameWorld.objs w r) = true ->
  spared r w (GameWorld.splashOne proj d w r').
Proof.
  intros Hskip. unfold GameWorld.splashOne. cbv zeta.
  destruct (negb (Player.alive (GameWorld.objs w r'))) eqn:Hdead;
    [apply spared_refl|].
  destruct (Player.id (GameWorld.objs w r') =? Projectile.shooterId proj)%Z
    eqn:Hshooter; [apply spared_refl|].
  destruct (match d with
            | Some d0 => (Player.id (GameWorld.objs w r') =? d0)%Z
            | None => false
            end) eqn:Hdirect; [apply spared_refl|].
  assert (Hne : r <> r').
  { intros ->. unfold skipped in Hskip.
    rewrite Hdead, Hshooter, Hdirect in Hskip. discriminate Hskip. }
  match goal with |- context [if ?c then _ else w] => destruct c end;
    [|apply spared_refl].
  destruct (Player.takeDamage _ _) as [died p'].
  assert (Hstore : spared r w (GameWorld.store r' p' w))
    by now apply modify_spared_other.
  destruct died; [|exact Hstore].
  eapply spared_trans; [exact Hstore|]. now apply handleDeath_spared.
Qed.

Lemma splashOne_projectiles (proj : Projectile.t num) (d : option Z)
    (w : GameWorld.t num) (r' : nat) :
  GameWorld.projectiles (GameWorld.splashOne proj d w r')
  = GameWorld.projectiles w.
Proof.
  unfold GameWorld.splashOne. cbv zeta.
  destruct (negb _); [reflexivity|]. destruct (_ =? _)%Z; [reflexivity|].
  match goal with |- context [if ?c then w else _] => destruct c end;
    [reflexivity|].
  match goal with |- context [if ?c then _ else w] => destruct c end;
    [|reflexivity].
  destruct (Player.takeDamage _ _) as [died p'].
  destruct died; [|reflexivity]. now rewrite handleDeath_projectiles.
Qed.

Lemma splashAll_spared (proj : Projectile.t num) (d : option Z) (r : nat)
    (refs : list nat) (w : GameWorld.t num) :
  skipped proj d (GameWorld.objs w r) = true ->
  spared r w (fold_left (GameWorld.splashOne proj d) refs w)
  /\ GameWorld.projectiles (fold_left (GameWorld.splashOne proj d) refs w)
     = GameWorld.projectiles w.
Proof.
  revert w. induction refs as [|r' refs IH]; intros w Hskip.
  - split; [apply spared_refl|reflexivity].
  - cbn [fold_left].
    pose proof (splashOne_spared proj d w r r' Hskip) as Hone.
    destruct (IH (GameWorld.splashOne proj d w r')) as [Hrest Hprojs].
    { now rewrite (spared_skipped r w _ proj d Hone). }
    split; [now apply (spared_trans r w _ _ Hone)|].
    now rewrite Hprojs, splashOne_projectiles.
Qed.

(** An explosion leaves every combatant that its splash loop passes
    over as it was, and the projectiles as they were. *)
Lemma handleProjectileExplode_spared (proj : Projectile.t num)
    (d : option Z) (r : nat) (w : GameWorld.t num) :
  skipped proj d (GameWorld.objs w r) = true ->
  spared r w (GameWorld.handleProjectileExplode proj d w)
  /\ GameWorld.projectiles (GameWorld.handleProjectileExplode proj d w)
     = GameWorld.projectiles w.
Proof.
  intros Hskip. unfold GameWorld.handleProjectileExplode. cbv zeta.
  apply (splashAll_spared proj d r _ (GameWorld.pushEvent _ w)). exact Hskip.
Qed.

Lemma skipped_shooter (proj : Projectile.t num) (d : option Z)
    (p : Player.t num) :
  Player.id p = Projectile.shooterId proj -> skipped proj d p = true.
Proof.
  intros Hid. unfold skipped. rewrite Hid, Z.eqb_refl.
  now rewrite orb_true_r.
Qed.

End Sparing.

Section OwnShells.
Context {num : Type} `{JSNumber num}.
Local Open Scope num_scope.

Lemma get_In {V} (k : Z) (v : V) (m : JSMap.t V) :
  JSMap.get k m = Some v -> In (k, v) m.
Proof.
  induction m as [|[k' v'] m IH]; cbn; [discriminate|].
  destruct (k' =? k)%Z eqn:Hk.
  - intros Heq. injection Heq as ->. apply Z.eqb_eq in Hk. subst k'.
    now left.
  - intros Hget. right. now apply IH.
Qed.

Lemma set_Forall {V} (P : Z * V -> Prop) (k : Z) (v : V) (m : JSMap.t V) :
  P (k, v) -> Forall P m -> Forall P (JSMap.set k v m).
Proof.
  intros Hv. induction m as [|[k' v'] m IH]; cbn; intros Hall.
  - now constructor.
  - inversion Hall as [|? ? Hhead Htail]; subst.
    destruct (k' =? k)%Z; constructor; auto.
Qed.

Lemma firedBy_get (id : Z) (w : GameWorld.t num) (pid : Z)
    (proj : Projectile.t num) :
  firedBy id w -> JSMap.get pid (GameWorld.projectiles w) = Some proj ->
  Projectile.shooterId proj = id.
Proof.
  intros Hall Hget. apply get_In in Hget.
  apply (proj1 (Forall_forall _ _) Hall (pid, proj) Hget).
Qed.

Lemma firedBy_store (id : Z) (w : GameWorld.t num)
    (proj : Projectile.t num) :
  firedBy id w -> Projectile.shooterId proj = id ->
  firedBy id (GameWorld.storeProjectile proj w).
Proof.
  intros Hall Hid. unfold firedBy, GameWorld.storeProjectile.
  cbn [GameWorld.projectiles GameWorld.set_projectiles].
  now apply set_Forall.
Qed.

Lemma update_shooterId (dt : num) (proj : Projectile.t num) :
  Projectile.shooterId (Projectile.update dt proj)
  = Projectile.shooterId proj.
Proof.
  unfold Projectile.update. destruct (negb _); [reflexivity|].
  now destruct (updateProjectile _ _ _).
Qed.

Lemma checkGroundHit_shooterId (h : num -> num -> num)
    (proj : Projectile.t num) :
  Projectile.shooterId (snd (Projectile.checkGroundHit h proj))
  = Projectile.shooterId proj.
Proof.
  unfold Projectile.checkGroundHit. destruct (negb _); [reflexivity|].
  cbv zeta. now destruct (nleb _ _).
Qed.

(** The combatant at [r] fired [proj]: what storing the projectile and
    letting it explode leaves. *)
Lemma explode_own (proj : Projectile.t num) (d : option Z) (r : nat)
    (w : GameWorld.t num) :
  Projectile.shooterId proj = Player.id (GameWorld.objs w r) ->
  firedBy (Player.id (GameWorld.objs w r)) w ->
  let w' :=
    GameWorld.handleProjectileExplode proj d
      (GameWorld.storeProjectile proj w) in
  spared r w w' /\ firedBy (Player.id (GameWorld.objs w r)) w'.
Proof.
  intros Hown Hall. cbv zeta.
  destruct (handleProjectileExplode_spared proj d r
              (GameWorld.storeProjectile proj w)) as [Hsp Hprojs].
  { apply skipped_shooter. now rewrite Hown. }
  split; [exact Hsp|]. unfold firedBy. rewrite Hprojs.
  now apply firedBy_store.
Qed.

Lemma coverLoop_own (proj : Projectile.t num) (prev : Vec3.t num)
    (covers : list (MapGenerator.CoverNode num)) (r : nat)
    (w : GameWorld.t num) :
  Projectile.shooterId proj = Player.id (GameWorld.objs w r) ->
  firedBy (Player.id (GameWorld.objs w r)) w ->
  let w' := snd (GameWorld.coverLoop proj prev covers w) in
  spared r w w' /\ firedBy (Player.id (GameWorld.objs w r)) w'.
Proof.
  intros Hown Hall. cbv zeta.
  induction covers as [|cover covers IH];
    [split; [apply spared_refl|exact Hall]|].
  cbn [GameWorld.coverLoop]. cbv zeta.
  match goal with |- context [if ?c then _ else _] => destruct c end.
  { cbn [snd]. now apply explode_own. }
  match goal with |- context [if ?c then _ else _] => destruct c end;
    [exact IH|].
  match goal with |- context [if ?c then _ else _] => destruct c end;
    [exact IH|].
  match goal with |- context [match ?c with Some _ => _ | None => _ end] =>
    destruct c as [[t hitY]|] end; [|exact IH].
  cbn [snd]. now apply explode_own.
Qed.

Lemma projectileStep_own (dt : num) (pid : Z) (r : nat)
    (w : GameWorld.t num) :
  firedBy (Player.id (GameWorld.objs w r)) w ->
  let w' := GameWorld.projectileStep dt w pid in
  spared r w w' /\ firedBy (Player.id (GameWorld.objs w r)) w'.
Proof.
  intros Hall. cbv zeta. unfold GameWorld.projectileStep.
  destruct (JSMap.get pid (GameWorld.projectiles w)) as [proj|] eqn:Hget;
    [|split; [apply spared_refl|exact Hall]].
  destruct (negb (Projectile.active proj));
    [split; [apply spared_refl|exact Hall]|].
  cbv zeta.
  pose proof (firedBy_get _ w pid proj Hall Hget) as Hown.
  pose proof (checkGroundHit_shooterId (GameWorld.terrain w)
                (Projectile.update dt proj)) as Hsh.
  rewrite update_shooterId, Hown in Hsh.
  destruct (Projectile.checkGroundHit _ _) as [grounded proj'].
  cbn [snd] in Hsh.
  destruct grounded.
  - now apply explode_own.
  - unfold GameWorld.checkProjectileCoverCollision.
    assert (Hst : firedBy (Player.id (GameWorld.objs w r))
                    (GameWorld.storeProjectile proj' w))
      by now apply firedBy_store.
    apply (coverLoop_own proj' (Projectile.position proj)
             (MapGenerator.covers
                (GameWorld.map (GameWorld.storeProjectile proj' w)))
             r (GameWorld.storeProjectile proj' w) Hsh Hst).
Qed.

(** A direct hit of a shell of the combatant at [r] on another
    combatant. *)
Lemma handleDirectHit_own (proj : Projectile.t num) (target r : nat)
    (w : GameWorld.t num) :
  Projectile.shooterId proj = Player.id (GameWorld.objs w r) ->
  (Player.id (GameWorld.objs w target) =? Projectile.shooterId proj)%Z
  = false ->
  firedBy (Player.id (GameWorld.objs w r)) w ->
  let w' := GameWorld.handleDirectHit proj target w in
  spared r w w' /\ firedBy (Player.id (GameWorld.objs w r)) w'.
Proof.
  intros Hown Hother Hall. cbv zeta.
  assert (Hne : r <> target).
  { intros ->. rewrite Hown, Z.eqb_refl in Hother. discriminate Hother. }
  unfold GameWorld.handleDirectHit. cbv zeta.
  set (proj' := Projectile.set_active false proj).
  set (w1 := GameWorld.pushEvent _ (GameWorld.storeProjectile proj' w)).
  assert (H1 : spared r w w1 /\ firedBy (Player.id (GameWorld.objs w r)) w1).
  { split; [reflexivity|].
    apply (firedBy_store _ w proj' Hall). exact Hown. }
  set (w2 := match JSMap.get _ (GameWorld.players w1) with
             | Some shooter => GameWorld.modify shooter _ w1
             | None => w1
             end).
  assert (H2 : spared r w w2 /\ firedBy (Player.id (GameWorld.objs w r)) w2).
  { subst w2. destruct (JSMap.get _ (GameWorld.players w1)); [|exact H1].
    split; [|exact (proj2 H1)].
    eapply spared_trans; [exact (proj1 H1)|].
    apply modify_spared. intros p. reflexivity. }
  destruct (Player.takeDamage DIRECT_HIT_DAMAGE (GameWorld.objs w2 target))
    as [died target'].
  set (w3 := GameWorld.store target target' w2).
  assert (H3 : spared r w w3 /\ firedBy (Player.id (GameWorld.objs w r)) w3).
  { split; [|exact (proj2 H2)].
    eapply spared_trans; [exact (proj1 H2)|]. now apply modify_spared_other. }
  set (w4 := if died
             then GameWorld.handleDeath target
                    (Projectile.shooterId proj') w3
             else w3).
  assert (H4 : spared r w w4 /\ firedBy (Player.id (GameWorld.objs w r)) w4).
  { subst w4. destruct died; [|exact H3]. split.
    - eapply spared_trans; [exact (proj1 H3)|]. now apply handleDeath_spared.
    - unfold firedBy. rewrite handleDeath_projectiles. exact (proj2 H3). }
  destruct (handleProjectileExplode_spared proj'
              (Some (Player.id (GameWorld.objs w4 target))) r w4)
    as [Hsp Hprojs].
  { apply skipped_shooter. rewrite (spared_id r w w4 (proj1 H4)).
    symmetry. exact Hown. }
  split; [now apply (spared_trans r w w4 _ (proj1 H4))|].
  unfold firedBy. rewrite Hprojs. exact (proj2 H4).
Qed.

Lemma checkAllCollisions_own (r : nat) (w : GameWorld.t num) :
  firedBy (Player.id (GameWorld.objs w r)) w ->
  spared r w (GameWorld.checkAllCollisions w)
  /\ firedBy (Player.id (GameWorld.objs w r)) (GameWorld.checkAllCollisions w).
Proof.
  intros Hall. unfold GameWorld.checkAllCollisions.
  generalize (JSMap.keys (GameWorld.projectiles w)). intros pids.
  assert (Hgen : forall w1,
            spared r w w1 /\ firedBy (Player.id (GameWorld.objs w r)) w1 ->
            let step := fun (w : GameWorld.t num) (pid : Z) =>
              match JSMap.get pid (GameWorld.projectiles w) with
              | Some proj =>
                  if negb (Projectile.active proj) then w
                  else match GameWorld.firstHit proj w with
                       | Some target => GameWorld.handleDirectHit proj target w
                       | None => w
                       end
              | None => w
              end in
            spared r w (fold_left step pids w1)
            /\ firedBy (Player.id (GameWorld.objs w r))
                 (fold_left step pids w1)).
  { induction pids as [|pid pids IH]; intros w1 Hw1; [exact Hw1|].
    cbv zeta. cbn [fold_left]. apply IH.
    destruct Hw1 as [Hsp Hfb].
    destruct (JSMap.get pid (GameWorld.projectiles w1)) as [proj|] eqn:Hget;
      [|now split].
    destruct (negb (Projectile.active proj)); [now split|].
    destruct (GameWorld.firstHit proj w1) as [target|] eqn:Hhit;
      [|now split].
    pose proof (firedBy_get _ w1 pid proj Hfb Hget) as Hown.
    rewrite <- (spared_id r w w1 Hsp) in Hown, Hfb.
    unfold GameWorld.firstHit in Hhit. apply find_some in Hhit.
    destruct Hhit as [_ Htest].
    apply andb_true_iff in Htest. destruct Htest as [Htest _].
    apply andb_true_iff in Htest. destruct Htest as [_ Hother].
    apply negb_true_iff in Hother.
    destruct (handleDirectHit_own proj target r w1 Hown Hother Hfb)
      as [Hsp' Hfb'].
    rewrite (spared_id r w w1 Hsp) in Hfb'.
    split; [now apply (spared_trans r w w1 _ Hsp)|exact Hfb']. }
  apply (Hgen w). split; [apply spared_refl|exact Hall].
Qed.

End OwnShells.

Section CombatPhases.
Context {num : Type} `{JSNumber num}.
Local Open Scope num_scope.

(** Steps 2 and 3 of [update]: the projectiles move, hit the ground or a
    cover, then the combatants. *)
Definition combat (dt : num) (w : GameWorld.t num) : GameWorld.t num :=
  GameWorld.checkAllCollisions
    (fold_left (GameWorld.projectileStep dt)
       (JSMap.keys (GameWorld.projectiles w)) w).

Lemma projectileSteps_own (dt : num) (r : nat) (pids : list Z)
    (w w1 : GameWorld.t num) :
  spared r w w1 -> firedBy (Player.id (GameWorld.objs w r)) w1 ->
  spared r w (fold_left (GameWorld.projectileStep dt) pids w1)
  /\ firedBy (Player.id (GameWorld.objs w r))
       (fold_left (GameWorld.projectileStep dt) pids w1).
Proof.
  revert w1. induction pids as [|pid pids IH]; intros w1 Hsp Hfb;
    [now split|].
  cbn [fold_left].
  rewrite <- (spared_id r w w1 Hsp) in Hfb.
  destruct (projectileStep_own dt pid r w1 Hfb) as [Hsp' Hfb'].
  rewrite (spared_id r w w1 Hsp) in Hfb'.
  apply IH; [now apply (spared_trans r w w1 _ Hsp)|exact Hfb'].
Qed.

Lemma combat_own (dt : num) (r : nat) (w : GameWorld.t num) :
  firedBy (Player.id (GameWorld.objs w r)) w -> spared r w (combat dt w).
Proof.
  intros Hfb. unfold combat.
  destruct (projectileSteps_own dt r
              (JSMap.keys (GameWorld.projectiles w)) w w
              (spared_refl r w) Hfb) as [Hsp Hfb'].
  rewrite <- (spared_id r w _ Hsp) in Hfb'.
  destruct (checkAllCollisions_own r _ Hfb') as [Hsp' _].
  now apply (spared_trans r w _ _ Hsp).
Qed.

(** What [takeDamage] does to the health and the alive flag depends on
    these two alone. *)
Lemma takeDamage_condition (amount : num) (p q : Player.t num) :
  Player.alive p = Player.alive q -> Player.hp p = Player.hp q ->
  fst (Player.takeDamage amount p) = fst (Player.takeDamage amount q)
  /\ Player.alive (snd (Player.takeDamage amount p))
     = Player.alive (snd (Player.takeDamage amount q))
  /\ Player.hp (snd (Player.takeDamage amount p))
     = Player.hp (snd (Player.takeDamage amount q)).
Proof.
  intros Halive Hhp. unfold Player.takeDamage. rewrite Halive.
  destruct (Player.alive q) eqn:Hq; cbn [negb];
    [|cbn; repeat split; congruence].
  cbv zeta. cbn [Player.hp Player.set_hp]. rewrite Hhp.
  destruct (nleb _ _); cbn; repeat split; congruence.
Qed.

End CombatPhases.

(** X16.  A combatant is never harmed by its own shells.  If every
    projectile of the world was fired by the combatant at [r], then
    steps 2 and 3 of a tick (the projectiles move, explode on the ground or
    on a cover, and hit combatants) leave its health, its alive flag and
    its death count as they were.  More precisely: the explosion of a
    projectile it fired, wherever it happens and whoever was hit
    directly, leaves them as they were, and such a projectile never picks
    it as the target of a direct hit. *)
Theorem own_shells_never_harm_their_shooter {num : Type} `{JSNumber num}
    (dt : num) (w : GameWorld.t num) (r : nat) :
  let me := GameWorld.objs w r in
  (firedBy (Player.id me) w ->
   let w' := combat dt w in
   Player.hp (GameWorld.objs w' r) = Player.hp me
   /\ Player.alive (GameWorld.objs w' r) = Player.alive me
   /\ Player.deaths (GameWorld.objs w' r) = Player.deaths me)
  /\ (forall proj directHitTargetId,
         Projectile.shooterId proj = Player.id me ->
         let w' := GameWorld.handleProjectileExplode proj directHitTargetId w in
         Player.hp (GameWorld.objs w' r) = Player.hp me
         /\ Player.alive (GameWorld.objs w' r) = Player.alive me
         /\ Player.deaths (GameWorld.objs w' r) = Player.deaths me)
  /\ (forall proj,
         Projectile.shooterId proj = Player.id me ->
         GameWorld.firstHit proj w <> Some r).
Proof.
  cbv zeta. split; [|split].
  - intros Hfb. pose proof (combat_own dt r w Hfb) as Hsp.
    unfold spared, condition in Hsp. injection Hsp as _ Halive Hhp Hdeaths.
    auto.
  - intros proj d Hown.
    destruct (handleProjectileExplode_spared proj d r w) as [Hsp _].
    { apply skipped_shooter. now rewrite Hown. }
    unfold spared, condition in Hsp. injection Hsp as _ Halive Hhp Hdeaths.
    auto.
  - intros proj Hown Hhit. unfold GameWorld.firstHit in Hhit.
    apply find_some in Hhit. destruct Hhit as [_ Htest].
    apply andb_true_iff in Htest. destruct Htest as [Htest _].
    apply andb_true_iff in Htest. destruct Htest as [_ Hother].
    rewrite Hown, Z.eqb_refl in Hother. discriminate Hother.
Qed.

(** A gunner whose shell comes down at its own feet, in binary64. *)
Definition gunner : Player.t F64.float := Player.new 1 "Ann".

Definition ownShell : Projectile.t F64.float :=
  Projectile.new 1 1 (Vec3.mk (of_Z 0) (dec 1 1) (of_Z 0))
    (Vec3.mk (of_Z 0) (of_Z (-10)) (of_Z 0)) PROJECTILE_TTL.

Definition rangeWorld : GameWorld.t F64.float :=
  GameWorld.mk 0 0 (fun _ => gunner) 1 [(1%Z, 0%nat)] [(1%Z, ownShell)]
    (generate testImports (of_Z 0)) SpawnManager.new 2 [] [].

Lemma own_shells_never_harm_their_shooter_witness :
  Player.hp
    (GameWorld.objs (combat (ndiv TICK_INTERVAL (of_Z 1000)) rangeWorld) 0)
  = TANK_MAX_HP
  /\ GameWorld.projectiles
       (GameWorld.purgeProjectiles
          (combat (ndiv TICK_INTERVAL (of_Z 1000)) rangeWorld)) = [].
Proof.
  split; [|vm_compute; reflexivity].
  destruct (own_shells_never_harm_their_shooter
              (ndiv TICK_INTERVAL (of_Z 1000)) rangeWorld 0) as [Hsafe _].
  apply Hsafe. repeat constructor.
Defined.

(** X17.  A direct hit costs its target the damage of one hit, once:
    after [handleDirectHit] the target's health and alive flag are those
    that [takeDamage(DIRECT_HIT_DAMAGE)] gives it, its death count has
    grown by one exactly when that call reported the death, and the
    splash of the same shell has not touched it; the projectile is stored
    inactive. *)
Theorem direct_hit_damages_its_target_once {num : Type} `{JSNumber num}
    (proj : Projectile.t num) (target : nat) (w : GameWorld.t num) :
  let before := GameWorld.objs w target in
  let hit := Player.takeDamage DIRECT_HIT_DAMAGE before in
  let w' := GameWorld.handleDirectHit proj target w in
  Player.hp (GameWorld.objs w' target) = Player.hp (snd hit)
  /\ Player.alive (GameWorld.objs w' target) = Player.alive (snd hit)
  /\ Player.deaths (GameWorld.objs w' target)
     = (Player.deaths before + if fst hit then 1 else 0)%nat
  /\ Player.id (GameWorld.objs w' target) = Player.id before
  /\ JSMap.get (Projectile.id proj) (GameWorld.projectiles w')
     = Some (Projectile.set_active false proj).
Proof.
  cbv zeta. unfold GameWorld.handleDirectHit. cbv zeta.
  set (proj' := Projectile.set_active false proj).
  set (w1 := GameWorld.pushEvent _ (GameWorld.storeProjectile proj' w)).
  set (w2 := match JSMap.get _ (GameWorld.players w1) with
             | Some shooter => GameWorld.modify shooter _ w1
             | None => w1
             end).
  assert (H2 : spared target w w2
               /\ GameWorld.projectiles w2 = GameWorld.projectiles w1).
  { subst w2. destruct (JSMap.get _ (GameWorld.players w1));
      [|split; reflexivity].
    split; [|reflexivity].
    apply (spared_trans target w w1); [reflexivity|].
    apply modify_spared. intros p. reflexivity. }
  destruct H2 as [Hsp2 Hpr2].
  unfold spared, condition in Hsp2.
  injection Hsp2 as Hid2 Halive2 Hhp2 Hdeaths2.
  destruct (takeDamage_condition DIRECT_HIT_DAMAGE
              (GameWorld.objs w2 target) (GameWorld.objs w target)
              Halive2 Hhp2) as (Hdied & Halive & Hhp).
  pose proof (takeDamage_frame DIRECT_HIT_DAMAGE (GameWorld.objs w2 target))
    as Hframe.
  cbv zeta in Hframe. destruct Hframe as (Hfid & _ & _ & Hfdeaths & _).
  destruct (Player.takeDamage DIRECT_HIT_DAMAGE (GameWorld.objs w2 target))
    as [died target'].
  cbn [fst snd] in Hdied, Halive, Hhp, Hfid, Hfdeaths.
  set (w3 := GameWorld.store target target' w2).
  assert (Hobj3 : GameWorld.objs w3 target = target')
    by (subst w3; unfold GameWorld.store; apply objs_modify_same).
  set (w4 := if died
             then GameWorld.handleDeath target
                    (Projectile.shooterId proj') w3
             else w3).
  assert (H4 : Player.id (GameWorld.objs w4 target) = Player.id target'
               /\ Player.alive (GameWorld.objs w4 target)
                  = Player.alive target'
               /\ Player.hp (GameWorld.objs w4 target) = Player.hp target'
               /\ Player.deaths (GameWorld.objs w4 target)
                  = (Player.deaths target' + if died then 1 else 0)%nat
               /\ GameWorld.projectiles w4 = GameWorld.projectiles w1).
  { subst w4. destruct died.
    - destruct (handleDeath_effect target (Projectile.shooterId proj') w3)
        as (_ & _ & _ & Hobjs).
      destruct (Hobjs target) as (Hi & Ha & Hh & Hd & _).
      rewrite Hi, Ha, Hh, Hd, Hobj3, Nat.eqb_refl, handleDeath_projectiles.
      repeat split. exact Hpr2.
    - rewrite Hobj3, Nat.add_0_r. repeat split. exact Hpr2. }
  destruct H4 as (Hi4 & Ha4 & Hh4 & Hd4 & Hpr4).
  destruct (handleProjectileExplode_spared proj'
              (Some (Player.id (GameWorld.objs w4 target))) target w4)
    as [Hsp Hprojs].
  { unfold skipped. rewrite Z.eqb_refl. now rewrite orb_true_r. }
  unfold spared, condition in Hsp. injection Hsp as Hi5 Ha5 Hh5 Hd5.
  split; [now rewrite Hh5, Hh4|]. split; [now rewrite Ha5, Ha4|].
  split; [now rewrite Hd5, Hd4, Hfdeaths, Hdeaths2, Hdied|].
  split; [now rewrite Hi5, Hi4, Hfid|].
  rewrite Hprojs, Hpr4.
  subst w1. unfold GameWorld.pushEvent, GameWorld.storeProjectile.
  cbn [GameWorld.projectiles GameWorld.set_pendingEvents
       GameWorld.set_projectiles].
  change (Projectile.id proj) with (Projectile.id proj').
  apply get_set_same.
Qed.

(* ================================================================== *)
(** * Further properties: the spawn selector *)
(* ================================================================== *)

Section BestCandidates.
Local Open Scope R_scope.
Import MapGenerator.

(** How many elements of a list satisfy a test. *)
Definition howMany {A} (f : A -> bool) (l : list A) : nat :=
  List.length (filter f l).

(** The scores of a list do not increase along it. *)
Fixpoint descending (l : list (Vec3.t R * R)) : Prop :=
  match l with
  | [] => True
  | e :: l' => Forall (fun x => snd x <= snd e) l' /\ descending l'
  end.

Lemma insertByScore_howMany (f : Vec3.t R * R -> bool) (e : Vec3.t R * R)
    (l : list (Vec3.t R * R)) :
  howMany f (SpawnManager.insertByScore e l) = howMany f (e :: l).
Proof.
  unfold howMany. induction l as [|e' l IH]; [reflexivity|].
  cbn [SpawnManager.insertByScore].
  destruct (Rltb (snd e') (snd e)); [reflexivity|].
  cbn [filter] in *. destruct (f e'), (f e); cbn [List.length] in *; lia.
Qed.

Lemma sortByScore_howMany (f : Vec3.t R * R -> bool)
    (l : list (Vec3.t R * R)) :
  howMany f (SpawnManager.sortByScore l) = howMany f l.
Proof.
  unfold SpawnManager.sortByScore.
  assert (Hgen : forall acc,
             howMany f
               (fold_left (fun sorted e => SpawnManager.insertByScore e sorted)
                  l acc)
             = (howMany f l + howMany f acc)%nat).
  { induction l as [|e l IH]; intros acc; [reflexivity|].
    cbn [fold_left]. rewrite IH, insertByScore_howMany.
    unfold howMany. cbn [filter]. destruct (f e); cbn [List.length]; lia. }
  rewrite Hgen. unfold howMany. cbn. lia.
Qed.

Lemma insertByScore_descending (e : Vec3.t R * R)
    (l : list (Vec3.t R * R)) :
  descending l -> descending (SpawnManager.insertByScore e l).
Proof.
  induction l as [|e' l IH]; intros Hl.
  - cbn. auto.
  - cbn [SpawnManager.insertByScore].
    destruct Hl as [Hall Hl'].
    destruct (Rltb (snd e') (snd e)) eqn:Hcmp.
    + apply Rltb_true in Hcmp. cbn [descending]. split; [|split; assumption].
      constructor; [lra|].
      apply Forall_forall. intros x Hx.
      pose proof (proj1 (Forall_forall _ _) Hall x Hx). lra.
    + apply Rltb_false in Hcmp. cbn [descending]. split; [|now apply IH].
      apply Forall_forall. intros x Hx.
      apply insertByScore_In in Hx. destruct Hx as [->|Hx]; [exact Hcmp|].
      apply (proj1 (Forall_forall _ _) Hall x Hx).
Qed.

Lemma sortByScore_descending (l : list (Vec3.t R * R)) :
  descending (SpawnManager.sortByScore l).
Proof.
  unfold SpawnManager.sortByScore.
  assert (Hgen : forall acc,
             descending acc ->
             descending
               (fold_left (fun sorted e => SpawnManager.insertByScore e sorted)
                  l acc)).
  { induction l as [|e l IH]; intros acc Hacc; [exact Hacc|].
    cbn [fold_left]. apply IH. now apply insertByScore_descending. }
  apply Hgen. exact I.
Qed.

Lemma filter_none {A} (f : A -> bool) (l : list A) :
  (forall y, In y l -> f y = false) -> filter f l = [].
Proof.
  induction l as [|a l IH]; intros Hnone; [reflexivity|].
  cbn [filter]. rewrite (Hnone a (or_introl eq_refl)).
  apply IH. intros y Hy. apply Hnone. now right.
Qed.

(** In a list whose scores do not increase, fewer than [i + 1] elements
    score higher than the element at index [i]. *)
Lemma descending_better (l : list (Vec3.t R * R)) (i : nat)
    (x : Vec3.t R * R) :
  descending l -> nth_error l i = Some x ->
  (howMany (fun y => Rltb (snd x) (snd y)) l <= i)%nat.
Proof.
  revert i. induction l as [|e l IH]; intros i Hl Hnth.
  - destruct i; discriminate Hnth.
  - destruct Hl as [Hall Hl']. destruct i as [|i].
    + cbn in Hnth. injection Hnth as ->.
      unfold howMany. cbn [filter].
      rewrite (proj2 (Rltb_false (snd x) (snd x))) by lra.
      assert (Hnone : filter (fun y => Rltb (snd x) (snd y)) l = []).
      { apply filter_none. intros y Hy.
        apply Rltb_false. apply (proj1 (Forall_forall _ _) Hall y Hy). }
      rewrite Hnone. cbn. lia.
    + cbn in Hnth. specialize (IH i Hl' Hnth).
      unfold howMany in *. cbn [filter].
      destruct (Rltb (snd x) (snd e)); cbn [List.length]; lia.
Qed.

Lemma nth_error_firstn_Some {A} (n i : nat) (l : list A) (x : A) :
  nth_error (firstn n l) i = Some x -> (i < n)%nat /\ nth_error l i = Some x.
Proof.
  revert i l. induction n as [|n IH]; intros i l Hnth.
  - cbn in Hnth. destruct i; discriminate Hnth.
  - destruct l as [|a l]; [destruct i; discriminate Hnth|].
    destruct i as [|i]; cbn in Hnth.
    + split; [lia|exact Hnth].
    + destruct (IH i l Hnth) as [Hlt Hx]. split; [lia|exact Hx].
Qed.

Lemma howMany_map {A B} (f : B -> bool) (g : A -> B) (l : list A) :
  howMany f (List.map g l) = howMany (fun a => f (g a)) l.
Proof.
  unfold howMany. induction l as [|a l IH]; [reflexivity|].
  cbn [List.map filter]. destruct (f (g a)); cbn [List.length]; lia.
Qed.

(** What [selectSpawnPoint] returns is one of its candidates, and fewer
    than [SPAWN_TOP_K] of the candidates score higher. *)
Lemma selectSpawnPoint_best (sm : SpawnManager.t R) (player : Player.t R)
    (enemies : list (Player.t R)) (map : GameMapData R) (p : Proc.t R)
    (pt : Vec3.t R) (sm' : SpawnManager.t R) (p' : Proc.t R) :
  SpawnManager.selectSpawnPoint sm player enemies map p
  = Some ((pt, sm'), p') ->
  exists candidates p1,
    SpawnManager.generateCandidates map p = Some (candidates, p1)
    /\ In pt candidates
    /\ let aliveEnemies :=
         filter (fun e => Player.alive e
                          && negb (Player.id e =? Player.id player)%Z)
           enemies in
       let score := fun c =>
         SpawnManager.scoreCandidate sm c aliveEnemies map in
       (howMany (fun c => Rltb (score pt) (score c)) candidates
        < SPAWN_TOP_K)%nat.
Proof.
  unfold SpawnManager.selectSpawnPoint. intros Hsel.
  apply bind_inv in Hsel. destruct Hsel as (cands & p1 & Hgen & Hsel).
  exists cands, p1. split; [exact Hgen|].
  cbv zeta in Hsel.
  apply bind_inv in Hsel. destruct Hsel as (r & p2 & Hr & Hsel).
  set (aliveEnemies := filter _ enemies) in *.
  set (score := fun c => SpawnManager.scoreCandidate sm c aliveEnemies map).
  set (scored := SpawnManager.sortByScore _) in Hsel.
  destruct (nth_error (firstn SPAWN_TOP_K scored) _) as [sel|] eqn:Hnth;
    [|discriminate Hsel].
  unfold Proc.ret in Hsel. injection Hsel as Hpt _ _.
  apply nth_error_firstn_Some in Hnth. destruct Hnth as [Hlt Hnth].
  assert (Hin : In sel (List.map (fun point => (point, score point)) cands)).
  { apply nth_error_In in Hnth. unfold scored in Hnth.
    now apply (proj1 (sortByScore_In _ _)) in Hnth. }
  apply (proj1 (in_map_iff _ _ _)) in Hin as (c & Hc & Hcin).
  assert (Hfst : fst sel = c) by now subst sel.
  assert (Hsnd : snd sel = score c) by now subst sel.
  rewrite Hfst in Hpt. subst c.
  split; [exact Hcin|]. cbv zeta.
  pose proof (descending_better scored _ sel
                (sortByScore_descending _) Hnth) as Hbetter.
  unfold scored in Hbetter.
  rewrite sortByScore_howMany, howMany_map in Hbetter.
  cbn [snd] in Hbetter. rewrite Hsnd in Hbetter.
  exact (Nat.le_lt_trans _ _ _ Hbetter Hlt).
Qed.

End BestCandidates.

(** X18.  The spawn point is one of the best candidates.  On a map with
    a spawn zone, at least 10 wide and deep, and with every
    [Math.random()] in [0, 1), [selectSpawnPoint] does not raise, and the
    point it returns is one of the candidates it generated such that
    fewer than [SPAWN_TOP_K] of these candidates score strictly higher
    (scores taken against the live enemies, with the history the manager
    had before the call). *)
Theorem selectSpawnPoint_picks_among_the_five_best
    (sm : SpawnManager.t R) (player : Player.t R)
    (enemies : list (Player.t R)) (map : MapGenerator.GameMapData R)
    (p : Proc.t R) :
  MapGenerator.spawnZones map <> [] ->
  (10 <= MapGenerator.width map)%R -> (10 <= MapGenerator.depth map)%R ->
  always unitInterval p ->
  exists candidates p1 pt sm' p',
    SpawnManager.generateCandidates map p = Some (candidates, p1)
    /\ SpawnManager.selectSpawnPoint sm player enemies map p
       = Some ((pt, sm'), p')
    /\ In pt candidates
    /\ let aliveEnemies :=
         filter (fun e => Player.alive e
                          && negb (Player.id e =? Player.id player)%Z)
           enemies in
       let score := fun c =>
         SpawnManager.scoreCandidate sm c aliveEnemies map in
       (howMany (fun c => Rltb (score pt) (score c)) candidates
        < SPAWN_TOP_K)%nat.
Proof.
  intros Hzones Hw Hd Hall.
  destruct (selectSpawnPoint_candidate unitInterval sm player enemies map p
              (fun r Hr => Hr) Hzones Hw Hd Hall)
    as (cands & p1 & pt & p' & Hgen & Hsel & _).
  destruct (selectSpawnPoint_best sm player enemies map p pt _ p' Hsel)
    as (cands' & p1' & Hgen' & Hin & Hbest).
  exists cands', p1', pt, (recorded sm pt), p'.
  split; [exact Hgen'|]. split; [exact Hsel|]. split; [exact Hin|exact Hbest].
Qed.

(** A map with one spawn zone around the origin, and a process whose
    [Math.random()] always returns 1/2. *)
Definition oneZoneMap : MapGenerator.GameMapData R :=
  MapGenerator.mkMap 400%R 400%R [] 0
    [] [MapGenerator.mkZone 0 (Vec3.mk 0%R 0%R 0%R) 25%R] 0%R.

Definition halfProc : Proc.t R := Proc.mk (fun _ => (1 / 2)%R) 0.

Definition rookie : Player.t R := Player.new 1 "Kim".

Lemma selectSpawnPoint_picks_among_the_five_best_witness :
  exists pt sm' p',
    SpawnManager.selectSpawnPoint SpawnManager.new rookie [] oneZoneMap
      halfProc = Some ((pt, sm'), p').
Proof.
  destruct (selectSpawnPoint_picks_among_the_five_best SpawnManager.new
              rookie [] oneZoneMap halfProc)
    as (cands & p1 & pt & sm' & p' & _ & Hsel & _).
  - discriminate.
  - cbn. lra.
  - cbn. lra.
  - intros n. unfold unitInterval. cbn. lra.
  - exists pt, sm', p'. exact Hsel.
Defined.

(* ================================================================== *)
(** * Further properties: movement in the world, over the reals *)
(* ================================================================== *)

Section MapBounds.
Local Open Scope R_scope.

(** The boundary clamp puts the position inside the half-extents. *)
Lemma clampToMap_range (halfW halfD : R) (p : Player.t R) :
  0 <= halfW -> 0 <= halfD ->
  let pos := Player.position (GameWorld.clampToMap halfW halfD p) in
  - halfW <= Vec3.x pos <= halfW /\ - halfD <= Vec3.z pos <= halfD.
Proof.
  intros Hw Hd. cbv zeta. unfold GameWorld.clampToMap. cbv zeta.
  change (@nltb R RNumber) with Rltb. change (@nopp R RNumber) with Ropp.
  destruct (Rltb (Vec3.x (Player.position p)) (- halfW)) eqn:Hx1;
    [|destruct (Rltb halfW (Vec3.x (Player.position p))) eqn:Hx2];
    cbn [fst snd];
    match goal with
    | |- context [Rltb (Vec3.z ?q) (- halfD)] =>
        destruct (Rltb (Vec3.z q) (- halfD)) eqn:Hz1;
          [|destruct (Rltb halfD (Vec3.z q)) eqn:Hz2]
    end;
    cbn [Player.position Player.set_position Player.set_velocity
         Vec3.x Vec3.z Vec3.set_x Vec3.set_z] in *;
    rewrite ?Rltb_true, ?Rltb_false in *; lra.
Qed.

Lemma tryFire_position (p : Player.t R) :
  Player.position (snd (Player.tryFire p)) = Player.position p.
Proof. unfold Player.tryFire. now destruct (_ || _). Qed.

End MapBounds.

(** X19.  Over the reals, whatever the physics step does: after
    [applyInput] the tank is inside the map (its x within half the width
    and its z within half the depth of the origin) and stands at the
    height that [getHeightAt] gives for its place; its
    [lastProcessedSeq] is the command's sequence number.  The pushes out
    of the covers come before the boundary clamp, so they cannot take it
    out of the map. *)
Theorem applyInput_keeps_tank_on_the_map (imports : Imports R)
    (r : nat) (input : InputCmd.t R) (dt : R) (w : GameWorld.t R) :
  (0 <= MapGenerator.width (GameWorld.map w))%R ->
  (0 <= MapGenerator.depth (GameWorld.map w))%R ->
  let w' := GameWorld.applyInput imports r input dt w in
  let pos := Player.position (GameWorld.objs w' r) in
  let halfW := (MapGenerator.width (GameWorld.map w) / 2)%R in
  let halfD := (MapGenerator.depth (GameWorld.map w) / 2)%R in
  (- halfW <= Vec3.x pos <= halfW)%R
  /\ (- halfD <= Vec3.z pos <= halfD)%R
  /\ Vec3.y pos
     = MapGenerator.getHeightAt (GameWorld.map w) (Vec3.x pos) (Vec3.z pos)
  /\ Player.lastProcessedSeq (GameWorld.objs w' r) = InputCmd.seq input.
Proof.
  intros Hw Hd. cbv zeta. unfold GameWorld.applyInput. cbv zeta.
  set (moved := fold_left _ _ _).
  change (@ndiv R RNumber) with Rdiv. change (@of_Z R RNumber 2) with 2%R.
  set (halfW := (MapGenerator.width (GameWorld.map w) / 2)%R).
  set (halfD := (MapGenerator.depth (GameWorld.map w) / 2)%R).
  destruct (clampToMap_range halfW halfD moved) as [Hx Hz];
    [unfold halfW; lra|unfold halfD; lra|].
  set (clamped := GameWorld.clampToMap halfW halfD moved) in *.
  assert (Hseq : Player.lastProcessedSeq clamped = InputCmd.seq input).
  { subst clamped. unfold GameWorld.clampToMap. cbv zeta.
    repeat match goal with
           | |- context [if ?c then _ else _] => destruct c
           end;
      cbn [Player.lastProcessedSeq Player.set_velocity Player.set_position];
      subst moved;
      (apply (fold_left_invariant
                (fun q => Player.lastProcessedSeq q = InputCmd.seq input));
       [intros q cover Hq; unfold GameWorld.pushOutOfCover; cbv zeta;
        destruct (_ && _); [exact Hq|exact Hq]
       |reflexivity]). }
  set (placed := Player.set_position _ clamped).
  assert (Hplaced : Player.position placed
                    = Vec3.set_y (Player.position clamped)
                        (GameWorld.terrain w
                           (Vec3.x (Player.position clamped))
                           (Vec3.z (Player.position clamped))))
    by reflexivity.
  assert (Hpseq : Player.lastProcessedSeq placed = InputCmd.seq input)
    by exact Hseq.
  assert (Hfinal : forall q : Player.t R,
            Player.position q = Player.position placed ->
            Player.lastProcessedSeq q = InputCmd.seq input ->
            (- halfW <= Vec3.x (Player.position q) <= halfW)%R
            /\ (- halfD <= Vec3.z (Player.position q) <= halfD)%R
            /\ Vec3.y (Player.position q)
               = MapGenerator.getHeightAt (GameWorld.map w)
                   (Vec3.x (Player.position q)) (Vec3.z (Player.position q))
            /\ Player.lastProcessedSeq q = InputCmd.seq input).
  { intros q Hq Hs. rewrite Hq, Hplaced.
    cbn [Vec3.x Vec3.y Vec3.z Vec3.set_y]. auto. }
  destruct (InputCmd.fire input).
  - pose proof (tryFire_position placed) as Hpos.
    assert (Hs : Player.lastProcessedSeq (snd (Player.tryFire placed))
                 = InputCmd.seq input).
    { unfold Player.tryFire. destruct (_ || _); exact Hpseq. }
    destruct (Player.tryFire placed) as [fired q]. cbn [snd] in Hpos, Hs.
    assert (Hobj : GameWorld.objs
                     (if fired
                      then GameWorld.spawnProjectile imports r
                             (GameWorld.store r q w)
                      else GameWorld.store r q w) r = q).
    { destruct fired; unfold GameWorld.store; apply objs_modify_same. }
    rewrite Hobj. now apply Hfinal.
  - unfold GameWorld.store. rewrite objs_modify_same. now apply Hfinal.
Qed.

(** Collaborators over the reals whose physics step leaves the tank as
    it is, and a world whose only tank stands 300 m east of the map. *)
Definition stillImports : Imports R :=
  mkImports (fun tank _ _ _ => tank) Physics.calculateMuzzleVelocity
    Physics.getMuzzlePosition Physics.getBarrelDirection
    (fun _ => oneZoneMap) (fun sm _ _ _ => Proc.ret (Vec3.zero, sm)).

Definition strayTank : Player.t R :=
  Player.set_position (Vec3.mk 500%R 0%R 0%R) rookie.

Definition strayWorld : GameWorld.t R :=
  GameWorld.mk 0 0 (fun _ => strayTank) 1 [(1%Z, 0%nat)] [] oneZoneMap
    SpawnManager.new 1 [] [].

Definition idleCmd : InputCmd.t R :=
  InputCmd.mk 2 1 false false false false 0%R 0%R false false 0%R.

Lemma applyInput_keeps_tank_on_the_map_witness :
  (Vec3.x (Player.position
             (GameWorld.objs
                (GameWorld.applyInput stillImports 0 idleCmd (1 / 60)%R
                   strayWorld) 0)) <= 200)%R.
Proof.
  destruct (applyInput_keeps_tank_on_the_map stillImports 0 idleCmd
              (1 / 60)%R strayWorld) as [[_ Hx] _].
  - cbn. lra.
  - cbn. lra.
  - cbn [strayWorld GameWorld.map oneZoneMap MapGenerator.width] in Hx. lra.
Defined.

Section Contact.
Local Open Scope R_scope.

(** The distance of two points in the horizontal plane. *)
Definition flatDistance (a b : Vec3.t R) : R :=
  sqrt ((Vec3.x b - Vec3.x a) * (Vec3.x b - Vec3.x a)
        + (Vec3.z b - Vec3.z a) * (Vec3.z b - Vec3.z a)).

(** An offset scaled to the length [m]. *)
Lemma scaled_offset (dx dz m : R) :
  0 < sqrt (dx * dx + dz * dz) -> 0 <= m ->
  sqrt ((dx * (m / sqrt (dx * dx + dz * dz)))
        * (dx * (m / sqrt (dx * dx + dz * dz)))
        + (dz * (m / sqrt (dx * dx + dz * dz)))
          * (dz * (m / sqrt (dx * dx + dz * dz)))) = m.
Proof.
  intros Hd Hm. set (d := sqrt (dx * dx + dz * dz)) in *.
  assert (Hsq : d * d = dx * dx + dz * dz).
  { subst d. apply sqrt_sqrt. nra. }
  replace (dx * (m / d) * (dx * (m / d)) + dz * (m / d) * (dz * (m / d)))
    with ((m / d) * (m / d) * (d * d)) by (rewrite Hsq; ring).
  replace (m / d * (m / d) * (d * d)) with (m * m) by (field; lra).
  now apply sqrt_square.
Qed.

(** A point moved along its offset from a centre, to the distance [m]. *)
Lemma push_distance (px cx pz cz m d : R) :
  d = sqrt ((px - cx) * (px - cx) + (pz - cz) * (pz - cz)) ->
  0 < d -> 0 <= m ->
  sqrt ((px + (px - cx) / d * (m - d) - cx)
        * (px + (px - cx) / d * (m - d) - cx)
        + (pz + (pz - cz) / d * (m - d) - cz)
          * (pz + (pz - cz) / d * (m - d) - cz)) = m.
Proof.
  intros Hd Hpos Hm.
  transitivity (sqrt ((px - cx) * (m / d) * ((px - cx) * (m / d))
                      + (pz - cz) * (m / d) * ((pz - cz) * (m / d)))).
  - f_equal. field. lra.
  - subst d. now apply scaled_offset.
Qed.

(** A velocity whose component along the offset has been removed, and
    one whose component along it points away. *)
Lemma inward_removed (vx vz dx dz d : R) :
  0 < d -> d * d = dx * dx + dz * dz ->
  (vx - (vx * (dx / d) + vz * (dz / d)) * (dx / d)) * dx
  + (vz - (vx * (dx / d) + vz * (dz / d)) * (dz / d)) * dz = 0.
Proof.
  intros Hd Hsq.
  replace ((vx - (vx * (dx / d) + vz * (dz / d)) * (dx / d)) * dx
           + (vz - (vx * (dx / d) + vz * (dz / d)) * (dz / d)) * dz)
    with ((vx * dx + vz * dz) * (d * d - (dx * dx + dz * dz)) / (d * d))
    by (field; lra).
  rewrite Hsq. unfold Rdiv. rewrite Rminus_diag, Rmult_0_r, Rmult_0_l. lra.
Qed.

Lemma outward_kept (vx vz dx dz d : R) :
  0 < d -> 0 <= vx * (dx / d) + vz * (dz / d) -> 0 <= vx * dx + vz * dz.
Proof.
  intros Hd Hout.
  replace (vx * dx + vz * dz) with (d * (vx * (dx / d) + vz * (dz / d)))
    by (field; lra).
  apply Rmult_le_pos; lra.
Qed.

End Contact.

(** X20.  Over the reals, a tank that overlaps a cover is put in contact
    with it.  When the horizontal distance [dist] between the tank and
    the cover's axis is above 0.001 and below
    [TANK_COLLISION_RADIUS + radius], [pushOutOfCover] leaves the tank at
    exactly that sum from the axis, at the terrain's height there, with no
    velocity toward the cover; otherwise it leaves the tank as it is. *)
Theorem pushOutOfCover_puts_tank_in_contact
    (terrainOf : R -> R -> R) (p : Player.t R)
    (cover : MapGenerator.CoverNode R) :
  let axis := MapGenerator.position cover in
  let dist := flatDistance axis (Player.position p) in
  let minDist := (TANK_COLLISION_RADIUS + MapGenerator.radius cover)%R in
  let q := GameWorld.pushOutOfCover terrainOf p cover in
  ((1 / 1000 < dist < minDist)%R ->
   flatDistance axis (Player.position q) = minDist
   /\ Vec3.y (Player.position q)
      = terrainOf (Vec3.x (Player.position q)) (Vec3.z (Player.position q))
   /\ (0 <= Vec3.x (Player.velocity q)
            * (Vec3.x (Player.position p) - Vec3.x axis)
            + Vec3.z (Player.velocity q)
              * (Vec3.z (Player.position p) - Vec3.z axis))%R)
  /\ ((dist <= 1 / 1000)%R \/ (minDist <= dist)%R -> q = p).
Proof.
  cbv zeta. unfold GameWorld.pushOutOfCover, flatDistance. cbv zeta.
  change (@nltb R RNumber) with Rltb. change (@nadd R RNumber) with Rplus.
  change (@nsub R RNumber) with Rminus. change (@nmul R RNumber) with Rmult.
  change (@ndiv R RNumber) with Rdiv. change (@Math_sqrt R RNumber) with sqrt.
  change (@of_Z R RNumber 0) with 0%R.
  replace (dec (num := R) 1 3) with (1 / 1000)%R
    by (rewrite dec_real; cbn; lra).
  set (dx := (Vec3.x (Player.position p)
              - Vec3.x (MapGenerator.position cover))%R).
  set (dz := (Vec3.z (Player.position p)
              - Vec3.z (MapGenerator.position cover))%R).
  set (dist := sqrt (dx * dx + dz * dz)).
  set (minDist := (TANK_COLLISION_RADIUS + MapGenerator.radius cover)%R).
  split.
  - intros [Hlo Hhi].
    rewrite (proj2 (Rltb_true dist minDist) Hhi).
    rewrite (proj2 (Rltb_true (1 / 1000) dist) Hlo). cbn [andb].
    assert (Hpos : (0 < dist)%R) by lra.
    split; [|split].
    + cbn [Player.position Player.set_position Player.set_velocity
           Vec3.x Vec3.z Vec3.set_y].
      apply (push_distance (Vec3.x (Player.position p))
               (Vec3.x (MapGenerator.position cover))
               (Vec3.z (Player.position p))
               (Vec3.z (MapGenerator.position cover)) minDist dist);
        [reflexivity|exact Hpos|lra].
    + reflexivity.
    + assert (Hsq : (dist * dist = dx * dx + dz * dz)%R).
      { unfold dist. apply sqrt_sqrt.
        pose proof (Rle_0_sqr dx). pose proof (Rle_0_sqr dz).
        unfold Rsqr in *. lra. }
      destruct (Rltb (Vec3.x (Player.velocity p) * (dx / dist)
                      + Vec3.z (Player.velocity p) * (dz / dist)) 0) eqn:Hdot;
        cbn [Player.velocity Player.set_velocity Player.set_position
             Vec3.x Vec3.z].
      * now rewrite (inward_removed _ _ dx dz dist Hpos Hsq); lra.
      * apply Rltb_false in Hdot. now apply (outward_kept _ _ dx dz dist).
  - intros Hout.
    destruct (Rltb dist minDist) eqn:Hhi; [|reflexivity].
    destruct (Rltb (1 / 1000) dist) eqn:Hlo; [|reflexivity].
    apply Rltb_true in Hhi, Hlo. lra.
Qed.

(** A tank 3 m east of the axis of a cover of radius 2. *)
Definition pillar : MapGenerator.CoverNode R :=
  MapGenerator.mkCover (Vec3.mk 0%R 0%R 0%R) 2%R 3%R.

Definition tankAtThree : Player.t R :=
  Player.set_position (Vec3.mk 3%R 0%R 0%R) rookie.

Lemma three_east (a : R) :
  sqrt ((a + 3 - a) * (a + 3 - a) + (0 - 0) * (0 - 0)) = 3%R.
Proof.
  replace ((a + 3 - a) * (a + 3 - a) + (0 - 0) * (0 - 0))%R
    with (3 * 3)%R by ring.
  apply sqrt_square. lra.
Qed.

Lemma pushOutOfCover_puts_tank_in_contact_witness :
  flatDistance (MapGenerator.position pillar)
    (Player.position
       (GameWorld.pushOutOfCover (fun _ _ => 0%R) tankAtThree pillar))
  = (TANK_COLLISION_RADIUS + 2)%R.
Proof.
  destruct (pushOutOfCover_puts_tank_in_contact (fun _ _ => 0%R) tankAtThree
              pillar) as [Hpush _].
  apply Hpush.
  assert (Hd : flatDistance (MapGenerator.position pillar)
                 (Player.position tankAtThree) = 3%R).
  { unfold flatDistance. cbn.
    replace (3 - 0)%R with (0 + 3 - 0)%R by ring. apply three_east. }
  rewrite Hd. cbn [pillar MapGenerator.radius].
  change (@nadd R RNumber) with Rplus.
  unfold TANK_COLLISION_RADIUS. rewrite dec_real. cbn. lra.
Defined.

Section Separation.
Local Open Scope R_scope.

(** Two points moved apart along their offset, each by half of what
    they lack to the distance [m]. *)
Lemma apart_distance (ax bx az bz m d : R) :
  d = sqrt ((bx - ax) * (bx - ax) + (bz - az) * (bz - az)) ->
  0 < d -> 0 <= m ->
  sqrt ((bx + (bx - ax) / d * ((m - d) / 2)
         - (ax - (bx - ax) / d * ((m - d) / 2)))
        * (bx + (bx - ax) / d * ((m - d) / 2)
           - (ax - (bx - ax) / d * ((m - d) / 2)))
        + (bz + (bz - az) / d * ((m - d) / 2)
           - (az - (bz - az) / d * ((m - d) / 2)))
          * (bz + (bz - az) / d * ((m - d) / 2)
             - (az - (bz - az) / d * ((m - d) / 2)))) = m.
Proof.
  intros Hd Hpos Hm.
  transitivity (sqrt ((bx - ax) * (m / d) * ((bx - ax) * (m / d))
                      + (bz - az) * (m / d) * ((bz - az) * (m / d)))).
  - f_equal. field. lra.
  - subst d. now apply scaled_offset.
Qed.

Lemma TANK_COLLISION_RADIUS_real : TANK_COLLISION_RADIUS (num := R) = 5 / 2.
Proof. unfold TANK_COLLISION_RADIUS. rewrite dec_real. cbn. lra. Qed.

End Separation.

(** X21.  Over the reals, two tanks that overlap are moved apart
    symmetrically until they touch.  When the horizontal distance [dist]
    between the tanks at [ra] and [rb] is above 0.001 and below
    [2 * TANK_COLLISION_RADIUS = 5], [separate] leaves them exactly 5
    apart, the middle between them where it was, each at the terrain's
    height, the first with no velocity toward the second and the second
    with none toward the first, and every other combatant as it was;
    otherwise it leaves the world as it is. *)
Theorem separate_leaves_tanks_touching (w : GameWorld.t R) (ra rb : nat) :
  let a := Player.position (GameWorld.objs w ra) in
  let b := Player.position (GameWorld.objs w rb) in
  let w' := GameWorld.separate w (ra, rb) in
  let a' := GameWorld.objs w' ra in
  let b' := GameWorld.objs w' rb in
  ((1 / 1000 < flatDistance a b < 5)%R ->
   flatDistance (Player.position a') (Player.position b') = 5%R
   /\ (Vec3.x (Player.position a') + Vec3.x (Player.position b')
       = Vec3.x a + Vec3.x b)%R
   /\ (Vec3.z (Player.position a') + Vec3.z (Player.position b')
       = Vec3.z a + Vec3.z b)%R
   /\ Vec3.y (Player.position a')
      = GameWorld.terrain w (Vec3.x (Player.position a'))
          (Vec3.z (Player.position a'))
   /\ Vec3.y (Player.position b')
      = GameWorld.terrain w (Vec3.x (Player.position b'))
          (Vec3.z (Player.position b'))
   /\ (Vec3.x (Player.velocity a') * (Vec3.x b - Vec3.x a)
       + Vec3.z (Player.velocity a') * (Vec3.z b - Vec3.z a) <= 0)%R
   /\ (0 <= Vec3.x (Player.velocity b') * (Vec3.x b - Vec3.x a)
            + Vec3.z (Player.velocity b') * (Vec3.z b - Vec3.z a))%R
   /\ (forall r, r <> ra -> r <> rb ->
         GameWorld.objs w' r = GameWorld.objs w r))
  /\ ((flatDistance a b <= 1 / 1000)%R \/ (5 <= flatDistance a b)%R ->
      w' = w).
Proof.
  cbv zeta. unfold GameWorld.separate, flatDistance. cbv zeta.
  change (@nltb R RNumber) with Rltb. change (@nadd R RNumber) with Rplus.
  change (@nsub R RNumber) with Rminus. change (@nmul R RNumber) with Rmult.
  change (@ndiv R RNumber) with Rdiv. change (@Math_sqrt R RNumber) with sqrt.
  change (@of_Z R RNumber 0) with 0%R. change (@of_Z R RNumber 2) with 2%R.
  replace (dec (num := R) 1 3) with (1 / 1000)%R
    by (rewrite dec_real; cbn; lra).
  rewrite TANK_COLLISION_RADIUS_real.
  replace (5 / 2 * 2)%R with 5%R by lra.
  set (dx := (Vec3.x (Player.position (GameWorld.objs w rb))
              - Vec3.x (Player.position (GameWorld.objs w ra)))%R).
  set (dz := (Vec3.z (Player.position (GameWorld.objs w rb))
              - Vec3.z (Player.position (GameWorld.objs w ra)))%R).
  set (dist := sqrt (dx * dx + dz * dz)).
  split.
  - intros [Hlo Hhi].
    rewrite (proj2 (Rltb_true dist 5) Hhi).
    rewrite (proj2 (Rltb_true (1 / 1000) dist) Hlo). cbn [andb].
    assert (Hpos : (0 < dist)%R) by lra.
    assert (Hne : ra <> rb).
    { intros Heq. unfold dist, dx, dz in Hpos. rewrite Heq in Hpos.
      rewrite !Rminus_diag, Rmult_0_l, Rplus_0_l, sqrt_0 in Hpos. lra. }
    assert (Hsq : (dist * dist = dx * dx + dz * dz)%R).
    { unfold dist. apply sqrt_sqrt.
      pose proof (Rle_0_sqr dx). pose proof (Rle_0_sqr dz).
      unfold Rsqr in *. lra. }
    rewrite objs_modify_same.
    rewrite (objs_modify_other rb ra) by exact Hne.
    rewrite objs_modify_same.
    rewrite (objs_modify_other ra rb) by (intros Heq; now apply Hne).
    cbn [Player.position Player.velocity Player.set_position
         Player.set_velocity Vec3.x Vec3.y Vec3.z Vec3.set_y].
    split.
    { apply (apart_distance
               (Vec3.x (Player.position (GameWorld.objs w ra)))
               (Vec3.x (Player.position (GameWorld.objs w rb)))
               (Vec3.z (Player.position (GameWorld.objs w ra)))
               (Vec3.z (Player.position (GameWorld.objs w rb))) 5 dist);
        [reflexivity|exact Hpos|lra]. }
    split; [ring|]. split; [ring|].
    split; [reflexivity|]. split; [reflexivity|]. split; [|split].
    + destruct (Rltb 0 (Vec3.x (Player.velocity (GameWorld.objs w ra))
                        * (dx / dist)
                        + Vec3.z (Player.velocity (GameWorld.objs w ra))
                          * (dz / dist))) eqn:Hdot; cbn [Vec3.x Vec3.z].
      * rewrite (inward_removed _ _ dx dz dist Hpos Hsq). lra.
      * apply Rltb_false in Hdot.
        pose proof (outward_kept
                      (- Vec3.x (Player.velocity (GameWorld.objs w ra)))
                      (- Vec3.z (Player.velocity (GameWorld.objs w ra)))
                      dx dz dist Hpos) as Hback.
        lra.
    + destruct (Rltb (Vec3.x (Player.velocity (GameWorld.objs w rb))
                      * (dx / dist)
                      + Vec3.z (Player.velocity (GameWorld.objs w rb))
                        * (dz / dist)) 0) eqn:Hdot; cbn [Vec3.x Vec3.z].
      * rewrite (inward_removed _ _ dx dz dist Hpos Hsq). lra.
      * apply Rltb_false in Hdot.
        now apply (outward_kept _ _ dx dz dist).
    + intros r Hra Hrb. now rewrite !objs_modify_other.
  - intros Hout.
    destruct (Rltb dist 5) eqn:Hhi; [|reflexivity].
    destruct (Rltb (1 / 1000) dist) eqn:Hlo; [|reflexivity].
    apply Rltb_true in Hhi, Hlo. lra.
Qed.

(** Two tanks 3 m apart on flat ground. *)
Definition jam : GameWorld.t R :=
  GameWorld.mk 0 0 (fun r => if (r =? 0)%nat then rookie else tankAtThree) 2
    [(1%Z, 0%nat); (2%Z, 1%nat)] [] oneZoneMap SpawnManager.new 1 [] [].

Lemma separate_leaves_tanks_touching_witness :
  flatDistance
    (Player.position (GameWorld.objs (GameWorld.separate jam (0, 1)%nat) 0))
    (Player.position (GameWorld.objs (GameWorld.separate jam (0, 1)%nat) 1))
  = 5%R.
Proof.
  destruct (separate_leaves_tanks_touching jam 0 1) as [Hapart _].
  apply Hapart.
  assert (Hd : flatDistance (Player.position (GameWorld.objs jam 0))
                 (Player.position (GameWorld.objs jam 1)) = 3%R).
  { unfold flatDistance. cbn.
    replace (3 - 0)%R with (0 + 3 - 0)%R by ring. apply three_east. }
  rewrite Hd. lra.
Defined.

(* ================================================================== *)
(** * Further properties: the terrain *)
(* ================================================================== *)

Section HeightFacts.
Local Open Scope R_scope.
Import MapGenerator.

Lemma Int_part_IZR (k : Z) : Int_part (IZR k) = k.
Proof.
  destruct (base_Int_part (IZR k)) as [Hle Hgt].
  assert (H1 : (Int_part (IZR k) <= k)%Z) by now apply le_IZR.
  assert (H2 : (k < Int_part (IZR k) + 1)%Z).
  { apply lt_IZR. rewrite plus_IZR. lra. }
  lia.
Qed.

(** The integer part of a number, against integer bounds. *)
Lemma Int_part_below (x : R) : x < 0 -> IZR (Int_part x) < 0.
Proof. intros Hx. destruct (base_Int_part x) as [Hle _]. lra. Qed.

Lemma Int_part_bounds (x : R) (n : Z) :
  0 <= x < IZR n -> (0 <= Int_part x < n)%Z.
Proof.
  intros [Hlo Hhi]. destruct (base_Int_part x) as [Hle Hgt]. split.
  - assert (H : (-1 < Int_part x)%Z) by (apply lt_IZR; lra). lia.
  - apply lt_IZR. lra.
Qed.

Lemma Int_part_above (x : R) (n : Z) : IZR n <= x -> IZR n <= IZR (Int_part x).
Proof.
  intros Hx. destruct (base_Int_part x) as [Hle Hgt].
  apply IZR_le. assert (H : (n < Int_part x + 1)%Z).
  { apply lt_IZR. rewrite plus_IZR. lra. }
  lia.
Qed.

(** A value interpolated between two others lies between them. *)
Lemma between (a b t : R) :
  0 <= t <= 1 -> Rmin a b <= a + (b - a) * t <= Rmax a b.
Proof.
  intros [H0 H1]. unfold Rmin, Rmax. destruct (Rle_dec a b); split; nra.
Qed.

(** The grid coordinate of [getHeightAt] along one axis. *)
Definition gridCoordinate (extent : R) (resolution : Z) (x : R) : R :=
  (x + extent / 2) / extent * (IZR resolution - 1).

Lemma gridCoordinate_sign (extent : R) (resolution : Z) (x : R) :
  0 < extent -> (2 <= resolution)%Z ->
  (x < - extent / 2 -> gridCoordinate extent resolution x < 0)
  /\ (extent / 2 <= x ->
      IZR (resolution - 1) <= gridCoordinate extent resolution x)
  /\ (- extent / 2 <= x < extent / 2 ->
      0 <= gridCoordinate extent resolution x < IZR (resolution - 1)).
Proof.
  intros Hext Hres. unfold gridCoordinate. rewrite minus_IZR.
  assert (Hr : 1 <= IZR resolution - 1).
  { apply IZR_le in Hres. lra. }
  assert (Hinv : 0 < / extent) by now apply Rinv_0_lt_compat.
  set (u := (x + extent / 2) / extent).
  assert (Hu : u * extent = x + extent / 2) by (unfold u; field; lra).
  split; [|split].
  - intros Hx. assert (u < 0) by nra. nra.
  - intros Hx. assert (1 <= u) by nra. nra.
  - intros [Hlo Hhi]. assert (0 <= u) by nra. assert (u < 1) by nra.
    split; nra.
Qed.

End HeightFacts.

(** X22.  Over the reals, on a map of positive width and depth with a
    grid of at least 2 by 2: [getHeightAt] is 0 at every point outside
    the map, and also on the two borders [x = width / 2] and
    [z = depth / 2]; at every other point it lies between the smallest
    and the largest of the four cells of the grid square that holds the
    point. *)
Theorem getHeightAt_zero_outside_and_between_cells
    (map : MapGenerator.GameMapData R) (x z : R) :
  (0 < MapGenerator.width map)%R -> (0 < MapGenerator.depth map)%R ->
  (2 <= MapGenerator.resolution map)%Z ->
  let halfW := (MapGenerator.width map / 2)%R in
  let halfD := (MapGenerator.depth map / 2)%R in
  let res := MapGenerator.resolution map in
  ((x < - halfW)%R \/ (halfW <= x)%R \/ (z < - halfD)%R \/ (halfD <= z)%R ->
   MapGenerator.getHeightAt map x z = 0%R)
  /\ ((- halfW <= x < halfW)%R -> (- halfD <= z < halfD)%R ->
      exists i j : Z,
        (0 <= i < res - 1)%Z /\ (0 <= j < res - 1)%Z
        /\ let h00 := MapGenerator.cell map (j * res + i) in
           let h10 := MapGenerator.cell map (j * res + i + 1) in
           let h01 := MapGenerator.cell map ((j + 1) * res + i) in
           let h11 := MapGenerator.cell map ((j + 1) * res + i + 1) in
           (Rmin (Rmin h00 h10) (Rmin h01 h11)
            <= MapGenerator.getHeightAt map x z
            <= Rmax (Rmax h00 h10) (Rmax h01 h11))%R).
Proof.
  intros Hw Hd Hres. cbv zeta.
  unfold MapGenerator.getHeightAt. cbv zeta.
  change (@Math_floor R RNumber) with Rfloor.
  change (@to_Z R RNumber) with Int_part.
  change (@nltb R RNumber) with Rltb. change (@nleb R RNumber) with Rleb.
  change (@nadd R RNumber) with Rplus. change (@nsub R RNumber) with Rminus.
  change (@nmul R RNumber) with Rmult. change (@ndiv R RNumber) with Rdiv.
  change (@of_Z R RNumber) with IZR.
  change ((x + MapGenerator.width map / 2) / MapGenerator.width map
          * (IZR (MapGenerator.resolution map) - 1))%R
    with (gridCoordinate (MapGenerator.width map)
            (MapGenerator.resolution map) x).
  change ((z + MapGenerator.depth map / 2) / MapGenerator.depth map
          * (IZR (MapGenerator.resolution map) - 1))%R
    with (gridCoordinate (MapGenerator.depth map)
            (MapGenerator.resolution map) z).
  set (gx := gridCoordinate (MapGenerator.width map)
               (MapGenerator.resolution map) x).
  set (gz := gridCoordinate (MapGenerator.depth map)
               (MapGenerator.resolution map) z).
  destruct (gridCoordinate_sign (MapGenerator.width map)
              (MapGenerator.resolution map) x Hw Hres)
    as (Hxlo & Hxhi & Hxin).
  destruct (gridCoordinate_sign (MapGenerator.depth map)
              (MapGenerator.resolution map) z Hd Hres)
    as (Hzlo & Hzhi & Hzin).
  fold gx in Hxlo, Hxhi, Hxin. fold gz in Hzlo, Hzhi, Hzin.
  rewrite minus_IZR in Hxhi, Hzhi.
  unfold Rfloor.
  split.
  - intros Hout.
    destruct (Rltb (IZR (Int_part gx)) 0
              || Rleb (IZR (MapGenerator.resolution map) - 1)
                   (IZR (Int_part gx))
              || Rltb (IZR (Int_part gz)) 0
              || Rleb (IZR (MapGenerator.resolution map) - 1)
                   (IZR (Int_part gz))) eqn:Hcond; [reflexivity|].
    apply orb_false_iff in Hcond. destruct Hcond as [Hcond Hc4].
    apply orb_false_iff in Hcond. destruct Hcond as [Hcond Hc3].
    apply orb_false_iff in Hcond. destruct Hcond as [Hc1 Hc2].
    apply Rltb_false in Hc1, Hc3. apply Rleb_false in Hc2, Hc4.
    destruct Hout as [Hx|[Hx|[Hz|Hz]]].
    + pose proof (Int_part_below gx (Hxlo ltac:(lra))). lra.
    + pose proof (Int_part_above gx (MapGenerator.resolution map - 1)) as Ha.
      rewrite minus_IZR in Ha. specialize (Ha (Hxhi Hx)). lra.
    + pose proof (Int_part_below gz (Hzlo ltac:(lra))). lra.
    + pose proof (Int_part_above gz (MapGenerator.resolution map - 1)) as Ha.
      rewrite minus_IZR in Ha. specialize (Ha (Hzhi Hz)). lra.
  - intros Hx Hz.
    assert (Hgx : (0 <= gx < IZR (MapGenerator.resolution map - 1))%R)
      by (apply Hxin; lra).
    assert (Hgz : (0 <= gz < IZR (MapGenerator.resolution map - 1))%R)
      by (apply Hzin; lra).
    pose proof (Int_part_bounds gx _ Hgx) as Hi.
    pose proof (Int_part_bounds gz _ Hgz) as Hj.
    exists (Int_part gx), (Int_part gz).
    split; [exact Hi|]. split; [exact Hj|].
    assert (Hc1 : Rltb (IZR (Int_part gx)) 0 = false).
    { apply Rltb_false. apply IZR_le. lia. }
    assert (Hc2 : Rleb (IZR (MapGenerator.resolution map) - 1)
                    (IZR (Int_part gx)) = false).
    { apply Rleb_false. rewrite <- minus_IZR. apply IZR_lt. lia. }
    assert (Hc3 : Rltb (IZR (Int_part gz)) 0 = false).
    { apply Rltb_false. apply IZR_le. lia. }
    assert (Hc4 : Rleb (IZR (MapGenerator.resolution map) - 1)
                    (IZR (Int_part gz)) = false).
    { apply Rleb_false. rewrite <- minus_IZR. apply IZR_lt. lia. }
    rewrite Hc1, Hc2, Hc3, Hc4. cbn [orb]. rewrite !Int_part_IZR.
    destruct (base_Int_part gx) as [Hfx1 Hfx2].
    destruct (base_Int_part gz) as [Hfz1 Hfz2].
    set (fx := (gx - IZR (Int_part gx))%R) in *.
    set (fz := (gz - IZR (Int_part gz))%R) in *.
    assert (Hfx : (0 <= fx <= 1)%R) by (unfold fx; lra).
    assert (Hfz : (0 <= fz <= 1)%R) by (unfold fz; lra).
    set (h00 := MapGenerator.cell map _).
    set (h10 := MapGenerator.cell map _).
    set (h01 := MapGenerator.cell map _).
    set (h11 := MapGenerator.cell map _).
    pose proof (between h00 h10 fx Hfx) as H0.
    pose proof (between h01 h11 fx Hfx) as H1.
    pose proof (between (h00 + (h10 - h00) * fx) (h01 + (h11 - h01) * fx)
                  fz Hfz) as Hh.
    pose proof (Rmin_l (Rmin h00 h10) (Rmin h01 h11)).
    pose proof (Rmin_r (Rmin h00 h10) (Rmin h01 h11)).
    pose proof (Rmax_l (Rmax h00 h10) (Rmax h01 h11)).
    pose proof (Rmax_r (Rmax h00 h10) (Rmax h01 h11)).
    pose proof (Rmin_l (h00 + (h10 - h00) * fx) (h01 + (h11 - h01) * fx)).
    pose proof (Rmin_r (h00 + (h10 - h00) * fx) (h01 + (h11 - h01) * fx)).
    pose proof (Rmax_l (h00 + (h10 - h00) * fx) (h01 + (h11 - h01) * fx)).
    pose proof (Rmax_r (h00 + (h10 - h00) * fx) (h01 + (h11 - h01) * fx)).
    assert (Hlow : (Rmin (Rmin h00 h10) (Rmin h01 h11)
                    <= Rmin (h00 + (h10 - h00) * fx)
                         (h01 + (h11 - h01) * fx))%R).
    { apply Rmin_glb; lra. }
    assert (Hhigh : (Rmax (h00 + (h10 - h00) * fx)
                       (h01 + (h11 - h01) * fx)
                     <= Rmax (Rmax h00 h10) (Rmax h01 h11))%R).
    { apply Rmax_lub; lra. }
    lra.
Qed.

(** A flat map of 400 by 400 with a grid of 2 by 2 at height 7. *)
Definition plateau : MapGenerator.GameMapData R :=
  MapGenerator.mkMap 400%R 400%R [7; 7; 7; 7]%R 2 [] [] 0%R.

Lemma getHeightAt_zero_outside_and_between_cells_witness :
  MapGenerator.getHeightAt plateau 200%R 0%R = 0%R.
Proof.
  destruct (getHeightAt_zero_outside_and_between_cells plateau 200%R 0%R)
    as [Hout _].
  - cbn. lra.
  - cbn. lra.
  - cbn. lia.
  - apply Hout. right. left. cbn. lra.
Defined.

Section CoverFacts.
Local Open Scope R_scope.
Import MapGenerator.

(** What [generateCovers] gives every cover: a place within 160 of the
    origin along each axis, at height 0, a radius from 2 to 5 and a
    height from 2 to 4. *)
Definition wellFormedCover (c : CoverNode R) : Prop :=
  - 160 <= Vec3.x (position c) <= 160
  /\ Vec3.y (position c) = 0
  /\ - 160 <= Vec3.z (position c) <= 160
  /\ 2 <= radius c <= 5
  /\ 2 <= height c <= 4.

Lemma coverLoop_wellFormed (count : nat) (s : R) :
  Forall wellFormedCover (fst (coverLoop count s)).
Proof.
  revert s. induction count as [|count IH]; intros s; cbn [coverLoop].
  - constructor.
  - pose proof (seededRandom_range s) as Hx.
    destruct (seededRandom s) as [rx s1].
    pose proof (seededRandom_range s1) as Hz.
    destruct (seededRandom s1) as [rz s2].
    pose proof (seededRandom_range s2) as Hr.
    destruct (seededRandom s2) as [rr s3].
    pose proof (seededRandom_range s3) as Hh.
    destruct (seededRandom s3) as [rh s4].
    specialize (IH s4). destruct (coverLoop count s4) as [rest s5].
    cbn [fst] in *. constructor; [|exact IH].
    unfold wellFormedCover.
    cbn [position radius height Vec3.x Vec3.y Vec3.z].
    unfold MAP_WIDTH, MAP_DEPTH. cbn [of_Z RNumber].
    repeat split; lra.
Qed.

End CoverFacts.

(** X23.  Over the reals, for every seed, every cover of the generated
    map stands on the ground within 160 m of the origin along each axis
    (the map reaches to 200), has a radius from 2 to 5 and a height from
    2 to 4. *)
Theorem generate_places_covers_inside_the_map (seed : R) :
  Forall wellFormedCover (MapGenerator.covers (MapGenerator.generate seed)).
Proof.
  destruct (generate_fields seed) as (_ & Hcov & _).
  cbv zeta in Hcov. rewrite Hcov.
  unfold MapGenerator.generateCovers.
  destruct (MapGenerator.seededRandom _) as [r s1].
  apply coverLoop_wellFormed.
Qed.

Section ZoneFacts.
Local Open Scope R_scope.
Import MapGenerator.

(** The point lies in the disc of the zone, seen from above. *)
Definition inZone (zone : SpawnZone R) (pt : Vec3.t R) : Prop :=
  flatDistance (center zone) pt <= zone_radius zone.

(** The disc of the zone lies inside the margin of 5 of the map. *)
Definition zoneInsideMargin (map : GameMapData R) (zone : SpawnZone R)
  : Prop :=
  0 <= zone_radius zone
  /\ - width map / 2 + 5 <= Vec3.x (center zone) - zone_radius zone
  /\ Vec3.x (center zone) + zone_radius zone <= width map / 2 - 5
  /\ - depth map / 2 + 5 <= Vec3.z (center zone) - zone_radius zone
  /\ Vec3.z (center zone) + zone_radius zone <= depth map / 2 - 5.

Lemma clamp_identity (lo hi x : R) :
  lo <= x <= hi -> Rmax lo (Rmin hi x) = x.
Proof.
  intros [Hlo Hhi]. unfold Rmax, Rmin.
  destruct (Rle_dec hi x); destruct (Rle_dec lo _); lra.
Qed.

(** A point at the polar coordinates [(r, angle)] around a centre. *)
Lemma polar_distance (angle r : R) :
  0 <= r ->
  sqrt ((cos angle * r) * (cos angle * r) + (sin angle * r) * (sin angle * r))
  = r.
Proof.
  intros Hr.
  replace ((cos angle * r) * (cos angle * r)
           + (sin angle * r) * (sin angle * r))
    with (r * r * (sin angle * sin angle + cos angle * cos angle)) by ring.
  pose proof (sin2_cos2 angle) as Hone. unfold Rsqr in Hone.
  rewrite Hone, Rmult_1_r. now apply sqrt_square.
Qed.

Lemma zoneCandidates_inside (map : GameMapData R) (zone : SpawnZone R)
    (n : nat) (p : Proc.t R) :
  zoneInsideMargin map zone -> always unitInterval p ->
  exists l p',
    SpawnManager.zoneCandidates map zone n p = Some (l, p')
    /\ always unitInterval p' /\ Forall (inZone zone) l.
Proof.
  intros (Hrad & Hx1 & Hx2 & Hz1 & Hz2). revert p.
  induction n as [|n IH]; intros p Hall.
  - exists [], p. cbn. unfold Proc.ret. auto.
  - cbn [SpawnManager.zoneCandidates].
    destruct (Math_random_always unitInterval p Hall)
      as (ra & p1 & Hra & _ & Hall1).
    destruct (Math_random_always unitInterval p1 Hall1)
      as (rr & p2 & Hrr & Hunit & Hall2).
    destruct (IH p2 Hall2) as (l & p3 & Hl & Hall3 & Hforall).
    rewrite (bind_Some _ _ _ _ _ Hra), (bind_Some _ _ _ _ _ Hrr).
    cbn zeta. rewrite (bind_Some _ _ _ _ _ Hl). unfold Proc.ret.
    eexists. eexists. split; [reflexivity|].
    split; [exact Hall3|]. constructor; [|exact Hforall].
    unfold inZone, flatDistance. cbn [Vec3.x Vec3.z].
    set (angle := ra * PI * 2). set (r := rr * zone_radius zone).
    destruct Hunit as [Hr0 Hr1].
    assert (Hr : 0 <= r <= zone_radius zone) by (unfold r; split; nra).
    pose proof (COS_bound angle) as Hcos. pose proof (SIN_bound angle) as Hsin.
    assert (Hcr : - zone_radius zone <= cos angle * r <= zone_radius zone)
      by (split; nra).
    assert (Hsr : - zone_radius zone <= sin angle * r <= zone_radius zone)
      by (split; nra).
    rewrite !clamp_identity by lra.
    replace (Vec3.x (center zone) + cos angle * r - Vec3.x (center zone))
      with (cos angle * r) by ring.
    replace (Vec3.z (center zone) + sin angle * r - Vec3.z (center zone))
      with (sin angle * r) by ring.
    rewrite polar_distance; lra.
Qed.

Lemma allCandidates_inside (map : GameMapData R) (zones : list (SpawnZone R))
    (n : nat) (p : Proc.t R) :
  Forall (zoneInsideMargin map) zones -> always unitInterval p ->
  exists l p',
    SpawnManager.allCandidates map zones n p = Some (l, p')
    /\ always unitInterval p'
    /\ Forall (fun pt => Exists (fun zone => inZone zone pt) zones) l.
Proof.
  intros Hzones. revert p.
  induction Hzones as [|zone zones Hzone Hzones IH]; intros p Hall.
  - exists [], p. cbn. unfold Proc.ret. auto.
  - cbn [SpawnManager.allCandidates].
    destruct (zoneCandidates_inside map zone n p Hzone Hall)
      as (here & p1 & Hhere & Hall1 & Hfor1).
    destruct (IH p1 Hall1) as (rest & p2 & Hrest & Hall2 & Hfor2).
    rewrite (bind_Some _ _ _ _ _ Hhere), (bind_Some _ _ _ _ _ Hrest).
    unfold Proc.ret.
    eexists. eexists. split; [reflexivity|].
    split; [exact Hall2|]. apply Forall_app. split.
    + apply Forall_forall. intros pt Hpt. apply Exists_cons_hd.
      apply (proj1 (Forall_forall _ _) Hfor1 pt Hpt).
    + apply Forall_forall. intros pt Hpt. apply Exists_cons_tl.
      apply (proj1 (Forall_forall _ _) Hfor2 pt Hpt).
Qed.

Lemma generateCandidates_zones (map : GameMapData R) (p : Proc.t R) :
  SpawnManager.generateCandidates map p
  = SpawnManager.allCandidates map (spawnZones map)
      (SpawnManager.ceilDiv SPAWN_CANDIDATE_COUNT
         (List.length (spawnZones map))) p.
Proof. reflexivity. Qed.

(** The eight zones of a generated map lie inside its margin. *)
Lemma generated_zones_inside (seed : R) :
  Forall (zoneInsideMargin (generate seed)) (spawnZones (generate seed)).
Proof.
  rewrite generate_spawnZones. unfold zoneInsideMargin.
  rewrite generate_width, generate_depth.
  unfold generateSpawnZones, MAP_WIDTH, MAP_DEPTH.
  cbn [of_Z RNumber zone_radius center Vec3.x Vec3.z].
  repeat (apply Forall_cons;
          [cbn [zone_radius center Vec3.x Vec3.z]; repeat split; lra|]).
  apply Forall_nil.
Qed.

End ZoneFacts.

(** X24.  Over the reals, on the map generated from any seed and with
    every [Math.random()] in [0, 1): [selectSpawnPoint] does not raise
    and returns a point inside one of the eight spawn zones (at most the
    zone's radius of 25 from its centre, seen from above).  The zones lie
    inside the margin of the map, so the clamp of [generateCandidates]
    never moves a candidate there. *)
Theorem selectSpawnPoint_returns_a_point_in_a_spawn_zone
    (seed : R) (sm : SpawnManager.t R) (player : Player.t R)
    (enemies : list (Player.t R)) (p : Proc.t R) :
  always unitInterval p ->
  exists pt sm' p',
    SpawnManager.selectSpawnPoint sm player enemies
      (MapGenerator.generate seed) p = Some ((pt, sm'), p')
    /\ Exists (fun zone => inZone zone pt) MapGenerator.generateSpawnZones
    /\ Forall (fun zone => MapGenerator.zone_radius zone = 25%R)
         MapGenerator.generateSpawnZones.
Proof.
  intros Hall.
  destruct (selectSpawnPoint_candidate unitInterval sm player enemies
              (MapGenerator.generate seed) p (fun r Hr => Hr)
              (generate_has_zones seed) (generate_wide seed)
              (generate_deep seed) Hall)
    as (cands & p1 & pt & p' & Hgen & Hsel & Hin & _).
  exists pt, (recorded sm pt), p'. split; [exact Hsel|]. split.
  - rewrite generateCandidates_zones in Hgen.
    destruct (allCandidates_inside (MapGenerator.generate seed)
                (MapGenerator.spawnZones (MapGenerator.generate seed))
                (SpawnManager.ceilDiv SPAWN_CANDIDATE_COUNT
                   (List.length
                      (MapGenerator.spawnZones (MapGenerator.generate seed))))
                p (generated_zones_inside seed) Hall)
      as (l & p2 & Hl & _ & Hfor).
    rewrite Hgen in Hl. injection Hl as <- _.
    rewrite <- (generate_spawnZones seed).
    apply (proj1 (Forall_forall _ _) Hfor pt Hin).
  - unfold MapGenerator.generateSpawnZones.
    repeat (apply Forall_cons; [reflexivity|]). apply Forall_nil.
Qed.

Lemma halfProc_unitInterval : always unitInterval halfProc.
Proof. intros n. unfold unitInterval. cbn. lra. Qed.

Lemma selectSpawnPoint_returns_a_point_in_a_spawn_zone_witness :
  exists pt sm' p',
    SpawnManager.selectSpawnPoint SpawnManager.new rookie []
      (MapGenerator.generate 42%R) halfProc = Some ((pt, sm'), p')
    /\ Exists (fun zone => inZone zone pt) MapGenerator.generateSpawnZones.
Proof.
  destruct (selectSpawnPoint_returns_a_point_in_a_spawn_zone 42%R
              SpawnManager.new rookie [] halfProc halfProc_unitInterval)
    as (pt & sm' & p' & Hsel & Hzone & _).
  exists pt, sm', p'. split; assumption.
Defined.

(* ================================================================== *)
(** * Further properties: the projectiles of a world *)
(* ================================================================== *)

Section Shelf.
Context {num : Type} `{JSNumber num}.
Variable imports : Imports num.
Local Open Scope num_scope.

(** The bookkeeping of the projectiles: the map, the id counter and the
    tick counter. *)
Definition shelf (w : GameWorld.t num)
  : JSMap.t (Projectile.t num) * Z * Z :=
  (GameWorld.projectiles w, GameWorld.nextProjectileId w,
   GameWorld.currentTick w).

(** Every projectile is stored once, under its own id, and its id is
    below the counter. *)
Definition shelved (w : GameWorld.t num) : Prop :=
  NoDup (JSMap.keys (GameWorld.projectiles w))
  /\ Forall (fun e : Z * Projectile.t num =>
               fst e = Projectile.id (snd e)
               /\ (fst e < GameWorld.nextProjectileId w)%Z)
       (GameWorld.projectiles w).

(** [w'] has the projectiles of [w], under the same ids, possibly in
    another state. *)
Definition kept (w w' : GameWorld.t num) : Prop :=
  shelved w'
  /\ GameWorld.nextProjectileId w' = GameWorld.nextProjectileId w
  /\ GameWorld.currentTick w' = GameWorld.currentTick w
  /\ JSMap.keys (GameWorld.projectiles w')
     = JSMap.keys (GameWorld.projectiles w).

(** [w'] continues [w]: the counter has not gone back, and an id in use
    in [w'] was in use in [w] or was not yet given out. *)
Definition continues (w w' : GameWorld.t num) : Prop :=
  shelved w'
  /\ (GameWorld.nextProjectileId w <= GameWorld.nextProjectileId w')%Z
  /\ GameWorld.currentTick w' = GameWorld.currentTick w
  /\ forall k,
       In k (JSMap.keys (GameWorld.projectiles w')) ->
       In k (JSMap.keys (GameWorld.projectiles w))
       \/ (GameWorld.nextProjectileId w <= k)%Z.

Lemma shelved_shelf (w w' : GameWorld.t num) :
  shelf w' = shelf w -> shelved w -> shelved w'.
Proof.
  unfold shelf, shelved. intros Heq. injection Heq as Hp Hn _.
  now rewrite Hp, Hn.
Qed.

Lemma kept_refl (w : GameWorld.t num) : shelved w -> kept w w.
Proof. intros Hw. repeat split; try reflexivity; apply Hw. Qed.

Lemma kept_trans (w1 w2 w3 : GameWorld.t num) :
  kept w1 w2 -> kept w2 w3 -> kept w1 w3.
Proof.
  intros (_ & Hn1 & Ht1 & Hk1) (Hs & Hn2 & Ht2 & Hk2).
  split; [exact Hs|]. split; [congruence|]. split; congruence.
Qed.

Lemma kept_shelf (w w1 w2 : GameWorld.t num) :
  kept w w1 -> shelf w2 = shelf w1 -> kept w w2.
Proof.
  intros (Hs & Hn & Ht & Hk) Heq.
  pose proof (shelved_shelf w1 w2 Heq Hs) as Hs2.
  unfold shelf in Heq. injection Heq as Hp Hn' Ht'.
  split; [exact Hs2|]. rewrite Hp, Hn', Ht'. auto.
Qed.

Lemma kept_continues (w w' : GameWorld.t num) : kept w w' -> continues w w'.
Proof.
  intros (Hs & Hn & Ht & Hk). split; [exact Hs|]. split; [lia|].
  split; [exact Ht|]. intros k Hin. left. now rewrite <- Hk.
Qed.

Lemma continues_trans (w1 w2 w3 : GameWorld.t num) :
  continues w1 w2 -> continues w2 w3 -> continues w1 w3.
Proof.
  intros (_ & Hn1 & Ht1 & Hk1) (Hs & Hn2 & Ht2 & Hk2).
  split; [exact Hs|]. split; [lia|]. split; [congruence|].
  intros k Hin. destruct (Hk2 k Hin) as [Hold|Hnew].
  - now apply Hk1.
  - right. lia.
Qed.

(** ** Steps that do not touch the projectiles *)

Lemma modify_shelf (r : nat) (f : Player.t num -> Player.t num)
    (w : GameWorld.t num) :
  shelf (GameWorld.modify r f w) = shelf w.
Proof. reflexivity. Qed.

Lemma pushEvent_shelf (e : GameEvent num) (w : GameWorld.t num) :
  shelf (GameWorld.pushEvent e w) = shelf w.
Proof. reflexivity. Qed.

Lemma handleDeath_shelf (v : nat) (killerId : Z) (w : GameWorld.t num) :
  shelf (GameWorld.handleDeath v killerId w) = shelf w.
Proof.
  unfold GameWorld.handleDeath. cbv zeta.
  destruct (JSMap.get killerId _); reflexivity.
Qed.

Lemma splashOne_shelf (proj : Projectile.t num) (d : option Z)
    (w : GameWorld.t num) (r : nat) :
  shelf (GameWorld.splashOne proj d w r) = shelf w.
Proof.
  unfold GameWorld.splashOne. cbv zeta.
  destruct (negb _); [reflexivity|]. destruct (_ =? _)%Z; [reflexivity|].
  match goal with |- context [if ?c then w else _] => destruct c end;
    [reflexivity|].
  match goal with |- context [if ?c then _ else w] => destruct c end;
    [|reflexivity].
  destruct (Player.takeDamage _ _) as [died p'].
  destruct died; [|reflexivity]. now rewrite handleDeath_shelf.
Qed.

Lemma fold_shelf {A} (f : GameWorld.t num -> A -> GameWorld.t num)
    (l : list A) (w : GameWorld.t num) :
  (forall w a, shelf (f w a) = shelf w) -> shelf (fold_left f l w) = shelf w.
Proof.
  intros Hf. revert w. induction l as [|a l IH]; intros w; [reflexivity|].
  cbn [fold_left]. now rewrite IH, Hf.
Qed.

Lemma handleProjectileExplode_shelf (proj : Projectile.t num) (d : option Z)
    (w : GameWorld.t num) :
  shelf (GameWorld.handleProjectileExplode proj d w) = shelf w.
Proof.
  unfold GameWorld.handleProjectileExplode. cbv zeta.
  rewrite fold_shelf; [reflexivity|]. intros. apply splashOne_shelf.
Qed.

Lemma separate_shelf (w : GameWorld.t num) (ab : nat * nat) :
  shelf (GameWorld.separate w ab) = shelf w.
Proof.
  unfold GameWorld.separate. destruct ab as [ra rb]. cbv zeta.
  now destruct (_ && _).
Qed.

Lemma resolveTankTankCollisions_shelf (w : GameWorld.t num) :
  shelf (GameWorld.resolveTankTankCollisions w) = shelf w.
Proof.
  unfold GameWorld.resolveTankTankCollisions. cbv zeta.
  apply fold_shelf. apply separate_shelf.
Qed.

Lemma respawnAtSpawnPoint_shelf (r : nat) (w w' : GameWorld.t num)
    (pos : Vec3.t num) (p p' : Proc.t num) :
  GameWorld.respawnAtSpawnPoint imports r w p = Some ((pos, w'), p') ->
  shelf w' = shelf w.
Proof.
  unfold GameWorld.respawnAtSpawnPoint. intros Hrun.
  apply bind_inv in Hrun. destruct Hrun as ([spawnPos sm] & p1 & _ & Hrun).
  cbv zeta in Hrun.
  apply bind_inv in Hrun. destruct Hrun as (pl & p2 & _ & Hrun).
  unfold Proc.ret in Hrun. injection Hrun as _ <- _. reflexivity.
Qed.

Lemma respawnAll_shelf (refs : list nat) (w w' : GameWorld.t num)
    (p p' : Proc.t num) :
  GameWorld.respawnAll imports refs w p = Some (w', p') ->
  shelf w' = shelf w.
Proof.
  revert w p. induction refs as [|r refs IH]; intros w p Hrun.
  - cbn in Hrun. unfold Proc.ret in Hrun. now injection Hrun as <- _.
  - cbn [GameWorld.respawnAll] in Hrun.
    apply bind_inv in Hrun. destruct Hrun as ([pos w1] & p1 & Hone & Hrun).
    cbv zeta in Hrun. apply IH in Hrun. rewrite Hrun, pushEvent_shelf.
    now apply (respawnAtSpawnPoint_shelf r w w1 pos p p1).
Qed.

Lemma updateRespawnQueue_shelf (dtMs : num) (w w' : GameWorld.t num)
    (p p' : Proc.t num) :
  GameWorld.updateRespawnQueue imports dtMs w p = Some (w', p') ->
  shelf w' = shelf w.
Proof.
  unfold GameWorld.updateRespawnQueue. cbv zeta. intros Hrun.
  apply respawnAll_shelf in Hrun. exact Hrun.
Qed.

Lemma reloaded_shelf (w : GameWorld.t num) : shelf (reloaded w) = shelf w.
Proof. unfold reloaded. apply fold_shelf. intros. apply modify_shelf. Qed.

End Shelf.

Section ShelfSteps.
Context {num : Type} `{JSNumber num}.
Variable imports : Imports num.
Local Open Scope num_scope.

Lemma update_id (dt : num) (proj : Projectile.t num) :
  Projectile.id (Projectile.update dt proj) = Projectile.id proj.
Proof.
  unfold Projectile.update. destruct (negb _); [reflexivity|].
  now destruct (updateProjectile _ _ _).
Qed.

Lemma checkGroundHit_id (h : num -> num -> num) (proj : Projectile.t num) :
  Projectile.id (snd (Projectile.checkGroundHit h proj)) = Projectile.id proj.
Proof.
  unfold Projectile.checkGroundHit. destruct (negb _); [reflexivity|].
  cbv zeta. now destruct (nleb _ _).
Qed.

Lemma has_In {V} (k : Z) (m : JSMap.t V) :
  In k (JSMap.keys m) -> JSMap.has k m = true.
Proof.
  intros Hin. unfold JSMap.has.
  destruct (JSMap.get k m) eqn:Hget; [reflexivity|].
  apply get_None_keys in Hget. contradiction.
Qed.

(** A projectile of the world, found under [pid]. *)
Lemma shelved_get (w : GameWorld.t num) (pid : Z) (proj : Projectile.t num) :
  shelved w -> JSMap.get pid (GameWorld.projectiles w) = Some proj ->
  Projectile.id proj = pid
  /\ (pid < GameWorld.nextProjectileId w)%Z
  /\ In pid (JSMap.keys (GameWorld.projectiles w)).
Proof.
  intros [_ Hall] Hget. apply get_In in Hget.
  destruct (proj1 (Forall_forall _ _) Hall (pid, proj) Hget) as [Hid Hlt].
  cbn [fst snd] in Hid, Hlt. split; [now symmetry|]. split; [exact Hlt|].
  unfold JSMap.keys. apply (in_map fst _ _ Hget).
Qed.

(** Storing a projectile of the world again, in another state. *)
Lemma storeProjectile_kept (w : GameWorld.t num) (proj : Projectile.t num) :
  shelved w ->
  In (Projectile.id proj) (JSMap.keys (GameWorld.projectiles w)) ->
  (Projectile.id proj < GameWorld.nextProjectileId w)%Z ->
  kept w (GameWorld.storeProjectile proj w).
Proof.
  intros [Hnd Hall] Hin Hlt.
  assert (Hkeys : JSMap.keys (GameWorld.projectiles
                                (GameWorld.storeProjectile proj w))
                  = JSMap.keys (GameWorld.projectiles w)).
  { unfold GameWorld.storeProjectile.
    cbn [GameWorld.projectiles GameWorld.set_projectiles].
    rewrite keys_set, (has_In _ _ Hin). reflexivity. }
  split; [|split; [reflexivity|split; [reflexivity|exact Hkeys]]].
  split; [now rewrite Hkeys|].
  unfold GameWorld.storeProjectile.
  cbn [GameWorld.projectiles GameWorld.set_projectiles
       GameWorld.nextProjectileId].
  apply set_Forall; [|exact Hall]. cbn [fst snd]. split; [reflexivity|exact Hlt].
Qed.

(** Storing and exploding a projectile of the world. *)
Lemma explode_kept (w : GameWorld.t num) (proj : Projectile.t num)
    (d : option Z) :
  shelved w ->
  In (Projectile.id proj) (JSMap.keys (GameWorld.projectiles w)) ->
  (Projectile.id proj < GameWorld.nextProjectileId w)%Z ->
  kept w (GameWorld.handleProjectileExplode proj d
            (GameWorld.storeProjectile proj w)).
Proof.
  intros Hw Hin Hlt.
  apply (kept_shelf w (GameWorld.storeProjectile proj w));
    [now apply storeProjectile_kept|].
  apply handleProjectileExplode_shelf.
Qed.

Lemma coverLoop_kept (proj : Projectile.t num) (prev : Vec3.t num)
    (covers : list (MapGenerator.CoverNode num)) (w : GameWorld.t num) :
  shelved w ->
  In (Projectile.id proj) (JSMap.keys (GameWorld.projectiles w)) ->
  (Projectile.id proj < GameWorld.nextProjectileId w)%Z ->
  kept w (snd (GameWorld.coverLoop proj prev covers w)).
Proof.
  intros Hw Hin Hlt.
  induction covers as [|cover covers IH]; [now apply kept_refl|].
  cbn [GameWorld.coverLoop]. cbv zeta.
  match goal with |- context [if ?c then _ else _] => destruct c end.
  { cbn [snd]. now apply explode_kept. }
  match goal with |- context [if ?c then _ else _] => destruct c end;
    [exact IH|].
  match goal with |- context [if ?c then _ else _] => destruct c end;
    [exact IH|].
  match goal with |- context [match ?c with Some _ => _ | None => _ end] =>
    destruct c as [[t hitY]|] end; [|exact IH].
  cbn [snd]. now apply explode_kept.
Qed.

Lemma projectileStep_kept (dt : num) (pid : Z) (w : GameWorld.t num) :
  shelved w -> kept w (GameWorld.projectileStep dt w pid).
Proof.
  intros Hw. unfold GameWorld.projectileStep.
  destruct (JSMap.get pid (GameWorld.projectiles w)) as [proj|] eqn:Hget;
    [|now apply kept_refl].
  destruct (negb (Projectile.active proj)); [now apply kept_refl|].
  cbv zeta.
  destruct (shelved_get w pid proj Hw Hget) as (Hid & Hlt & Hin).
  pose proof (checkGroundHit_id (GameWorld.terrain w)
                (Projectile.update dt proj)) as Hid'.
  rewrite update_id, Hid in Hid'.
  destruct (Projectile.checkGroundHit _ _) as [grounded proj'].
  cbn [snd] in Hid'.
  destruct grounded.
  - apply explode_kept; [exact Hw|now rewrite Hid'|now rewrite Hid'].
  - unfold GameWorld.checkProjectileCoverCollision.
    assert (Hst : kept w (GameWorld.storeProjectile proj' w))
      by (apply storeProjectile_kept;
          [exact Hw|now rewrite Hid'|now rewrite Hid']).
    apply (kept_trans w _ _ Hst).
    destruct Hst as (Hs & Hn & _ & Hk).
    apply coverLoop_kept; [exact Hs|now rewrite Hk, Hid'|].
    rewrite Hn, Hid'. exact Hlt.
Qed.

Lemma handleDirectHit_kept (proj : Projectile.t num) (target : nat)
    (w : GameWorld.t num) :
  shelved w ->
  In (Projectile.id proj) (JSMap.keys (GameWorld.projectiles w)) ->
  (Projectile.id proj < GameWorld.nextProjectileId w)%Z ->
  kept w (GameWorld.handleDirectHit proj target w).
Proof.
  intros Hw Hin Hlt. unfold GameWorld.handleDirectHit. cbv zeta.
  set (proj' := Projectile.set_active false proj).
  assert (Hst : kept w (GameWorld.storeProjectile proj' w))
    by now apply storeProjectile_kept.
  set (w1 := GameWorld.pushEvent _ (GameWorld.storeProjectile proj' w)).
  set (w2 := match JSMap.get _ (GameWorld.players w1) with
             | Some shooter => GameWorld.modify shooter _ w1
             | None => w1
             end).
  assert (H2 : shelf w2 = shelf (GameWorld.storeProjectile proj' w)).
  { subst w2. now destruct (JSMap.get _ (GameWorld.players w1)). }
  destruct (Player.takeDamage DIRECT_HIT_DAMAGE (GameWorld.objs w2 target))
    as [died target'].
  apply (kept_shelf w _ _ Hst).
  rewrite handleProjectileExplode_shelf.
  destruct died; [rewrite handleDeath_shelf|]; exact H2.
Qed.

Lemma fold_kept {A} (f : GameWorld.t num -> A -> GameWorld.t num)
    (l : list A) (w : GameWorld.t num) :
  (forall w a, shelved w -> kept w (f w a)) ->
  shelved w -> kept w (fold_left f l w).
Proof.
  intros Hf. revert w. induction l as [|a l IH]; intros w Hw;
    [now apply kept_refl|].
  cbn [fold_left]. pose proof (Hf w a Hw) as Hone.
  apply (kept_trans w _ _ Hone). apply IH. apply Hone.
Qed.

Lemma checkAllCollisions_kept (w : GameWorld.t num) :
  shelved w -> kept w (GameWorld.checkAllCollisions w).
Proof.
  intros Hw. unfold GameWorld.checkAllCollisions.
  apply fold_kept; [|exact Hw].
  intros w1 pid Hw1.
  destruct (JSMap.get pid (GameWorld.projectiles w1)) as [proj|] eqn:Hget;
    [|now apply kept_refl].
  destruct (negb (Projectile.active proj)); [now apply kept_refl|].
  destruct (GameWorld.firstHit proj w1) as [target|]; [|now apply kept_refl].
  destruct (shelved_get w1 pid proj Hw1 Hget) as (Hid & Hlt & Hin).
  apply handleDirectHit_kept; [exact Hw1|now rewrite Hid|now rewrite Hid].
Qed.

(** The purge keeps the projectiles in flight, and only these. *)
Lemma purgeProjectiles_continues (w : GameWorld.t num) :
  shelved w ->
  continues w (GameWorld.purgeProjectiles w)
  /\ Forall (fun e : Z * Projectile.t num => Projectile.active (snd e) = true)
       (GameWorld.projectiles (GameWorld.purgeProjectiles w)).
Proof.
  intros [Hnd Hall]. unfold GameWorld.purgeProjectiles.
  cbn [GameWorld.projectiles GameWorld.set_projectiles].
  set (f := fun e : Z * Projectile.t num => Projectile.active (snd e)).
  assert (Hsub : forall k,
            In k (JSMap.keys (filter f (GameWorld.projectiles w))) ->
            In k (JSMap.keys (GameWorld.projectiles w))).
  { intros k Hin. unfold JSMap.keys in *.
    apply in_map_iff in Hin. destruct Hin as (e & He & Hin).
    apply filter_In in Hin. destruct Hin as [Hin _].
    apply in_map_iff. now exists e. }
  split.
  - split; [split|].
    + unfold JSMap.keys in *. clear Hall Hsub.
      induction (GameWorld.projectiles w) as [|e m IH]; [constructor|].
      cbn [filter List.map] in *. inversion Hnd as [|? ? Hnotin Hnd']; subst.
      destruct (f e); [|now apply IH].
      cbn [List.map]. constructor; [|now apply IH].
      intros Hin. apply Hnotin.
      apply in_map_iff in Hin. destruct Hin as (e' & He' & Hin).
      apply filter_In in Hin. destruct Hin as [Hin _].
      apply in_map_iff. now exists e'.
    + cbn [GameWorld.nextProjectileId GameWorld.set_projectiles].
      apply Forall_forall. intros e He. apply filter_In in He.
      apply (proj1 (Forall_forall _ _) Hall e (proj1 He)).
    + split; [reflexivity|]. split; [reflexivity|].
      intros k Hin. left. now apply Hsub.
  - apply Forall_forall. intros e He. apply filter_In in He. apply He.
Qed.

(** Firing: the new projectile takes the id at the counter. *)
Lemma spawnProjectile_continues (r : nat) (w : GameWorld.t num) :
  shelved w -> continues w (GameWorld.spawnProjectile imports r w).
Proof.
  intros [Hnd Hall]. unfold GameWorld.spawnProjectile. cbv zeta.
  set (proj := Projectile.new (GameWorld.nextProjectileId w) _ _ _ _).
  assert (Hfresh : ~ In (GameWorld.nextProjectileId w)
                     (JSMap.keys (GameWorld.projectiles w))).
  { intros Hin. unfold JSMap.keys in Hin.
    apply in_map_iff in Hin. destruct Hin as (e & He & Hin).
    destruct (proj1 (Forall_forall _ _) Hall e Hin) as [_ Hlt]. lia. }
  assert (Hhas : JSMap.has (GameWorld.nextProjectileId w)
                   (GameWorld.projectiles w) = false).
  { unfold JSMap.has.
    now rewrite (proj2 (get_None_keys _ _) Hfresh). }
  unfold continues, shelved, GameWorld.pushEvent, GameWorld.storeProjectile.
  cbn [GameWorld.projectiles GameWorld.nextProjectileId
       GameWorld.currentTick GameWorld.set_pendingEvents
       GameWorld.set_projectiles GameWorld.set_nextProjectileId].
  change (Projectile.id proj) with (GameWorld.nextProjectileId w).
  rewrite keys_set, Hhas.
  split; [split|].
  - apply NoDup_app; [exact Hnd|repeat constructor; intros []|].
    intros k Hk [Heq|[]]. subst k. contradiction.
  - apply set_Forall.
    + cbn [fst snd]. split; [reflexivity|lia].
    + apply Forall_forall. intros e He.
      destruct (proj1 (Forall_forall _ _) Hall e He) as [Hid Hlt].
      split; [exact Hid|lia].
  - split; [lia|]. split; [reflexivity|].
    intros k Hin. apply in_app_or in Hin. destruct Hin as [Hin|[<-|[]]].
    + now left.
    + right. lia.
Qed.

End ShelfSteps.

Section ShelfTick.
Context {num : Type} `{JSNumber num}.
Variable imports : Imports num.
Local Open Scope num_scope.

Lemma store_shelf (r : nat) (player : Player.t num) (w : GameWorld.t num) :
  shelf (GameWorld.store r player w) = shelf w.
Proof. reflexivity. Qed.

Lemma continues_shelf (w w1 w2 : GameWorld.t num) :
  shelf w1 = shelf w -> continues w1 w2 -> continues w w2.
Proof.
  unfold shelf, continues. intros Heq. injection Heq as Hp Hn Ht.
  now rewrite Hp, Hn, Ht.
Qed.

Lemma applyInput_continues (r : nat) (input : InputCmd.t num) (dt : num)
    (w : GameWorld.t num) :
  shelved w -> continues w (GameWorld.applyInput imports r input dt w).
Proof.
  intros Hw. unfold GameWorld.applyInput. cbv zeta.
  destruct (InputCmd.fire input).
  - destruct (Player.tryFire _) as [fired player].
    destruct fired.
    + apply (continues_shelf w (GameWorld.store r player w));
        [apply store_shelf|].
      apply spawnProjectile_continues.
      apply (shelved_shelf w); [apply store_shelf|exact Hw].
    + apply kept_continues.
      apply (kept_shelf w w); [now apply kept_refl|apply store_shelf].
  - apply kept_continues.
    apply (kept_shelf w w); [now apply kept_refl|apply store_shelf].
Qed.

Lemma inputStep_continues (dt : num) (w : GameWorld.t num) (r : nat) :
  shelved w -> continues w (GameWorld.inputStep imports dt w r).
Proof.
  intros Hw. unfold GameWorld.inputStep. cbv zeta.
  destruct (negb _); [now apply kept_continues, kept_refl|].
  destruct (Player.popInput _) as [[input|] player].
  - apply (continues_shelf w (GameWorld.store r player w));
      [apply store_shelf|].
    apply applyInput_continues.
    apply (shelved_shelf w); [apply store_shelf|exact Hw].
  - apply kept_continues.
    apply (kept_shelf w w); [now apply kept_refl|apply store_shelf].
Qed.

Lemma inputSteps_continues (dt : num) (refs : list nat)
    (w : GameWorld.t num) :
  shelved w ->
  continues w (fold_left (GameWorld.inputStep imports dt) refs w).
Proof.
  revert w. induction refs as [|r refs IH]; intros w Hw;
    [now apply kept_continues, kept_refl|].
  cbn [fold_left]. pose proof (inputStep_continues dt w r Hw) as Hone.
  apply (continues_trans w _ _ Hone). apply IH. apply Hone.
Qed.

(** The tick up to the respawns: the projectiles in flight, under ids
    that were in use or not yet given out. *)
Lemma beforeRespawns_continues (w : GameWorld.t num) :
  shelved w ->
  shelved (beforeRespawns imports w)
  /\ (GameWorld.nextProjectileId w
      <= GameWorld.nextProjectileId (beforeRespawns imports w))%Z
  /\ GameWorld.currentTick (beforeRespawns imports w)
     = (GameWorld.currentTick w + 1)%Z
  /\ (forall k,
        In k (JSMap.keys (GameWorld.projectiles (beforeRespawns imports w))) ->
        In k (JSMap.keys (GameWorld.projectiles w))
        \/ (GameWorld.nextProjectileId w <= k)%Z)
  /\ Forall (fun e : Z * Projectile.t num => Projectile.active (snd e) = true)
       (GameWorld.projectiles (beforeRespawns imports w)).
Proof.
  intros Hw. unfold beforeRespawns. cbv zeta.
  set (w0 := GameWorld.set_currentTick _ (GameWorld.set_pendingEvents [] w)).
  assert (H0 : shelved w0) by exact Hw.
  set (w1 := fold_left (GameWorld.inputStep imports _) _ w0).
  assert (H1 : continues w0 w1) by now apply inputSteps_continues.
  set (w2 := GameWorld.resolveTankTankCollisions w1).
  assert (H2 : continues w0 w2).
  { apply (continues_trans w0 w1 w2 H1). apply kept_continues.
    apply (kept_shelf w1 w1); [apply kept_refl, H1|].
    apply resolveTankTankCollisions_shelf. }
  set (w3 := fold_left (GameWorld.projectileStep _) _ w2).
  assert (H3 : continues w0 w3).
  { apply (continues_trans w0 w2 w3 H2). apply kept_continues.
    apply fold_kept; [intros; now apply projectileStep_kept|apply H2]. }
  set (w4 := GameWorld.checkAllCollisions w3).
  assert (H4 : continues w0 w4).
  { apply (continues_trans w0 w3 w4 H3). apply kept_continues.
    apply checkAllCollisions_kept, H3. }
  destruct (purgeProjectiles_continues w4 (proj1 H4)) as [H5 Hact].
  pose proof (continues_trans w0 w4 _ H4 H5) as (Hs & Hn & Ht & Hk).
  split; [exact Hs|]. split; [exact Hn|]. split; [exact Ht|].
  split; [exact Hk|exact Hact].
Qed.

End ShelfTick.

Section ShelfUpdate.
Context {num : Type} `{JSNumber num}.
Variable imports : Imports num.
Local Open Scope num_scope.

(** X25.  A tick keeps the bookkeeping of the projectiles.  In a
    world where every projectile is stored once, under its own id, and
    below the id counter: [update] returns when the spawn selector returns
    on the world's map and [Math.random()] keeps its contract; and
    whenever [update] returns, in the world after it the same holds; the
    counter has not gone back; an id in use was in use before the tick or
    is one the counter had not yet given out, so no id is used twice;
    every projectile still stored is active; and the tick counter is one
    more. *)
Theorem update_keeps_projectile_ids_unique (w : GameWorld.t num)
    (p : Proc.t num) :
  shelved w ->
  (spawnsOn imports (GameWorld.map w) -> fairProc p ->
   exists evs w' p',
     GameWorld.update imports w p = Some ((evs, w'), p') /\ fairProc p')
  /\ forall evs w' p',
       GameWorld.update imports w p = Some ((evs, w'), p') ->
       shelved w'
       /\ (GameWorld.nextProjectileId w <= GameWorld.nextProjectileId w')%Z
       /\ (forall k,
             In k (JSMap.keys (GameWorld.projectiles w')) ->
             In k (JSMap.keys (GameWorld.projectiles w))
             \/ (GameWorld.nextProjectileId w <= k)%Z)
       /\ Forall (fun e : Z * Projectile.t num =>
                    Projectile.active (snd e) = true)
            (GameWorld.projectiles w')
       /\ GameWorld.currentTick w' = (GameWorld.currentTick w + 1)%Z.
Proof.
  intros Hw. split.
  - intros Hsp Hfair.
    assert (Hsp4 : spawnsOn imports
                     (GameWorld.map (beforeRespawns imports w)))
      by (rewrite beforeRespawns_map; exact Hsp).
    destruct (updateRespawnQueue_spec imports TICK_INTERVAL
                (beforeRespawns imports w) p Hsp4 Hfair)
      as (w5 & p5 & extra & Hrun & _ & Hfair5 & _).
    exists (GameWorld.pendingEvents (reloaded w5)), (reloaded w5), p5.
    split; [|exact Hfair5].
    rewrite update_phases. unfold Proc.bind. rewrite Hrun. reflexivity.
  - intros evs w' p' Hupd.
    destruct (beforeRespawns_continues imports w Hw)
      as (Hs & Hn & Ht & Hk & Hact).
    rewrite update_phases in Hupd.
    apply bind_inv in Hupd. destruct Hupd as (w5 & p5 & Hrun & Hret).
    unfold Proc.ret in Hret.
    assert (Hw' : w' = reloaded w5)
      by (apply (f_equal (fun o => match o with
                                   | Some (_, w0, _) => w0
                                   | None => w'
                                   end)) in Hret; symmetry; exact Hret).
    subst w'.
    assert (Hshelf : shelf (reloaded w5) = shelf (beforeRespawns imports w)).
    { rewrite reloaded_shelf.
      apply (updateRespawnQueue_shelf imports _ _ _ _ _ Hrun). }
    pose proof (shelved_shelf _ _ Hshelf Hs) as Hs'.
    unfold shelf in Hshelf. injection Hshelf as Hp' Hn' Ht'.
    split; [exact Hs'|]. rewrite Hp', Hn', Ht'.
    split; [exact Hn|]. split; [exact Hk|]. split; [exact Hact|exact Ht].
Qed.

End ShelfUpdate.

(** A gunner with a shell in flight high above the ground and a command
    to fire queued, in binary64. *)
Definition fireCmd : InputCmd.t F64.float :=
  InputCmd.mk 1 1 false false false false (of_Z 0) (of_Z 0) true false
    (of_Z 0).

Definition highShell : Projectile.t F64.float :=
  Projectile.new 1 1 (Vec3.mk (of_Z 0) (of_Z 50) (of_Z (-20)))
    (Vec3.mk (of_Z 0) (of_Z 0) (of_Z (-80))) PROJECTILE_TTL.

Definition firingWorld : GameWorld.t F64.float :=
  GameWorld.mk 0 0 (fun _ => Player.pushInput fireCmd gunner) 1
    [(1%Z, 0%nat)] [(1%Z, highShell)]
    (generate testImports (of_Z 0)) SpawnManager.new 2 [] [].

Definition afterFiring : GameWorld.t F64.float :=
  match GameWorld.update testImports firingWorld testProc with
  | Some (_, w, _) => w
  | None => firingWorld
  end.

Lemma firingWorld_shelved : shelved firingWorld.
Proof.
  unfold shelved.
  change (GameWorld.projectiles firingWorld) with [(1%Z, highShell)].
  change (GameWorld.nextProjectileId firingWorld) with 2%Z.
  split.
  - apply NoDup_cons; [intros []|apply NoDup_nil].
  - apply Forall_cons; [|apply Forall_nil].
    cbn [fst snd]. split; [reflexivity|reflexivity].
Qed.

Lemma pairWorld_shelved (m : MapGenerator.GameMapData R) :
  shelved (pairWorld m).
Proof. split; [apply NoDup_nil|apply Forall_nil]. Qed.

Lemma update_keeps_projectile_ids_unique_witness :
  (JSMap.keys (GameWorld.projectiles afterFiring) = [1%Z; 2%Z]
   /\ shelved afterFiring
   /\ GameWorld.nextProjectileId afterFiring = 3%Z
   /\ Forall (fun e : Z * Projectile.t F64.float =>
                Projectile.active (snd e) = true)
        (GameWorld.projectiles afterFiring)
   /\ GameWorld.currentTick afterFiring = 1%Z)
  /\ exists evs w' p',
       GameWorld.update RealImports (pairWorld (MapGenerator.generate 42%R))
         zeroProc
       = Some ((evs, w'), p')
       /\ shelved w'
       /\ GameWorld.currentTick w' = 1%Z.
Proof.
  split.
  - destruct (update_keeps_projectile_ids_unique testImports firingWorld
                testProc firingWorld_shelved) as [Hret Hthen].
    destruct (Hret (testImports_spawn _) testProc_fair)
      as (evs & w' & p' & Hupd & _).
    destruct (Hthen evs w' p' Hupd) as (Hs & _ & _ & Hact & Ht).
    assert (Hw : afterFiring = w')
      by (unfold afterFiring; rewrite Hupd; reflexivity).
    rewrite Hw. split; [rewrite <- Hw; vm_compute; reflexivity|].
    split; [exact Hs|]. split; [rewrite <- Hw; vm_compute; reflexivity|].
    split; [exact Hact|exact Ht].
  - destruct (update_keeps_projectile_ids_unique RealImports
                (pairWorld (MapGenerator.generate 42%R)) zeroProc
                (pairWorld_shelved _)) as [Hret Hthen].
    destruct Hret as (evs & w' & p' & Hupd & _).
    + rewrite pairWorld_map. apply RealImports_spawnsOn_generated.
    + exact zeroProc_fair.
    + destruct (Hthen evs w' p' Hupd) as (Hs & _ & _ & _ & Ht).
      exists evs, w', p'. split; [exact Hupd|]. split; [exact Hs|exact Ht].
Defined.

(* ================================================================== *)
(** * Further properties: the AI combatants of a room *)
(* ================================================================== *)

Section KeyFacts.
Context {V : Type}.

Lemma get_set_other (k k' : Z) (v : V) (m : JSMap.t V) :
  k' <> k -> JSMap.get k' (JSMap.set k v m) = JSMap.get k' m.
Proof.
  intros Hne. induction m as [|[k0 v0] m IH]; cbn.
  - destruct (Z.eqb_spec k k'); [congruence|reflexivity].
  - destruct (Z.eqb_spec k0 k) as [->|Hne0]; cbn.
    + destruct (Z.eqb_spec k k'); [congruence|reflexivity].
    + destruct (Z.eqb_spec k0 k'); [reflexivity|exact IH].
Qed.

End KeyFacts.

Section Backfill.
Context {num : Type} `{JSNumber num}.
Variable imports : Imports num.
Local Open Scope num_scope.

(** The ids [c], [c + 1], ..., [c + n - 1]. *)
Fixpoint idsFrom (c : Z) (n : nat) : list Z :=
  match n with
  | O => []
  | S n' => c :: idsFrom (c + 1) n'
  end.

(** The combatant [k] of the room is an AI: the world and the room know
    it under [k], its controller drives the Player object that the world
    has under [k], and this object carries the id [k], the bot mark, and
    is alive. *)
Definition botAt (k : Z) (r : GameRoom.t num) : Prop :=
  exists ref ai,
    JSMap.get k (GameWorld.players (GameRoom.world r)) = Some ref
    /\ JSMap.get k (GameRoom.aiBots r) = Some ai
    /\ AIPlayer.player ai = ref
    /\ (ref < GameWorld.nextRef (GameRoom.world r))%nat
    /\ Player.id (GameWorld.objs (GameRoom.world r) ref) = k
    /\ Player.isBot (GameWorld.objs (GameRoom.world r) ref) = true
    /\ Player.alive (GameWorld.objs (GameRoom.world r) ref) = true.

Lemma idsFrom_In (c : Z) (n : nat) (k : Z) :
  In k (idsFrom c n) <-> (c <= k < c + Z.of_nat n)%Z.
Proof.
  revert c. induction n as [|n IH]; intros c.
  - cbn. lia.
  - cbn [idsFrom In]. rewrite IH. lia.
Qed.

Lemma idsFrom_length (c : Z) (n : nat) : List.length (idsFrom c n) = n.
Proof. revert c. induction n as [|n IH]; intros c; cbn; [|rewrite IH]; easy. Qed.

Lemma create_bot (playerId : Z) (difficulty : string) (p : Proc.t num) :
  fairProc p ->
  exists player ai p',
    AIPlayer.create playerId difficulty p = Some ((player, ai), p')
    /\ fairProc p'
    /\ Player.id player = playerId
    /\ Player.isBot player = true
    /\ forall ref, AIPlayer.player (ai ref) = ref.
Proof.
  intros Hfair.
  unfold AIPlayer.create, AIPlayer.new, Proc.bind, Proc.nextNameIndex,
    Proc.Math_random, Proc.ret.
  cbn. eexists. eexists. eexists. split; [reflexivity|].
  split; [intros n; apply Hfair|]. repeat split.
Qed.

Lemma respawn_isBot (pos : Vec3.t num) (pl pl' : Player.t num)
    (p p' : Proc.t num) :
  Player.respawn pos pl p = Some (pl', p') ->
  Player.isBot pl' = Player.isBot pl.
Proof.
  unfold Player.respawn, Proc.bind, Proc.Math_random, Proc.ret.
  intros Hr. injection Hr as <- _. reflexivity.
Qed.

(** [addPlayer] of the world: the object is stored at the next
    reference, under its id, and respawned. *)
Lemma world_addPlayer_spec (player : Player.t num) (w : GameWorld.t num)
    (p : Proc.t num) :
  spawnsOn imports (GameWorld.map w) -> fairProc p ->
  exists w' p',
    GameWorld.addPlayer imports player w p
    = Some ((GameWorld.nextRef w, w'), p')
    /\ GameWorld.map w' = GameWorld.map w
    /\ fairProc p'
    /\ GameWorld.players w'
       = JSMap.set (Player.id player) (GameWorld.nextRef w)
           (GameWorld.players w)
    /\ GameWorld.nextRef w' = S (GameWorld.nextRef w)
    /\ Player.id (GameWorld.objs w' (GameWorld.nextRef w)) = Player.id player
    /\ Player.isBot (GameWorld.objs w' (GameWorld.nextRef w))
       = Player.isBot player
    /\ Player.alive (GameWorld.objs w' (GameWorld.nextRef w)) = true
    /\ forall ref, ref <> GameWorld.nextRef w ->
                   GameWorld.objs w' ref = GameWorld.objs w ref.
Proof.
  intros Hspawn Hfair. unfold GameWorld.addPlayer. cbv zeta.
  set (w0 := GameWorld.set_players _ _).
  destruct (respawnAtSpawnPoint_spec imports (GameWorld.nextRef w) w0 p
              Hspawn Hfair)
    as (pos & w' & p' & Hre & Hmap & Hfair' & Hpl & _ & _ & Halive & _
        & Hother & Hid).
  unfold Proc.bind at 1. rewrite Hre. unfold Proc.ret.
  exists w', p'. split; [reflexivity|]. split; [exact Hmap|].
  split; [exact Hfair'|]. split; [exact Hpl|].
  assert (Hmore : GameWorld.nextRef w' = S (GameWorld.nextRef w)
                  /\ Player.isBot (GameWorld.objs w' (GameWorld.nextRef w))
                     = Player.isBot player).
  { clear - Hre. unfold GameWorld.respawnAtSpawnPoint in Hre.
    apply bind_inv in Hre. destruct Hre as ([spawnPos sm] & p1 & _ & Hre).
    cbv zeta in Hre.
    apply bind_inv in Hre. destruct Hre as (pl & p2 & Hone & Hre).
    unfold Proc.ret in Hre. injection Hre as _ <- _.
    split; [reflexivity|].
    unfold GameWorld.store. rewrite objs_modify_same.
    rewrite (respawn_isBot _ _ _ _ _ Hone).
    subst w0. unfold GameWorld.store.
    change (GameWorld.objs (GameWorld.set_spawnManager sm ?x)) with
      (GameWorld.objs x).
    cbn [GameWorld.objs GameWorld.set_spawnManager GameWorld.set_players
         GameWorld.set_nextRef].
    now rewrite objs_modify_same. }
  destruct Hmore as [Hnext Hbot].
  split; [exact Hnext|].
  split.
  { destruct (Hid (GameWorld.nextRef w)) as (Hid0 & _). rewrite Hid0.
    subst w0. unfold GameWorld.store.
    cbn [GameWorld.objs GameWorld.set_players GameWorld.set_nextRef].
    now rewrite objs_modify_same. }
  split; [exact Hbot|]. split; [exact Halive|].
  intros ref Hne. rewrite (Hother ref Hne).
  subst w0. unfold GameWorld.store.
  cbn [GameWorld.objs GameWorld.set_players GameWorld.set_nextRef].
  now rewrite objs_modify_other.
Qed.


(** What a step of the backfill leaves alone. *)
Definition untouched (ids : list Z) (r r' : GameRoom.t num) : Prop :=
  (forall k, ~ In k ids ->
             JSMap.get k (GameWorld.players (GameRoom.world r'))
             = JSMap.get k (GameWorld.players (GameRoom.world r)))
  /\ (forall k, ~ In k ids ->
                JSMap.get k (GameRoom.aiBots r') = JSMap.get k (GameRoom.aiBots r))
  /\ (forall ref, (ref < GameWorld.nextRef (GameRoom.world r))%nat ->
                  GameWorld.objs (GameRoom.world r') ref
                  = GameWorld.objs (GameRoom.world r) ref)
  /\ (GameWorld.nextRef (GameRoom.world r)
      <= GameWorld.nextRef (GameRoom.world r'))%nat
  /\ GameRoom.clients r' = GameRoom.clients r
  /\ GameRoom.state r' = GameRoom.state r
  /\ GameRoom.nextPlayerId r' = GameRoom.nextPlayerId r.

Lemma untouched_botAt (ids : list Z) (r r' : GameRoom.t num) (k : Z) :
  untouched ids r r' -> ~ In k ids -> botAt k r -> botAt k r'.
Proof.
  intros (Hpl & Hai & Hobjs & Hnext & _) Hnotin
         (ref & ai & Hget & Hbot & Hdrv & Hlt & Hid & Hmark & Halive).
  exists ref, ai. rewrite (Hpl k Hnotin), (Hai k Hnotin), (Hobjs ref Hlt).
  repeat split; try assumption. lia.
Qed.

Lemma addAIBots_spec (count : nat) (difficulty : string) :
  forall (r : GameRoom.t num) (p : Proc.t num),
    spawnsOn imports (GameWorld.map (GameRoom.world r)) -> fairProc p ->
    (JSMap.size (GameWorld.players (GameRoom.world r)) + count
     <= MAX_PLAYERS)%nat ->
    (forall k, In k (idsFrom (GameRoom.aiIdCounter r) count) ->
               ~ In k (JSMap.keys (GameWorld.players (GameRoom.world r)))) ->
    exists r' p',
      GameRoom.addAIBots imports count difficulty r p = Some (r', p')
      /\ GameWorld.map (GameRoom.world r') = GameWorld.map (GameRoom.world r)
      /\ fairProc p'
      /\ JSMap.keys (GameWorld.players (GameRoom.world r'))
         = JSMap.keys (GameWorld.players (GameRoom.world r))
           ++ idsFrom (GameRoom.aiIdCounter r) count
      /\ GameRoom.aiIdCounter r'
         = (GameRoom.aiIdCounter r + Z.of_nat count)%Z
      /\ (forall k, In k (idsFrom (GameRoom.aiIdCounter r) count) ->
                    botAt k r')
      /\ untouched (idsFrom (GameRoom.aiIdCounter r) count) r r'.
Proof.
  induction count as [|n IH]; intros r p Hspawn Hfair Hroom Hfresh.
  - exists r, p. cbn [GameRoom.addAIBots idsFrom]. unfold Proc.ret.
    split; [reflexivity|]. split; [reflexivity|]. split; [exact Hfair|].
    split; [now rewrite app_nil_r|].
    split; [lia|]. split; [intros k []|]. repeat split; auto.
  - cbn [GameRoom.addAIBots].
    assert (Hleb : (MAX_PLAYERS
                    <=? JSMap.size (GameWorld.players (GameRoom.world r)))%nat
                   = false) by (apply Nat.leb_gt; lia).
    rewrite Hleb. cbv zeta.
    set (c := GameRoom.aiIdCounter r) in *.
    destruct (create_bot c difficulty p Hfair)
      as (player & ai & p1 & Hcreate & Hfair1 & Hid & Hmark & Hdrv).
    rewrite (bind_Some _ _ _ _ _ Hcreate).
    set (r0 := GameRoom.set_aiIdCounter (c + 1)%Z r).
    destruct (world_addPlayer_spec player (GameRoom.world r0) p1 Hspawn
                Hfair1)
      as (w1 & p2 & Hadd & Hmap1 & Hfair2 & Hpl & Hnext & Hid1 & Hmark1
          & Halive1 & Hother).
    rewrite (bind_Some _ _ _ _ _ Hadd). cbv zeta.
    set (ref := GameWorld.nextRef (GameRoom.world r0)) in *.
    set (r1 := GameRoom.set_aiBots _ (GameRoom.set_world w1 r0)).
    change (GameRoom.world r0) with (GameRoom.world r) in *.
    rewrite Hid in Hpl, Hid1. rewrite Hmark in Hmark1.
    assert (Hc : ~ In c (JSMap.keys (GameWorld.players (GameRoom.world r)))).
    { apply Hfresh. cbn [idsFrom]. now left. }
    assert (Hhas : JSMap.has c (GameWorld.players (GameRoom.world r)) = false).
    { unfold JSMap.has. now rewrite (proj2 (get_None_keys _ _) Hc). }
    assert (Hkeys1 : JSMap.keys (GameWorld.players (GameRoom.world r1))
                     = JSMap.keys (GameWorld.players (GameRoom.world r))
                       ++ [c]).
    { change (GameRoom.world r1) with w1. now rewrite Hpl, keys_set, Hhas. }
    assert (Hsize1 : JSMap.size (GameWorld.players (GameRoom.world r1))
                     = S (JSMap.size (GameWorld.players (GameRoom.world r)))).
    { change (GameRoom.world r1) with w1. now rewrite Hpl, size_set, Hhas. }
    destruct (IH r1 p2)
      as (r' & p' & Hrun & Hmap' & Hfair' & Hkeys & Hctr & Hbots & Hun).
    { change (GameRoom.world r1) with w1. rewrite Hmap1. exact Hspawn. }
    { exact Hfair2. }
    { rewrite Hsize1. lia. }
    { change (GameRoom.aiIdCounter r1) with (c + 1)%Z.
      intros k Hin. rewrite Hkeys1. intros Hk.
      apply in_app_or in Hk. destruct Hk as [Hk|[<-|[]]].
      - revert Hk. apply Hfresh. cbn [idsFrom]. now right.
      - apply idsFrom_In in Hin. lia. }
    change (GameRoom.aiIdCounter r1) with (c + 1)%Z in *.
    assert (Hbot1 : botAt c r1).
    { exists ref, (ai ref). change (GameRoom.world r1) with w1.
      rewrite Hpl, get_set_same.
      change (GameRoom.aiBots r1)
        with (JSMap.set c (ai ref) (GameRoom.aiBots r)).
      rewrite get_set_same, Hnext. repeat split; auto. }
    assert (Hun1 : untouched [c] r r1).
    { split; [|split; [|split; [|split]]].
      - intros k Hk. change (GameRoom.world r1) with w1. rewrite Hpl.
        apply get_set_other. intros ->. apply Hk. now left.
      - intros k Hk.
        change (GameRoom.aiBots r1)
          with (JSMap.set c (ai ref) (GameRoom.aiBots r)).
        apply get_set_other. intros ->. apply Hk. now left.
      - intros ref' Hlt. change (GameRoom.world r1) with w1.
        apply Hother. unfold ref. lia.
      - change (GameRoom.world r1) with w1. rewrite Hnext. unfold ref. lia.
      - repeat split. }
    exists r', p'. split; [exact Hrun|].
    split; [rewrite Hmap'; exact Hmap1|]. split; [exact Hfair'|].
    split; [rewrite Hkeys, Hkeys1, <- app_assoc; reflexivity|].
    split; [rewrite Hctr; lia|].
    assert (Hnotin : ~ In c (idsFrom (c + 1) n))
      by (rewrite idsFrom_In; lia).
    split.
    + intros k [<-|Hin]; [|now apply Hbots].
      now apply (untouched_botAt _ r1 r' c Hun).
    + destruct Hun as (Hp' & Ha' & Ho' & Hn' & Hc' & Hs' & Hi').
      destruct Hun1 as (Hp1 & Ha1 & Ho1 & Hn1 & Hc1 & Hs1 & Hi1).
      cbn [idsFrom]. split; [|split; [|split; [|split]]].
      * intros k Hk. rewrite Hp', Hp1; [reflexivity| |];
          intros Hin; apply Hk; [now left; destruct Hin|now right].
      * intros k Hk. rewrite Ha', Ha1; [reflexivity| |];
          intros Hin; apply Hk; [now left; destruct Hin|now right].
      * intros ref' Hlt. rewrite Ho', Ho1; [reflexivity|exact Hlt|lia].
      * lia.
      * repeat split; congruence.
Qed.


(** X26.  [fillWithAIBots] fills the room.  When the spawn selector
    returns on the world's map, [Math.random()] keeps its contract and the
    ids that the room's AI counter gives out next are not in use in the
    world, [fillWithAIBots] returns, and afterwards the world holds the
    combatants it held, in their order, followed by one new combatant for
    each place that was free below MAX_PLAYERS, under the consecutive ids
    from the counter; each of them is an AI: the room has a controller
    for it, which drives the world's Player object of that id, and this
    object carries the bot mark and is alive.  The counter has advanced by
    their number, and the combatants, the controllers, the clients, the
    room state and the human id counter from before are as they were; the
    map is the same and [Math.random()] is still within its contract. *)
Theorem fillWithAIBots_fills_the_room (r : GameRoom.t num) (p : Proc.t num) :
  let missing :=
    (MAX_PLAYERS - JSMap.size (GameWorld.players (GameRoom.world r)))%nat in
  let ids := idsFrom (GameRoom.aiIdCounter r) missing in
  spawnsOn imports (GameWorld.map (GameRoom.world r)) ->
  fairProc p ->
  (forall k, In k ids ->
             ~ In k (JSMap.keys (GameWorld.players (GameRoom.world r)))) ->
  exists r' p',
    GameRoom.fillWithAIBots imports r p = Some (r', p')
    /\ JSMap.keys (GameWorld.players (GameRoom.world r'))
       = JSMap.keys (GameWorld.players (GameRoom.world r)) ++ ids
    /\ (forall k, In k ids -> botAt k r')
    /\ GameRoom.aiIdCounter r'
       = (GameRoom.aiIdCounter r + Z.of_nat missing)%Z
    /\ untouched ids r r'
    /\ GameWorld.map (GameRoom.world r') = GameWorld.map (GameRoom.world r)
    /\ fairProc p'.
Proof.
  cbv zeta. intros Hspawn Hfair Hfresh.
  unfold GameRoom.fillWithAIBots. cbv zeta.
  destruct (Nat.ltb_spec
              (JSMap.size (GameWorld.players (GameRoom.world r))) MAX_PLAYERS)
    as [Hlt|Hge].
  - destruct (addAIBots_spec
                (MAX_PLAYERS
                 - JSMap.size (GameWorld.players (GameRoom.world r)))
                "normal" r p Hspawn Hfair)
      as (r' & p' & Hrun & Hmap & Hfair' & Hkeys & Hctr & Hbots & Hun);
      [lia|exact Hfresh|].
    exists r', p'. repeat (split; [assumption|]). assumption.
  - replace (MAX_PLAYERS
             - JSMap.size (GameWorld.players (GameRoom.world r)))%nat
      with 0%nat by lia.
    exists r, p. cbn [idsFrom]. unfold Proc.ret.
    split; [reflexivity|]. split; [now rewrite app_nil_r|].
    split; [intros k []|]. split; [lia|].
    split; [repeat split; auto|]. split; [reflexivity|exact Hfair].
Qed.

End Backfill.

(** The room of the constructor before its call of [fillWithAIBots], on
    the map [m] and with the collaborators of the repository. *)
Definition emptyRoom (m : MapGenerator.GameMapData R) : GameRoom.t R :=
  GameRoom.mk "room" Warmup
    (GameWorld.mk 0 0 (fun _ => Player.new 0 "") 0 [] [] m SpawnManager.new
       1 [] [])
    [] 0%R false 1 (300 * 1000)%R [] 100 [] 0%R.

Lemma emptyRoom_new (seed : R) :
  GameRoom.new RealImports "room" seed
  = GameRoom.fillWithAIBots RealImports
      (emptyRoom (MapGenerator.generate seed)).
Proof. reflexivity. Qed.

Lemma emptyRoom_facts (m : MapGenerator.GameMapData R) :
  GameWorld.map (GameRoom.world (emptyRoom m)) = m
  /\ JSMap.keys (GameWorld.players (GameRoom.world (emptyRoom m))) = []
  /\ GameRoom.aiIdCounter (emptyRoom m) = 100%Z
  /\ idsFrom (GameRoom.aiIdCounter (emptyRoom m))
       (MAX_PLAYERS
        - JSMap.size (GameWorld.players (GameRoom.world (emptyRoom m))))
     = [100; 101; 102; 103; 104; 105; 106; 107; 108; 109]%Z.
Proof. repeat split. Qed.

Lemma fillWithAIBots_fills_the_room_witness :
  exists r' p',
    GameRoom.fillWithAIBots RealImports
      (emptyRoom (MapGenerator.generate 42%R)) zeroProc
    = Some (r', p')
    /\ JSMap.keys (GameWorld.players (GameRoom.world r'))
       = [100; 101; 102; 103; 104; 105; 106; 107; 108; 109]%Z
    /\ (forall k, In k [100; 101; 102; 103; 104; 105; 106; 107; 108; 109]%Z ->
                  botAt k r')
    /\ GameRoom.aiIdCounter r' = 110%Z.
Proof.
  destruct (emptyRoom_facts (MapGenerator.generate 42%R))
    as (Hmap & Hkeys0 & Hctr0 & Hids).
  destruct (fillWithAIBots_fills_the_room RealImports
              (emptyRoom (MapGenerator.generate 42%R)) zeroProc)
    as (r' & p' & Hrun & Hkeys & Hbots & Hctr & _).
  - rewrite Hmap. apply RealImports_spawnsOn_generated.
  - exact zeroProc_fair.
  - rewrite Hkeys0. intros k _ [].
  - exists r', p'. split; [exact Hrun|].
    rewrite Hkeys0, Hids in Hkeys. rewrite Hids in Hbots.
    split; [exact Hkeys|]. split; [exact Hbots|].
    rewrite Hctr, Hctr0. reflexivity.
Defined.

Section DeleteFacts.
Context {V : Type}.

Lemma keys_delete (k : Z) (m : JSMap.t V) :
  JSMap.keys (JSMap.delete k m)
  = filter (fun k' => negb (k' =? k)%Z) (JSMap.keys m).
Proof.
  unfold JSMap.keys, JSMap.delete.
  induction m as [|[k0 v0] m IH]; [reflexivity|].
  cbn [filter List.map fst]. destruct (negb (k0 =? k)%Z); cbn [List.map fst];
    now rewrite IH.
Qed.

Lemma In_keys_delete (k k' : Z) (m : JSMap.t V) :
  In k' (JSMap.keys (JSMap.delete k m)) <-> In k' (JSMap.keys m) /\ k' <> k.
Proof.
  rewrite keys_delete, filter_In, negb_true_iff, Z.eqb_neq. reflexivity.
Qed.

Lemma wellKeyed_delete (k : Z) (m : JSMap.t V) :
  wellKeyed m -> wellKeyed (JSMap.delete k m).
Proof. unfold wellKeyed. rewrite keys_delete. apply NoDup_filter. Qed.

Lemma size_delete_present (k : Z) (m : JSMap.t V) :
  wellKeyed m -> In k (JSMap.keys m) ->
  S (JSMap.size (JSMap.delete k m)) = JSMap.size m.
Proof.
  unfold wellKeyed, JSMap.size.
  induction m as [|[k0 v0] m IH]; intros Hnd Hin; [destruct Hin|].
  cbn [JSMap.keys List.map fst] in Hnd, Hin.
  inversion Hnd as [|? ? Hnotin Hnd']; subst.
  cbn [JSMap.delete filter fst List.length].
  destruct (Z.eqb_spec k0 k) as [->|Hne]; cbn [negb List.length].
  - change (filter _ m) with (JSMap.delete k m).
    now rewrite (delete_absent k m Hnotin).
  - f_equal. apply IH; [exact Hnd'|].
    destruct Hin as [Heq|Hin]; [contradiction|exact Hin].
Qed.

Lemma wellKeyed_set_fresh (k : Z) (v : V) (m : JSMap.t V) :
  wellKeyed m -> ~ In k (JSMap.keys m) -> wellKeyed (JSMap.set k v m).
Proof.
  unfold wellKeyed. intros Hnd Hfresh. rewrite keys_set.
  unfold JSMap.has. rewrite (proj2 (get_None_keys k m) Hfresh).
  apply NoDup_app; [exact Hnd|repeat constructor; intros []|].
  intros k' Hk' [<-|[]]. contradiction.
Qed.

Lemma In_keys_get (k : Z) (m : JSMap.t V) :
  In k (JSMap.keys m) <-> JSMap.get k m <> None.
Proof.
  pose proof (get_None_keys k m) as Hiff.
  destruct (JSMap.get k m) as [v|].
  - split; [discriminate|]. intros _.
    destruct (in_dec Z.eq_dec k (JSMap.keys m)) as [Hin|Hnotin];
      [exact Hin|]. apply Hiff in Hnotin. discriminate Hnotin.
  - split; [|congruence]. intros Hin _. now apply (proj1 Hiff).
Qed.

End DeleteFacts.

Section Population.
Context {num : Type} `{JSNumber num}.
Variable imports : Imports num.
Local Open Scope num_scope.

(** The ids of a room are in order: the world holds a combatant once;
    every AI controller of the room has its combatant in the world; the
    ids in use are below the human id counter, or from 100 and below the
    AI id counter; and the human id counter has not passed 100, where
    the AI ids begin. *)
Definition orderly (r : GameRoom.t num) : Prop :=
  wellKeyed (GameWorld.players (GameRoom.world r))
  /\ (forall k, In k (JSMap.keys (GameRoom.aiBots r)) ->
                In k (JSMap.keys (GameWorld.players (GameRoom.world r))))
  /\ (forall k, In k (JSMap.keys (GameWorld.players (GameRoom.world r))) ->
                (k < GameRoom.nextPlayerId r)%Z
                \/ (100 <= k < GameRoom.aiIdCounter r)%Z)
  /\ (GameRoom.nextPlayerId r <= 100)%Z
  /\ (100 <= GameRoom.aiIdCounter r)%Z.

(** The room is full: its ids are in order and the world holds
    MAX_PLAYERS combatants. *)
Definition staffed (r : GameRoom.t num) : Prop :=
  orderly r
  /\ JSMap.size (GameWorld.players (GameRoom.world r)) = MAX_PLAYERS.

Lemma idsFrom_NoDup (c : Z) (n : nat) : NoDup (idsFrom c n).
Proof.
  revert c. induction n as [|n IH]; intros c; cbn [idsFrom]; constructor.
  - rewrite idsFrom_In. lia.
  - apply IH.
Qed.

(** The backfill of a room that is not over-full fills it. *)
Lemma fillWithAIBots_staffed (r : GameRoom.t num) (p : Proc.t num) :
  spawnsOn imports (GameWorld.map (GameRoom.world r)) -> fairProc p ->
  orderly r ->
  (JSMap.size (GameWorld.players (GameRoom.world r)) <= MAX_PLAYERS)%nat ->
  exists r' p',
    GameRoom.fillWithAIBots imports r p = Some (r', p')
    /\ staffed r'
    /\ GameRoom.nextPlayerId r' = GameRoom.nextPlayerId r
    /\ GameWorld.map (GameRoom.world r') = GameWorld.map (GameRoom.world r)
    /\ fairProc p'.
Proof.
  intros Hspawn Hfair (Hwk & Hsub & Hrange & Hhum & Hai) Hsize.
  unfold GameRoom.fillWithAIBots. cbv zeta.
  destruct (Nat.ltb_spec
              (JSMap.size (GameWorld.players (GameRoom.world r))) MAX_PLAYERS)
    as [Hlt|Hge].
  - set (n := (MAX_PLAYERS
               - JSMap.size (GameWorld.players (GameRoom.world r)))%nat).
    assert (Hfresh : forall k,
               In k (idsFrom (GameRoom.aiIdCounter r) n) ->
               ~ In k (JSMap.keys (GameWorld.players (GameRoom.world r)))).
    { intros k Hin Hk. apply idsFrom_In in Hin.
      destruct (Hrange k Hk); lia. }
    destruct (addAIBots_spec imports n "normal" r p Hspawn Hfair)
      as (r' & p' & Hrun & Hmap' & Hfair' & Hkeys & Hctr & Hbots & Hun);
      [unfold n; lia|exact Hfresh|].
    destruct Hun as (Hp' & Ha' & _ & _ & _ & _ & Hi').
    exists r', p'. split; [exact Hrun|].
    split; [|split; [exact Hi'|split; [exact Hmap'|exact Hfair']]].
    split; [split; [|split; [|split; [|split]]]|].
    + unfold wellKeyed. rewrite Hkeys.
      apply NoDup_app; [exact Hwk|apply idsFrom_NoDup|].
      intros k Hk Hin. now apply (Hfresh k Hin).
    + intros k Hk. rewrite Hkeys. apply in_or_app.
      destruct (in_dec Z.eq_dec k (idsFrom (GameRoom.aiIdCounter r) n))
        as [Hin|Hnotin]; [now right|left].
      apply Hsub. apply In_keys_get. rewrite <- (Ha' k Hnotin).
      now apply In_keys_get.
    + intros k Hk. rewrite Hkeys in Hk. rewrite Hi', Hctr.
      apply in_app_or in Hk. destruct Hk as [Hk|Hk].
      * destruct (Hrange k Hk); [now left|right; lia].
      * apply idsFrom_In in Hk. right. lia.
    + now rewrite Hi'.
    + rewrite Hctr. lia.
    + unfold JSMap.size. rewrite <- (length_map fst).
      change (List.map fst (GameWorld.players (GameRoom.world r')))
        with (JSMap.keys (GameWorld.players (GameRoom.world r'))).
      rewrite Hkeys, length_app, idsFrom_length.
      unfold JSMap.keys. rewrite length_map.
      unfold n, JSMap.size in *. lia.
  - exists r, p. unfold Proc.ret. split; [reflexivity|].
    split; [|split; [reflexivity|split; [reflexivity|exact Hfair]]].
    split; [now repeat split|lia].
Qed.


Lemma startRound_ids (r : GameRoom.t num) :
  GameWorld.players (GameRoom.world (GameRoom.startRound r))
  = GameWorld.players (GameRoom.world r)
  /\ GameRoom.aiBots (GameRoom.startRound r) = GameRoom.aiBots r
  /\ GameRoom.nextPlayerId (GameRoom.startRound r) = GameRoom.nextPlayerId r
  /\ GameRoom.aiIdCounter (GameRoom.startRound r) = GameRoom.aiIdCounter r.
Proof.
  unfold GameRoom.startRound. cbv zeta.
  split; [|repeat split].
  cbn [GameRoom.world GameRoom.startTickLoop GameRoom.set_tickTimer
       GameRoom.set_world GameRoom.set_roundTimer GameRoom.set_state].
  apply (fold_left_invariant
           (fun w => GameWorld.players w
                     = GameWorld.players (GameRoom.world r)));
    [|reflexivity].
  intros w ref Hw. exact Hw.
Qed.

Lemma startRound_map (r : GameRoom.t num) :
  GameWorld.map (GameRoom.world (GameRoom.startRound r))
  = GameWorld.map (GameRoom.world r).
Proof.
  unfold GameRoom.startRound. cbv zeta.
  cbn [GameRoom.world GameRoom.startTickLoop GameRoom.set_tickTimer
       GameRoom.set_world GameRoom.set_roundTimer GameRoom.set_state].
  apply fold_map. reflexivity.
Qed.

(** The part of [addPlayer] after the capacity test: the new combatant
    takes the next human id. *)
Lemma join_spec (nickname : string) (now : num) (r : GameRoom.t num)
    (p : Proc.t num) :
  spawnsOn imports (GameWorld.map (GameRoom.world r)) -> fairProc p ->
  exists ref r' p',
    GameRoom.join imports nickname now r p = Some ((Some ref, r'), p')
    /\ GameWorld.map (GameRoom.world r') = GameWorld.map (GameRoom.world r)
    /\ fairProc p'
    /\ GameWorld.players (GameRoom.world r')
       = JSMap.set (GameRoom.nextPlayerId r)
           (GameWorld.nextRef (GameRoom.world r))
           (GameWorld.players (GameRoom.world r))
    /\ GameRoom.aiBots r' = GameRoom.aiBots r
    /\ GameRoom.nextPlayerId r' = (GameRoom.nextPlayerId r + 1)%Z
    /\ GameRoom.aiIdCounter r' = GameRoom.aiIdCounter r.
Proof.
  intros Hspawn Hfair. unfold GameRoom.join. cbv zeta.
  match goal with
  | |- context [GameWorld.addPlayer imports ?pl ?w0] =>
      destruct (world_addPlayer_returns imports pl w0 p Hspawn Hfair)
        as (w' & p' & Hadd & Hpl & Hmap & Hfair')
  end.
  rewrite (bind_Some _ _ _ _ _ Hadd). unfold Proc.ret.
  eexists. eexists. eexists. split; [reflexivity|].
  match goal with
  | |- context [match ?s with Warmup => _ | _ => _ end] =>
      destruct s
  end;
    try (split; [exact Hmap|split; [exact Hfair'|
           split; [exact Hpl|repeat split]]]).
  match goal with
  | |- context [if ?c then _ else _] => destruct c
  end; [|split; [exact Hmap|split; [exact Hfair'|
           split; [exact Hpl|repeat split]]]].
  match goal with
  | |- context [GameRoom.startRound ?r0] =>
      destruct (startRound_ids r0) as (Hp & Ha & Hn & Hc);
      pose proof (startRound_map r0) as Hm
  end.
  rewrite Hp, Ha, Hn, Hc, Hm.
  split; [exact Hmap|split; [exact Hfair'|split; [exact Hpl|repeat split]]].
Qed.


(** The room is full and the spawn selector serves it: the selector
    returns on the world's map. *)
Definition served (r : GameRoom.t num) : Prop :=
  staffed r /\ spawnsOn imports (GameWorld.map (GameRoom.world r)).

(** X27.  A room stays full.  While [Math.random()] keeps its contract:
    a new room, made for a seed on whose map the spawn selector returns,
    is full and served: the world holds MAX_PLAYERS combatants, each
    once, the ids are in order, with the human id counter at 1, and the
    selector returns on the world's map.  In a full and served room, a
    join request made while the human id counter is below 100 returns and
    leaves the room full and served, whether the request was admitted in
    the place of an AI or rejected; and the removal of a combatant that is
    not one of the room's AI returns and leaves the room full and served,
    a new AI taking the place.  [Math.random()] is within its contract
    afterwards. *)
Theorem room_stays_full :
  (forall (id : string) (mapSeed : num) (p : Proc.t num),
      spawnsOn imports (generate imports mapSeed) -> fairProc p ->
      exists r p',
        GameRoom.new imports id mapSeed p = Some (r, p')
        /\ served r /\ GameRoom.nextPlayerId r = 1%Z /\ fairProc p')
  /\ (forall (r : GameRoom.t num) (p : Proc.t num) (nickname : string)
             (now : num),
         served r -> fairProc p -> (GameRoom.nextPlayerId r < 100)%Z ->
         exists res r' p',
           GameRoom.addPlayer imports nickname now r p = Some ((res, r'), p')
           /\ served r'
           /\ GameRoom.nextPlayerId r'
              = match res with
                | Some _ => (GameRoom.nextPlayerId r + 1)%Z
                | None => GameRoom.nextPlayerId r
                end
           /\ fairProc p')
  /\ (forall (r : GameRoom.t num) (p : Proc.t num) (playerId : Z),
         served r -> fairProc p ->
         ~ In playerId (JSMap.keys (GameRoom.aiBots r)) ->
         exists r' p',
           GameRoom.removePlayer imports playerId r p = Some (r', p')
           /\ served r'
           /\ GameRoom.nextPlayerId r' = GameRoom.nextPlayerId r
           /\ fairProc p').
Proof.
  split; [|split].
  - intros id mapSeed p Hspawn Hfair. unfold GameRoom.new.
    match goal with
    | |- context [GameRoom.fillWithAIBots imports ?r0 p] =>
        destruct (fillWithAIBots_staffed r0 p Hspawn Hfair)
          as (r' & p' & Hrun & Hst & Hn & Hmap & Hfair')
    end.
    + split; [apply NoDup_nil|]. split; [intros k []|].
      split; [intros k []|]. cbn [GameRoom.nextPlayerId GameRoom.aiIdCounter].
      lia.
    + cbn. lia.
    + exists r', p'. split; [exact Hrun|].
      split; [split; [exact Hst|rewrite Hmap; exact Hspawn]|].
      split; [exact Hn|exact Hfair'].
  - intros r p nickname now [Hst Hspawn] Hfair Hlt.
    pose proof Hst as [(Hwk & Hsub & Hrange & Hhum & Hai) Hsize].
    unfold GameRoom.addPlayer. rewrite Hsize, Nat.leb_refl.
    case_eq (JSMap.keys (GameRoom.aiBots r));
      [intros Hbots|intros first others Hbots].
    { exists None, r, p. unfold Proc.ret. split; [reflexivity|].
      split; [split; [exact Hst|exact Hspawn]|].
      split; [reflexivity|exact Hfair]. }
    assert (Hfirst : In first
                       (JSMap.keys (GameWorld.players (GameRoom.world r)))).
    { apply Hsub. rewrite Hbots. now left. }
    destruct (join_spec nickname now (GameRoom.removeAIBot first r) p
                Hspawn Hfair)
      as (ref & r' & p' & Hrun & Hmap' & Hfair' & Hpl & Hbots' & Hn & Hc).
    destruct (removeAIBot_maps first r) as (Ha1 & Hp1 & _).
    rewrite Hp1 in Hpl. rewrite Ha1 in Hbots'.
    change (GameWorld.map (GameRoom.world (GameRoom.removeAIBot first r)))
      with (GameWorld.map (GameRoom.world r)) in Hmap'.
    change (GameRoom.nextPlayerId (GameRoom.removeAIBot first r))
      with (GameRoom.nextPlayerId r) in *.
    change (GameRoom.aiIdCounter (GameRoom.removeAIBot first r))
      with (GameRoom.aiIdCounter r) in *.
    set (rest := JSMap.delete first (GameWorld.players (GameRoom.world r)))
      in *.
    assert (Hfresh : ~ In (GameRoom.nextPlayerId r) (JSMap.keys rest)).
    { intros Hk. apply In_keys_delete in Hk. destruct Hk as [Hk _].
      destruct (Hrange _ Hk); lia. }
    assert (Hhas : JSMap.has (GameRoom.nextPlayerId r) rest = false).
    { unfold JSMap.has. now rewrite (proj2 (get_None_keys _ _) Hfresh). }
    exists (Some ref), r', p'. split; [exact Hrun|].
    split; [|split; [exact Hn|exact Hfair']].
    split; [|rewrite Hmap'; exact Hspawn].
    split; [split; [|split; [|split; [|split]]]|].
    + rewrite Hpl. apply wellKeyed_set_fresh; [|exact Hfresh].
      now apply wellKeyed_delete.
    + intros k Hk. rewrite Hbots' in Hk. apply In_keys_delete in Hk.
      destruct Hk as [Hk Hne]. rewrite Hpl, keys_set, Hhas.
      apply in_or_app. left. apply In_keys_delete. split; [now apply Hsub|].
      exact Hne.
    + intros k Hk. rewrite Hpl, keys_set, Hhas in Hk. rewrite Hn, Hc.
      apply in_app_or in Hk. destruct Hk as [Hk|[<-|[]]]; [|left; lia].
      apply In_keys_delete in Hk. destruct Hk as [Hk _].
      destruct (Hrange k Hk); [left; lia|now right].
    + rewrite Hn. lia.
    + now rewrite Hc.
    + rewrite Hpl, size_set, Hhas.
      unfold rest. rewrite (size_delete_present first _ Hwk Hfirst).
      exact Hsize.
  - intros r p playerId [[(Hwk & Hsub & Hrange & Hhum & Hai) Hsize] Hspawn]
           Hfair Hnotbot.
    unfold GameRoom.removePlayer. cbv zeta.
    match goal with
    | |- context [GameRoom.fillWithAIBots imports ?r0 p] => set (r2 := r0)
    end.
    assert (Hfacts :
              GameWorld.players (GameRoom.world r2)
              = JSMap.delete playerId (GameWorld.players (GameRoom.world r))
              /\ GameRoom.aiBots r2 = GameRoom.aiBots r
              /\ GameRoom.nextPlayerId r2 = GameRoom.nextPlayerId r
              /\ GameRoom.aiIdCounter r2 = GameRoom.aiIdCounter r
              /\ GameWorld.map (GameRoom.world r2)
                 = GameWorld.map (GameRoom.world r)).
    { subst r2.
      repeat match goal with
             | |- context [if ?c then _ else _] => destruct c
             | |- context [match ?s with Warmup => _ | _ => _ end] =>
                 destruct s
             end; repeat split. }
    destruct Hfacts as (Hp2 & Ha2 & Hn2 & Hc2 & Hm2).
    assert (Hspawn2 : spawnsOn imports (GameWorld.map (GameRoom.world r2)))
      by (rewrite Hm2; exact Hspawn).
    destruct (fillWithAIBots_staffed r2 p Hspawn2 Hfair)
      as (r' & p' & Hrun & Hst & Hn & Hmap' & Hfair').
    + split; [rewrite Hp2; now apply wellKeyed_delete|].
      rewrite Hp2, Ha2, Hn2, Hc2.
      split.
      { intros k Hk. apply In_keys_delete. split; [now apply Hsub|].
        intros ->. contradiction. }
      split; [|auto].
      intros k Hk. apply In_keys_delete in Hk. now apply Hrange.
    + rewrite Hp2. unfold JSMap.size, JSMap.delete.
      etransitivity; [apply filter_length_le|].
      unfold JSMap.size in Hsize. lia.
    + exists r', p'. split; [exact Hrun|].
      split; [split; [exact Hst|rewrite Hmap'; exact Hspawn2]|].
      split; [now rewrite Hn|exact Hfair'].
Qed.

End Population.

Lemma room_stays_full_witness :
  exists r p1 res r' p2,
    GameRoom.new RealImports "room" 42%R zeroProc = Some (r, p1)
    /\ staffed r
    /\ GameRoom.addPlayer RealImports "Kim" 0%R r p1 = Some ((res, r'), p2)
    /\ staffed r'.
Proof.
  destruct (room_stays_full RealImports) as (Hnew & Hjoin & _).
  destruct (Hnew "room"%string 42%R zeroProc
              (RealImports_spawnsOn_generated _) zeroProc_fair)
    as (r & p1 & Hrun & Hsv & Hn & Hfair1).
  destruct (Hjoin r p1 "Kim"%string 0%R Hsv Hfair1)
    as (res & r' & p2 & Hadd & Hsv' & _).
  - rewrite Hn. lia.
  - exists r, p1, res, r', p2. split; [exact Hrun|].
    split; [exact (proj1 Hsv)|]. split; [exact Hadd|exact (proj1 Hsv')].
Defined.

(* ================================================================== *)
(** * Further properties: the terrain normal *)
(* ================================================================== *)

Section NormalDef.
Context {num : Type} `{JSNumber num}.
Local Open Scope num_scope.
Import MapGenerator.

(** [MapGenerator.getNormalAt]. *)
Definition getNormalAt (map : GameMapData num) (x z : num) : Vec3.t num :=
  let step := width map / of_Z (resolution map) in
  let hL := getHeightAt map (x - step) z in
  let hR := getHeightAt map (x + step) z in
  let hD := getHeightAt map x (z - step) in
  let hU := getHeightAt map x (z + step) in
  let normal := Vec3.mk (hL - hR) (#2 * step) (hD - hU) in
  Vec3.normalize normal.

End NormalDef.

Section NormalFacts.
Local Open Scope R_scope.
Import MapGenerator.

(** A vector with a positive height, normalised. *)
Lemma normalize_upward (a s b : R) :
  0 < s ->
  let n := Vec3.normalize (Vec3.mk a (2 * s) b) in
  let len := sqrt (a * a + 2 * s * (2 * s) + b * b) in
  0 < len
  /\ Vec3.x n = a / len /\ Vec3.y n = 2 * s / len /\ Vec3.z n = b / len.
Proof.
  intros Hs. cbv zeta.
  assert (Hlen : 0 < sqrt (a * a + 2 * s * (2 * s) + b * b)).
  { apply sqrt_lt_R0. nra. }
  split; [exact Hlen|].
  unfold Vec3.normalize. cbv zeta.
  change (nltb (of_Z 0) (Vec3.length (Vec3.mk a (2 * s) b)))
    with (Rltb 0 (sqrt (a * a + 2 * s * (2 * s) + b * b))).
  rewrite (proj2 (Rltb_true _ _) Hlen).
  unfold Vec3.multiplyScalar.
  change (Vec3.length (Vec3.mk a (2 * s) b))
    with (sqrt (a * a + 2 * s * (2 * s) + b * b)).
  cbn [Vec3.x Vec3.y Vec3.z].
  change (@ndiv R RNumber) with Rdiv. change (@nmul R RNumber) with Rmult.
  change (@of_Z R RNumber 1) with 1.
  repeat split; field; lra.
Qed.

(** X28.  The terrain normal.  On a map whose grid step
    [width / resolution] is positive, [getNormalAt] returns a vector of
    length 1 that points upwards; it leans to the side of the lower
    neighbour: its x component has the sign of the height one step to
    the left minus the height one step to the right, and likewise its z
    component; and where the four neighbouring heights are equal it is
    the vertical (0, 1, 0). *)
Theorem getNormalAt_unit_upward (map : GameMapData R) (x z : R) :
  let step := width map / IZR (resolution map) in
  let hL := getHeightAt map (x - step) z in
  let hR := getHeightAt map (x + step) z in
  let hD := getHeightAt map x (z - step) in
  let hU := getHeightAt map x (z + step) in
  let n := getNormalAt map x z in
  0 < step ->
  Vec3.length n = 1
  /\ 0 < Vec3.y n
  /\ (0 < Vec3.x n <-> hR < hL) /\ (Vec3.x n < 0 <-> hL < hR)
  /\ (0 < Vec3.z n <-> hU < hD) /\ (Vec3.z n < 0 <-> hD < hU)
  /\ (hL = hR -> hD = hU -> n = Vec3.mk 0 1 0).
Proof.
  cbv zeta. intros Hstep.
  unfold getNormalAt. cbv zeta.
  change (@ndiv R RNumber (width map) (of_Z (resolution map)))
    with (width map / IZR (resolution map)).
  set (s := width map / IZR (resolution map)) in *.
  change (@nsub R RNumber) with Rminus. change (@nadd R RNumber) with Rplus.
  change (@nmul R RNumber) with Rmult. change (@of_Z R RNumber 2) with 2.
  set (a := getHeightAt map (x - s) z - getHeightAt map (x + s) z).
  set (b := getHeightAt map x (z - s) - getHeightAt map x (z + s)).
  destruct (normalize_upward a s b Hstep) as (Hlen & Hx & Hy & Hz).
  set (len := sqrt (a * a + 2 * s * (2 * s) + b * b)) in *.
  assert (Hinv : 0 < / len) by now apply Rinv_0_lt_compat.
  split.
  { apply normalize_length.
    change (Vec3.length (Vec3.mk a (2 * s) b)) with len. exact Hlen. }
  rewrite Hx, Hy, Hz. unfold Rdiv.
  split; [nra|].
  split; [unfold a; split; intros; nra|].
  split; [unfold a; split; intros; nra|].
  split; [unfold b; split; intros; nra|].
  split; [unfold b; split; intros; nra|].
  intros Hab Hcd.
  assert (Ha : a = 0) by (unfold a; lra).
  assert (Hb : b = 0) by (unfold b; lra).
  assert (Hl : len = 2 * s).
  { unfold len. rewrite Ha, Hb.
    replace (0 * 0 + 2 * s * (2 * s) + 0 * 0) with ((2 * s) * (2 * s)) by ring.
    apply sqrt_square. lra. }
  destruct (Vec3.normalize (Vec3.mk a (2 * s) b)) as [nx ny nz].
  cbn [Vec3.x Vec3.y Vec3.z] in Hx, Hy, Hz.
  rewrite Hx, Hy, Hz, Ha, Hb, Hl. f_equal; field; lra.
Qed.

End NormalFacts.

(** A slope of the grid of 2 by 2: height 0 along the left edge, 8 along
    the right edge. *)
Definition ramp : MapGenerator.GameMapData R :=
  MapGenerator.mkMap 400%R 400%R [0; 8; 0; 8]%R 2 [] [] 0%R.

Lemma getNormalAt_unit_upward_witness :
  Vec3.length (getNormalAt ramp 0%R 0%R) = 1%R
  /\ (0 < Vec3.y (getNormalAt ramp 0%R 0%R))%R.
Proof.
  destruct (getNormalAt_unit_upward ramp 0%R 0%R) as (Hlen & Hup & _).
  - cbn. lra.
  - split; [exact Hlen|exact Hup].
Defined.

(* ================================================================== *)
(** * Further properties: the scoreboard *)
(* ================================================================== *)

Section Ranking.

(** The kills do not increase along the list. *)
Fixpoint ranked (l : list PlayerScore.t) : Prop :=
  match l with
  | [] => True
  | e :: l' =>
      Forall (fun x => (PlayerScore.kills x <= PlayerScore.kills e)%nat) l'
      /\ ranked l'
  end.

(** The entries of a list with [k] kills, in their order. *)
Definition withKills (k : nat) (l : list PlayerScore.t)
  : list PlayerScore.t :=
  filter (fun s => (PlayerScore.kills s =? k)%nat) l.

Lemma insertByKills_In (e x : PlayerScore.t) (l : list PlayerScore.t) :
  In x (insertByKills e l) <-> x = e \/ In x l.
Proof.
  induction l as [|e' l IH]; cbn [insertByKills].
  - cbn. intuition.
  - destruct (_ <? _)%nat; cbn [In]; [intuition|]. rewrite IH. intuition.
Qed.

Lemma insertByKills_ranked (e : PlayerScore.t) (l : list PlayerScore.t) :
  ranked l -> ranked (insertByKills e l).
Proof.
  induction l as [|e' l IH]; intros Hl.
  - cbn. auto.
  - cbn [insertByKills]. destruct Hl as [Hall Hl'].
    destruct (Nat.ltb_spec (PlayerScore.kills e') (PlayerScore.kills e))
      as [Hlt|Hge].
    + cbn [ranked]. split; [|split; assumption].
      constructor; [lia|].
      apply Forall_forall. intros x Hx.
      pose proof (proj1 (Forall_forall _ _) Hall x Hx). cbn beta in *. lia.
    + cbn [ranked]. split; [|now apply IH].
      apply Forall_forall. intros x Hx.
      apply insertByKills_In in Hx. destruct Hx as [->|Hx]; [exact Hge|].
      apply (proj1 (Forall_forall _ _) Hall x Hx).
Qed.

(** An insertion puts the new entry behind the entries of as many
    kills. *)
Lemma insertByKills_withKills (k : nat) (e : PlayerScore.t)
    (l : list PlayerScore.t) :
  ranked l ->
  withKills k (insertByKills e l) = withKills k l ++ withKills k [e].
Proof.
  unfold withKills. induction l as [|e' l IH]; intros Hl; [reflexivity|].
  cbn [insertByKills]. destruct Hl as [Hall Hl'].
  destruct (Nat.ltb_spec (PlayerScore.kills e') (PlayerScore.kills e))
    as [Hlt|Hge].
  - cbn [filter].
    destruct (Nat.eqb_spec (PlayerScore.kills e) k) as [Hk|Hk].
    + destruct (Nat.eqb_spec (PlayerScore.kills e') k) as [Hk'|Hk']; [lia|].
      rewrite filter_none; [reflexivity|].
      intros y Hy. pose proof (proj1 (Forall_forall _ _) Hall y Hy) as Hle.
      cbn beta in Hle. apply Nat.eqb_neq. lia.
    + now rewrite app_nil_r.
  - cbn [filter] in *. rewrite (IH Hl').
    now destruct (PlayerScore.kills e' =? k)%nat.
Qed.

Lemma sortByKills_spec (l : list PlayerScore.t) :
  ranked (sortByKills l)
  /\ forall k, withKills k (sortByKills l) = withKills k l.
Proof.
  unfold sortByKills.
  assert (Hgen : forall acc,
             ranked acc ->
             ranked (fold_left (fun sorted e => insertByKills e sorted) l acc)
             /\ forall k,
                  withKills k
                    (fold_left (fun sorted e => insertByKills e sorted) l acc)
                  = withKills k acc ++ withKills k l).
  { induction l as [|e l IH]; intros acc Hacc.
    - cbn [fold_left]. split; [exact Hacc|]. intros k.
      unfold withKills. cbn [filter]. now rewrite app_nil_r.
    - cbn [fold_left].
      destruct (IH (insertByKills e acc) (insertByKills_ranked e acc Hacc))
        as [Hr Hw].
      split; [exact Hr|]. intros k.
      rewrite Hw, (insertByKills_withKills k e acc Hacc), <- app_assoc.
      f_equal. unfold withKills. cbn [filter].
      now destruct (PlayerScore.kills e =? k)%nat. }
  destruct (Hgen [] I) as [Hr Hw]. split; [exact Hr|exact Hw].
Qed.

Lemma insertByKills_length (e : PlayerScore.t) (l : list PlayerScore.t) :
  List.length (insertByKills e l) = S (List.length l).
Proof.
  induction l as [|e' l IH]; [reflexivity|].
  cbn [insertByKills]. destruct (_ <? _)%nat; [reflexivity|].
  cbn [List.length]. now rewrite IH.
Qed.

Lemma sortByKills_length (l : list PlayerScore.t) :
  List.length (sortByKills l) = List.length l.
Proof.
  unfold sortByKills.
  assert (Hgen : forall acc,
             List.length
               (fold_left (fun sorted e => insertByKills e sorted) l acc)
             = (List.length acc + List.length l)%nat).
  { induction l as [|e l IH]; intros acc; cbn [fold_left List.length];
      [lia|]. rewrite IH, insertByKills_length. lia. }
  apply Hgen.
Qed.

End Ranking.

(** X29.  The scoreboard.  [getScoreboard] lists one score for each
    combatant of the world, made by [toScore] from its Player object;
    along the list the kills never increase; and the sort is stable: for
    every number of kills, the combatants with that many kills stand in
    the scoreboard in the order in which the world's map of players
    holds them.  So the scoreboard is the list of the scores rearranged,
    nothing lost and nothing added. *)
Theorem getScoreboard_ranked_and_stable {num : Type} `{JSNumber num}
    (r : GameRoom.t num) :
  let scores :=
    List.map (fun ref => toScore (GameWorld.objs (GameRoom.world r) ref))
      (GameWorld.playerRefs (GameRoom.world r)) in
  ranked (getScoreboard r)
  /\ (forall k, withKills k (getScoreboard r) = withKills k scores)
  /\ List.length (getScoreboard r)
     = JSMap.size (GameWorld.players (GameRoom.world r))
  /\ (forall i a b,
        nth_error (getScoreboard r) i = Some a ->
        nth_error (getScoreboard r) (S i) = Some b ->
        (PlayerScore.kills b <= PlayerScore.kills a)%nat).
Proof.
  cbv zeta. unfold getScoreboard.
  set (scores := List.map _ _).
  destruct (sortByKills_spec scores) as [Hr Hw].
  split; [exact Hr|]. split; [exact Hw|]. split.
  - rewrite sortByKills_length. unfold scores.
    rewrite length_map. unfold GameWorld.playerRefs, JSMap.values, JSMap.size.
    apply length_map.
  - revert Hr. generalize (sortByKills scores). clear.
    intros l. induction l as [|e l IH]; intros Hr i a b Ha Hb.
    + destruct i; discriminate Ha.
    + destruct Hr as [Hall Hr]. destruct i as [|i].
      * cbn in Ha, Hb. injection Ha as <-.
        destruct l as [|e' l]; [discriminate Hb|]. cbn in Hb.
        injection Hb as <-. inversion Hall; subst. assumption.
      * cbn [nth_error] in Ha. apply (IH Hr i a b Ha Hb).
Qed.

(* ================================================================== *)
(** * Further properties: snapshots *)
(* ================================================================== *)

(** [SNAPSHOT_INTERVAL = TICK_RATE / SNAPSHOT_RATE], the exact quotient
    60 / 20, as the number of ticks that the code uses it as. *)
Definition SNAPSHOT_RATE : Z := 20.
Definition SNAPSHOT_INTERVAL : Z := 60 / SNAPSHOT_RATE.

Module TankSnapshot.
Section Def.
Context {num : Type}.

Record t : Type := mk {
  entityId : Z;
  position : Vec3.t num;
  bodyYaw : num;
  turretYaw : num;
  gunPitch : num;
  velocity : Vec3.t num;
  hp : num;
  alive : bool;
  reloadRemain : num;
  kills : nat;
  deaths : nat;
  nickname : string;
  isBot : bool
}.

End Def.
Arguments t : clear implicits.
End TankSnapshot.

Module ProjectileSnapshot.
Section Def.
Context {num : Type}.

Record t : Type := mk {
  projectileId : Z;
  position : Vec3.t num;
  velocity : Vec3.t num;
  ttl : num
}.

End Def.
Arguments t : clear implicits.
End ProjectileSnapshot.

(** A [SnapshotMessage]; its [type] is the constant
    [MessageType.Snapshot]. *)
Module SnapshotMessage.
Section Def.
Context {num : Type}.

Record t : Type := mk {
  serverTick : Z;
  snapshotId : Z;
  timestamp : num;
  lastProcessedSeq : Z;
  tanks : list (TankSnapshot.t num);
  projectiles : list (ProjectileSnapshot.t num);
  playerCount : nat;
  humanCount : nat
}.

End Def.
Arguments t : clear implicits.
End SnapshotMessage.

Section Snapshots.
Context {num : Type} `{JSNumber num}.

(** [Player.toSnapshot]. *)
Definition Player_toSnapshot (p : Player.t num) : TankSnapshot.t num :=
  TankSnapshot.mk (Player.id p) (Player.position p) (Player.bodyYaw p)
    (Player.turretYaw p) (Player.gunPitch p) (Player.velocity p)
    (Player.hp p) (Player.alive p) (Player.reloadRemain p) (Player.kills p)
    (Player.deaths p) (Player.nickname p) (Player.isBot p).

(** [Projectile.toSnapshot]. *)
Definition Projectile_toSnapshot (p : Projectile.t num)
  : ProjectileSnapshot.t num :=
  ProjectileSnapshot.mk (Projectile.id p) (Projectile.position p)
    (Projectile.velocity p) (Projectile.ttl p).

(** [GameWorld.getSnapshot]; [now] is [Date.now()]. *)
Definition getSnapshot (forPlayerId : Z) (now : num) (w : GameWorld.t num)
  : SnapshotMessage.t num :=
  let player := JSMap.get forPlayerId (GameWorld.players w) in
  let allPlayers := List.map (GameWorld.objs w) (GameWorld.playerRefs w) in
  SnapshotMessage.mk
    (GameWorld.currentTick w)
    (GameWorld.snapshotId w)
    now
    (match player with
     | Some ref => Player.lastProcessedSeq (GameWorld.objs w ref)
     | None => 0%Z
     end)
    (List.map Player_toSnapshot allPlayers)
    (List.map Projectile_toSnapshot
       (filter Projectile.active (JSMap.values (GameWorld.projectiles w))))
    (List.length allPlayers)
    (List.length (filter (fun p => negb (Player.isBot p)) allPlayers)).

(** [GameWorld.shouldSendSnapshot]. *)
Definition shouldSendSnapshot (w : GameWorld.t num) : bool :=
  (Z.rem (GameWorld.currentTick w) SNAPSHOT_INTERVAL =? 0)%Z.

Lemma filter_all {A} (f : A -> bool) (l : list A) :
  Forall (fun a => f a = true) l -> filter f l = l.
Proof.
  induction 1 as [|a l Ha _ IH]; [reflexivity|].
  cbn [filter]. now rewrite Ha, IH.
Qed.

(** In a world whose projectiles are all in flight and stored under
    their ids, a snapshot lists the projectiles of the map. *)
Lemma getSnapshot_projectiles (forPlayerId : Z) (now : num)
    (w : GameWorld.t num) :
  shelved w ->
  Forall (fun e : Z * Projectile.t num => Projectile.active (snd e) = true)
    (GameWorld.projectiles w) ->
  SnapshotMessage.projectiles (getSnapshot forPlayerId now w)
  = List.map (fun e => Projectile_toSnapshot (snd e)) (GameWorld.projectiles w)
  /\ List.map (@ProjectileSnapshot.projectileId num)
       (SnapshotMessage.projectiles (getSnapshot forPlayerId now w))
     = JSMap.keys (GameWorld.projectiles w).
Proof.
  intros [_ Hall] Hact.
  unfold getSnapshot. cbv zeta. cbn [SnapshotMessage.projectiles].
  unfold JSMap.values, JSMap.keys.
  rewrite filter_all.
  - rewrite !map_map. split; [reflexivity|].
    apply map_ext_in. intros e He.
    destruct (proj1 (Forall_forall _ _) Hall e He) as [Hid _].
    cbn [Projectile_toSnapshot ProjectileSnapshot.projectileId]. now symmetry.
  - apply Forall_forall. intros pr Hpr. apply in_map_iff in Hpr.
    destruct Hpr as (e & <- & He).
    apply (proj1 (Forall_forall _ _) Hact e He).
Qed.

End Snapshots.

Section SnapshotTick.
Context {num : Type} `{JSNumber num}.
Variable imports : Imports num.

(** X30.  The snapshot after a tick.  In a world where every projectile
    is stored once, under its own id and below the id counter: [update]
    returns when the spawn selector returns on the world's map and
    [Math.random()] keeps its contract; and whenever [update] returns, of
    the world after it: [shouldSendSnapshot] holds exactly when the new
    tick number is a multiple of 3; and a snapshot for any player carries
    the new tick number, lists every projectile of the world's map once,
    in the order of the map and with distinct ids, none being left out as
    inactive, has one tank per combatant, [playerCount] being their
    number, and counts in [humanCount] the combatants without the bot
    mark, so that [humanCount] and the number of bots add up to
    [playerCount]. *)
Theorem snapshot_after_tick_lists_every_projectile_once
    (w : GameWorld.t num) (p : Proc.t num) :
  shelved w ->
  (spawnsOn imports (GameWorld.map w) -> fairProc p ->
   exists evs w' p',
     GameWorld.update imports w p = Some ((evs, w'), p') /\ fairProc p')
  /\ forall evs w' p',
       GameWorld.update imports w p = Some ((evs, w'), p') ->
       (shouldSendSnapshot w' = true
        <-> exists q, (GameWorld.currentTick w + 1 = 3 * q)%Z)
       /\ forall (forPlayerId : Z) (now : num),
            let s := getSnapshot forPlayerId now w' in
            SnapshotMessage.serverTick s = (GameWorld.currentTick w + 1)%Z
            /\ SnapshotMessage.projectiles s
               = List.map (fun e => Projectile_toSnapshot (snd e))
                   (GameWorld.projectiles w')
            /\ List.map (@ProjectileSnapshot.projectileId num)
                 (SnapshotMessage.projectiles s)
               = JSMap.keys (GameWorld.projectiles w')
            /\ NoDup (List.map (@ProjectileSnapshot.projectileId num)
                        (SnapshotMessage.projectiles s))
            /\ List.map (@TankSnapshot.entityId num) (SnapshotMessage.tanks s)
               = List.map (fun ref => Player.id (GameWorld.objs w' ref))
                   (GameWorld.playerRefs w')
            /\ SnapshotMessage.playerCount s
               = JSMap.size (GameWorld.players w')
            /\ (SnapshotMessage.humanCount s
                + List.length
                    (filter (@TankSnapshot.isBot num)
                       (SnapshotMessage.tanks s))
                = SnapshotMessage.playerCount s)%nat.
Proof.
  intros Hw. split.
  { intros Hsp Hfair.
    assert (Hsp4 : spawnsOn imports
                     (GameWorld.map (beforeRespawns imports w)))
      by (rewrite beforeRespawns_map; exact Hsp).
    destruct (updateRespawnQueue_spec imports TICK_INTERVAL
                (beforeRespawns imports w) p Hsp4 Hfair)
      as (w5 & p5 & extra & Hrun & _ & Hfair5 & _).
    exists (GameWorld.pendingEvents (reloaded w5)), (reloaded w5), p5.
    split; [|exact Hfair5].
    rewrite update_phases. unfold Proc.bind. rewrite Hrun. reflexivity. }
  intros evs w1 p' Hupd.
  destruct (beforeRespawns_continues imports w Hw)
    as (Hs & Hn & Ht & Hk & Hact).
  rewrite update_phases in Hupd.
  apply bind_inv in Hupd. destruct Hupd as (w5 & p5 & Hrun & Hret).
  unfold Proc.ret in Hret.
  assert (Hw1 : w1 = reloaded w5)
    by (apply (f_equal (fun o => match o with
                                 | Some (_, w0, _) => w0
                                 | None => w1
                                 end)) in Hret; symmetry; exact Hret).
  subst w1. clear Hret.
  assert (Hshelf : shelf (reloaded w5) = shelf (beforeRespawns imports w)).
  { rewrite reloaded_shelf.
    apply (updateRespawnQueue_shelf imports _ _ _ _ _ Hrun). }
  pose proof (shelved_shelf _ _ Hshelf Hs) as Hs'.
  set (w' := reloaded w5) in *.
  assert (Hp' : GameWorld.projectiles w'
                = GameWorld.projectiles (beforeRespawns imports w))
    by exact (f_equal (fun s => fst (fst s)) Hshelf).
  assert (Ht' : GameWorld.currentTick w' = (GameWorld.currentTick w + 1)%Z)
    by (rewrite <- Ht; exact (f_equal snd Hshelf)).
  split.
  { unfold shouldSendSnapshot. rewrite Ht', Z.eqb_eq.
    change SNAPSHOT_INTERVAL with 3%Z.
    rewrite Z.rem_divide by lia. unfold Z.divide.
    split; intros [q Hq]; exists q; lia. }
  intros forPlayerId now. cbv zeta.
  assert (Hact' : Forall (fun e : Z * Projectile.t num =>
                            Projectile.active (snd e) = true)
                    (GameWorld.projectiles w')) by now rewrite Hp'.
  destruct (getSnapshot_projectiles forPlayerId now w' Hs' Hact')
    as [Hlist Hids].
  split; [exact Ht'|]. split; [exact Hlist|]. split; [exact Hids|].
  split; [rewrite Hids; apply Hs'|].
  unfold getSnapshot. cbv zeta.
  cbn [SnapshotMessage.tanks SnapshotMessage.playerCount
       SnapshotMessage.humanCount].
  split; [now rewrite !map_map|].
  split.
  { rewrite length_map. unfold GameWorld.playerRefs, JSMap.values, JSMap.size.
    apply length_map. }
  generalize (List.map (GameWorld.objs w') (GameWorld.playerRefs w')).
  intros l. induction l as [|pl l IH]; [reflexivity|].
  cbn [filter List.map List.length Player_toSnapshot TankSnapshot.isBot] in *.
  destruct (Player.isBot pl); cbn [negb List.length]; lia.
Qed.

End SnapshotTick.

Lemma snapshot_after_tick_lists_every_projectile_once_witness :
  (forall (forPlayerId : Z) (now : F64.float),
      SnapshotMessage.serverTick (getSnapshot forPlayerId now afterFiring)
      = 1%Z
      /\ List.map (@ProjectileSnapshot.projectileId F64.float)
           (SnapshotMessage.projectiles
              (getSnapshot forPlayerId now afterFiring))
         = [1%Z; 2%Z]
      /\ NoDup (List.map (@ProjectileSnapshot.projectileId F64.float)
                  (SnapshotMessage.projectiles
                     (getSnapshot forPlayerId now afterFiring))))
  /\ exists evs w' p',
       GameWorld.update RealImports (pairWorld (MapGenerator.generate 42%R))
         zeroProc
       = Some ((evs, w'), p')
       /\ shouldSendSnapshot w' = false
       /\ forall (forPlayerId : Z) (now : R),
            SnapshotMessage.serverTick (getSnapshot forPlayerId now w') = 1%Z
            /\ SnapshotMessage.playerCount (getSnapshot forPlayerId now w')
               = JSMap.size (GameWorld.players w').
Proof.
  split.
  - destruct (snapshot_after_tick_lists_every_projectile_once testImports
                firingWorld testProc firingWorld_shelved) as [Hret Hthen].
    destruct (Hret (testImports_spawn _) testProc_fair)
      as (evs & w' & p' & Hupd & _).
    destruct (Hthen evs w' p' Hupd) as (_ & Hsnap).
    assert (Hw : afterFiring = w')
      by (unfold afterFiring; rewrite Hupd; reflexivity).
    assert (Hkeys : JSMap.keys (GameWorld.projectiles afterFiring)
                    = [1%Z; 2%Z]) by (vm_compute; reflexivity).
    rewrite Hw in *. intros forPlayerId now.
    destruct (Hsnap forPlayerId now) as (Htick & _ & Hids & Hnd & _).
    split; [exact Htick|]. split; [rewrite Hids; exact Hkeys|exact Hnd].
  - destruct (snapshot_after_tick_lists_every_projectile_once RealImports
                (pairWorld (MapGenerator.generate 42%R)) zeroProc
                (pairWorld_shelved _)) as [Hret Hthen].
    destruct Hret as (evs & w' & p' & Hupd & _).
    + rewrite pairWorld_map. apply RealImports_spawnsOn_generated.
    + exact zeroProc_fair.
    + destruct (Hthen evs w' p' Hupd) as (Hsend & Hsnap).
      exists evs, w', p'. split; [exact Hupd|]. split.
      * destruct (shouldSendSnapshot w') eqn:E; [|reflexivity].
        destruct (proj1 Hsend eq_refl) as [q Hq].
        change (GameWorld.currentTick (pairWorld (MapGenerator.generate 42%R)))
          with 0%Z in Hq. lia.
      * intros forPlayerId now.
        destruct (Hsnap forPlayerId now) as (Htick & _ & _ & _ & _ & Hcount & _).
        split; [exact Htick|exact Hcount].
Defined.
